(** * Batch document generator (docmaker web server): verification development

    A shallow embedding of the job registry, the row resolver, the template
    placeholder extractor, the PDF conversion chain, the generate-job runner
    and the email dispatcher of [server.js], with the properties of its
    design description settled against the code.

    Conventions of the embedding.
    - A JavaScript string is a [string]: a sequence of characters up to
      U+00FF, each one the character of its code (ISO 8859-1).  Texts with
      other characters are outside this development.  On these texts
      [trim], [toLowerCase] and the regular-expression class [\s] are the
      functions of the language: white space is TAB, LF, VT, FF, CR, SPACE
      and the no-break space U+00A0; the letters with a lower-case form
      are [A-Z], U+00C0 to U+00D6 and U+00D8 to U+00DE, whose lower-case
      form lies 32 further.
    - A [Buffer] is a [list Byte.byte].
    - [Map] and [Set] objects whose iteration order the code relies on are
      association lists; the others are [gmap] and [gset].
    - External capabilities (the office converters, the browser, the mail
      transport, the clock, the platform) are fields of a record of
      capabilities; what the code logs and sends is collected in a [World]. *)

From Stdlib Require Import ZArith Ascii String.
From Stdlib.Strings Require Import Byte.
From stdpp Require Import gmap strings list sorting pretty.

Local Open Scope string_scope.

(* ===================================================================== *)
(** ** JavaScript string primitives used by the server                    *)
(* ===================================================================== *)

Module JS.

(** The class [\s] and the characters removed by [String.prototype.trim]:
    U+0009 to U+000D, U+0020 and U+00A0. *)
Definition isWhiteSpace (c : ascii) : bool := Ascii.is_space c || Ascii.eqb c "160".

(** [String.prototype.toLowerCase] on one character: [A-Z], U+00C0 to
    U+00D6 and U+00D8 to U+00DE have a lower-case form (U+00D7 is the
    multiplication sign). *)
Definition toLowerChar (c : ascii) : ascii :=
  let n := nat_of_ascii c in
  if ((65 <=? n)%nat && (n <=? 90)%nat)
     || ((192 <=? n)%nat && (n <=? 214)%nat)
     || ((216 <=? n)%nat && (n <=? 222)%nat)
  then ascii_of_nat (n + 32) else c.

Fixpoint toLowerCase (s : string) : string :=
  match s with
  | EmptyString => EmptyString
  | String c r => String (toLowerChar c) (toLowerCase r)
  end.

Fixpoint trimStart (s : string) : string :=
  match s with
  | EmptyString => EmptyString
  | String c r => if isWhiteSpace c then trimStart r else s
  end.

Fixpoint trimEnd (s : string) : string :=
  match s with
  | EmptyString => EmptyString
  | String c r =>
      match trimEnd r with
      | EmptyString => if isWhiteSpace c then EmptyString else String c EmptyString
      | r' => String c r'
      end
  end.

Definition trim (s : string) : string := trimEnd (trimStart s).

(** Truthiness of a string: [""] is falsy. *)
Definition truthy (s : string) : bool := negb (String.eqb s "").

Fixpoint startsWith (p s : string) : bool :=
  match p, s with
  | EmptyString, _ => true
  | String a p', String b s' => Ascii.eqb a b && startsWith p' s'
  | String _ _, EmptyString => false
  end.

Fixpoint drop (n : nat) (s : string) : string :=
  match n, s with
  | O, _ => s
  | S n', String _ r => drop n' r
  | S _, EmptyString => EmptyString
  end.

Fixpoint take (n : nat) (s : string) : string :=
  match n, s with
  | O, _ => EmptyString
  | S n', String c r => String c (take n' r)
  | S _, EmptyString => EmptyString
  end.

Definition endsWith (p s : string) : bool :=
  (String.length p <=? String.length s)%nat
  && String.eqb (drop (String.length s - String.length p) s) p.

(** [Array.prototype.join]. *)
Fixpoint join (sep : string) (l : list string) : string :=
  match l with
  | [] => ""
  | [x] => x
  | x :: rest => x +:+ sep +:+ join sep rest
  end.

(** A global [String.prototype.replace] with a pattern that never matches
    the empty string.  [matchAt s] tries the pattern at the start of [s]
    and answers the length of the match and its replacement.  The scan
    goes left to right; after a match it resumes behind the match.  The
    counter [skip] is the number of characters of the current match that
    are still to be passed over. *)
Fixpoint replaceFrom (matchAt : string -> option (nat * string))
    (skip : nat) (s : string) : string :=
  match s with
  | EmptyString => EmptyString
  | String c r =>
      match skip with
      | S k => replaceFrom matchAt k r
      | O =>
          match matchAt s with
          | Some (n, repl) => repl +:+ replaceFrom matchAt (Nat.pred n) r
          | None => String c (replaceFrom matchAt 0 r)
          end
      end
  end.

Definition replaceAll (matchAt : string -> option (nat * string)) (s : string) : string :=
  replaceFrom matchAt 0 s.

(** The loop [while ((m = regex.exec(s)) !== null)] of a global pattern
    that never matches the empty string: the capture of every match, left
    to right.  [matchAt] answers the length of the match and its capture. *)
Fixpoint execFrom (matchAt : string -> option (nat * string))
    (skip : nat) (s : string) : list string :=
  match s with
  | EmptyString => []
  | String c r =>
      match skip with
      | S k => execFrom matchAt k r
      | O =>
          match matchAt s with
          | Some (n, cap) => cap :: execFrom matchAt (Nat.pred n) r
          | None => execFrom matchAt 0 r
          end
      end
  end.

Definition execAll (matchAt : string -> option (nat * string)) (s : string) : list string :=
  execFrom matchAt 0 s.

(** The longest prefix of [s] whose characters satisfy [p], and its length. *)
Fixpoint spanLength (p : ascii -> bool) (s : string) : nat :=
  match s with
  | String c r => if p c then S (spanLength p r) else O
  | EmptyString => O
  end.

End JS.

(* ===================================================================== *)
(** ** Job registry: [createJob], [pauseJob], [resumeJob] and the routes   *)
(* ===================================================================== *)

Definition Buffer := list Byte.byte.

Inductive JobType := Generate | Send.

Inductive JobStatus := Running | Paused | Done | Error.

Global Instance JobStatus_eq_dec : EqDecision JobStatus.
Proof. solve_decision. Defined.

(** [job.result] of a generate job; an archive is the list of its named
    files. *)
Record GenerateResult := {
  docxZipBuffer : list (string * Buffer);
  pdfZipBuffer : option (list (string * Buffer));
  pdfGenerated : bool;
}.

(** The job object.  [pausePromise] and [resume] are [null] or set; the
    registry only looks at which of the two they are. *)
Module Job.
Record t := {
  id : string;
  type : JobType;
  status : JobStatus;
  total : nat;
  current : nat;
  message : string;
  error : string;
  emailTotal : Z;
  emailSent : Z;
  emailFailed : Z;
  paused : bool;
  pausePromise : bool;
  resume : bool;
  result : option GenerateResult;
  createdAt : Z;
  updatedAt : Z;
}.

Definition set_status (st : JobStatus) (j : t) : t :=
  {| id := id j; type := type j; status := st; total := total j;
     current := current j; message := message j; error := error j;
     emailTotal := emailTotal j; emailSent := emailSent j;
     emailFailed := emailFailed j; paused := paused j;
     pausePromise := pausePromise j; resume := resume j; result := result j;
     createdAt := createdAt j; updatedAt := updatedAt j |}.

Definition set_paused (b : bool) (j : t) : t :=
  {| id := id j; type := type j; status := status j; total := total j;
     current := current j; message := message j; error := error j;
     emailTotal := emailTotal j; emailSent := emailSent j;
     emailFailed := emailFailed j; paused := b;
     pausePromise := pausePromise j; resume := resume j; result := result j;
     createdAt := createdAt j; updatedAt := updatedAt j |}.

Definition set_signal (promise resolver : bool) (j : t) : t :=
  {| id := id j; type := type j; status := status j; total := total j;
     current := current j; message := message j; error := error j;
     emailTotal := emailTotal j; emailSent := emailSent j;
     emailFailed := emailFailed j; paused := paused j;
     pausePromise := promise; resume := resolver; result := result j;
     createdAt := createdAt j; updatedAt := updatedAt j |}.

Definition set_total (n : nat) (j : t) : t :=
  {| id := id j; type := type j; status := status j; total := n;
     current := current j; message := message j; error := error j;
     emailTotal := emailTotal j; emailSent := emailSent j;
     emailFailed := emailFailed j; paused := paused j;
     pausePromise := pausePromise j; resume := resume j; result := result j;
     createdAt := createdAt j; updatedAt := updatedAt j |}.

Definition set_current (n : nat) (j : t) : t :=
  {| id := id j; type := type j; status := status j; total := total j;
     current := n; message := message j; error := error j;
     emailTotal := emailTotal j; emailSent := emailSent j;
     emailFailed := emailFailed j; paused := paused j;
     pausePromise := pausePromise j; resume := resume j; result := result j;
     createdAt := createdAt j; updatedAt := updatedAt j |}.

Definition set_message (msg : string) (j : t) : t :=
  {| id := id j; type := type j; status := status j; total := total j;
     current := current j; message := msg; error := error j;
     emailTotal := emailTotal j; emailSent := emailSent j;
     emailFailed := emailFailed j; paused := paused j;
     pausePromise := pausePromise j; resume := resume j; result := result j;
     createdAt := createdAt j; updatedAt := updatedAt j |}.

Definition set_error (msg : string) (j : t) : t :=
  {| id := id j; type := type j; status := status j; total := total j;
     current := current j; message := message j; error := msg;
     emailTotal := emailTotal j; emailSent := emailSent j;
     emailFailed := emailFailed j; paused := paused j;
     pausePromise := pausePromise j; resume := resume j; result := result j;
     createdAt := createdAt j; updatedAt := updatedAt j |}.

Definition set_result (r : option GenerateResult) (j : t) : t :=
  {| id := id j; type := type j; status := status j; total := total j;
     current := current j; message := message j; error := error j;
     emailTotal := emailTotal j; emailSent := emailSent j;
     emailFailed := emailFailed j; paused := paused j;
     pausePromise := pausePromise j; resume := resume j; result := r;
     createdAt := createdAt j; updatedAt := updatedAt j |}.

Definition set_updatedAt (now : Z) (j : t) : t :=
  {| id := id j; type := type j; status := status j; total := total j;
     current := current j; message := message j; error := error j;
     emailTotal := emailTotal j; emailSent := emailSent j;
     emailFailed := emailFailed j; paused := paused j;
     pausePromise := pausePromise j; resume := resume j; result := result j;
     createdAt := createdAt j; updatedAt := now |}.
End Job.

(** [touchJob]: [job.updatedAt = Date.now()]. *)
Definition touchJob (now : Z) (job : Job.t) : Job.t := Job.set_updatedAt now job.

Definition createJob (newId : string) (ty : JobType) (now : Z) : Job.t :=
  {| Job.id := newId; Job.type := ty; Job.status := Running; Job.total := 0;
     Job.current := 0; Job.message := ""; Job.error := ""; Job.emailTotal := 0;
     Job.emailSent := 0; Job.emailFailed := 0; Job.paused := false;
     Job.pausePromise := false; Job.resume := false; Job.result := None;
     Job.createdAt := now; Job.updatedAt := now |}.

(** [pauseJob]: only a running job is paused; the suspension signal is armed
    when it is not armed yet. *)
Definition pauseJob (now : Z) (job : Job.t) : Job.t :=
  if decide (Job.status job = Running) then
    let j1 := Job.set_status Paused (Job.set_paused true job) in
    let j2 := if Job.pausePromise j1 then j1 else Job.set_signal true true j1 in
    touchJob now j2
  else job.

(** [resumeJob]: guarded by the [paused] flag, not by the status. *)
Definition resumeJob (now : Z) (job : Job.t) : Job.t :=
  if Job.paused job then
    touchJob now
      (Job.set_signal false false (Job.set_status Running (Job.set_paused false job)))
  else job.

(** The reply of a route: HTTP code and JSON body. *)
Inductive ReplyBody :=
  | ErrorBody (msg : string)
  | StatusBody (st : JobStatus).

Record Reply := { code : nat; body : ReplyBody }.

Definition isTerminal (st : JobStatus) : bool :=
  match st with Done | Error => true | _ => false end.

(** [app.post("/jobs/:id/pause")] over the global map [jobs]. *)
Definition postPause (jobId : string) (now : Z) (jobs : gmap string Job.t)
  : gmap string Job.t * Reply :=
  match jobs !! jobId with
  | None => (jobs, {| code := 404; body := ErrorBody "Job nao encontrado." |})
  | Some job =>
      if isTerminal (Job.status job) then
        (jobs, {| code := 200; body := StatusBody (Job.status job) |})
      else
        let job' := pauseJob now job in
        (<[jobId := job']> jobs, {| code := 200; body := StatusBody (Job.status job') |})
  end.

(** [app.post("/jobs/:id/resume")]. *)
Definition postResume (jobId : string) (now : Z) (jobs : gmap string Job.t)
  : gmap string Job.t * Reply :=
  match jobs !! jobId with
  | None => (jobs, {| code := 404; body := ErrorBody "Job nao encontrado." |})
  | Some job =>
      if isTerminal (Job.status job) then
        (jobs, {| code := 200; body := StatusBody (Job.status job) |})
      else
        let job' := resumeJob now job in
        (<[jobId := job']> jobs, {| code := 200; body := StatusBody (Job.status job') |})
  end.

(** A pause or resume request: the job id and the time it arrives. *)
Inductive Request :=
  | PauseRequest (jobId : string) (now : Z)
  | ResumeRequest (jobId : string) (now : Z).

Definition handle (jobs : gmap string Job.t) (r : Request) : gmap string Job.t :=
  match r with
  | PauseRequest i now => fst (postPause i now jobs)
  | ResumeRequest i now => fst (postResume i now jobs)
  end.

Definition handleAll (jobs : gmap string Job.t) (rs : list Request) : gmap string Job.t :=
  foldl handle jobs rs.

(* ===================================================================== *)
(** ** Row resolver: [getRowValue], [sanitizeCellValue], [resolveRowValues] *)
(* ===================================================================== *)

(** A cell of a row: [null] or [undefined], a string, or a value of another
    type (number, boolean, date) carried with the text [String(value)]
    gives for it. *)
Inductive CellValue :=
  | CellNull
  | CellString (s : string)
  | CellOther (shown : string).

(** A row object: its own properties in the order of [Object.keys]. *)
Definition Row := list (string * CellValue).

Fixpoint ownProperty (row : Row) (name : string) : option CellValue :=
  match row with
  | [] => None
  | (k, v) :: rest => if String.eqb k name then Some v else ownProperty rest name
  end.

(** The double quote character (code 34). *)
Definition doubleQuote : ascii := "034"%char.

Fixpoint removeChar (c : ascii) (s : string) : string :=
  match s with
  | EmptyString => EmptyString
  | String a r => if Ascii.eqb a c then removeChar c r else String a (removeChar c r)
  end.

(** [sanitizeCellValue]: [rawValue ?? ""], double quotes removed from a
    string, then [String(value)]. *)
Definition sanitizeCellValue (rawValue : CellValue) : string :=
  match rawValue with
  | CellNull => ""
  | CellString s => removeChar doubleQuote s
  | CellOther shown => shown
  end.

(** The sanitizer as the design describes it (its words, not the code):
    line-break variants collapsed, control characters removed, the result
    trimmed and cut to [maxLength] when one is given.  On 8-bit text the
    normalisation of the encoding form changes nothing. *)
Fixpoint collapseLineBreaks (s : string) : string :=
  match s with
  | String "013"%char (String "010"%char r) => String "010"%char (collapseLineBreaks r)
  | String c r => String c (collapseLineBreaks r)
  | EmptyString => EmptyString
  end.

Definition isControlChar (c : ascii) : bool :=
  let n := nat_of_ascii c in
  (n <=? 8)%nat || (n =? 11)%nat || (n =? 12)%nat
  || ((14 <=? n)%nat && (n <=? 31)%nat) || (n =? 127)%nat.

Fixpoint stripControlChars (s : string) : string :=
  match s with
  | String c r => if isControlChar c then stripControlChars r else String c (stripControlChars r)
  | EmptyString => EmptyString
  end.

Definition sanitizeAsDescribed (maxLength : option nat) (s : string) : string :=
  let cleaned := JS.trim (stripControlChars (collapseLineBreaks s)) in
  match maxLength with
  | Some n => if (n <? String.length cleaned)%nat then JS.take n cleaned else cleaned
  | None => cleaned
  end.

(** [getRowValue]: the own property named exactly [columnName], else the
    first key equal to it after trimming and lower-casing both. *)
Definition getRowValue (row : Row) (columnName : string) : CellValue :=
  if negb (JS.truthy columnName) then CellString ""
  else
    match ownProperty row columnName with
    | Some v => v
    | None =>
        let target := JS.toLowerCase (JS.trim columnName) in
        if negb (JS.truthy target) then CellString ""
        else
          match List.find (fun k => String.eqb (JS.toLowerCase (JS.trim k)) target)
                          (map fst row) with
          | Some key =>
              if JS.truthy key then default CellNull (ownProperty row key)
              else CellString ""
          | None => CellString ""
          end
    end.

(** The header [k] matches the column [name] when both are equal after
    trimming and lower-casing. *)
Definition headerMatches (name k : string) : Prop :=
  JS.toLowerCase (JS.trim k) = JS.toLowerCase (JS.trim name).

Module MappingEntry.
Record t := {
  placeholder : string;
  column : string;
  prefix : string;
  group : string;
}.
End MappingEntry.

Module Item.
Record t := {
  index : nat;
  key : string;
  value : string;
  trimmed : string;
  hasValue : bool;
  prefix : string;
  group : string;
}.

Definition set_hasValue (b : bool) (it : t) : t :=
  {| index := index it; key := key it; value := value it;
     trimmed := trimmed it; hasValue := b; prefix := prefix it;
     group := group it |}.
End Item.

Definition LIST_SEPARATOR : string := ", ".
Definition LIST_CONJUNCTION : string := "e".

(** [/^\s/.test(prefix)]. *)
Definition startsWithWhiteSpace (s : string) : bool :=
  match s with
  | String c _ => JS.isWhiteSpace c
  | EmptyString => false
  end.

Definition buildListPrefix (basePrefix : string) (position total : nat) : string :=
  let prefix := basePrefix in
  if (total <=? 1)%nat || (position =? 0)%nat then prefix
  else if (position =? total - 1)%nat then
    let needsSpaceAfter :=
      if JS.truthy prefix && negb (startsWithWhiteSpace prefix) then " " else "" in
    " " +:+ LIST_CONJUNCTION +:+ needsSpaceAfter +:+ prefix
  else LIST_SEPARATOR +:+ prefix.

(** [String(item.placeholder || "").replace(/^\{\{|\}\}$/g, "")]. *)
Definition placeholderKey (p : string) : string :=
  let s1 := if JS.startsWith "{{" p then JS.drop 2 p else p in
  if JS.endsWith "}}" s1 then JS.take (String.length s1 - 2) s1 else s1.

(** The callback of [mapping.map((item, index) => ...)]. *)
Definition makeItem (row : Row) (index : nat) (item : MappingEntry.t) : Item.t :=
  let value := sanitizeCellValue (getRowValue row (MappingEntry.column item)) in
  let trimmed := JS.trim value in
  {| Item.index := index;
     Item.key := placeholderKey (MappingEntry.placeholder item);
     Item.value := value;
     Item.trimmed := trimmed;
     Item.hasValue := negb (String.eqb trimmed "");
     Item.prefix := MappingEntry.prefix item;
     Item.group :=
       if JS.truthy (MappingEntry.group item) then JS.trim (MappingEntry.group item)
       else "" |}.

Definition makeItems (mapping : list MappingEntry.t) (row : Row) : list Item.t :=
  imap (makeItem row) mapping.

(** One step of the first [items.forEach]: the item is looked up in the set
    of values seen for its group and loses [hasValue] when it repeats one. *)
Definition markSeen (seenByGroup : gmap string (gset string)) (item : Item.t)
  : gmap string (gset string) * Item.t :=
  if negb (JS.truthy (Item.group item)) || negb (Item.hasValue item)
  then (seenByGroup, item)
  else
    let normalized := JS.toLowerCase (Item.trimmed item) in
    let seen1 :=
      match seenByGroup !! Item.group item with
      | Some _ => seenByGroup
      | None => <[Item.group item := ∅]> seenByGroup
      end in
    let groupSet := default ∅ (seen1 !! Item.group item) in
    if decide (normalized ∈ groupSet)
    then (seen1, Item.set_hasValue false item)
    else (<[Item.group item := {[normalized]} ∪ groupSet]> seen1, item).

Fixpoint dedupFrom (seenByGroup : gmap string (gset string)) (items : list Item.t)
  : list Item.t :=
  match items with
  | [] => []
  | item :: rest =>
      let '(seen', item') := markSeen seenByGroup item in
      item' :: dedupFrom seen' rest
  end.

Definition dedupItems (items : list Item.t) : list Item.t := dedupFrom ∅ items.

(** The [Map] [groups]: group tag to the items of the group, in the order
    the tags were first met. *)
Fixpoint groupsPush (groups : list (string * list Item.t)) (item : Item.t)
  : list (string * list Item.t) :=
  match groups with
  | [] => [(Item.group item, [item])]
  | (g, l) :: rest =>
      if String.eqb g (Item.group item) then (g, (l ++ [item])%list) :: rest
      else (g, l) :: groupsPush rest item
  end.

Definition buildGroups (items : list Item.t) : list (string * list Item.t) :=
  foldl (fun groups item =>
           if JS.truthy (Item.group item) then groupsPush groups item else groups)
        [] items.

(** [present.sort((a, b) => a.index - b.index)]: a stable sort. *)
Fixpoint insertByIndex (item : Item.t) (l : list Item.t) : list Item.t :=
  match l with
  | [] => [item]
  | x :: r =>
      if (Item.index item <=? Item.index x)%nat then item :: x :: r
      else x :: insertByIndex item r
  end.

Definition sortByIndex (l : list Item.t) : list Item.t := foldr insertByIndex [] l.

(** The callback of [groups.forEach]: every present item of the group gets
    its position among the present ones and their number. *)
Definition setPositions (positions : gmap nat (nat * nat)) (groupItems : list Item.t)
  : gmap nat (nat * nat) :=
  let present := sortByIndex (filter (fun item => Item.hasValue item = true) groupItems) in
  let total := length present in
  foldl (fun ps '(pos, item) => <[Item.index item := (pos, total)]> ps)
        positions (imap pair present).

Definition buildPositions (groups : list (string * list Item.t)) : gmap nat (nat * nat) :=
  foldl (fun ps '(_, groupItems) => setPositions ps groupItems) ∅ groups.

(** What the last [items.forEach] stores under [item.key]. *)
Definition finalValue (positions : gmap nat (nat * nat)) (item : Item.t) : string :=
  if negb (Item.hasValue item) then ""
  else
    let posInfo := if JS.truthy (Item.group item) then positions !! Item.index item else None in
    let prefix :=
      match posInfo with
      | Some (pos, total) => buildListPrefix (Item.prefix item) pos total
      | None => Item.prefix item
      end in
    prefix +:+ Item.value item.

(** The value of an item as the groups compare it. *)
Definition normalizedValue (item : Item.t) : string :=
  JS.toLowerCase (Item.trimmed item).

(** [earlier] has data and carries, in the same group, the same value as
    [item] (compared after trimming, without regard to case). *)
Definition sameGroupValue (item earlier : Item.t) : Prop :=
  Item.hasValue earlier = true
  /\ Item.group earlier = Item.group item
  /\ normalizedValue earlier = normalizedValue item.

(** The value [v] has been recorded for the group [g]. *)
Definition seenHas (seenByGroup : gmap string (gset string)) (g v : string) : Prop :=
  exists set, seenByGroup !! g = Some set /\ v ∈ set.

(** An item counts as a repeat when its value is recorded already or an
    earlier item of the list carries it in the same group. *)
Definition repeats (seenByGroup : gmap string (gset string)) (items : list Item.t)
    (j : nat) (item : Item.t) : Prop :=
  seenHas seenByGroup (Item.group item) (normalizedValue item)
  \/ exists i earlier, i < j /\ items !! i = Some earlier /\ sameGroupValue item earlier.

(** The items stand in the order of their indices. *)
Definition byIndex (a b : Item.t) : Prop := Item.index a < Item.index b.

(** The index of an item is its place in the list. *)
Definition wellIndexed (items : list Item.t) : Prop :=
  forall k item, items !! k = Some item -> Item.index item = k.

(** What holds of the [Map] [groups] built from [items]: one entry per
    group tag met, holding the items of the group in order. *)
Definition groupsOf (items : list Item.t) (groups : list (string * list Item.t)) : Prop :=
  NoDup (map fst groups)
  /\ (forall g l, (g, l) ∈ groups ->
        JS.truthy g = true /\ l = filter (fun item => Item.group item = g) items)
  /\ (forall item, item ∈ items -> JS.truthy (Item.group item) = true ->
        Item.group item ∈ map fst groups).

(** An item that is present in the group [g]. *)
Definition presentIn (g : string) (item : Item.t) : Prop :=
  Item.hasValue item = true /\ Item.group item = g.

Global Instance presentIn_dec g item : Decision (presentIn g item).
Proof. unfold presentIn. apply _. Defined.

(** The items as the last loop sees them, and the assignments
    [values[item.key] = ...] it makes, in order. *)
Definition resolvedItems (mapping : list MappingEntry.t) (row : Row) : list Item.t :=
  dedupItems (makeItems mapping row).

Definition resolvedEntries (mapping : list MappingEntry.t) (row : Row)
  : list (string * string) :=
  let items := resolvedItems mapping row in
  let positions := buildPositions (buildGroups items) in
  map (fun item => (Item.key item, finalValue positions item)) items.

(** [values[key] = text] on the plain object [values]: the key [__proto__]
    names the accessor of the prototype, and a string stored through it
    adds no property; every other key is set or overwritten. *)
Definition assignValue (values : gmap string string) (entry : string * string)
  : gmap string string :=
  let '(k, v) := entry in
  if String.eqb k "__proto__" then values else <[k := v]> values.

Definition resolveRowValues (mapping : list MappingEntry.t) (row : Row)
  : gmap string string :=
  foldl assignValue ∅ (resolvedEntries mapping row).

(* ===================================================================== *)
(** ** Template sanitizer and [extractPlaceholders]                        *)
(* ===================================================================== *)

(** A template is represented by the text of its [word/document.xml]; the
    archive around it is read and written back unchanged. *)

Definition isChar (c : ascii) : ascii -> bool := fun a => Ascii.eqb a c.
Definition notChar (c : ascii) : ascii -> bool := fun a => negb (Ascii.eqb a c).

(** [/\{\s+/g] replaced by ["{"]. *)
Definition matchOpenSpace (s : string) : option (nat * string) :=
  match s with
  | String "{"%char r =>
      let n := JS.spanLength JS.isWhiteSpace r in
      if (1 <=? n)%nat then Some (S n, "{") else None
  | _ => None
  end.

(** [/\s+\}/g] replaced by ["}"]. *)
Definition matchSpaceClose (s : string) : option (nat * string) :=
  let n := JS.spanLength JS.isWhiteSpace s in
  if (1 <=? n)%nat && JS.startsWith "}" (JS.drop n s) then Some (S n, "}") else None.

(** [/\{ {0,}\{+/g] replaced by ["{{"], and the same for [}]. *)
Definition matchSpacedPair (c : ascii) (s : string) : option (nat * string) :=
  match s with
  | String a r =>
      if Ascii.eqb a c then
        let k := JS.spanLength (isChar " ") r in
        let m := JS.spanLength (isChar c) (JS.drop k r) in
        if (1 <=? m)%nat then Some (S (k + m), String c (String c "")) else None
      else None
  | EmptyString => None
  end.

(** [/\{+/g] replaced by [(m) => (m.length >= 2 ? "{{" : "{")], and the
    same for [}]. *)
Definition matchRun (c : ascii) (s : string) : option (nat * string) :=
  let m := JS.spanLength (isChar c) s in
  if (1 <=? m)%nat
  then Some (m, if (2 <=? m)%nat then String c (String c "") else String c "")
  else None.

Definition normalizeXml (xml : string) : string :=
  JS.replaceAll (matchRun "}")
    (JS.replaceAll (matchRun "{")
      (JS.replaceAll (matchSpacedPair "}")
        (JS.replaceAll (matchSpacedPair "{")
          (JS.replaceAll matchSpaceClose
            (JS.replaceAll matchOpenSpace xml))))).

(** [/<[^>]+>/g] replaced by [""]. *)
Definition matchTag (s : string) : option (nat * string) :=
  match s with
  | String "<"%char r =>
      let n := JS.spanLength (notChar ">") r in
      if (1 <=? n)%nat && JS.startsWith ">" (JS.drop n r) then Some (n + 2, "") else None
  | _ => None
  end.

Definition stripTags (xml : string) : string := JS.replaceAll matchTag xml.

Fixpoint lastChar (s : string) : string :=
  match s with
  | EmptyString => EmptyString
  | String c EmptyString => s
  | String _ r => lastChar r
  end.

(** The capture group of [{{\s*([^}]+?)\s*}}] for the text [body] between
    the braces: white space is left out on both sides; a body of white
    space only gives its last character. *)
Definition tokenCapture (body : string) : string :=
  match JS.trimStart body with
  | EmptyString => lastChar body
  | b => JS.trimEnd b
  end.

(** [/{{\s*([^}]+?)\s*}}/] tried at the start of [s]: length of the match
    and capture group 1. *)
Definition matchToken (s : string) : option (nat * string) :=
  if JS.startsWith "{{" s then
    let r := JS.drop 2 s in
    let n := JS.spanLength (notChar "}") r in
    if (1 <=? n)%nat && JS.startsWith "}}" (JS.drop n r)
    then Some (n + 4, tokenCapture (JS.take n r))
    else None
  else None.

(** [String.prototype.indexOf] on the whole string. *)
Fixpoint indexOf (needle s : string) : option nat :=
  match s with
  | EmptyString => if JS.startsWith needle EmptyString then Some 0 else None
  | String _ r => if JS.startsWith needle s then Some 0 else S <$> indexOf needle r
  end.

(** One round of the loop of [fixSplitPlaceholders], tried at the start of
    [s]: [s] begins with ["{{"] and a ["}}"] follows; the chunk up to it is
    replaced by the clean token. *)
Definition matchSplitToken (s : string) : option (nat * string) :=
  if JS.startsWith "{{" s then
    match indexOf "}}" (JS.drop 2 s) with
    | Some e =>
        let chunk := JS.take (e + 4) s in
        let cleaned := stripTags chunk in
        let placeholder :=
          match JS.execAll matchToken cleaned with
          | cap :: _ => JS.trim cap
          | [] => JS.trim (removeChar "}" (removeChar "{" cleaned))
          end in
        Some (e + 4, "{{" +:+ placeholder +:+ "}}")
    | None => None
    end
  else None.

(** [fixSplitPlaceholders].  The loop of the source looks for the next
    ["{{"] from the cursor and stops when no ["}}"] follows it; no later
    ["{{"] has one either, so scanning on copies the rest unchanged. *)
Definition fixSplitPlaceholders (xml : string) : string :=
  JS.replaceAll matchSplitToken xml.

(** The text of the document after [sanitizeTemplateBuffer]. *)
Definition sanitizeTemplate (xml : string) : string :=
  fixSplitPlaceholders (normalizeXml xml).

(** A [Set] of strings with its insertion order: [add] appends a new
    element and ignores one that is already in. *)
Definition setAdd (set : list string) (x : string) : list string :=
  if decide (x ∈ set) then set else (set ++ [x])%list.

(** The distinct elements of a list in the order of their first
    occurrence: the head, then the rest without the head. *)
Fixpoint firstOccurrences (l : list string) : list string :=
  match l with
  | [] => []
  | x :: rest => x :: filter (fun y => y <> x) (firstOccurrences rest)
  end.

(** The names matched in the sanitized, tag-free text, one per match. *)
Definition matchedNames (xml : string) : list string :=
  let plain := stripTags (sanitizeTemplate xml) in
  map JS.trim (JS.execAll matchToken plain).

Definition extractPlaceholders (xml : string) : list string :=
  foldl setAdd [] (matchedNames xml).

(* ===================================================================== *)
(** ** Effects: console, mail, disk, external capabilities                 *)
(* ===================================================================== *)

Inductive LogLevel := LogInfo | LogWarn | LogError.

Global Instance LogLevel_eq_dec : EqDecision LogLevel.
Proof. solve_decision. Defined.

Record LogEntry := { level : LogLevel; text : string }.

Record Attachment := { filename : string; buffer : Buffer }.

(** A message handed to the SMTP transport. *)
Record Mail := {
  mailFrom : string;
  mailTo : string;
  mailSubject : string;
  mailText : string;
  mailAttachments : list Attachment;
}.

(** The state the server works on: the global map [jobs], the lines
    written to the console, the messages handed to a mail transport (the
    SMTP transporter or the Outlook script), the
    files written to the PDF folder, and the number of calls made to
    external capabilities so far. *)
Record World := {
  jobs : gmap string Job.t;
  console : list LogEntry;
  outbox : list Mail;
  disk : list (string * Buffer);
  calls : nat;
}.

Definition emptyWorld : World :=
  {| jobs := ∅; console := []; outbox := []; disk := []; calls := 0 |}.

(** A call either returns or throws. *)
Inductive Outcome (A : Type) :=
  | Ok (a : A)
  | Throw (msg : string).
Arguments Ok {A} a.
Arguments Throw {A} msg.

(** Computations of the server: state passing over the [World], with
    exceptions. *)
Definition M (A : Type) : Type := World -> Outcome A * World.

Definition ret {A} (a : A) : M A := fun w => (Ok a, w).

Definition bind {A B} (c : M A) (k : A -> M B) : M B :=
  fun w =>
    match c w with
    | (Ok a, w') => k a w'
    | (Throw msg, w') => (Throw msg, w')
    end.

Definition throw {A} (msg : string) : M A := fun w => (Throw msg, w).

(** [try { c } catch (err) { handler(err.message) }]. *)
Definition tryCatch {A} (c : M A) (handler : string -> M A) : M A :=
  fun w =>
    match c w with
    | (Ok a, w') => (Ok a, w')
    | (Throw msg, w') => handler msg w'
    end.

Global Instance M_ret : MRet M := @ret.
Global Instance M_bind : MBind M := fun A B k c => bind c k.

(** The changes a step makes to the world. *)
Definition addLog (entry : LogEntry) (w : World) : World :=
  {| jobs := jobs w; console := (console w ++ [entry])%list; outbox := outbox w;
     disk := disk w; calls := calls w |}.

Definition tick (w : World) : World :=
  {| jobs := jobs w; console := console w; outbox := outbox w; disk := disk w;
     calls := S (calls w) |}.

Definition addMail (mail : Mail) (w : World) : World :=
  {| jobs := jobs w; console := console w; outbox := (outbox w ++ [mail])%list;
     disk := disk w; calls := calls w |}.

Definition addFile (name : string) (content : Buffer) (w : World) : World :=
  {| jobs := jobs w; console := console w; outbox := outbox w;
     disk := (disk w ++ [(name, content)])%list; calls := calls w |}.

Definition alterJob (jobId : string) (f : Job.t -> Job.t) (w : World) : World :=
  {| jobs := alter f jobId (jobs w); console := console w; outbox := outbox w;
     disk := disk w; calls := calls w |}.

Definition consoleLog (lvl : LogLevel) (msg : string) : M unit :=
  fun w => (Ok tt, addLog {| level := lvl; text := msg |} w).

Definition consoleWarn : string -> M unit := consoleLog LogWarn.
Definition consoleError : string -> M unit := consoleLog LogError.

(** A call to an external capability: it is told which call it is, so that
    two calls with the same arguments may end differently. *)
Definition external {X Y} (capability : nat -> X -> Y) (x : X) : M Y :=
  fun w => (Ok (capability (calls w) x), tick w).

(** A message is handed to the mail transport. *)
Definition handToTransport (mail : Mail) : M unit :=
  fun w => (Ok tt, addMail mail w).

(** A file is written to the PDF folder. *)
Definition storeOnDisk (name : string) (content : Buffer) : M unit :=
  fun w => (Ok tt, addFile name content w).

(** The runner of a job changes its job object, which the map [jobs]
    holds as long as the job is not evicted. *)
Definition updateJob (jobId : string) (f : Job.t -> Job.t) : M unit :=
  fun w => (Ok tt, alterJob jobId f w).

(** The number of warnings on the console. *)
Definition countWarnings (lines : list LogEntry) : nat :=
  length (filter (fun entry => level entry = LogWarn) lines).

Definition warnings (w : World) : nat := countWarnings (console w).

(** [w'] comes from [w] by steps that leave the jobs and the mail alone
    and only add lines to the console. *)
Definition calm (w w' : World) : Prop :=
  jobs w' = jobs w /\ outbox w' = outbox w /\ warnings w <= warnings w'.

(** [Q] holds of the outcome and the world of [c] run in [w]. *)
Definition wp {A} (c : M A) (Q : Outcome A -> World -> Prop) (w : World) : Prop :=
  Q (fst (c w)) (snd (c w)).

Fixpoint foldM {A B} (f : B -> A -> M B) (l : list A) (b : B) : M B :=
  match l with
  | [] => mret b
  | x :: rest => b' ← f b x; foldM f rest b'
  end.

(** [waitIfPaused(job)], awaited at the head of a round of a row loop and
    before a dispatch.  For a job that is not paused it returns at once.
    For a paused job it arms the suspension signal when none is armed and
    awaits it: the run is held there until a resume request resolves the
    signal.  The answer tells whether the run is held.  A run is followed
    as long as it is not held, in a registry that no request changes in
    the meantime; what a held run does once it is resumed is not
    followed. *)
Definition armSignal (job : Job.t) : Job.t :=
  if Job.pausePromise job then job else Job.set_signal true true job.

Definition waitIfPaused (jobId : string) : M bool :=
  fun w =>
    match jobs w !! jobId with
    | Some job =>
        if Job.paused job then (Ok true, alterJob jobId armSignal w) else (Ok false, w)
    | None => (Ok false, w)
    end.

(** How far a row loop came: through all its rounds, or held at the head
    of a round with the variables of the loop as they stand there. *)
Inductive LoopEnd (B : Type) :=
  | Finished (b : B)
  | HeldAt (b : B).
Arguments Finished {B} b.
Arguments HeldAt {B} b.

Definition stateOf {B} (p : LoopEnd B) : B :=
  match p with
  | Finished b => b
  | HeldAt b => b
  end.

(** [for (...) { await waitIfPaused(job); body }] *)
Fixpoint rowLoop {A B} (jobId : string) (f : B -> A -> M B) (l : list A) (b : B)
  : M (LoopEnd B) :=
  match l with
  | [] => mret (Finished b)
  | x :: rest =>
      held ← waitIfPaused jobId;
      if (held : bool) then mret (HeldAt b)
      else b' ← f b x; rowLoop jobId f rest b'
  end.

(** How the run of a job ends: its promise settles with a value, or the
    run is held at a pause that is not lifted. *)
Inductive RunEnd (A : Type) :=
  | Settled (a : A)
  | Suspended.
Arguments Settled {A} a.
Arguments Suspended {A}.

(** The job [jobId], if the registry holds it, is not paused. *)
Definition notPaused (jobId : string) (w : World) : Prop :=
  forall job, jobs w !! jobId = Some job -> Job.paused job = false.

(** The outcome of an external call that may throw. *)
Inductive Attempt (A : Type) :=
  | Threw (msg : string)
  | Returned (a : A).
Arguments Threw {A} msg.
Arguments Returned {A} a.

(** A run of the Microsoft Office conversion: the temporary folder cannot
    be made (thrown outside the [try]), or the script runs and the output
    file is read ([Returned None]: no output file), and removing the folder
    afterwards may fail. *)
Inductive OfficeRun :=
  | OfficeTempDirError (msg : string)
  | OfficeRan (outcome : Attempt (option Buffer)) (cleanupError : option string).

(** SMTP settings of a request and of the process environment ([""] for a
    variable that is not set). *)
Record SmtpConfig := {
  host : string;
  port : string;
  user : string;
  pass : string;
  from : string;
  secure : option bool;
}.

Record ProcessEnv := {
  SMTP_HOST : string;
  SMTP_PORT : string;
  SMTP_USER : string;
  SMTP_PASS : string;
  SMTP_FROM : string;
}.

Record SmtpOptions := {
  optHost : string;
  optPort : Z;
  optSecure : bool;
  optUser : string;
  optPass : string;
  optFrom : string;
}.

(** A line of the report the Outlook script prints. *)
Record ReportRow := {
  reportTo : string;
  reportStatus : string;
  reportError : string;
  reportFilename : string;
}.

(** What is handed to the Outlook script for one queue entry. *)
Record OutlookPayload := {
  payloadTo : string;
  payloadSubject : string;
  payloadBody : string;
  payloadAttachments : list Attachment;
}.

(** A run of the Outlook automation: the temporary folder cannot be made
    (thrown outside the [try]), or the files are written, the script runs
    and its report is parsed ([Threw] when any of these fails), and removing
    the folder afterwards may fail. *)
Inductive OutlookRun :=
  | OutlookTempDirError (msg : string)
  | OutlookRan (outcome : Attempt (list ReportRow)) (cleanupError : option string).

(** The external capabilities of the server.  Each is told the number of
    the call (see [external]). *)
Record Capabilities := {
  (** [process.platform] *)
  platform : string;
  (** [process.env] *)
  env : ProcessEnv;
  (** [Date.now()] *)
  dateNow : nat -> unit -> Z;
  (** [Number(text)] of a port *)
  toNumber : string -> Z;
  (** Word automation through PowerShell on the rendered document *)
  msOffice : nat -> Buffer -> OfficeRun;
  (** [convertAsync(buffer, ".pdf", undefined)]; [Returned None] is a
      [null] or [undefined] result *)
  libreOffice : nat -> Buffer -> Attempt (option Buffer);
  (** [mammoth] and [puppeteer] printing the document *)
  puppeteerPdf : nat -> Buffer -> Attempt Buffer;
  (** [renderDoc(templateBuffer, data, placeholders)] *)
  renderDoc : nat -> Buffer * gmap string string * list string -> Attempt Buffer;
  (** the name template of the job with its tokens replaced for row
      [idx] (the [replace] over [ctx] in the row loop) *)
  expandName : string -> nat -> Row -> string;
  (** [parseRecipients]: the addresses found in a cell *)
  parseRecipients : CellValue -> list string;
  (** [fs.mkdirSync] and [fs.writeFileSync] into the PDF folder; [Some msg]
      when they throw *)
  writePdf : nat -> string * Buffer -> option string;
  (** [transporter.sendMail(mail)]; [Some msg] when it rejects *)
  sendMail : nat -> SmtpOptions * Mail -> option string;
  (** the Outlook script over the whole queue *)
  outlook : nat -> list OutlookPayload * string -> OutlookRun;
}.

(* ===================================================================== *)
(** ** Conversion chain: [isPdfBuffer], [convertWith...], [docxBufferToPdf] *)
(* ===================================================================== *)

Global Instance byte_eq_dec : EqDecision Byte.byte := Byte.byte_eq_dec.

(** The bytes of ["%PDF"]. *)
Definition pdfMagic : Buffer := [x25; x50; x44; x46].

(** [isPdfBuffer]: a missing buffer and one shorter than four bytes are not
    PDF; otherwise the first four bytes decide. *)
Definition isPdfBuffer (buffer : option Buffer) : bool :=
  match buffer with
  | None => false
  | Some buf =>
      if (length buf <? 4)%nat then false
      else bool_decide (take 4 buf = pdfMagic)
  end.

(** [pdf.length ? pdf : null] *)
Definition nonEmptyOrNull (pdf : Buffer) : option Buffer :=
  match pdf with
  | [] => None
  | _ => Some pdf
  end.

Definition convertWithMsOffice (caps : Capabilities) (buffer : Buffer) : M (option Buffer) :=
  if negb (String.eqb (platform caps) "win32") then mret None
  else
    run ← external (msOffice caps) buffer;
    match run with
    | OfficeTempDirError msg => throw msg
    | OfficeRan outcome cleanupError =>
        r ← match outcome with
            | Threw msg =>
                consoleError ("Falha ao converter para PDF (Microsoft Office): " +:+ msg);;
                mret None
            | Returned None => mret None
            | Returned (Some pdf) => mret (nonEmptyOrNull pdf)
            end;
        match cleanupError with
        | Some msg => consoleWarn ("Falha ao limpar temp de conversao: " +:+ msg)
        | None => mret tt
        end;;
        mret r
    end.

Definition convertWithLibreOffice (caps : Capabilities) (buffer : Buffer) : M (option Buffer) :=
  outcome ← external (libreOffice caps) buffer;
  match outcome with
  | Returned (Some pdf) => mret (nonEmptyOrNull pdf)
  | Returned None => mret None
  | Threw msg =>
      consoleError ("Falha ao converter para PDF (LibreOffice): " +:+ msg);;
      mret None
  end.

Definition convertWithPuppeteer (caps : Capabilities) (buffer : Buffer) : M (option Buffer) :=
  outcome ← external (puppeteerPdf caps) buffer;
  match outcome with
  | Returned pdf => mret (Some pdf)
  | Threw msg =>
      consoleError ("Falha ao converter para PDF (puppeteer): " +:+ msg);;
      mret None
  end.

Definition docxBufferToPdf (caps : Capabilities) (buffer : Buffer) : M (option Buffer) :=
  msOfficePdf ← convertWithMsOffice caps buffer;
  match msOfficePdf with
  | Some pdf => mret (Some pdf)
  | None =>
      pdf ← convertWithLibreOffice caps buffer;
      match pdf with
      | Some p => mret (Some p)
      | None =>
          consoleWarn "Gerando PDF via Puppeteer; o layout pode divergir do DOCX.";;
          convertWithPuppeteer caps buffer
      end
  end.

(** The chain as the design describes it: a backend's result counts only
    when it carries the PDF signature; the next backend is tried when the
    previous one failed or its result fails that check. *)
Definition docxBufferToPdf_verified (caps : Capabilities) (buffer : Buffer) : M (option Buffer) :=
  msOfficePdf ← convertWithMsOffice caps buffer;
  if isPdfBuffer msOfficePdf then mret msOfficePdf
  else
    pdf ← convertWithLibreOffice caps buffer;
    if isPdfBuffer pdf then mret pdf
    else
      last ← convertWithPuppeteer caps buffer;
      if isPdfBuffer last then mret last else mret None.

(** The Microsoft Office backend throws only when its temporary folder
    cannot be made; this says that it can. *)
Definition officeTempDirOk (caps : Capabilities) (buffer : Buffer) : Prop :=
  platform caps = "win32" ->
  forall n msg, msOffice caps n buffer <> OfficeTempDirError msg.

(* ===================================================================== *)
(** ** Email dispatch: [sendEmailsSmtp], [sendEmailsOutlook]               *)
(* ===================================================================== *)

Definition DEFAULT_EMAIL_SUBJECT : string := "Documento gerado".
Definition DEFAULT_EMAIL_MESSAGE : string :=
  "Segue em anexo o documento gerado automaticamente.".

(** An entry of the queue: [{ to, attachments }], or the older shape
    [{ to, filename, buffer }]. *)
Record QueueItem := {
  to : string;
  attachments : list Attachment;
  itemFilename : string;
  itemBuffer : option Buffer;
}.

Record ResultRow := {
  resultTo : string;
  resultFilename : string;
  resultStatus : string;
  resultError : string;
}.

(** What a dispatcher returns; the early return of [sendEmailsOutlook]
    has no [results]. *)
Record SendResult := {
  sent : Z;
  failed : Z;
  errors : list string;
  results : option (list ResultRow);
}.

Definition normalizeEmailAttachments (item : QueueItem) : list Attachment :=
  match attachments item with
  | _ :: _ => attachments item
  | [] =>
      match itemBuffer item with
      | Some buf =>
          if JS.truthy (itemFilename item)
          then [{| filename := itemFilename item; buffer := buf |}]
          else []
      | None => []
      end
  end.

Definition formatAttachmentNames (atts : list Attachment) : string :=
  JS.join ", " (filter (fun name => JS.truthy name = true) (map filename atts)).

(** [a || b] on strings. *)
Definition orElse (a b : string) : string := if JS.truthy a then a else b.

Definition buildSmtpOptions (caps : Capabilities) (config : SmtpConfig) : option SmtpOptions :=
  let host := orElse (host config) (SMTP_HOST (env caps)) in
  let portText := orElse (port config) (SMTP_PORT (env caps)) in
  let port := if JS.truthy portText then toNumber caps portText else 587%Z in
  let user := orElse (user config) (SMTP_USER (env caps)) in
  let pass := orElse (pass config) (SMTP_PASS (env caps)) in
  if negb (JS.truthy host) || negb (JS.truthy user) || negb (JS.truthy pass) then None
  else
    let secure :=
      match secure config with
      | Some b => b
      | None => (port =? 465)%Z
      end in
    let from := orElse (from config) (orElse (SMTP_FROM (env caps)) user) in
    Some {| optHost := host; optPort := port; optSecure := secure;
            optUser := user; optPass := pass; optFrom := from |}.

(** The argument of the progress callback. *)
Record Progress := {
  progressProcessed : Z;
  progressTotal : Z;
  progressSent : Z;
  progressFailed : Z;
}.

(** The variables of the loop of [sendEmailsSmtp]. *)
Record SmtpLoop := {
  loopSent : Z;
  loopProcessed : Z;
  loopErrors : list string;
  loopResults : list ResultRow;
}.

Definition reportProgress (onProgress : option (Progress -> M unit))
    (processed total sent : Z) : M unit :=
  match onProgress with
  | Some callback =>
      callback {| progressProcessed := processed; progressTotal := total;
                  progressSent := sent; progressFailed := (processed - sent)%Z |}
  | None => mret tt
  end.

(** One round of [for (const item of queue)]. *)
Definition smtpSendOne (caps : Capabilities) (options : SmtpOptions)
    (subject message : string) (total : Z)
    (onProgress : option (Progress -> M unit))
    (st : SmtpLoop) (item : QueueItem) : M SmtpLoop :=
  let atts := normalizeEmailAttachments item in
  let filenameList := formatAttachmentNames atts in
  match atts with
  | [] =>
      let errorMsg := "Sem anexos para enviar" in
      let st' :=
        {| loopSent := loopSent st;
           loopProcessed := (loopProcessed st + 1)%Z;
           loopErrors := (loopErrors st ++ ["Erro para " +:+ to item +:+ ": " +:+ errorMsg])%list;
           loopResults :=
             (loopResults st ++
              [{| resultTo := to item; resultFilename := filenameList;
                  resultStatus := "failed"; resultError := errorMsg |}])%list |} in
      reportProgress onProgress (loopProcessed st') total (loopSent st');;
      mret st'
  | _ :: _ =>
      let mail :=
        {| mailFrom := optFrom options;
           mailTo := to item;
           mailSubject := orElse subject DEFAULT_EMAIL_SUBJECT;
           mailText := orElse message DEFAULT_EMAIL_MESSAGE;
           mailAttachments := atts |} in
      handToTransport mail;;
      rejected ← external (sendMail caps) (options, mail);
      st1 ← match rejected with
            | None =>
                consoleLog LogInfo
                  ("Email enviado para " +:+ to item +:+ " ("
                   +:+ orElse filenameList "sem anexos" +:+ ")");;
                mret {| loopSent := (loopSent st + 1)%Z;
                        loopProcessed := loopProcessed st;
                        loopErrors := loopErrors st;
                        loopResults :=
                          (loopResults st ++
                           [{| resultTo := to item; resultFilename := filenameList;
                               resultStatus := "sent"; resultError := "" |}])%list |}
            | Some msg =>
                consoleError ("Falha ao enviar para " +:+ to item +:+ ": " +:+ msg);;
                mret {| loopSent := loopSent st;
                        loopProcessed := loopProcessed st;
                        loopErrors :=
                          (loopErrors st ++ ["Erro para " +:+ to item +:+ ": " +:+ msg])%list;
                        loopResults :=
                          (loopResults st ++
                           [{| resultTo := to item; resultFilename := filenameList;
                               resultStatus := "failed"; resultError := msg |}])%list |}
            end;
      let st' :=
        {| loopSent := loopSent st1; loopProcessed := (loopProcessed st1 + 1)%Z;
           loopErrors := loopErrors st1; loopResults := loopResults st1 |} in
      reportProgress onProgress (loopProcessed st') total (loopSent st');;
      mret st'
  end.

Definition sendEmailsSmtp (caps : Capabilities) (queue : list QueueItem)
    (subject message : string) (smtpConfig : SmtpConfig)
    (onProgress : option (Progress -> M unit)) : M SendResult :=
  match buildSmtpOptions caps smtpConfig with
  | None =>
      consoleWarn "SMTP nao configurado; emails nao enviados.";;
      let results :=
        map (fun item =>
               {| resultTo := to item;
                  resultFilename := formatAttachmentNames (normalizeEmailAttachments item);
                  resultStatus := "failed";
                  resultError := "SMTP nao configurado" |}) queue in
      mret {| sent := 0; failed := Z.of_nat (length queue);
              errors := ["SMTP nao configurado"]; results := Some results |}
  | Some options =>
      let total := Z.of_nat (length queue) in
      st ← foldM (smtpSendOne caps options subject message total onProgress) queue
             {| loopSent := 0; loopProcessed := 0; loopErrors := []; loopResults := [] |};
      mret {| sent := loopSent st; failed := (total - loopSent st)%Z;
              errors := loopErrors st; results := Some (loopResults st) |}
  end.

(** The progress callback, when there is one, returns. *)
Definition callbackReturns (onProgress : option (Progress -> M unit)) : Prop :=
  forall callback, onProgress = Some callback ->
  forall p w, exists w', callback p w = (Ok tt, w').

(** The number of result rows of a status. *)
Definition countResults (st : string) (rows : list ResultRow) : Z :=
  Z.of_nat (length (filter (fun r => resultStatus r = st) rows)).

Definition sentOrFailed (r : ResultRow) : Prop :=
  resultStatus r = "sent" \/ resultStatus r = "failed".

(** What holds of the variables of the loop of [sendEmailsSmtp] after the
    entries [done]. *)
Definition loopInvariant (done : list QueueItem) (st : SmtpLoop) : Prop :=
  loopProcessed st = Z.of_nat (length done)
  /\ map resultTo (loopResults st) = map to done
  /\ Forall sentOrFailed (loopResults st)
  /\ loopSent st = countResults "sent" (loopResults st).

(** [sanitizeFilename]: backslash, slash, colon, star, question mark,
    double quote, angle brackets and bar become [_]. *)
Definition isForbiddenInName (c : ascii) : bool :=
  bool_decide (c ∈ ["\"; "/"; ":"; "*"; "?"; doubleQuote; "<"; ">"; "|"]%char).

Fixpoint mapChars (f : ascii -> ascii) (s : string) : string :=
  match s with
  | EmptyString => EmptyString
  | String c r => String (f c) (mapChars f r)
  end.

Definition sanitizeFilename (name : string) : string :=
  let base := orElse (JS.trim (orElse name "arquivo")) "arquivo" in
  mapChars (fun c => if isForbiddenInName c then "_"%char else c) base.

Definition countStatus (st : string) (rows : list ReportRow) : Z :=
  Z.of_nat (length (filter (fun r => reportStatus r = st) rows)).

Definition outlookPayload (subject message : string) (idx : nat) (item : QueueItem)
  : OutlookPayload :=
  {| payloadTo := to item;
     payloadSubject := orElse subject DEFAULT_EMAIL_SUBJECT;
     payloadBody := orElse message DEFAULT_EMAIL_MESSAGE;
     payloadAttachments :=
       imap (fun attIdx att =>
               {| filename :=
                    sanitizeFilename
                      (orElse (filename att)
                         ("documento_" +:+ pretty (idx + 1) +:+ "_"
                          +:+ pretty (attIdx + 1) +:+ ".pdf"));
                  buffer := buffer att |})
            (normalizeEmailAttachments item) |}.

Definition sendEmailsOutlook (caps : Capabilities) (queue : list QueueItem)
    (subject message outlookFrom : string) : M SendResult :=
  if negb (String.eqb (platform caps) "win32") then
    mret {| sent := 0; failed := Z.of_nat (length queue);
            errors := ["Outlook disponivel apenas no Windows."]; results := None |}
  else
    let payload := imap (outlookPayload subject message) queue in
    foldM (fun _ p =>
             handToTransport
               {| mailFrom := JS.trim outlookFrom; mailTo := payloadTo p;
                  mailSubject := payloadSubject p; mailText := payloadBody p;
                  mailAttachments := payloadAttachments p |})
          payload tt;;
    run ← external (outlook caps) (payload, JS.trim outlookFrom);
    match run with
    | OutlookTempDirError msg => throw msg
    | OutlookRan outcome cleanupError =>
        r ← match outcome with
            | Returned report =>
                mret {| sent := countStatus "sent" report;
                        failed := (countStatus "failed" report + countStatus "skipped" report)%Z;
                        errors :=
                          map (fun r => reportTo r +:+ ": " +:+ reportError r)
                              (filter (fun r => JS.truthy (reportError r) = true) report);
                        results :=
                          Some (map (fun r =>
                                       {| resultTo := reportTo r;
                                          resultFilename := reportFilename r;
                                          resultStatus := reportStatus r;
                                          resultError := reportError r |}) report) |}
            | Threw msg =>
                consoleError ("Falha ao enviar via Outlook: " +:+ msg);;
                mret {| sent := 0; failed := Z.of_nat (length queue);
                        errors := [msg];
                        results :=
                          Some (map (fun item =>
                                       {| resultTo := to item;
                                          resultFilename :=
                                            formatAttachmentNames (normalizeEmailAttachments item);
                                          resultStatus := "failed";
                                          resultError := msg |}) queue) |}
            end;
        match cleanupError with
        | Some msg => consoleWarn ("Falha ao limpar temp de email: " +:+ msg)
        | None => mret tt
        end;;
        mret r
    end.

(* ===================================================================== *)
(** ** The generate job: naming, conversion, queueing ([runGenerateJob])   *)
(* ===================================================================== *)

(** [while (isUsed(finalName)) { finalName = next(counter); counter += 1 }]
    with a bound on the number of rounds; the names it is used for below
    never reach the bound (see [untilUnused_free]). *)
Fixpoint untilUnused (rounds : nat) (isUsed : string -> bool) (next : nat -> string)
    (finalName : string) (counter : nat) : string :=
  if isUsed finalName then
    match rounds with
    | O => finalName
    | S k => untilUnused k isUsed next (next counter) (S counter)
    end
  else finalName.

(** [name.replace(/\.docx$/i, replacement)] and the same for [.pdf]. *)
Definition replaceSuffix (suffix replacement name : string) : string :=
  if JS.endsWith suffix (JS.toLowerCase name)
  then JS.take (String.length name - String.length suffix) name +:+ replacement
  else name.

(** The candidate of round [counter]: [_counter.docx] in place of the
    extension. *)
Definition docxCandidate (filename : string) (counter : nat) : string :=
  replaceSuffix ".docx" ("_" +:+ pretty counter +:+ ".docx") filename.

(** The name given to a document: [filename], or the first of
    [filename_2.docx], [filename_3.docx], ... that is not used yet. *)
Definition uniqueDocxName (usedNames : gset string) (filename : string) : string :=
  untilUnused (S (size usedNames)) (fun name => bool_decide (name ∈ usedNames))
    (docxCandidate filename) filename 2.

(** [if (!filename.toLowerCase().endsWith(".docx")) filename += ".docx"] *)
Definition withDocxExtension (filename : string) : string :=
  if JS.endsWith ".docx" (JS.toLowerCase filename) then filename
  else filename +:+ ".docx".

(** [zip.file(name, data)]: a file of that name is replaced, a new one is
    added at the end. *)
Fixpoint zipFile (name : string) (data : Buffer) (zip : list (string * Buffer))
  : list (string * Buffer) :=
  match zip with
  | [] => [(name, data)]
  | (n, d) :: rest =>
      if String.eqb n name then (n, data) :: rest else (n, d) :: zipFile name data rest
  end.

(** [map.set(key, value)] on a [Map] in insertion order. *)
Fixpoint mapSet {V} (key : string) (v : V) (m : list (string * V)) : list (string * V) :=
  match m with
  | [] => [(key, v)]
  | (k, x) :: rest =>
      if String.eqb k key then (k, v) :: rest else (k, x) :: mapSet key v rest
  end.

Fixpoint mapGet {V} (key : string) (m : list (string * V)) : option V :=
  match m with
  | [] => None
  | (k, x) :: rest => if String.eqb k key then Some x else mapGet key rest
  end.

(** [Array.from(new Map(recipients.map((addr) => [addr.toLowerCase(), addr])).values())] *)
Definition uniqueRecipients (recipients : list string) : list string :=
  map snd (foldl (fun m addr => mapSet (JS.toLowerCase addr) addr m) [] recipients).

Definition normalizePdfFilename (name : string) : string :=
  let base := sanitizeFilename (orElse name "documento.pdf") in
  if JS.endsWith ".pdf" (JS.toLowerCase base) then base
  else if JS.endsWith ".docx" (JS.toLowerCase base) then replaceSuffix ".docx" ".pdf" base
  else base +:+ ".pdf".

(** [preparePdfAttachment] for an attachment that has a buffer; [context]
    is the text made of the entries of the context object. *)
Definition preparePdfAttachment (att : Attachment) (context : string) : M (option Attachment) :=
  if negb (isPdfBuffer (Some (buffer att))) then
    consoleWarn ("Anexo ignorado: buffer nao e PDF. " +:+ context);;
    mret None
  else
    mret (Some {| filename := normalizePdfFilename (filename att); buffer := buffer att |}).

(** [ensureUniqueAttachmentName]: the name and the new sets of used names. *)
Definition ensureUniqueAttachmentName (usedNamesByRecipient : gmap string (gset string))
    (recipient name : string) : string * gmap string (gset string) :=
  let key := JS.toLowerCase recipient in
  if negb (JS.truthy key) then (name, usedNamesByRecipient)
  else
    let set := default ∅ (usedNamesByRecipient !! key) in
    let base := replaceSuffix ".pdf" "" name in
    let finalName :=
      untilUnused (S (size set))
        (fun n => bool_decide (JS.toLowerCase n ∈ set))
        (fun counter => base +:+ "_" +:+ pretty counter +:+ ".pdf") name 2 in
    (finalName, <[key := {[JS.toLowerCase finalName]} ∪ set]> usedNamesByRecipient).

Definition queueEmailAttachment (queue : list (string * QueueItem))
    (recipient : string) (att : Attachment) : list (string * QueueItem) :=
  let key := JS.toLowerCase recipient in
  if negb (JS.truthy key) then queue
  else
    let entry :=
      default {| to := recipient; attachments := []; itemFilename := ""; itemBuffer := None |}
              (mapGet key queue) in
    mapSet key
      {| to := to entry; attachments := (attachments entry ++ [att])%list;
         itemFilename := itemFilename entry; itemBuffer := itemBuffer entry |}
      queue.

(** The input of a generate job. *)
Record GenerateInput := {
  rows : list Row;
  templateBuffer : Buffer;
  mapping : list MappingEntry.t;
  placeholders : list string;
  nameTemplate : string;
  primaryPlaceholder : string;
  emailColumn : string;
  emailSubject : string;
  emailMessage : string;
  emailMode : string;
  smtpConfig : SmtpConfig;
  outlookFrom : string;
}.

(** The local variables of [runGenerateJob] that live across rows. *)
Record RunState := {
  zipDocx : list (string * Buffer);
  zipPdf : list (string * Buffer);
  usedNames : gset string;
  emailQueue : list (string * QueueItem);
  usedNamesByRecipient : gmap string (gset string);
}.

Definition initialRunState : RunState :=
  {| zipDocx := []; zipPdf := []; usedNames := ∅; emailQueue := [];
     usedNamesByRecipient := ∅ |}.

Definition set_zipDocx (zip : list (string * Buffer)) (st : RunState) : RunState :=
  {| zipDocx := zip; zipPdf := zipPdf st; usedNames := usedNames st;
     emailQueue := emailQueue st; usedNamesByRecipient := usedNamesByRecipient st |}.

Definition set_zipPdf (zip : list (string * Buffer)) (st : RunState) : RunState :=
  {| zipDocx := zipDocx st; zipPdf := zip; usedNames := usedNames st;
     emailQueue := emailQueue st; usedNamesByRecipient := usedNamesByRecipient st |}.

Definition set_usedNames (names : gset string) (st : RunState) : RunState :=
  {| zipDocx := zipDocx st; zipPdf := zipPdf st; usedNames := names;
     emailQueue := emailQueue st; usedNamesByRecipient := usedNamesByRecipient st |}.

Definition set_emailQueue (queue : list (string * QueueItem))
    (used : gmap string (gset string)) (st : RunState) : RunState :=
  {| zipDocx := zipDocx st; zipPdf := zipPdf st; usedNames := usedNames st;
     emailQueue := queue; usedNamesByRecipient := used |}.

(** An [Attempt] that throws in the caller. *)
Definition orThrow {A} (a : Attempt A) : M A :=
  match a with
  | Returned x => mret x
  | Threw msg => throw msg
  end.

(** [touchJob(job)] *)
Definition touch (caps : Capabilities) (jobId : string) : M unit :=
  now ← external (dateNow caps) tt;
  updateJob jobId (touchJob now).

(** The values handed to the renderer: every known placeholder is empty
    unless the resolver gives it a value. *)
Definition rowData (input : GenerateInput) (row : Row) : gmap string string :=
  resolveRowValues (mapping input) row
  ∪ foldl (fun data ph => assignValue data (ph, "")) ∅ (placeholders input).

(** The name of the document of row [idx], before the search for a free
    name. *)
Definition rowFilename (caps : Capabilities) (input : GenerateInput) (idx : nat) (row : Row)
  : string :=
  withDocxExtension
    (expandName caps (orElse (nameTemplate input) "output_{index}_{primary}.docx") idx row).

(** What the row loop does with the result of the conversion: a verified
    PDF goes into the PDF archive and to the PDF folder, a result that is
    not a PDF is warned about, no result passes in silence. *)
Definition keepPdf (caps : Capabilities) (idx : nat) (pdfName : string)
    (pdfBuffer : option Buffer) (st : RunState) : M RunState :=
  match pdfBuffer with
  | Some pdf =>
      if isPdfBuffer pdfBuffer then
        failure ← external (writePdf caps) (pdfName, pdf);
        match failure with
        | Some msg => consoleError ("Falha ao salvar PDF em disco: " +:+ msg)
        | None => storeOnDisk pdfName pdf
        end;;
        mret (set_zipPdf (zipFile pdfName pdf (zipPdf st)) st)
      else
        consoleWarn ("PDF invalido gerado na linha " +:+ pretty (idx + 1) +:+ ".");;
        mret st
  | None => mret st
  end.

(** The queueing of the attachment of a row for its recipients. *)
Definition queueForRecipients (recipients : list string) (att : Attachment) (st : RunState)
  : RunState :=
  foldl (fun s recipient =>
           let '(uniqueName, used') :=
             ensureUniqueAttachmentName (usedNamesByRecipient s) recipient (filename att) in
           set_emailQueue
             (queueEmailAttachment (emailQueue s) recipient
                {| filename := uniqueName; buffer := buffer att |})
             used' s)
        st recipients.

(** The block [if (emailColumn) { ... }] of the row loop. *)
Definition queueRowEmails (caps : Capabilities) (input : GenerateInput) (idx : nat)
    (row : Row) (pdfName : string) (pdfBuffer : option Buffer) (st : RunState)
  : M RunState :=
  if JS.truthy (emailColumn input) then
    let recipients :=
      uniqueRecipients (parseRecipients caps (getRowValue row (emailColumn input))) in
    match recipients with
    | [] => mret st
    | _ :: _ =>
        match pdfBuffer with
        | Some pdf =>
            if isPdfBuffer pdfBuffer then
              attachment ←
                preparePdfAttachment {| filename := pdfName; buffer := pdf |}
                  ("row=" +:+ pretty (idx + 1));
              match attachment with
              | Some att => mret (queueForRecipients recipients att st)
              | None => mret st
              end
            else
              consoleWarn ("PDF nao gerado; email nao enviado para "
                           +:+ JS.join ", " recipients);;
              mret st
        | None =>
            consoleWarn ("PDF nao gerado; email nao enviado para "
                         +:+ JS.join ", " recipients);;
            mret st
        end
    end
  else mret st.

(** The body of the row loop, behind the pause check. *)
Definition processRow (caps : Capabilities) (jobId : string) (input : GenerateInput)
    (st : RunState) (idxRow : nat * Row) : M RunState :=
  let '(idx, row) := idxRow in
  let data := rowData input row in
  let filename := rowFilename caps input idx row in
  let finalName := uniqueDocxName (usedNames st) filename in
  let st0 := set_usedNames ({[finalName]} ∪ usedNames st) st in
  attempt ← external (renderDoc caps) (templateBuffer input, data, placeholders input);
  docBuffer ← orThrow attempt;
  let st1 := set_zipDocx (zipFile finalName docBuffer (zipDocx st0)) st0 in
  let pdfName := replaceSuffix ".docx" ".pdf" finalName in
  pdfBuffer ← docxBufferToPdf caps docBuffer;
  st2 ← keepPdf caps idx pdfName pdfBuffer st1;
  st3 ← queueRowEmails caps input idx row pdfName pdfBuffer st2;
  updateJob jobId
    (fun job =>
       Job.set_message
         ("Processando linha " +:+ pretty (idx + 1) +:+ " de "
          +:+ pretty (length (rows input)) +:+ ".")
         (Job.set_current (idx + 1) job));;
  touch caps jobId;;
  mret st3.

(** The names given to the documents of a job whose expanded names are
    [filenames], in order, [used] being taken already. *)
Fixpoint finalNames (used : gset string) (filenames : list string) : list string :=
  match filenames with
  | [] => []
  | filename :: rest =>
      let name := uniqueDocxName used filename in
      name :: finalNames ({[name]} ∪ used) rest
  end.

(** Assumptions on the capabilities under which a job cannot fail: the
    renderer returns a document, and no temporary folder is refused. *)
Definition rendersAlways (caps : Capabilities) : Prop :=
  forall n args, exists doc, renderDoc caps n args = Returned doc.

Definition tempDirAlways (caps : Capabilities) : Prop :=
  forall buffer, officeTempDirOk caps buffer.

(** Conversion never gives a verified PDF, whatever the document. *)
Definition neverVerified (caps : Capabilities) : Prop :=
  forall buffer w r w', docxBufferToPdf caps buffer w = (Ok r, w') -> isPdfBuffer r = false.

(** A change of the job object that touches neither its status nor its
    totals, result and error: what the row loop does to it. *)
Definition keepsOutcome (g : Job.t -> Job.t) : Prop :=
  forall job,
    Job.status (g job) = Job.status job
    /\ Job.total (g job) = Job.total job
    /\ Job.result (g job) = Job.result job
    /\ Job.error (g job) = Job.error job
    /\ Job.paused (g job) = Job.paused job.

(** The archive entry [entry] holds a document rendered for [row]. *)
Definition renderedFor (caps : Capabilities) (input : GenerateInput)
    (row : Row) (entry : string * Buffer) : Prop :=
  exists n,
    renderDoc caps n (templateBuffer input, rowData input row, placeholders input)
    = Returned (snd entry).

(** [for (let idx = 0; idx < rows.length; idx += 1) { await waitIfPaused(job); ... }] *)
Definition processRows (caps : Capabilities) (jobId : string) (input : GenerateInput)
  : M (LoopEnd RunState) :=
  rowLoop jobId (processRow caps jobId input) (imap pair (rows input)) initialRunState.

(** The dispatch behind [job.status = "done"]: started when the queue is
    not empty, its failure only logged. *)
Definition dispatchQueue (caps : Capabilities) (input : GenerateInput)
    (emailsToSend : list QueueItem) : M unit :=
  match emailsToSend with
  | [] => mret tt
  | _ :: _ =>
      tryCatch
        (if String.eqb (JS.toLowerCase (orElse (emailMode input) "smtp")) "outlook"
         then sendEmailsOutlook caps emailsToSend (emailSubject input) (emailMessage input)
                (outlookFrom input);; mret tt
         else sendEmailsSmtp caps emailsToSend (emailSubject input) (emailMessage input)
                (smtpConfig input) None;; mret tt)
        (fun msg => consoleError ("Falha ao enviar emails: " +:+ msg))
  end.

Definition runGenerateJob (caps : Capabilities) (jobId : string) (input : GenerateInput)
  : M (RunEnd unit) :=
  updateJob jobId
    (fun job =>
       Job.set_message "Gerando documentos."
         (Job.set_current 0 (Job.set_total (length (rows input)) job)));;
  touch caps jobId;;
  tryCatch
    (p ← processRows caps jobId input;
     match p with
     | HeldAt _ => mret Suspended
     | Finished st =>
         updateJob jobId (Job.set_message "Finalizando arquivos.");;
         touch caps jobId;;
         let pdfHasFiles := negb (bool_decide (zipPdf st = [])) in
         updateJob jobId
           (fun job =>
              Job.set_message "Concluido."
                (Job.set_status Done
                   (Job.set_result
                      (Some {| docxZipBuffer := zipDocx st;
                               pdfZipBuffer := if pdfHasFiles then Some (zipPdf st) else None;
                               pdfGenerated := pdfHasFiles |})
                      job)));;
         touch caps jobId;;
         dispatchQueue caps input (map snd (emailQueue st));;
         mret (Settled tt)
     end)
    (fun msg =>
       updateJob jobId
         (fun job => Job.set_error (orElse msg "Erro ao gerar") (Job.set_status Error job));;
       touch caps jobId;;
       mret (Settled tt)).

(* ===================================================================== *)
(** ** Registry: eviction of old jobs ([cleanupJobs])                      *)
(* ===================================================================== *)

Definition JOB_TTL_MS : Z := 1000 * 60 * 30.

(** [cleanupJobs], run at the time [now]: a job whose last update lies
    more than [JOB_TTL_MS] back is deleted from the map [jobs]. *)
Definition cleanupJobs (now : Z) (jobs : gmap string Job.t) : gmap string Job.t :=
  filter (fun entry => ~ (now - Job.updatedAt (snd entry) > JOB_TTL_MS)%Z) jobs.

(** The pause flag, the suspension signal and the status of a job agree:
    the signal is armed exactly while the flag is set, a job whose status
    is paused has the flag set, and a job with the flag set is not
    running. *)
Definition pauseConsistent (job : Job.t) : Prop :=
  Job.pausePromise job = Job.paused job
  /\ Job.resume job = Job.paused job
  /\ (Job.status job = Paused -> Job.paused job = true)
  /\ (Job.paused job = true -> Job.status job <> Running).

(* ===================================================================== *)
(** ** Predicates on the characters of a string                            *)
(* ===================================================================== *)

(** Every character of [s] satisfies [p]. *)
Fixpoint everyChar (p : ascii -> bool) (s : string) : bool :=
  match s with
  | EmptyString => true
  | String c r => p c && everyChar p r
  end.

(** A character that may stand in a file name as [sanitizeFilename]
    leaves it. *)
Definition allowedInName (c : ascii) : bool := negb (isForbiddenInName c).

(* ===================================================================== *)
(** ** What holds of the email queue of a job                              *)
(* ===================================================================== *)

(** The name of an attachment as the sets of used names hold it. *)
Definition attachmentKey (att : Attachment) : string := JS.toLowerCase (filename att).

(** The address of a queue entry as the queue is keyed by it. *)
Definition recipientKey (item : QueueItem) : string := JS.toLowerCase (to item).

(** An attachment that carries a PDF under a name with the extension
    [.pdf]. *)
Definition attachmentOk (att : Attachment) : Prop :=
  isPdfBuffer (Some (buffer att)) = true
  /\ JS.endsWith ".pdf" (JS.toLowerCase (filename att)) = true.

(** An entry of the queue that can be sent: it has an address and at least
    one attachment, its attachments are PDFs, and no two of them have the
    same name, compared without regard to case. *)
Definition sendable (item : QueueItem) : Prop :=
  to item <> ""
  /\ attachments item <> []
  /\ Forall attachmentOk (attachments item)
  /\ NoDup (map attachmentKey (attachments item)).

(** The entry [item] stands in the queue under [key], and the names of its
    attachments are recorded as used for [key]. *)
Definition queueEntryOk (used : gmap string (gset string)) (key : string) (item : QueueItem)
  : Prop :=
  key = recipientKey item
  /\ sendable item
  /\ forall att, att ∈ attachments item -> attachmentKey att ∈ default ∅ (used !! key).

(** The queue and the sets of used names of the row loop fit together. *)
Definition queueOk (st : RunState) : Prop :=
  NoDup (map fst (emailQueue st))
  /\ forall key item, (key, item) ∈ emailQueue st ->
       queueEntryOk (usedNamesByRecipient st) key item.

(** The candidate of round [counter] of [ensureUniqueAttachmentName]. *)
Definition pdfCandidate (name : string) (counter : nat) : string :=
  replaceSuffix ".pdf" "" name +:+ "_" +:+ pretty counter +:+ ".pdf".

(* ===================================================================== *)
(** ** Braces in a template                                                *)
(* ===================================================================== *)

Definition notOpenBrace : ascii -> bool := notChar "{".
Definition notCloseBrace : ascii -> bool := notChar "}".
Definition notBrace (c : ascii) : bool := notOpenBrace c && notCloseBrace c.

(* ===================================================================== *)
(** ** What the dispatchers hand over and report                           *)
(* ===================================================================== *)

(** The messages [mails] are added to those handed to a transport. *)
Definition addMails (mails : list Mail) (w : World) : World :=
  {| jobs := jobs w; console := console w; outbox := (outbox w ++ mails)%list;
     disk := disk w; calls := calls w |}.

(** The message the Outlook script is asked to send for an entry of its
    payload. *)
Definition outlookMail (fromAddress : string) (p : OutlookPayload) : Mail :=
  {| mailFrom := fromAddress; mailTo := payloadTo p;
     mailSubject := payloadSubject p; mailText := payloadBody p;
     mailAttachments := payloadAttachments p |}.

(** The result row of an entry that failed with the error [msg]. *)
Definition failedRow (msg : string) (item : QueueItem) : ResultRow :=
  {| resultTo := to item;
     resultFilename := formatAttachmentNames (normalizeEmailAttachments item);
     resultStatus := "failed";
     resultError := msg |}.

(** A status the Outlook script reports. *)
Definition scriptStatus (r : ReportRow) : Prop :=
  reportStatus r = "sent" \/ reportStatus r = "failed" \/ reportStatus r = "skipped".

(* ===================================================================== *)
(** ** SMTP settings of a request: [parseBoolean], [normalizeSmtpConfig]   *)
(* ===================================================================== *)

(** A field of the body of a request: not given, a text, or a boolean. *)
Inductive FormValue :=
  | FormMissing
  | FormText (s : string)
  | FormFlag (b : bool).

(** [parseBoolean]: a boolean is itself; any other value is true when its
    text, trimmed and lower-cased, is one of the five words. *)
Definition parseBoolean (value : FormValue) : bool :=
  match value with
  | FormFlag b => b
  | FormText s =>
      bool_decide (JS.toLowerCase (JS.trim s) ∈ ["1"; "true"; "yes"; "on"; "sim"])
  | FormMissing => false
  end.

(** The fields of the body that [normalizeSmtpConfig] reads ([""] for a
    field that is not given). *)
Record SmtpBody := {
  smtpHost : string;
  smtpPort : string;
  smtpUser : string;
  smtpPass : string;
  smtpFrom : string;
  smtpSecure : FormValue;
}.

Definition normalizeSmtpConfig (body : SmtpBody) : SmtpConfig :=
  {| host := JS.trim (smtpHost body);
     port := JS.trim (smtpPort body);
     user := JS.trim (smtpUser body);
     pass := smtpPass body;
     from := JS.trim (smtpFrom body);
     secure := Some (parseBoolean (smtpSecure body)) |}.

(** [normalizeOutlookFrom] *)
Definition normalizeOutlookFrom (outlookFromField : string) : string :=
  JS.trim outlookFromField.

(** The entry has something to send. *)
Definition hasAttachments (item : QueueItem) : bool :=
  match normalizeEmailAttachments item with
  | [] => false
  | _ :: _ => true
  end.

(** The message [sendEmailsSmtp] hands to the transporter for an entry. *)
Definition smtpMail (options : SmtpOptions) (subject message : string) (item : QueueItem)
  : Mail :=
  {| mailFrom := optFrom options;
     mailTo := to item;
     mailSubject := orElse subject DEFAULT_EMAIL_SUBJECT;
     mailText := orElse message DEFAULT_EMAIL_MESSAGE;
     mailAttachments := normalizeEmailAttachments item |}.

(** The progress callback, when there is one, returns and hands nothing
    to a transport. *)
Definition quietCallback (onProgress : option (Progress -> M unit)) : Prop :=
  forall callback, onProgress = Some callback ->
  forall p w, exists w', callback p w = (Ok tt, w') /\ outbox w' = outbox w.

(** What holds of the loop of [sendEmailsSmtp], started in the world [w0],
    after the entries [done]: the entries with attachments have been
    handed over, in order, and every entry processed is counted as sent
    or has a line in [errors]. *)
Definition handedOver (options : SmtpOptions) (subject message : string)
    (w0 : World) (done : list QueueItem) (st : SmtpLoop) (w : World) : Prop :=
  outbox w
  = (outbox w0
     ++ map (smtpMail options subject message)
          (filter (fun item => hasAttachments item = true) done))%list
  /\ (Z.of_nat (length (loopErrors st)) + loopSent st)%Z = loopProcessed st
  /\ loopProcessed st = Z.of_nat (length done).

(* ===================================================================== *)
(** ** What a runner may change of the registry                            *)
(* ===================================================================== *)

(** A change of a job object that leaves alone what the runner of a job
    never writes: the id, the type, the time of creation, the pause flag
    and the suspension signal. *)
Definition keepsIdentity (g : Job.t -> Job.t) : Prop :=
  forall job,
    Job.id (g job) = Job.id job
    /\ Job.type (g job) = Job.type job
    /\ Job.createdAt (g job) = Job.createdAt job
    /\ Job.paused (g job) = Job.paused job
    /\ Job.pausePromise (g job) = Job.pausePromise job
    /\ Job.resume (g job) = Job.resume job.

(** The registry of [w'] is that of [w] but for such a change of the job
    [jobId], if the registry holds it. *)
Definition onlyOwnJob (jobId : string) (w w' : World) : Prop :=
  exists g, keepsIdentity g /\ jobs w' = alter g jobId (jobs w).

(** The job [jobId], if the registry holds it, has the status [st]. *)
Definition jobHasStatus (jobId : string) (st : JobStatus) (w : World) : Prop :=
  forall job, jobs w !! jobId = Some job -> Job.status job = st.

(* ===================================================================== *)
(** ** The result route                                                    *)
(* ===================================================================== *)

(** The reply of [app.get("/jobs/:id/result")]: a refusal with its HTTP
    code, the archives of a generate job (as they are before they are
    written in base64), or the summary of a send job. *)
Inductive ResultReply :=
  | ResultRefused (httpCode : nat) (msg : string)
  | GenerateArchives (docxZip : list (string * Buffer))
      (pdfZip : option (list (string * Buffer))) (pdfGenerated : bool)
  | SendSummary.

(** The route for the jobs of the registry; what it answers for a send
    job that is done is not looked into. *)
Definition getResult (jobId : string) (jobs : gmap string Job.t) : ResultReply :=
  match jobs !! jobId with
  | None => ResultRefused 404 "Job nao encontrado."
  | Some job =>
      if decide (Job.status job = Done) then
        match Job.type job with
        | Generate =>
            match Job.result job with
            | Some r => GenerateArchives (docxZipBuffer r) (pdfZipBuffer r) (pdfGenerated r)
            | None => ResultRefused 400 "Resultado incompleto."
            end
        | Send => SendSummary
        end
      else ResultRefused 400 "Resultado indisponivel."
  end.

(* ===================================================================== *)
(** ** Escaping: [escapeXml], [escapePowerShellString]                     *)
(* ===================================================================== *)

(** A pattern of one character, replaced by [repl]. *)
Definition matchOneChar (c : ascii) (repl : string) (s : string) : option (nat * string) :=
  match s with
  | String a _ => if Ascii.eqb a c then Some (1, repl) else None
  | EmptyString => None
  end.

(** The text [&quot;]. *)
Definition quoteEntity : string := "&quot;".

(** [escapeXml] on a text: the ampersand first, then the angle brackets
    and the double quote. *)
Definition escapeXml (val : string) : string :=
  JS.replaceAll (matchOneChar doubleQuote quoteEntity)
    (JS.replaceAll (matchOneChar ">" "&gt;")
      (JS.replaceAll (matchOneChar "<" "&lt;")
        (JS.replaceAll (matchOneChar "&" "&amp;") val))).

(** [escapePowerShellString]: every apostrophe (U+0027) is doubled. *)
Definition escapePowerShellString (value : string) : string :=
  JS.replaceAll (matchOneChar "'" "''") value.

(** Read from the left, the apostrophes (U+0027) of [s] come in adjacent
    pairs. *)
Fixpoint quotesPaired (s : string) : bool :=
  match s with
  | EmptyString => true
  | String a r =>
      if Ascii.eqb a "'" then
        match r with
        | String b r' => Ascii.eqb b "'" && quotesPaired r'
        | EmptyString => false
        end
      else quotesPaired r
  end.

(** The text [s] with one apostrophe of every adjacent pair left out. *)
Fixpoint unpairQuotes (s : string) : string :=
  match s with
  | EmptyString => EmptyString
  | String a r =>
      if Ascii.eqb a "'" then
        match r with
        | String _ r' => String a (unpairQuotes r')
        | EmptyString => String a EmptyString
        end
      else String a (unpairQuotes r)
  end.

(** A character that [escapeXml] leaves in a text written between tags or
    in an attribute. *)
Definition plainInXml (c : ascii) : bool :=
  notChar "<" c && notChar ">" c && notChar doubleQuote c.

(* ===================================================================== *)
(** ** Recipients of a cell: [parseRecipients]                             *)
(* ===================================================================== *)

Module Address.

(** The classes of [/[A-Z0-9._%+-]+@[A-Z0-9.-]+\.[A-Z]{2,}/gi]; with the
    flag [i] a letter is one of either case. *)
Definition isLetter (c : ascii) : bool :=
  let n := nat_of_ascii c in
  ((65 <=? n)%nat && (n <=? 90)%nat) || ((97 <=? n)%nat && (n <=? 122)%nat).

Definition isDigit (c : ascii) : bool :=
  let n := nat_of_ascii c in (48 <=? n)%nat && (n <=? 57)%nat.

Definition isLocalChar (c : ascii) : bool :=
  isLetter c || isDigit c || bool_decide (c ∈ ["."; "_"; "%"; "+"; "-"]%char).

Definition isDomainChar (c : ascii) : bool :=
  isLetter c || isDigit c || bool_decide (c ∈ ["."; "-"]%char).

(** Where the run [dom] of domain characters, whose first character has
    the index [k], is split into [[A-Z0-9.-]+] and [\.[A-Z]{2,}]: the
    index of the dot and the number of letters behind it.  The first
    quantifier is greedy, so the last dot that at least one character
    stands before and two letters follow is taken, with all the letters
    that follow it. *)
Fixpoint splitDomain (dom : string) (k : nat) : option (nat * nat) :=
  match dom with
  | EmptyString => None
  | String c r =>
      match splitDomain r (S k) with
      | Some later => Some later
      | None =>
          if (1 <=? k)%nat && Ascii.eqb c "." && (2 <=? JS.spanLength isLetter r)%nat
          then Some (k, JS.spanLength isLetter r)
          else None
      end
  end.

(** The pattern tried at the start of [s]: the length of the match and the
    text matched. *)
Definition matchAddress (s : string) : option (nat * string) :=
  let l := JS.spanLength isLocalChar s in
  if (1 <=? l)%nat && JS.startsWith "@" (JS.drop l s) then
    let rest := JS.drop (S l) s in
    let d := JS.spanLength isDomainChar rest in
    match splitDomain (JS.take d rest) 0 with
    | Some (k, m) =>
        let n := l + 1 + k + 1 + m in
        Some (n, JS.take n s)
    | None => None
    end
  else None.

(** [parseRecipients] on the text of a cell. *)
Definition parseRecipients (text : string) : list string :=
  if negb (JS.truthy (JS.trim text)) then []
  else
    filter (fun item => JS.truthy item = true)
           (map JS.trim (JS.execAll matchAddress text)).

(** An address as the pattern matches it: a local part, the at sign, a
    domain and, behind a dot, at least two letters. *)
Definition wellFormed (a : string) : Prop :=
  exists loc dom tld,
    a = loc +:+ "@" +:+ dom +:+ "." +:+ tld
    /\ loc <> "" /\ everyChar isLocalChar loc = true
    /\ dom <> "" /\ everyChar isDomainChar dom = true
    /\ 2 <= String.length tld /\ everyChar isLetter tld = true.

End Address.


(* ===================================================================== *)
(** ** The send job: [runSendJob]                                          *)
(* ===================================================================== *)

Definition set_emailTotal (n : Z) (j : Job.t) : Job.t :=
  {| Job.id := Job.id j; Job.type := Job.type j; Job.status := Job.status j;
     Job.total := Job.total j; Job.current := Job.current j;
     Job.message := Job.message j; Job.error := Job.error j;
     Job.emailTotal := n; Job.emailSent := Job.emailSent j;
     Job.emailFailed := Job.emailFailed j; Job.paused := Job.paused j;
     Job.pausePromise := Job.pausePromise j; Job.resume := Job.resume j;
     Job.result := Job.result j; Job.createdAt := Job.createdAt j;
     Job.updatedAt := Job.updatedAt j |}.

Definition set_emailSent (n : Z) (j : Job.t) : Job.t :=
  {| Job.id := Job.id j; Job.type := Job.type j; Job.status := Job.status j;
     Job.total := Job.total j; Job.current := Job.current j;
     Job.message := Job.message j; Job.error := Job.error j;
     Job.emailTotal := Job.emailTotal j; Job.emailSent := n;
     Job.emailFailed := Job.emailFailed j; Job.paused := Job.paused j;
     Job.pausePromise := Job.pausePromise j; Job.resume := Job.resume j;
     Job.result := Job.result j; Job.createdAt := Job.createdAt j;
     Job.updatedAt := Job.updatedAt j |}.

Definition set_emailFailed (n : Z) (j : Job.t) : Job.t :=
  {| Job.id := Job.id j; Job.type := Job.type j; Job.status := Job.status j;
     Job.total := Job.total j; Job.current := Job.current j;
     Job.message := Job.message j; Job.error := Job.error j;
     Job.emailTotal := Job.emailTotal j; Job.emailSent := Job.emailSent j;
     Job.emailFailed := n; Job.paused := Job.paused j;
     Job.pausePromise := Job.pausePromise j; Job.resume := Job.resume j;
     Job.result := Job.result j; Job.createdAt := Job.createdAt j;
     Job.updatedAt := Job.updatedAt j |}.

(** The local variables of [runSendJob] that live across rows. *)
Record SendState := {
  sendQueue : list (string * QueueItem);
  sendUsedNames : gmap string (gset string);
  pdfFailures : nat;
  recipientCount : nat;
}.

Definition initialSendState : SendState :=
  {| sendQueue := []; sendUsedNames := ∅; pdfFailures := 0; recipientCount := 0 |}.

(** [uniqueRecipients.forEach] of the row loop, for an attachment that was
    prepared. *)
Definition queueForSend (recipients : list string) (att : Attachment) (st : SendState)
  : SendState :=
  foldl (fun s recipient =>
           let '(uniqueName, used') :=
             ensureUniqueAttachmentName (sendUsedNames s) recipient (filename att) in
           {| sendQueue :=
                queueEmailAttachment (sendQueue s) recipient
                  {| filename := uniqueName; buffer := buffer att |};
              sendUsedNames := used';
              pdfFailures := pdfFailures s;
              recipientCount := recipientCount s |})
        st recipients.

(** The recipients of a row, each address once. *)
Definition rowRecipients (caps : Capabilities) (input : GenerateInput) (row : Row)
  : list string :=
  uniqueRecipients (parseRecipients caps (getRowValue row (emailColumn input))).

(** [job.current = idx + 1; touchJob(job); continue;] *)
Definition skipRow (caps : Capabilities) (jobId : string) (idx : nat) : M unit :=
  updateJob jobId (Job.set_current (idx + 1));;
  touch caps jobId.

(** The body of the row loop of [runSendJob], behind the pause check. *)
Definition sendRow (caps : Capabilities) (jobId : string) (input : GenerateInput)
    (st : SendState) (idxRow : nat * Row) : M SendState :=
  let '(idx, row) := idxRow in
  let data := rowData input row in
  let filename := rowFilename caps input idx row in
  let recipients := rowRecipients caps input row in
  match recipients with
  | [] => skipRow caps jobId idx;; mret st
  | _ :: _ =>
      let st1 :=
        {| sendQueue := sendQueue st; sendUsedNames := sendUsedNames st;
           pdfFailures := pdfFailures st;
           recipientCount := recipientCount st + length recipients |} in
      let failed :=
        {| sendQueue := sendQueue st1; sendUsedNames := sendUsedNames st1;
           pdfFailures := pdfFailures st1 + length recipients;
           recipientCount := recipientCount st1 |} in
      attempt ← external (renderDoc caps) (templateBuffer input, data, placeholders input);
      docBuffer ← orThrow attempt;
      pdfBuffer ← docxBufferToPdf caps docBuffer;
      match pdfBuffer with
      | Some pdf =>
          if isPdfBuffer pdfBuffer then
            let attachName := replaceSuffix ".docx" ".pdf" filename in
            attachment ←
              preparePdfAttachment {| filename := attachName; buffer := pdf |}
                ("row=" +:+ pretty (idx + 1));
            let st2 :=
              match attachment with
              | Some att => queueForSend recipients att st1
              | None => st1
              end in
            updateJob jobId
              (fun job =>
                 Job.set_message
                   ("Processando linha " +:+ pretty (idx + 1) +:+ " de "
                    +:+ pretty (length (rows input)) +:+ ".")
                   (Job.set_current (idx + 1) job));;
            touch caps jobId;;
            mret st2
          else skipRow caps jobId idx;; mret failed
      | None => skipRow caps jobId idx;; mret failed
      end
  end.

(** The row loop of [runSendJob], with the pause check at the head of each
    round as in [processRows]. *)
Definition sendRows (caps : Capabilities) (jobId : string) (input : GenerateInput)
  : M (LoopEnd SendState) :=
  rowLoop jobId (sendRow caps jobId input) (imap pair (rows input)) initialSendState.

Definition NO_RECIPIENT : string := "Nenhum destinatario encontrado.".
Definition NO_PDF : string := "PDF nao foi gerado. Verifique o LibreOffice no servidor.".
Definition NO_ATTACHMENT : string := "Nenhum anexo gerado para envio.".

(** The error of a send job whose queue is empty behind the row loop. *)
Definition emptyQueueMessage (st : SendState) : string :=
  if negb (recipientCount st =? 0)%nat && negb (pdfFailures st =? 0)%nat then NO_PDF
  else if negb (recipientCount st =? 0)%nat then NO_ATTACHMENT
  else NO_RECIPIENT.

(** The progress callback [runSendJob] gives to [sendEmailsSmtp]. *)
Definition sendProgress (caps : Capabilities) (jobId : string) (p : Progress) : M unit :=
  updateJob jobId
    (fun job =>
       Job.set_message
         ("Enviando emails: " +:+ pretty (progressProcessed p) +:+ " de "
          +:+ pretty (progressTotal p) +:+ ".")
         (set_emailFailed (progressFailed p)
            (set_emailSent (progressSent p)
               (set_emailTotal (progressTotal p) job))));;
  touch caps jobId.

(** The object a send job that is done keeps as [job.result]: the counts
    and the errors of the dispatcher, and for [reportBuffer] the rows the
    report is written from ([None] for [null]). *)
Definition sendSummary (r : SendResult) : SendResult :=
  {| sent := sent r; failed := failed r; errors := errors r;
     results :=
       match results r with
       | Some (row :: rest) => Some (row :: rest)
       | _ => None
       end |}.

(** [runSendJob].  The job record of this development keeps the result of
    a generate job only, so the object assigned to [job.result] is what
    the run returns here: [None] when the job ends in error.  The run is
    held at the head of a round of the row loop or before the dispatch
    when the job is paused there. *)
Definition runSendJob (caps : Capabilities) (jobId : string) (input : GenerateInput)
  : M (RunEnd (option SendResult)) :=
  updateJob jobId
    (fun job =>
       Job.set_message "Gerando PDFs."
         (Job.set_current 0 (Job.set_total (length (rows input)) job)));;
  touch caps jobId;;
  tryCatch
    (p ← sendRows caps jobId input;
     match p with
     | HeldAt _ => mret Suspended
     | Finished st =>
         let emailsToSend := map snd (sendQueue st) in
         match emailsToSend with
         | [] =>
             updateJob jobId
               (fun job => Job.set_error (emptyQueueMessage st) (Job.set_status Error job));;
             touch caps jobId;;
             mret (Settled None)
         | _ :: _ =>
             updateJob jobId
               (fun job =>
                  Job.set_message "Enviando emails."
                    (set_emailFailed 0
                       (set_emailSent 0
                          (set_emailTotal (Z.of_nat (length emailsToSend)) job))));;
             touch caps jobId;;
             held ← waitIfPaused jobId;
             if (held : bool) then mret Suspended
             else
               result ←
                 (if String.eqb (JS.toLowerCase (orElse (emailMode input) "smtp")) "outlook"
                  then
                    r ← sendEmailsOutlook caps emailsToSend (emailSubject input)
                          (emailMessage input) (outlookFrom input);
                    updateJob jobId
                      (fun job =>
                         Job.set_message "Envio finalizado."
                           (set_emailFailed (failed r) (set_emailSent (sent r) job)));;
                    touch caps jobId;;
                    mret r
                  else
                    sendEmailsSmtp caps emailsToSend (emailSubject input)
                      (emailMessage input) (smtpConfig input)
                      (Some (sendProgress caps jobId)));
               updateJob jobId
                 (fun job => Job.set_message "Concluido." (Job.set_status Done job));;
               touch caps jobId;;
               mret (Settled (Some (sendSummary result)))
         end
     end)
    (fun msg =>
       updateJob jobId
         (fun job =>
            Job.set_error (orElse msg "Erro ao enviar emails") (Job.set_status Error job));;
       touch caps jobId;;
       mret (Settled None)).

(** The recipient parser gives no empty address, as the filter at the end
    of [parseRecipients] sees to. *)
Definition namesRecipients (caps : Capabilities) : Prop :=
  forall cell, Forall (fun a => a <> "") (parseRecipients caps cell).

(** No row of the input has a recipient. *)
Definition noRecipients (caps : Capabilities) (input : GenerateInput) : Prop :=
  Forall (fun row => rowRecipients caps input row = []) (rows input).

(** The number of recipients of the rows [done], a recipient counted once
    for each row that names it. *)
Definition recipientTotal (caps : Capabilities) (input : GenerateInput) (done : list Row)
  : nat :=
  sum_list_with (fun row => length (rowRecipients caps input row)) done.

(** As long as nothing is queued, every recipient counted is counted as a
    failed conversion too. *)
Definition countersAgree (st : SendState) : Prop :=
  sendQueue st = [] -> pdfFailures st = recipientCount st.

(** How the variables of the row loop stand behind the rows [done], when
    they were [st] before them. *)
Definition afterRows (caps : Capabilities) (input : GenerateInput)
    (st : SendState) (done : list Row) (st' : SendState) : Prop :=
  recipientCount st' = recipientCount st + recipientTotal caps input done
  /\ (Forall (fun row => rowRecipients caps input row = []) done -> st' = st)
  /\ (namesRecipients caps -> countersAgree st -> countersAgree st')
  /\ (neverVerified caps ->
      sendQueue st' = sendQueue st
      /\ pdfFailures st' = pdfFailures st + recipientTotal caps input done).

(** The steps from [w] to [w'] changed no job but [jobId] and handed
    nothing to a mail transport. *)
Definition ownAndSilent (jobId : string) (w w' : World) : Prop :=
  onlyOwnJob jobId w w' /\ outbox w' = outbox w.

(** The job [jobId] of the registry ended in error with the message
    [msg]. *)
Definition endedInError (jobId msg : string) (w : World) : Prop :=
  exists job, jobs w !! jobId = Some job /\ Job.status job = Error /\ Job.error job = msg.

(** What a failure thrown in the row loop over [done] tells: the renderer
    threw or a temporary folder was refused, in a row with a recipient. *)
Definition thrownInLoop (caps : Capabilities) (input : GenerateInput) (done : list Row)
  : Prop :=
  ~ (rendersAlways caps /\ tempDirAlways caps)
  /\ ~ Forall (fun row => rowRecipients caps input row = []) done.

(** The status a send job ends with, by what its run returns. *)
Definition statusOf (r : option SendResult) : JobStatus :=
  match r with
  | Some _ => Done
  | None => Error
  end.

(** The dispatch of a send job goes through Outlook. *)
Definition viaOutlook (input : GenerateInput) : bool :=
  String.eqb (JS.toLowerCase (orElse (emailMode input) "smtp")) "outlook".

(* ===================================================================== *)
(** ** Templates written as texts and placeholders                         *)
(* ===================================================================== *)

(** The text [{{inner}}] followed by [rest]. *)
Definition placeholderAt (inner rest : string) : string :=
  String "{" (String "{" (inner +:+ String "}" (String "}" rest))).

(** A document made of pieces: each piece is a text and, behind it, what
    stands between a pair of double braces; [tail] is the text behind the
    last placeholder. *)
Fixpoint templateOf (pieces : list (string * string)) (tail : string) : string :=
  match pieces with
  | [] => tail
  | (text, inner) :: rest => text +:+ placeholderAt inner (templateOf rest tail)
  end.

(** Braces occur in the document only as the pairs around its
    placeholders. *)
Definition wellBraced (pieces : list (string * string)) (tail : string) : Prop :=
  Forall (fun piece => everyChar notBrace (fst piece) = true
                       /\ everyChar notBrace (snd piece) = true) pieces
  /\ everyChar notBrace tail = true.

(** The name read from what stands between the braces: the tags are taken
    out, and the white space around what is left. *)
Definition recomposed (inner : string) : string :=
  JS.trim (stripTags (JS.trim inner)).

(** The pieces with [f] applied to what stands between the braces. *)
Definition mapInner (f : string -> string) (pieces : list (string * string))
  : list (string * string) :=
  map (fun piece => (fst piece, f (snd piece))) pieces.

(** The names of the placeholders of a document given by its pieces, the
    empty ones left out. *)
Definition namesOf (pieces : list (string * string)) : list string :=
  filter (fun name => name <> "") (map (fun piece => recomposed (snd piece)) pieces).

Fixpoint hasChar (c : ascii) (s : string) : bool :=
  match s with
  | EmptyString => false
  | String a r => Ascii.eqb a c || hasChar c r
  end.

(** Every [<] of the text is followed, later in the text, by a [>]. *)
Fixpoint tagsClosed (s : string) : bool :=
  match s with
  | EmptyString => true
  | String c r => (if Ascii.eqb c "<" then hasChar ">" r else true) && tagsClosed r
  end.

(** The counters of the job [jobId] that the status route reports. *)
Definition emailCounters (jobId : string) (total sent failed : Z) (w : World) : Prop :=
  forall job, jobs w !! jobId = Some job ->
    Job.emailTotal job = total /\ Job.emailSent job = sent /\ Job.emailFailed job = failed.

(** A change of a job object that leaves its email counters alone. *)
Definition keepsCounters (g : Job.t -> Job.t) : Prop :=
  forall job,
    Job.emailTotal (g job) = Job.emailTotal job
    /\ Job.emailSent (g job) = Job.emailSent job
    /\ Job.emailFailed (g job) = Job.emailFailed job.
(* ===================================================================== *)
(** * Concrete inputs used by the examples below                           *)
(* ===================================================================== *)

(** A finished job that was paused while its last row was in work: the
    [paused] flag is still set, and a resume request does not bring it back
    to running. *)
Definition finishedWhilePaused : Job.t :=
  Job.set_paused true (Job.set_status Done (createJob "j1" Generate 10)).


(** A server on Linux with the given LibreOffice and browser behaviour,
    name expansion and recipient parser; rendering gives a fixed document
    and nothing else fails. *)
Definition docBytes : Buffer := [x50; x4b; x03; x04].

Definition linuxServer
    (libre : nat -> Buffer -> Attempt (option Buffer))
    (browser : nat -> Buffer -> Attempt Buffer)
    (names : string -> nat -> Row -> string)
    (recipients : CellValue -> list string) : Capabilities :=
  {| platform := "linux";
     env := {| SMTP_HOST := ""; SMTP_PORT := ""; SMTP_USER := ""; SMTP_PASS := "";
               SMTP_FROM := "" |};
     dateNow := fun n _ => Z.of_nat n;
     toNumber := fun _ => 587%Z;
     msOffice := fun _ _ => OfficeRan (Returned None) None;
     libreOffice := libre;
     puppeteerPdf := browser;
     renderDoc := fun _ _ => Returned docBytes;
     expandName := names;
     parseRecipients := recipients;
     writePdf := fun _ _ => None;
     sendMail := fun _ _ => None;
     outlook := fun _ _ => OutlookRan (Returned []) None |}.

(** ["%PDF-1.4"] and ["<html>"]. *)
Definition goodPdf : Buffer := [x25; x50; x44; x46; x2d; x31; x2e; x34].
Definition notPdf : Buffer := [x3c; x68; x74; x6d; x6c; x3e].

(** LibreOffice answers with a page of HTML, the browser would print a
    PDF. *)
Definition garbageLibreServer : Capabilities :=
  linuxServer (fun _ _ => Returned (Some notPdf)) (fun _ _ => Returned goodPdf)
    (fun template _ _ => template) (fun _ => []).

(** A row whose name cell has white space around the text, a line break
    written CR LF and a BEL character. *)
Definition untidyName : string :=
  String " " (String "A" (String "n" (String "a" (String "013" (String "010"
    (String "007" (String " " EmptyString))))))).

Definition untidyRow : Row := [("Nome", CellString untidyName); ("Cidade", CellOther "42")].

Definition nameEntry : MappingEntry.t :=
  {| MappingEntry.placeholder := "{{nome}}"; MappingEntry.column := "nome";
     MappingEntry.prefix := ""; MappingEntry.group := "" |}.

(** A row whose address header is written in small letters with a cedilla
    (U+00E7), asked for in capitals (U+00C7). *)
Definition addressHeader : string :=
  String "E" (String "n" (String "d" (String "e" (String "r" (String "e"
    (String "231" (String "o" EmptyString))))))).

Definition addressAsked : string :=
  String "E" (String "N" (String "D" (String "E" (String "R" (String "E"
    (String "199" (String "O" EmptyString))))))).

Definition addressRow : Row :=
  [("Nome", CellString "Ana"); (addressHeader, CellString "Rua A")].

Definition addressEntry : MappingEntry.t :=
  {| MappingEntry.placeholder := "{{endereco}}"; MappingEntry.column := addressAsked;
     MappingEntry.prefix := ""; MappingEntry.group := "" |}.

(** Two queued recipients, each with one PDF. *)
Definition twoRecipients : list QueueItem :=
  [ {| to := "ana@example.com";
       attachments := [{| filename := "doc_1.pdf"; buffer := goodPdf |}];
       itemFilename := ""; itemBuffer := None |};
    {| to := "rui@example.com";
       attachments := [{| filename := "doc_2.pdf"; buffer := goodPdf |}];
       itemFilename := ""; itemBuffer := None |} ].

Definition plainLinuxServer : Capabilities :=
  linuxServer (fun _ _ => Returned None) (fun _ _ => Threw "no browser")
    (fun template _ _ => template) (fun _ => []).

(** No SMTP settings in the request (nor in the environment of
    [plainLinuxServer]). *)
Definition noSmtpConfig : SmtpConfig :=
  {| host := ""; port := ""; user := ""; pass := ""; from := ""; secure := None |}.

(** A server whose SMTP transport accepts the first message it is given
    and rejects every later one. *)
Definition flakyMailServer : Capabilities :=
  {| platform := "linux";
     env := {| SMTP_HOST := "smtp.example.com"; SMTP_PORT := ""; SMTP_USER := "robot";
               SMTP_PASS := "secret"; SMTP_FROM := "" |};
     dateNow := fun n _ => Z.of_nat n;
     toNumber := fun _ => 587%Z;
     msOffice := fun _ _ => OfficeRan (Returned None) None;
     libreOffice := fun _ _ => Returned (Some goodPdf);
     puppeteerPdf := fun _ _ => Threw "no browser";
     renderDoc := fun _ _ => Returned docBytes;
     expandName := fun template _ _ => template;
     parseRecipients := fun _ => [];
     writePdf := fun _ _ => None;
     sendMail := fun n _ => if (n =? 0)%nat then None else Some "mailbox full";
     outlook := fun _ _ => OutlookRan (Returned []) None |}.

(** A cell holding one address is read as that address. *)
Definition wholeCell (cell : CellValue) : list string :=
  match cell with
  | CellString s => if JS.truthy s then [s] else []
  | _ => []
  end.

(** LibreOffice answers with a page of HTML and the browser is not asked;
    the address of a row is the whole cell. *)
Definition garbageLibreMailServer : Capabilities :=
  linuxServer (fun _ _ => Returned (Some notPdf)) (fun _ _ => Returned goodPdf)
    (fun template _ _ => template) wholeCell.

(** No converter works: LibreOffice gives nothing and the browser does not
    start. *)
Definition noConverterServer : Capabilities :=
  linuxServer (fun _ _ => Returned None) (fun _ _ => Threw "no browser")
    (fun template _ _ => template) wholeCell.

Definition lettersInput (rs : list Row) : GenerateInput :=
  {| rows := rs; templateBuffer := docBytes; mapping := [nameEntry];
     placeholders := ["nome"]; nameTemplate := "carta.docx"; primaryPlaceholder := "";
     emailColumn := "Email"; emailSubject := ""; emailMessage := "";
     emailMode := "smtp"; smtpConfig := noSmtpConfig; outlookFrom := "" |}.

Definition anaRow : Row :=
  [("Nome", CellString "Ana"); ("Email", CellString "ana@example.com")].

Definition ruiRow : Row :=
  [("Nome", CellString "Rui"); ("Email", CellString "")].

(** The world at the start of job [j1]. *)
Definition startOfJob : World :=
  {| jobs := {[ "j1" := createJob "j1" Generate 0 ]}; console := []; outbox := [];
     disk := []; calls := 0 |}.

(** Three partners in one group; the second cell repeats the first in
    another case and with spaces around it. *)
Definition groupEntry (ph col pre : string) : MappingEntry.t :=
  {| MappingEntry.placeholder := ph; MappingEntry.column := col;
     MappingEntry.prefix := pre; MappingEntry.group := "socios" |}.

Definition partnersMapping : list MappingEntry.t :=
  [ groupEntry "{{s1}}" "Socio1" "Sr. ";
    groupEntry "{{s2}}" "Socio2" "Sra. ";
    groupEntry "{{s3}}" "Socio3" "Dr. " ].

Definition repeatedPartnerRow : Row :=
  [("Socio1", CellString "Ana"); ("Socio2", CellString " ANA "); ("Socio3", CellString "Rui")].

Definition threePartnersRow : Row :=
  [("Socio1", CellString "Ana"); ("Socio2", CellString "Bia"); ("Socio3", CellString "Caio")].

(** The same group without prefixes. *)
Definition barePartnersMapping : list MappingEntry.t :=
  [ groupEntry "{{s1}}" "Socio1" "";
    groupEntry "{{s2}}" "Socio2" "";
    groupEntry "{{s3}}" "Socio3" "" ].
(** A job as [createJob] makes it. *)
Definition freshJob : Job.t := createJob "j1" Generate 1000.

(** The names used so far for the attachments of one recipient. *)
Definition usedByAna : gmap string (gset string) :=
  {[ "ana@x.org" := {[ "carta.pdf"; "carta_2.pdf" ]} ]}.

(** The name JOAO with a tilde on the A, in capitals (U+00C3) and in small
    letters (U+00E3), and a recipient for whom the latter is taken. *)
Definition joaoUpper : string :=
  String "J" (String "O" (String "195" (String "O" EmptyString))).

Definition joaoLower : string :=
  String "j" (String "o" (String "227" (String "o" EmptyString))).


Definition usedByJoao : gmap string (gset string) :=
  {[ "ana@x.org" := {[ joaoLower +:+ ".pdf" ]} ]}.

(** LibreOffice prints a PDF; the documents of the first two rows are
    named [a:b.docx] and [a?b.docx]; the address of a row is the whole
    cell. *)
Definition colonNamesServer : Capabilities :=
  linuxServer (fun _ _ => Returned (Some goodPdf)) (fun _ _ => Threw "no browser")
    (fun _ idx _ => if (idx =? 0)%nat then "a:b.docx" else "a?b.docx") wholeCell.

Definition anaUpperRow : Row :=
  [("Nome", CellString "Ana"); ("Email", CellString "ANA@example.com")].

(** A paragraph of a document with a stray closing brace and no opening
    one. *)
Definition plainParagraph : string := "<w:p><w:t>Prezada Ana }</w:t></w:p>".

(** A server on Windows whose Outlook script stops with an error. *)
Definition brokenOutlookServer : Capabilities :=
  {| platform := "win32";
     env := {| SMTP_HOST := ""; SMTP_PORT := ""; SMTP_USER := ""; SMTP_PASS := "";
               SMTP_FROM := "" |};
     dateNow := fun n _ => Z.of_nat n;
     toNumber := fun _ => 587%Z;
     msOffice := fun _ _ => OfficeRan (Returned None) None;
     libreOffice := fun _ _ => Returned None;
     puppeteerPdf := fun _ _ => Threw "no browser";
     renderDoc := fun _ _ => Returned docBytes;
     expandName := fun template _ _ => template;
     parseRecipients := fun _ => [];
     writePdf := fun _ _ => None;
     sendMail := fun _ _ => None;
     outlook := fun _ _ => OutlookRan (Threw "Outlook nao instalado") None |}.

(** A request that names a mail server on port 465 and does not tick the
    box for a secure connection. *)
Definition port465Body : SmtpBody :=
  {| smtpHost := " smtp.example.com "; smtpPort := "465"; smtpUser := "robot";
     smtpPass := " secret "; smtpFrom := ""; smtpSecure := FormMissing |}.

(** A server that reads port numbers. *)
Definition portReadingServer : Capabilities :=
  {| platform := "linux";
     env := {| SMTP_HOST := "mail.internal"; SMTP_PORT := "25"; SMTP_USER := "env-user";
               SMTP_PASS := "env-pass"; SMTP_FROM := "noreply@example.com" |};
     dateNow := fun n _ => Z.of_nat n;
     toNumber := fun text => if String.eqb text "465" then 465%Z else 25%Z;
     msOffice := fun _ _ => OfficeRan (Returned None) None;
     libreOffice := fun _ _ => Returned None;
     puppeteerPdf := fun _ _ => Threw "no browser";
     renderDoc := fun _ _ => Returned docBytes;
     expandName := fun template _ _ => template;
     parseRecipients := fun _ => [];
     writePdf := fun _ _ => None;
     sendMail := fun _ _ => None;
     outlook := fun _ _ => OutlookRan (Returned []) None |}.

(** An entry with a prefix and no group, and a row whose cell for it is
    blank. *)
Definition cpfEntry : MappingEntry.t :=
  {| MappingEntry.placeholder := "cpf"; MappingEntry.column := "CPF";
     MappingEntry.prefix := "CPF: "; MappingEntry.group := "" |}.

Definition blankCpfRow : Row := [("Nome", CellString "Ana"); ("CPF", CellString "  ")].

(** The same with a cell that holds a no-break space (U+00A0) only. *)
Definition nbspCpfRow : Row :=
  [("Nome", CellString "Ana"); ("CPF", CellString (String "160" EmptyString))].

(** A server whose renderer rejects every template. *)
Definition brokenRendererServer : Capabilities :=
  {| platform := "linux";
     env := {| SMTP_HOST := ""; SMTP_PORT := ""; SMTP_USER := ""; SMTP_PASS := "";
               SMTP_FROM := "" |};
     dateNow := fun n _ => Z.of_nat n;
     toNumber := fun _ => 587%Z;
     msOffice := fun _ _ => OfficeRan (Returned None) None;
     libreOffice := fun _ _ => Returned (Some goodPdf);
     puppeteerPdf := fun _ _ => Threw "no browser";
     renderDoc := fun _ _ => Threw "Corrupted zip";
     expandName := fun template _ _ => template;
     parseRecipients := wholeCell;
     writePdf := fun _ _ => None;
     sendMail := fun _ _ => None;
     outlook := fun _ _ => OutlookRan (Returned []) None |}.


(** A Windows server on which the temporary folder of the Word conversion
    cannot be made. *)
Definition noTempDirServer : Capabilities :=
  {| platform := "win32";
     env := {| SMTP_HOST := ""; SMTP_PORT := ""; SMTP_USER := ""; SMTP_PASS := "";
               SMTP_FROM := "" |};
     dateNow := fun n _ => Z.of_nat n;
     toNumber := fun _ => 587%Z;
     msOffice := fun _ _ => OfficeTempDirError "ENOSPC: no space left on device";
     libreOffice := fun _ _ => Returned (Some goodPdf);
     puppeteerPdf := fun _ _ => Threw "no browser";
     renderDoc := fun _ _ => Returned docBytes;
     expandName := fun template _ _ => template;
     parseRecipients := wholeCell;
     writePdf := fun _ _ => None;
     sendMail := fun _ _ => None;
     outlook := fun _ _ => OutlookRan (Returned []) None |}.

(** The world at the start of the send job [j1]. *)
Definition startOfSendJob : World :=
  {| jobs := {[ "j1" := createJob "j1" Send 0 ]}; console := []; outbox := [];
     disk := []; calls := 0 |}.

(** The world in which the job [j1] was paused before its run began. *)
Definition pausedStartOfJob : World :=
  {| jobs := {[ "j1" := pauseJob 5 (createJob "j1" Generate 0) ]}; console := [];
     outbox := []; disk := []; calls := 0 |}.

(** The world in which the send job [j1] was paused before its run began. *)
Definition pausedStartOfSendJob : World :=
  {| jobs := {[ "j1" := pauseJob 5 (createJob "j1" Send 0) ]}; console := [];
     outbox := []; disk := []; calls := 0 |}.
(* ===================================================================== *)
(** * Properties                                                           *)
(* ===================================================================== *)

(** ** Job registry *)

Section Registry.

Implicit Types (jobs : gmap string Job.t) (job : Job.t) (r : Request).

Lemma isTerminal_spec (st : JobStatus) :
  isTerminal st = true <-> st = Done \/ st = Error.
Proof. destruct st; simpl; intuition congruence. Qed.

Lemma postPause_terminal jobs jobId job now :
  jobs !! jobId = Some job ->
  isTerminal (Job.status job) = true ->
  postPause jobId now jobs = (jobs, {| code := 200; body := StatusBody (Job.status job) |}).
Proof. intros Hjob Hterm. unfold postPause. now rewrite Hjob, Hterm. Qed.

Lemma postResume_terminal jobs jobId job now :
  jobs !! jobId = Some job ->
  isTerminal (Job.status job) = true ->
  postResume jobId now jobs = (jobs, {| code := 200; body := StatusBody (Job.status job) |}).
Proof. intros Hjob Hterm. unfold postResume. now rewrite Hjob, Hterm. Qed.

(** A request for another job, or for an unknown job, does not touch
    this one either. *)
Lemma handle_keeps_terminal jobs r jobId job :
  jobs !! jobId = Some job ->
  isTerminal (Job.status job) = true ->
  handle jobs r !! jobId = Some job.
Proof.
  intros Hjob Hterm.
  destruct r as [i now | i now]; simpl.
  - destruct (decide (i = jobId)) as [-> | Hne].
    + now rewrite (postPause_terminal _ _ _ _ Hjob Hterm).
    + unfold postPause. destruct (jobs !! i) as [other |]; [| exact Hjob].
      destruct (isTerminal (Job.status other)); simpl; [exact Hjob |].
      now rewrite lookup_insert_ne.
  - destruct (decide (i = jobId)) as [-> | Hne].
    + now rewrite (postResume_terminal _ _ _ _ Hjob Hterm).
    + unfold postResume. destruct (jobs !! i) as [other |]; [| exact Hjob].
      destruct (isTerminal (Job.status other)); simpl; [exact Hjob |].
      now rewrite lookup_insert_ne.
Qed.

Lemma handleAll_keeps_terminal rs : forall jobs jobId job,
  jobs !! jobId = Some job ->
  isTerminal (Job.status job) = true ->
  handleAll jobs rs !! jobId = Some job.
Proof.
  induction rs as [| r rs IH]; intros jobs jobId job Hjob Hterm; simpl.
  - exact Hjob.
  - apply IH; [| exact Hterm]. now apply handle_keeps_terminal.
Qed.

(** C5. A pause or resume request for a job whose status is done or
    error answers the current status and leaves the registry as it is;
    after any sequence of pause and resume requests (for this job or for
    others) the job is still the same, and so is its status. *)
Theorem C5_terminal_job_ignores_pause_and_resume jobs jobId job :
  jobs !! jobId = Some job ->
  Job.status job = Done \/ Job.status job = Error ->
  (forall now, postPause jobId now jobs
               = (jobs, {| code := 200; body := StatusBody (Job.status job) |}))
  /\ (forall now, postResume jobId now jobs
                  = (jobs, {| code := 200; body := StatusBody (Job.status job) |}))
  /\ (forall rs, handleAll jobs rs !! jobId = Some job)
  /\ (forall rs, Job.status <$> handleAll jobs rs !! jobId = Some (Job.status job)).
Proof.
  intros Hjob Hst. apply isTerminal_spec in Hst.
  repeat split; intros.
  - now apply postPause_terminal.
  - now apply postResume_terminal.
  - now apply handleAll_keeps_terminal.
  - now rewrite (handleAll_keeps_terminal rs _ _ _ Hjob Hst).
Qed.

End Registry.

Lemma C5_witness :
  let jobs : gmap string Job.t := {[ "j1" := finishedWhilePaused ]} in
  postResume "j1" 20 jobs
    = (jobs, {| code := 200; body := StatusBody Done |})
  /\ handleAll jobs [ResumeRequest "j1" 20; PauseRequest "j1" 21; ResumeRequest "j2" 22]
       !! "j1" = Some finishedWhilePaused.
Proof.
  intros jobs.
  assert (Hjob : jobs !! "j1" = Some finishedWhilePaused) by apply lookup_singleton_eq.
  destruct (C5_terminal_job_ignores_pause_and_resume jobs "j1" finishedWhilePaused Hjob
              (or_introl eq_refl)) as (_ & Hresume & Hall & _).
  split; [apply Hresume | apply Hall].
Defined.

(** ** Computations *)

Lemma bind_ok {A B} (c : M A) (k : A -> M B) w a w' :
  c w = (Ok a, w') -> (c ≫= k) w = k a w'.
Proof. intros H. unfold mbind, M_bind, bind. now rewrite H. Qed.

Lemma bind_throw {A B} (c : M A) (k : A -> M B) w msg w' :
  c w = (Throw msg, w') -> (c ≫= k) w = (Throw msg, w').
Proof. intros H. unfold mbind, M_bind, bind. now rewrite H. Qed.

Lemma bind_inv_ok {A B} (c : M A) (k : A -> M B) w b w' :
  (c ≫= k) w = (Ok b, w') ->
  exists a w1, c w = (Ok a, w1) /\ k a w1 = (Ok b, w').
Proof.
  unfold mbind, M_bind, bind. destruct (c w) as [[a | msg] w1]; intros H.
  - now exists a, w1.
  - discriminate.
Qed.

Lemma mret_eq {A} (a : A) w : (mret a : M A) w = (Ok a, w).
Proof. reflexivity. Qed.

(** ** Conversion chain *)

Section Conversion.

Variable caps : Capabilities.

(** The caller's check: the first four bytes are those of ["%PDF"]. *)
Lemma isPdfBuffer_spec (r : option Buffer) :
  isPdfBuffer r = true <-> exists rest, r = Some (pdfMagic ++ rest)%list.
Proof.
  destruct r as [buf |]; unfold isPdfBuffer.
  - destruct (length buf <? 4)%nat eqn:Hlen.
    + split; [discriminate |]. intros [rest [= ->]].
      cbn in Hlen. discriminate.
    + rewrite bool_decide_eq_true. split.
      * intros Htake. exists (drop 4 buf).
        now rewrite <- Htake, take_drop.
      * intros [rest [= ->]]. reflexivity.
  - split; [discriminate | intros [rest [=]]].
Qed.

Lemma nonEmptyOrNull_some (pdf out : Buffer) :
  nonEmptyOrNull pdf = Some out -> out = pdf /\ pdf <> [].
Proof. destruct pdf; simpl; [discriminate |]. intros [= <-]. split; [reflexivity | discriminate]. Qed.

(** A result of the Microsoft Office backend is never empty. *)
Lemma convertWithMsOffice_some buffer w pdf w' :
  convertWithMsOffice caps buffer w = (Ok (Some pdf), w') -> pdf <> [].
Proof.
  unfold convertWithMsOffice.
  destruct (negb (String.eqb (platform caps) "win32")); [discriminate |].
  unfold mbind, M_bind, bind, external, throw, consoleError, consoleWarn, consoleLog, mret, M_ret, ret.
  destruct (msOffice caps (calls w) buffer) as [msg | [msg | [out |]] [cmsg |]];
    try discriminate; intros [= Hn _];
    now destruct (nonEmptyOrNull_some _ _ Hn) as [-> ?].
Qed.

(** A result of the LibreOffice backend is never empty. *)
Lemma convertWithLibreOffice_some buffer w pdf w' :
  convertWithLibreOffice caps buffer w = (Ok (Some pdf), w') -> pdf <> [].
Proof.
  unfold convertWithLibreOffice.
  unfold mbind, M_bind, bind, external, consoleError, consoleLog, mret, M_ret, ret.
  destruct (libreOffice caps (calls w) buffer) as [msg | [out |]];
    try discriminate; intros [= Hn _];
    now destruct (nonEmptyOrNull_some _ _ Hn) as [-> ?].
Qed.

(** LibreOffice and Puppeteer never throw. *)
Lemma convertWithLibreOffice_returns buffer w :
  exists r w', convertWithLibreOffice caps buffer w = (Ok r, w').
Proof.
  unfold convertWithLibreOffice.
  unfold mbind, M_bind, bind, external, consoleError, consoleLog, mret, M_ret, ret.
  destruct (libreOffice caps (calls w) buffer) as [msg | [out |]]; eauto.
Qed.

Lemma convertWithPuppeteer_returns buffer w :
  exists r w', convertWithPuppeteer caps buffer w = (Ok r, w').
Proof.
  unfold convertWithPuppeteer.
  unfold mbind, M_bind, bind, external, consoleError, consoleLog, mret, M_ret, ret.
  destruct (puppeteerPdf caps (calls w) buffer) as [msg | out]; eauto.
Qed.

Lemma convertWithMsOffice_returns buffer w :
  officeTempDirOk caps buffer ->
  exists r w', convertWithMsOffice caps buffer w = (Ok r, w').
Proof.
  intros Hok. unfold convertWithMsOffice.
  destruct (String.eqb (platform caps) "win32") eqn:Hp; simpl; [| eauto].
  apply String.eqb_eq in Hp. specialize (Hok Hp (calls w)).
  unfold mbind, M_bind, bind, external, throw, consoleError, consoleWarn, consoleLog, mret, M_ret, ret.
  destruct (msOffice caps (calls w) buffer) as [msg | [msg | [out |]] [cmsg |]]; eauto.
  now destruct (Hok msg).
Qed.

End Conversion.

(** C1 (as amended). The chain asks Microsoft Office, LibreOffice and the
    browser in this order; it moves on only when the backend before gave no
    result, and returns the first result it gets, which is not empty when
    it comes from one of the first two.  The chain itself does not look at
    the bytes: the signature check is the caller's [isPdfBuffer], which
    holds exactly for a buffer that starts with the four bytes of "%PDF". *)
Theorem C1_chain_returns_first_result (caps : Capabilities) (buffer : Buffer) (w : World) :
  officeTempDirOk caps buffer ->
  exists r w',
    docxBufferToPdf caps buffer w = (Ok r, w')
    /\ ((exists pdf,
           convertWithMsOffice caps buffer w = (Ok (Some pdf), w')
           /\ r = Some pdf /\ pdf <> [])
        \/ (exists w1 pdf,
              convertWithMsOffice caps buffer w = (Ok None, w1)
              /\ convertWithLibreOffice caps buffer w1 = (Ok (Some pdf), w')
              /\ r = Some pdf /\ pdf <> [])
        \/ (exists w1 w2 w3,
              convertWithMsOffice caps buffer w = (Ok None, w1)
              /\ convertWithLibreOffice caps buffer w1 = (Ok None, w2)
              /\ consoleWarn "Gerando PDF via Puppeteer; o layout pode divergir do DOCX." w2
                 = (Ok tt, w3)
              /\ convertWithPuppeteer caps buffer w3 = (Ok r, w')))
    /\ (isPdfBuffer r = true <-> exists rest, r = Some (pdfMagic ++ rest)%list).
Proof.
  intros Hok.
  destruct (convertWithMsOffice_returns caps buffer w Hok) as (ms & w1 & Hms).
  unfold docxBufferToPdf. rewrite (bind_ok _ _ _ _ _ Hms).
  destruct ms as [pdf |].
  - exists (Some pdf), w1. split; [reflexivity |]. split; [| apply isPdfBuffer_spec].
    left. exists pdf. repeat split; [exact Hms |].
    now apply (convertWithMsOffice_some caps buffer w pdf w1).
  - destruct (convertWithLibreOffice_returns caps buffer w1) as (lo & w2 & Hlo).
    rewrite (bind_ok _ _ _ _ _ Hlo).
    destruct lo as [pdf |].
    + exists (Some pdf), w2. split; [reflexivity |]. split; [| apply isPdfBuffer_spec].
      right; left. exists w1, pdf. repeat split; [exact Hms | exact Hlo |].
      now apply (convertWithLibreOffice_some caps buffer w1 pdf w2).
    + destruct (consoleWarn "Gerando PDF via Puppeteer; o layout pode divergir do DOCX." w2)
        as [u w3] eqn:Hwarn.
      assert (u = Ok tt) as -> by (unfold consoleWarn, consoleLog in Hwarn; congruence).
      rewrite (bind_ok _ _ _ _ _ Hwarn).
      destruct (convertWithPuppeteer_returns caps buffer w3) as (r & w' & Hpu).
      exists r, w'. split; [exact Hpu |]. split; [| apply isPdfBuffer_spec].
      right; right. exists w1, w2, w3. repeat split; assumption.
Qed.

Lemma C1_witness :
  exists r w',
    docxBufferToPdf garbageLibreServer docBytes emptyWorld = (Ok r, w')
    /\ r = Some notPdf /\ calls w' = 1.
Proof.
  assert (Hok : officeTempDirOk garbageLibreServer docBytes) by (intros H; discriminate H).
  destruct (C1_chain_returns_first_result garbageLibreServer docBytes emptyWorld Hok)
    as (r & w' & Hrun & _ & _).
  exists r, w'. split; [exact Hrun |].
  vm_compute in Hrun. injection Hrun as <- <-. split; reflexivity.
Defined.

(** C1 (as stated) fails: LibreOffice hands back a non-empty buffer that is
    not a PDF; the chain returns it without asking the browser, which would
    have printed a PDF.  A chain that verified each result would have
    returned the browser's PDF. *)
Lemma C1_counterexample :
  fst (docxBufferToPdf garbageLibreServer docBytes emptyWorld) = Ok (Some notPdf)
  /\ isPdfBuffer (Some notPdf) = false
  /\ calls (snd (docxBufferToPdf garbageLibreServer docBytes emptyWorld)) = 1
  /\ fst (docxBufferToPdf_verified garbageLibreServer docBytes emptyWorld) = Ok (Some goodPdf)
  /\ isPdfBuffer (Some goodPdf) = true.
Proof. vm_compute. repeat split. Qed.

(** ** Row resolver: cell lookup and sanitisation *)

Section CellLookup.

Implicit Types (row : Row) (k name : string) (v : CellValue).

Lemma ownProperty_Some row name v :
  ownProperty row name = Some v -> (name, v) ∈ row.
Proof.
  induction row as [| [k x] rest IH]; simpl; [discriminate |].
  destruct (String.eqb k name) eqn:Hk.
  - apply String.eqb_eq in Hk. intros [= ->]. subst. apply list_elem_of_here.
  - intros H. apply list_elem_of_further. now apply IH.
Qed.

Lemma ownProperty_None row name :
  ownProperty row name = None -> name ∉ map fst row.
Proof.
  induction row as [| [k x] rest IH]; simpl.
  - intros _ Hin. now apply elem_of_nil in Hin.
  - destruct (String.eqb k name) eqn:Hk; [discriminate |].
    apply String.eqb_neq in Hk. intros H Hin.
    apply elem_of_cons in Hin as [-> | Hin]; [congruence |]. now apply IH.
Qed.

Lemma ownProperty_of_key row k :
  k ∈ map fst row -> exists v, ownProperty row k = Some v.
Proof.
  intros Hin. destruct (ownProperty row k) as [v |] eqn:H; [eauto |].
  now apply ownProperty_None in H.
Qed.

Lemma truthy_true (s : string) : JS.truthy s = true <-> s <> "".
Proof.
  unfold JS.truthy. rewrite negb_true_iff. split.
  - intros H ->. now rewrite String.eqb_refl in H.
  - intros H. now apply String.eqb_neq.
Qed.

Lemma truthy_false (s : string) : JS.truthy s = false <-> s = "".
Proof.
  unfold JS.truthy. rewrite negb_false_iff. apply String.eqb_eq.
Qed.

(** A matching header exists: the value of a matching header is fetched. *)
Lemma getRowValue_found row name :
  name <> "" ->
  JS.toLowerCase (JS.trim name) <> "" ->
  (exists k v, (k, v) ∈ row /\ headerMatches name k) ->
  exists k v, (k, v) ∈ row /\ headerMatches name k /\ getRowValue row name = v.
Proof.
  intros Hname Htarget (k0 & v0 & Hin0 & Hm0).
  unfold getRowValue.
  apply truthy_true in Hname. rewrite Hname. simpl.
  destruct (ownProperty row name) as [v |] eqn:Hown.
  - exists name, v. split; [now apply ownProperty_Some |]. split; reflexivity.
  - apply truthy_true in Htarget. rewrite Htarget. simpl.
    destruct (List.find _ (map fst row)) as [key |] eqn:Hfind.
    + apply List.find_some in Hfind as [Hkey Hmatch].
      apply String.eqb_eq in Hmatch.
      apply list_elem_of_In in Hkey.
      destruct (ownProperty_of_key row key Hkey) as [v Hv].
      assert (Hne : JS.truthy key = true).
      { apply truthy_true. intros ->. apply truthy_true in Htarget.
        apply Htarget. rewrite <- Hmatch. reflexivity. }
      rewrite Hne, Hv. simpl.
      exists key, v. split; [now apply ownProperty_Some |]. split; [exact Hmatch | reflexivity].
    + exfalso.
      assert (Hk0 : In k0 (map fst row)).
      { apply list_elem_of_In, list_elem_of_fmap. exists (k0, v0). split; [reflexivity | exact Hin0]. }
      pose proof (List.find_none _ _ Hfind k0 Hk0) as Hno. simpl in Hno.
      apply String.eqb_neq in Hno. now apply Hno.
Qed.

(** No header matches: the cell reads as the empty string. *)
Lemma getRowValue_not_found row name :
  (forall k v, (k, v) ∈ row -> ~ headerMatches name k) ->
  getRowValue row name = CellString "".
Proof.
  intros Hnone. unfold getRowValue.
  destruct (JS.truthy name); simpl; [| reflexivity].
  destruct (ownProperty row name) as [v |] eqn:Hown.
  - apply ownProperty_Some in Hown. exfalso. apply (Hnone name v Hown). reflexivity.
  - destruct (JS.truthy (JS.toLowerCase (JS.trim name))); simpl; [| reflexivity].
    destruct (List.find _ (map fst row)) as [key |] eqn:Hfind; [| reflexivity].
    apply List.find_some in Hfind as [Hkey Hmatch].
    apply String.eqb_eq in Hmatch.
    apply list_elem_of_In, list_elem_of_fmap in Hkey as ([k v] & -> & Hin).
    exfalso. now apply (Hnone k v Hin).
Qed.

(** [find] gives the first element that passes the test. *)
Lemma find_first (p : string -> bool) (l : list string) : forall i k,
  l !! i = Some k -> p k = true ->
  (forall j k', j < i -> l !! j = Some k' -> p k' = false) ->
  List.find p l = Some k.
Proof.
  induction l as [| x rest IH]; intros i k Hi Hk Hbefore; [discriminate |].
  destruct i as [| i]; simpl in Hi |- *.
  - injection Hi as ->. now rewrite Hk.
  - rewrite (Hbefore 0 x) by (lia || reflexivity).
    apply (IH i k Hi Hk). intros j k' Hj Hlook. apply (Hbefore (S j) k'); [lia | exact Hlook].
Qed.

(** The own property under a key is the value of the first pair with that
    key. *)
Lemma ownProperty_first row : forall i k v,
  row !! i = Some (k, v) ->
  (forall j k' v', j < i -> row !! j = Some (k', v') -> k' <> k) ->
  ownProperty row k = Some v.
Proof.
  induction row as [| [k0 v0] rest IH]; intros i k v Hi Hbefore; [discriminate |].
  destruct i as [| i]; simpl in Hi |- *.
  - injection Hi as -> ->. now rewrite String.eqb_refl.
  - assert (Hne : k0 <> k) by (apply (Hbefore 0 k0 v0); [lia | reflexivity]).
    apply String.eqb_neq in Hne. rewrite Hne.
    apply (IH i k v Hi). intros j k' v' Hj Hlook.
    apply (Hbefore (S j) k' v'); [lia | exact Hlook].
Qed.

Lemma toLowerCase_empty s : JS.toLowerCase s = "" <-> s = "".
Proof. destruct s; simpl; split; intros H; (reflexivity || discriminate). Qed.

(** No exact header: the value under the first header that matches. *)
Lemma getRowValue_first row name i k v :
  ownProperty row name = None ->
  JS.trim name <> "" ->
  row !! i = Some (k, v) ->
  headerMatches name k ->
  (forall j k' v', j < i -> row !! j = Some (k', v') -> ~ headerMatches name k') ->
  getRowValue row name = v.
Proof.
  intros Hown Hname Hi Hmatch Hbefore. unfold getRowValue.
  assert (Hne : name <> "") by (intros ->; now apply Hname).
  apply truthy_true in Hne. rewrite Hne, Hown. cbn [negb].
  assert (Htarget : JS.toLowerCase (JS.trim name) <> "") by now rewrite toLowerCase_empty.
  pose proof Htarget as Htruthy. apply truthy_true in Htruthy. rewrite Htruthy. cbn [negb].
  rewrite (find_first _ (map fst row) i k).
  - assert (Hk : JS.truthy k = true).
    { apply truthy_true. intros ->. apply Htarget. rewrite <- Hmatch. reflexivity. }
    rewrite Hk, (ownProperty_first row i k v Hi); [reflexivity |].
    intros j k' v' Hj Hlook ->. now apply (Hbefore j k v').
  - rewrite list_lookup_fmap. unfold Row in Hi. now rewrite Hi.
  - now apply String.eqb_eq.
  - intros j k' Hj Hlook. rewrite list_lookup_fmap in Hlook.
    apply fmap_Some in Hlook as ([k1 v1] & Hrow & ->).
    apply String.eqb_neq. now apply (Hbefore j k1 v1).
Qed.

(** A blank column name that is no header itself reads nothing. *)
Lemma getRowValue_blank row name :
  JS.trim name = "" -> ownProperty row name = None -> getRowValue row name = CellString "".
Proof.
  intros Hblank Hown. unfold getRowValue. rewrite Hown, Hblank.
  now destruct (JS.truthy name).
Qed.

(** What [sanitizeCellValue] keeps of a string: every character that is
    not a double quote, in order. *)
Lemma removeChar_filter (c : ascii) (s : string) :
  list_ascii_of_string (removeChar c s)
  = filter (fun a => a <> c) (list_ascii_of_string s).
Proof.
  induction s as [| a r IH]; simpl; [reflexivity |].
  destruct (Ascii.eqb a c) eqn:Hac.
  - apply Ascii.eqb_eq in Hac. subst.
    rewrite filter_cons_False by (intros H; now apply H). exact IH.
  - apply Ascii.eqb_neq in Hac.
    rewrite filter_cons_True by exact Hac. simpl. now rewrite IH.
Qed.

End CellLookup.

(** C8 (as amended). For a mapping entry and a row the resolver fetches
    the cell by header: the value under the header that is the column
    name itself when the row has one; otherwise the value under the first
    header, in the order of the keys of the row, that is equal to the
    column name after trimming and lower-casing both; the empty string
    when no header matches, when the column name is empty, and when it is
    blank and no header itself.  The value it keeps is the cell with its
    double quotes removed and nothing else changed (a cell that is not a
    string is taken as its text); it is neither trimmed nor cut.  The flag
    [hasValue] says whether the trimmed value is non-empty. *)
Theorem C8_cell_is_fetched_and_only_unquoted (row : Row) (index : nat) (item : MappingEntry.t) :
  let column := MappingEntry.column item in
  let resolved := makeItem row index item in
  let raw := getRowValue row column in
  (forall v, column <> "" -> ownProperty row column = Some v -> raw = v)
  /\ (forall i k v,
        ownProperty row column = None ->
        JS.trim column <> "" ->
        row !! i = Some (k, v) ->
        headerMatches column k ->
        (forall j k' v', j < i -> row !! j = Some (k', v') -> ~ headerMatches column k') ->
        raw = v)
  /\ ((forall k v, (k, v) ∈ row -> ~ headerMatches column k) -> raw = CellString "")
  /\ (column = "" -> raw = CellString "")
  /\ (JS.trim column = "" -> ownProperty row column = None -> raw = CellString "")
  /\ Item.value resolved = sanitizeCellValue raw
  /\ (forall s, raw = CellString s ->
        list_ascii_of_string (Item.value resolved)
        = filter (fun a => a <> doubleQuote) (list_ascii_of_string s))
  /\ (forall shown, raw = CellOther shown -> Item.value resolved = shown)
  /\ (raw = CellNull -> Item.value resolved = "")
  /\ Item.trimmed resolved = JS.trim (Item.value resolved)
  /\ (Item.hasValue resolved = true <-> JS.trim (Item.value resolved) <> "").
Proof.
  intros column resolved raw.
  split.
  { intros v Hcol Hown. subst raw. unfold getRowValue.
    apply truthy_true in Hcol. now rewrite Hcol, Hown. }
  split; [intros i k v; apply getRowValue_first |].
  split; [apply getRowValue_not_found |].
  split; [intros Hcol; subst raw; now rewrite Hcol |].
  split; [apply getRowValue_blank |].
  split; [reflexivity |].
  split; [| split; [| split; [| split]]].
  - intros s Hs. subst resolved; simpl. fold column raw. rewrite Hs. simpl.
    apply removeChar_filter.
  - intros shown Hs. subst resolved; simpl. fold column raw. now rewrite Hs.
  - intros Hs. subst resolved; simpl. fold column raw. now rewrite Hs.
  - reflexivity.
  - subst resolved; simpl. rewrite negb_true_iff. split.
    + intros H Heq. rewrite Heq in H. discriminate.
    + intros H. now apply String.eqb_neq.
Qed.

(** The column [nome] is found under the header [Nome], and the column
    written in capitals with a cedilla under the header written in small
    letters; the cell is kept as it is. *)
Lemma C8_witness :
  Item.value (makeItem untidyRow 0 nameEntry) = untidyName
  /\ Item.hasValue (makeItem untidyRow 0 nameEntry) = true
  /\ getRowValue addressRow addressAsked = CellString "Rua A".
Proof.
  destruct (C8_cell_is_fetched_and_only_unquoted untidyRow 0 nameEntry)
    as (_ & Hfirst & _ & _ & _ & Hvalue & _ & _ & _ & _ & Hflag).
  destruct (C8_cell_is_fetched_and_only_unquoted addressRow 0 addressEntry)
    as (_ & Haddress & _).
  split; [| split].
  - rewrite Hvalue.
    rewrite (Hfirst 0 "Nome" (CellString untidyName)); try reflexivity.
    + vm_compute. discriminate.
    + intros j k' v' Hj. lia.
  - apply Hflag. vm_compute. discriminate.
  - apply (Haddress 1 addressHeader (CellString "Rua A")); try reflexivity.
    + vm_compute. discriminate.
    + intros j k' v' Hj Hlook. destruct j as [| j]; [| lia].
      injection Hlook as <- _. vm_compute. discriminate.
Defined.

(** C8 (as stated) fails: the cell keeps its surrounding white space, its
    CR LF line break and its control character; the resolved value is the
    raw text, not the text the described sanitiser would give. *)
Lemma C8_counterexample :
  Item.value (makeItem untidyRow 0 nameEntry) = untidyName
  /\ sanitizeAsDescribed None untidyName = "Ana"
  /\ Item.value (makeItem untidyRow 0 nameEntry) <> sanitizeAsDescribed None untidyName
  /\ Item.value (makeItem untidyRow 0 nameEntry)
     <> JS.trim (Item.value (makeItem untidyRow 0 nameEntry)).
Proof. vm_compute. repeat split; (reflexivity || discriminate). Qed.

(** ** Placeholder extraction *)

Section InsertionOrderedSet.

Implicit Types (l acc : list string) (x y : string).

Lemma firstOccurrences_filter (P : string -> Prop) `{!forall x, Decision (P x)} l :
  firstOccurrences (filter P l) = filter P (firstOccurrences l).
Proof.
  induction l as [| x r IH]; [reflexivity |].
  destruct (decide (P x)) as [HP | HP].
  - rewrite filter_cons_True by exact HP. simpl.
    rewrite filter_cons_True by exact HP. f_equal.
    rewrite IH. rewrite !list_filter_filter.
    apply list_filter_iff. intros y. tauto.
  - rewrite filter_cons_False by exact HP. simpl.
    rewrite filter_cons_False by exact HP.
    rewrite IH, list_filter_filter. apply list_filter_iff.
    intros y. split; [| tauto]. intros Hy. split; [exact Hy |]. now intros ->.
Qed.

Lemma elem_of_firstOccurrences l x : x ∈ firstOccurrences l <-> x ∈ l.
Proof.
  induction l as [| y r IH]; simpl; [reflexivity |].
  rewrite !elem_of_cons, list_elem_of_filter, IH.
  destruct (decide (x = y)); tauto.
Qed.

Lemma NoDup_firstOccurrences l : NoDup (firstOccurrences l).
Proof.
  induction l as [| y r IH]; simpl; [constructor |].
  apply NoDup_cons. split.
  - rewrite list_elem_of_filter. tauto.
  - now apply NoDup_filter.
Qed.

(** The loop [placeholders.add(name)] over the matches. *)
Lemma foldl_setAdd l : forall acc,
  foldl setAdd acc l = (acc ++ firstOccurrences (filter (fun x => x ∉ acc) l))%list.
Proof.
  induction l as [| x r IH]; intros acc; simpl.
  - now rewrite app_nil_r.
  - unfold setAdd at 2. destruct (decide (x ∈ acc)) as [Hin | Hnin].
    + rewrite IH. now rewrite filter_cons_False by tauto.
    + rewrite IH. rewrite filter_cons_True by exact Hnin. simpl.
      rewrite <- app_assoc. simpl. do 2 f_equal.
      rewrite <- firstOccurrences_filter, list_filter_filter.
      f_equal. apply list_filter_iff. intros y.
      rewrite elem_of_app, list_elem_of_singleton. tauto.
Qed.

Lemma filter_eq_app_cons (P : string -> Prop) `{!forall x, Decision (P x)} l :
  forall r1 a r2,
    filter P l = (r1 ++ a :: r2)%list ->
    exists s1 s2, l = (s1 ++ a :: s2)%list /\ filter P s1 = r1 /\ filter P s2 = r2.
Proof.
  induction l as [| x r IH]; intros r1 a r2 Heq.
  - destruct r1; discriminate.
  - destruct (decide (P x)) as [HP | HP].
    + rewrite filter_cons_True in Heq by exact HP.
      destruct r1 as [| b r1]; simpl in Heq; injection Heq as <- Heq.
      * exists [], r. repeat split. exact Heq.
      * destruct (IH _ _ _ Heq) as (s1 & s2 & -> & H1 & H2).
        exists (x :: s1), s2. repeat split; [| exact H2].
        now rewrite filter_cons_True, H1 by exact HP.
    + rewrite filter_cons_False in Heq by exact HP.
      destruct (IH _ _ _ Heq) as (s1 & s2 & -> & H1 & H2).
      exists (x :: s1), s2. repeat split; [| exact H2].
      now rewrite filter_cons_False by exact HP.
Qed.

(** When [a] stands before [b] among the first occurrences, the first [a]
    of the list stands before every [b]. *)
Lemma firstOccurrences_order l : forall r1 a r2 b r3,
  firstOccurrences l = (r1 ++ a :: (r2 ++ b :: r3))%list ->
  exists n1 n2, l = (n1 ++ a :: n2)%list /\ (a ∉ n1) /\ (b ∉ n1) /\ (b ∈ n2).
Proof.
  induction l as [| x r IH]; intros r1 a r2 b r3 H.
  - destruct r1; discriminate.
  - simpl in H. destruct r1 as [| c r1]; simpl in H; injection H as -> H.
    + exists [], r. split; [reflexivity |].
      split; [apply not_elem_of_nil |]. split; [apply not_elem_of_nil |].
      assert (Hb : b ∈ filter (fun y => y <> a) (firstOccurrences r)).
      { rewrite H, elem_of_app, elem_of_cons. tauto. }
      apply list_elem_of_filter in Hb as [_ Hb]. now apply elem_of_firstOccurrences.
    + assert (Ha : a ∈ filter (fun y => y <> c) (firstOccurrences r)).
      { rewrite H, elem_of_app, elem_of_cons. tauto. }
      assert (Hb : b ∈ filter (fun y => y <> c) (firstOccurrences r)).
      { rewrite H, !elem_of_app, !elem_of_cons, elem_of_app, elem_of_cons. tauto. }
      apply list_elem_of_filter in Ha as [Hac _].
      apply list_elem_of_filter in Hb as [Hbc _].
      destruct (filter_eq_app_cons _ _ _ _ _ H) as (s1 & s2 & Hs & _ & H2).
      destruct (filter_eq_app_cons _ _ _ _ _ H2) as (t1 & t2 & -> & _ & _).
      destruct (IH _ _ _ _ _ Hs) as (n1 & n2 & -> & Han & Hbn & Hbin).
      exists (c :: n1), n2. split; [reflexivity |].
      rewrite !not_elem_of_cons. tauto.
Qed.

End InsertionOrderedSet.

(** A template in which [nome] is written three times (once split by
    formatting runs) and [cidade] twice. *)
Example extractPlaceholders_repeated :
  extractPlaceholders
    "<w:t>{{</w:t><w:t>nome}}</w:t> {{ cidade }} {{nome}} {{{{cidade}}}} {{ nome}}"
  = ["nome"; "cidade"].
Proof. vm_compute. reflexivity. Qed.

(** ** Email dispatch *)

(** C9. Off Windows the Outlook transport does nothing but answer: no
    message is handed over and no external call is made, nothing is sent,
    every queued recipient counts as failed, and the one error names what
    is missing. *)
Theorem C9_outlook_off_windows_fails_for_all (caps : Capabilities)
    (queue : list QueueItem) (subject message outlookFrom : string) (w : World) :
  platform caps <> "win32" ->
  sendEmailsOutlook caps queue subject message outlookFrom w
  = (Ok {| sent := 0; failed := Z.of_nat (length queue);
           errors := ["Outlook disponivel apenas no Windows."]; results := None |}, w).
Proof.
  intros Hp. unfold sendEmailsOutlook.
  apply String.eqb_neq in Hp. now rewrite Hp.
Qed.

Lemma C9_witness :
  sendEmailsOutlook plainLinuxServer twoRecipients "" "" "" emptyWorld
  = (Ok {| sent := 0; failed := 2;
           errors := ["Outlook disponivel apenas no Windows."]; results := None |},
     emptyWorld).
Proof.
  apply (C9_outlook_off_windows_fails_for_all plainLinuxServer twoRecipients "" "" "" emptyWorld).
  simpl. discriminate.
Defined.

Section Smtp.

Variable caps : Capabilities.
Variables subject message : string.
Variable onProgress : option (Progress -> M unit).

Hypothesis Hcallback : callbackReturns onProgress.

Lemma reportProgress_returns processed total sent w :
  exists w', reportProgress onProgress processed total sent w = (Ok tt, w').
Proof.
  unfold reportProgress. pose proof Hcallback as Hc.
  destruct onProgress as [callback |].
  - apply (Hc callback eq_refl).
  - now exists w.
Qed.

Lemma countResults_snoc st rows r :
  countResults st (rows ++ [r])
  = (countResults st rows + (if decide (resultStatus r = st) then 1 else 0))%Z.
Proof.
  unfold countResults. rewrite filter_app, length_app, filter_cons, filter_nil.
  destruct (decide (resultStatus r = st)); simpl; lia.
Qed.

Lemma smtpSendOne_keeps_invariant options total done st item w :
  loopInvariant done st ->
  exists st' w',
    smtpSendOne caps options subject message total onProgress st item w = (Ok st', w')
    /\ loopInvariant (done ++ [item]) st'.
Proof.
  intros (Hproc & Hto & Hall & Hsent).
  unfold smtpSendOne.
  destruct (normalizeEmailAttachments item) as [| att atts] eqn:Hatts.
  - cbv [mbind M_bind bind mret M_ret ret].
    match goal with
    | |- context [reportProgress onProgress ?p ?t ?s ?w0] =>
        destruct (reportProgress_returns p t s w0) as [w' Hrep]; rewrite Hrep
    end.
    eexists _, w'. split; [reflexivity |].
    unfold loopInvariant; simpl. rewrite length_app, !map_app, Hproc, Hto. simpl.
    split; [lia |]. split; [reflexivity |]. split.
    + apply Forall_app. split; [exact Hall |]. apply Forall_singleton. now right.
    + rewrite countResults_snoc. simpl. lia.
  - cbv [mbind M_bind bind mret M_ret ret handToTransport external
           consoleError consoleLog].
    match goal with
    | |- context [sendMail caps ?n ?arg] => destruct (sendMail caps n arg) as [msg |]
    end;
      match goal with
      | |- context [reportProgress onProgress ?p ?t ?s ?w0] =>
          destruct (reportProgress_returns p t s w0) as [w' Hrep]; rewrite Hrep
      end;
      eexists _, w'; (split; [reflexivity |]);
      unfold loopInvariant; simpl; rewrite length_app, !map_app, Hproc, Hto; simpl;
      (split; [lia |]); (split; [reflexivity |]); split.
    + apply Forall_app. split; [exact Hall |]. apply Forall_singleton. now right.
    + rewrite countResults_snoc. simpl. lia.
    + apply Forall_app. split; [exact Hall |]. apply Forall_singleton. now left.
    + rewrite countResults_snoc. simpl. lia.
Qed.

Lemma smtp_loop_keeps_invariant options total queue : forall done st w,
  loopInvariant done st ->
  exists st' w',
    foldM (smtpSendOne caps options subject message total onProgress) queue st w = (Ok st', w')
    /\ loopInvariant (done ++ queue) st'.
Proof.
  induction queue as [| item rest IH]; intros done st w Hinv; simpl.
  - exists st, w. rewrite app_nil_r. split; [reflexivity | exact Hinv].
  - destruct (smtpSendOne_keeps_invariant options total done st item w Hinv)
      as (st1 & w1 & Hstep & Hinv1).
    destruct (IH (done ++ [item])%list st1 w1 Hinv1) as (st' & w' & Hrest & Hinv').
    exists st', w'. rewrite (bind_ok _ _ _ _ _ Hstep).
    split; [exact Hrest |]. now rewrite <- app_assoc in Hinv'.
Qed.

Lemma count_sent_plus_failed rows :
  Forall sentOrFailed rows ->
  (countResults "sent" rows + countResults "failed" rows)%Z = Z.of_nat (length rows).
Proof.
  induction 1 as [| r rows Hr _ IH]; [reflexivity |].
  unfold countResults in *. rewrite !filter_cons.
  destruct Hr as [Hr | Hr]; rewrite Hr; simpl;
    repeat (case_decide; try discriminate; try congruence); simpl length; lia.
Qed.

Lemma countResults_all_failed st rows :
  Forall (fun r => resultStatus r = "failed") rows ->
  countResults st rows = if decide (st = "failed") then Z.of_nat (length rows) else 0%Z.
Proof.
  unfold countResults. induction 1 as [| r rows Hr _ IH].
  - now destruct (decide (st = "failed")).
  - rewrite filter_cons, Hr.
    destruct (decide (st = "failed")) as [-> | Hne].
    + rewrite decide_True by reflexivity. simpl length. lia.
    + rewrite decide_False by congruence. exact IH.
Qed.

(** C10. [sendEmailsSmtp] returns, for a queue of [n] entries, counts with
    [sent + failed = n] and one result row per queue entry, in the order of
    the queue, each with status sent or failed; [sent] and [failed] are the
    numbers of rows of each status.  Without SMTP settings nothing is
    handed to the transport and no external call is made: every entry gets
    a failed row with the configuration error. *)
Theorem C10_smtp_accounts_for_every_entry (queue : list QueueItem)
    (smtpConfig : SmtpConfig) (w : World) :
  exists r w' rows,
    sendEmailsSmtp caps queue subject message smtpConfig onProgress w = (Ok r, w')
    /\ (sent r + failed r)%Z = Z.of_nat (length queue)
    /\ results r = Some rows
    /\ length rows = length queue
    /\ map resultTo rows = map to queue
    /\ Forall sentOrFailed rows
    /\ sent r = countResults "sent" rows
    /\ failed r = countResults "failed" rows
    /\ (buildSmtpOptions caps smtpConfig = None ->
        sent r = 0%Z
        /\ failed r = Z.of_nat (length queue)
        /\ errors r = ["SMTP nao configurado"]
        /\ Forall (fun row => resultStatus row = "failed"
                              /\ resultError row = "SMTP nao configurado") rows
        /\ outbox w' = outbox w
        /\ calls w' = calls w).
Proof.
  unfold sendEmailsSmtp.
  destruct (buildSmtpOptions caps smtpConfig) as [options |] eqn:Hopt.
  - destruct (smtp_loop_keeps_invariant options (Z.of_nat (length queue)) queue []
                {| loopSent := 0; loopProcessed := 0; loopErrors := []; loopResults := [] |} w)
      as (st & w' & Hloop & Hproc & Hto & Hall & Hsent).
    { repeat split; constructor. }
    simpl in Hproc, Hto.
    exists {| sent := loopSent st; failed := (Z.of_nat (length queue) - loopSent st)%Z;
              errors := loopErrors st; results := Some (loopResults st) |}, w', (loopResults st).
    assert (Hlen : length (loopResults st) = length queue).
    { now rewrite <- (length_map resultTo), Hto, length_map. }
    split; [now rewrite (bind_ok _ _ _ _ _ Hloop) |]. simpl.
    split; [lia |]. split; [reflexivity |]. split; [exact Hlen |].
    split; [exact Hto |]. split; [exact Hall |]. split; [exact Hsent |].
    split; [| discriminate].
    pose proof (count_sent_plus_failed _ Hall) as Hsum. lia.
  - eexists _, _, _. split; [reflexivity |]. simpl.
    assert (Hfailed : Forall (fun row => resultStatus row = "failed"
                                         /\ resultError row = "SMTP nao configurado")
              (map (fun item =>
                      {| resultTo := to item;
                         resultFilename := formatAttachmentNames (normalizeEmailAttachments item);
                         resultStatus := "failed";
                         resultError := "SMTP nao configurado" |}) queue)).
    { apply Forall_map, Forall_forall. intros item _. simpl. split; reflexivity. }
    assert (Hcount : forall st,
              countResults st
                (map (fun item =>
                        {| resultTo := to item;
                           resultFilename := formatAttachmentNames (normalizeEmailAttachments item);
                           resultStatus := "failed";
                           resultError := "SMTP nao configurado" |}) queue)
              = if decide (st = "failed") then Z.of_nat (length queue) else 0%Z).
    { intros st. rewrite (countResults_all_failed st).
      - now rewrite length_map.
      - eapply Forall_impl; [exact Hfailed |]. now intros row [Hs _]. }
    split; [lia |]. split; [reflexivity |].
    split; [now rewrite length_map |].
    split; [now rewrite <- list_fmap_compose |].
    split; [eapply Forall_impl; [exact Hfailed |]; intros row [Hs _]; now right |].
    split; [now rewrite Hcount, decide_False by discriminate |].
    split; [now rewrite Hcount, decide_True by reflexivity |].
    intros _. repeat split. exact Hfailed.
Qed.

End Smtp.

Lemma C10_witness :
  exists r w',
    sendEmailsSmtp flakyMailServer twoRecipients "" "" noSmtpConfig None emptyWorld = (Ok r, w')
    /\ sent r = 1%Z /\ failed r = 1%Z
    /\ (resultStatus <$> default [] (results r)) = ["sent"; "failed"]
    /\ length (outbox w') = 2.
Proof.
  assert (Hcb : callbackReturns None) by (intros callback H; discriminate H).
  destruct (C10_smtp_accounts_for_every_entry flakyMailServer "" "" None Hcb
              twoRecipients noSmtpConfig emptyWorld)
    as (r & w' & rows & Hrun & _).
  exists r, w'. split; [exact Hrun |].
  vm_compute in Hrun. injection Hrun as <- <-. repeat split.
Defined.

(** Without SMTP settings no message leaves the server. *)
Example sendEmailsSmtp_unconfigured :
  sendEmailsSmtp plainLinuxServer twoRecipients "" "" noSmtpConfig None emptyWorld
  = (Ok {| sent := 0; failed := 2; errors := ["SMTP nao configurado"];
           results :=
             Some [ {| resultTo := "ana@example.com"; resultFilename := "doc_1.pdf";
                       resultStatus := "failed"; resultError := "SMTP nao configurado" |};
                    {| resultTo := "rui@example.com"; resultFilename := "doc_2.pdf";
                       resultStatus := "failed"; resultError := "SMTP nao configurado" |} ] |},
     {| jobs := ∅;
        console := [{| level := LogWarn; text := "SMTP nao configurado; emails nao enviados." |}];
        outbox := []; disk := []; calls := 0 |}).
Proof. vm_compute. reflexivity. Qed.

(** ** Strings *)

Section Strings.

Implicit Types (s t p a b c : string).

Lemma app_String ch s t : String ch s +:+ t = String ch (s +:+ t).
Proof. reflexivity. Qed.

Lemma app_empty_l t : "" +:+ t = t.
Proof. reflexivity. Qed.

Lemma app_empty_r s : s +:+ "" = s.
Proof. induction s as [| ch s IH]; [reflexivity |]. now rewrite app_String, IH. Qed.

Lemma app_assoc_s a b c : (a +:+ b) +:+ c = a +:+ (b +:+ c).
Proof. induction a as [| ch a IH]; [reflexivity |]. now rewrite !app_String, IH. Qed.

Lemma length_app_s s t : String.length (s +:+ t) = String.length s + String.length t.
Proof. induction s as [| ch s IH]; [reflexivity |]. rewrite app_String. simpl. now rewrite IH. Qed.

Lemma drop_app_length s t : JS.drop (String.length s) (s +:+ t) = t.
Proof. induction s as [| ch s IH]; [now destruct t |]. rewrite app_String. exact IH. Qed.

Lemma take_app_length s t : JS.take (String.length s) (s +:+ t) = s.
Proof.
  induction s as [| ch s IH]; [now destruct t |].
  rewrite app_String. simpl. now rewrite IH.
Qed.

Lemma take_drop_s n s : JS.take n s +:+ JS.drop n s = s.
Proof.
  revert s; induction n as [| n IH]; intros s; [reflexivity |].
  destruct s as [| ch s]; [reflexivity |]. simpl. now rewrite app_String, IH.
Qed.

Lemma length_drop_s n s : String.length (JS.drop n s) = String.length s - n.
Proof.
  revert s; induction n as [| n IH]; intros s; simpl; [lia |].
  destruct s as [| ch s]; simpl; [reflexivity | apply IH].
Qed.

Lemma toLowerCase_app s t : JS.toLowerCase (s +:+ t) = JS.toLowerCase s +:+ JS.toLowerCase t.
Proof.
  induction s as [| ch s IH]; [reflexivity |].
  rewrite app_String. simpl. now rewrite IH, app_String.
Qed.

Lemma length_toLowerCase s : String.length (JS.toLowerCase s) = String.length s.
Proof. induction s as [| ch s IH]; simpl; [reflexivity | now rewrite IH]. Qed.

Lemma app_inv_head_s a s t : a +:+ s = a +:+ t -> s = t.
Proof. apply String.app_inj. Qed.

Lemma app_inv_tail_s c : forall a b, a +:+ c = b +:+ c -> a = b.
Proof.
  intros a b H.
  assert (Hlen : String.length a = String.length b).
  { apply (f_equal String.length) in H. rewrite !length_app_s in H. lia. }
  revert b H Hlen; induction a as [| ch a IH]; intros [| ch' b] H Hlen;
    try discriminate; [reflexivity |].
  rewrite !app_String in H. injection H as -> H.
  f_equal. apply IH; [exact H |]. simpl in Hlen. lia.
Qed.

Lemma endsWith_true p s : JS.endsWith p s = true <-> exists a, s = a +:+ p.
Proof.
  unfold JS.endsWith. rewrite andb_true_iff, Nat.leb_le, String.eqb_eq. split.
  - intros [Hlen Hdrop].
    exists (JS.take (String.length s - String.length p) s).
    pose proof (take_drop_s (String.length s - String.length p) s) as Hsplit.
    rewrite Hdrop in Hsplit. now symmetry.
  - intros [a ->]. rewrite length_app_s. split; [lia |].
    replace (String.length a + String.length p - String.length p) with (String.length a) by lia.
    apply drop_app_length.
Qed.

Lemma endsWith_app p s : JS.endsWith p (s +:+ p) = true.
Proof. apply endsWith_true. now exists s. Qed.

(** A name with the extension (in any case) is the stem and the
    replacement; the stem is the name without its last characters. *)
Lemma replaceSuffix_ends suffix replacement name :
  JS.endsWith suffix (JS.toLowerCase name) = true ->
  replaceSuffix suffix replacement name
  = JS.take (String.length name - String.length suffix) name +:+ replacement.
Proof. intros H. unfold replaceSuffix. now rewrite H. Qed.

Lemma withDocxExtension_ends filename :
  JS.endsWith ".docx" (JS.toLowerCase (withDocxExtension filename)) = true.
Proof.
  unfold withDocxExtension.
  destruct (JS.endsWith ".docx" (JS.toLowerCase filename)) eqn:H; [exact H |].
  rewrite toLowerCase_app. apply endsWith_app.
Qed.

End Strings.

(** ** The search for a free name *)

Section FreeName.

Variable norm : string -> string.
Variable used : gset string.
Variable next : nat -> string.

Hypothesis next_inj : forall i j, norm (next i) = norm (next j) -> i = j.

Let isUsed (name : string) : bool := bool_decide (norm name ∈ used).

Lemma untilUnused_unused rounds name counter :
  isUsed name = false -> untilUnused rounds isUsed next name counter = name.
Proof. intros H. destruct rounds; simpl; now rewrite H. Qed.

(** With more rounds than used names that can still come up, the loop
    ends on a free name: the first free one among the current name and
    the candidates from [counter] on. *)
Lemma untilUnused_first_free rounds : forall (V : gset string) name counter,
  (forall k, counter <= k -> norm (next k) ∈ used -> norm (next k) ∈ V) ->
  size V < rounds ->
  let final := untilUnused rounds isUsed next name counter in
  (norm final ∉ used)
  /\ (norm name ∉ used -> final = name)
  /\ (norm name ∈ used ->
      exists k, counter <= k /\ final = next k
                /\ forall j, counter <= j < k -> norm (next j) ∈ used).
Proof.
  induction rounds as [| rounds IH]; intros V name counter Hcover Hsize; [lia |].
  cbn zeta. simpl untilUnused.
  destruct (isUsed name) eqn:Hname.
  - unfold isUsed in Hname. apply bool_decide_eq_true in Hname.
    destruct (decide (norm (next counter) ∈ used)) as [Hin | Hout].
    + assert (HinV : norm (next counter) ∈ V) by (apply Hcover; [lia | exact Hin]).
      destruct (IH (V ∖ {[norm (next counter)]}) (next counter) (S counter))
        as (Hfree & _ & Hk).
      * intros k Hk Hused. apply elem_of_difference. split; [apply Hcover; [lia | exact Hused] |].
        rewrite elem_of_singleton. intros Heq. apply next_inj in Heq. lia.
      * assert (size V = size (V ∖ {[norm (next counter)]}) + 1).
        { rewrite (union_difference_singleton_L _ _ HinV) at 1.
          rewrite size_union, size_singleton; [lia |].
          apply disjoint_singleton_l. rewrite elem_of_difference, elem_of_singleton. tauto. }
        lia.
      * split; [exact Hfree |]. split; [tauto |]. intros _.
        destruct (Hk Hin) as (k & Hle & Hfinal & Hbefore).
        exists k. split; [lia |]. split; [exact Hfinal |].
        intros j Hj. destruct (decide (j = counter)) as [-> | Hne]; [exact Hin |].
        apply Hbefore. lia.
    + assert (Hfalse : isUsed (next counter) = false).
      { unfold isUsed. now apply bool_decide_eq_false. }
      rewrite (untilUnused_unused rounds _ _ Hfalse).
      split; [exact Hout |]. split; [tauto |]. intros _.
      exists counter. split; [lia |]. split; [reflexivity |]. intros j Hj. lia.
  - unfold isUsed in Hname. apply bool_decide_eq_false in Hname.
    split; [exact Hname |]. split; [reflexivity | tauto].
Qed.

End FreeName.

Section DocumentNames.

Implicit Types (filename : string) (usedNames : gset string).

Lemma docxCandidate_ends filename counter :
  JS.endsWith ".docx" (JS.toLowerCase filename) = true ->
  docxCandidate filename counter
  = JS.take (String.length filename - 5) filename +:+ "_" +:+ pretty counter +:+ ".docx".
Proof. intros H. unfold docxCandidate. now rewrite (replaceSuffix_ends _ _ _ H). Qed.

Lemma docxCandidate_inj filename i j :
  JS.endsWith ".docx" (JS.toLowerCase filename) = true ->
  docxCandidate filename i = docxCandidate filename j -> i = j.
Proof.
  intros H Heq. rewrite !(docxCandidate_ends _ _ H) in Heq.
  apply app_inv_head_s, app_inv_head_s, app_inv_tail_s in Heq.
  now apply (inj pretty) in Heq.
Qed.

(** The name given to a document is free; it is the expanded name when
    that is free, else the first free one of [_2], [_3], ... *)
Lemma uniqueDocxName_spec usedNames filename :
  JS.endsWith ".docx" (JS.toLowerCase filename) = true ->
  let final := uniqueDocxName usedNames filename in
  (final ∉ usedNames)
  /\ (filename ∉ usedNames -> final = filename)
  /\ (filename ∈ usedNames ->
      exists k, 2 <= k /\ final = docxCandidate filename k
                /\ forall j, 2 <= j < k -> docxCandidate filename j ∈ usedNames).
Proof.
  intros Hends. unfold uniqueDocxName.
  apply (untilUnused_first_free (fun s => s) usedNames (docxCandidate filename)
           (fun i j => docxCandidate_inj filename i j Hends)
           (S (size usedNames)) usedNames filename 2).
  - tauto.
  - lia.
Qed.

End DocumentNames.

(** ** Reasoning about computations *)

Section WeakestPre.

Context {A B : Type}.

Lemma wp_run (c : M A) Q w :
  wp c Q w <-> exists o w', c w = (o, w') /\ Q o w'.
Proof.
  unfold wp. split.
  - intros H. exists (fst (c w)), (snd (c w)). split; [now destruct (c w) | exact H].
  - intros (o & w' & Hrun & H). now rewrite Hrun.
Qed.

Lemma wp_ret (a : A) Q w : Q (Ok a) w -> wp (mret a) Q w.
Proof. exact (fun H => H). Qed.

Lemma wp_throw msg (Q : Outcome A -> World -> Prop) w : Q (Throw msg) w -> wp (throw msg) Q w.
Proof. exact (fun H => H). Qed.

Lemma wp_bind (c : M A) (k : A -> M B) Q w :
  wp c (fun o w1 =>
          match o with
          | Ok a => wp (k a) Q w1
          | Throw msg => Q (Throw msg) w1
          end) w ->
  wp (c ≫= k) Q w.
Proof.
  unfold wp, mbind, M_bind, bind. now destruct (c w) as [[a | msg] w1].
Qed.

Lemma wp_mono (c : M A) (Q Q' : Outcome A -> World -> Prop) w :
  wp c Q w -> (forall o w', Q o w' -> Q' o w') -> wp c Q' w.
Proof. unfold wp. intros H Himp. now apply Himp. Qed.

Lemma wp_tryCatch (c : M A) (handler : string -> M A) Q w :
  wp c (fun o w1 =>
          match o with
          | Ok a => Q (Ok a) w1
          | Throw msg => wp (handler msg) Q w1
          end) w ->
  wp (tryCatch c handler) Q w.
Proof.
  unfold wp, tryCatch. now destruct (c w) as [[a | msg] w1].
Qed.

End WeakestPre.

Lemma wp_consoleLog lvl msg (Q : Outcome unit -> World -> Prop) w :
  Q (Ok tt) (addLog {| level := lvl; text := msg |} w) -> wp (consoleLog lvl msg) Q w.
Proof. exact (fun H => H). Qed.

Lemma wp_external {X Y} (capability : nat -> X -> Y) x (Q : Outcome Y -> World -> Prop) w :
  Q (Ok (capability (calls w) x)) (tick w) -> wp (external capability x) Q w.
Proof. exact (fun H => H). Qed.

Lemma wp_storeOnDisk name content (Q : Outcome unit -> World -> Prop) w :
  Q (Ok tt) (addFile name content w) -> wp (storeOnDisk name content) Q w.
Proof. exact (fun H => H). Qed.

Lemma wp_updateJob jobId f (Q : Outcome unit -> World -> Prop) w :
  Q (Ok tt) (alterJob jobId f w) -> wp (updateJob jobId f) Q w.
Proof. exact (fun H => H). Qed.

(** One step of a computation: the rule that fits its head. *)
Ltac wp_step :=
  lazymatch goal with
  | |- wp (mbind _ _) _ _ => apply wp_bind
  | |- wp (mret _) _ _ => apply wp_ret
  | |- wp (throw _) _ _ => apply wp_throw
  | |- wp (consoleLog _ _) _ _ => apply wp_consoleLog
  | |- wp (consoleWarn _) _ _ => apply wp_consoleLog
  | |- wp (consoleError _) _ _ => apply wp_consoleLog
  | |- wp (external _ _) _ _ => apply wp_external
  | |- wp (storeOnDisk _ _) _ _ => apply wp_storeOnDisk
  | |- wp (updateJob _ _) _ _ => apply wp_updateJob
  | |- wp (tryCatch _ _) _ _ => apply wp_tryCatch
  end.

Ltac wp_steps := repeat wp_step.

(** ** Steps that only write to the console *)

Lemma countWarnings_app l1 l2 :
  countWarnings (l1 ++ l2) = countWarnings l1 + countWarnings l2.
Proof. unfold countWarnings. now rewrite filter_app, length_app. Qed.

Lemma warnings_addLog entry w :
  warnings (addLog entry w)
  = warnings w + (if decide (level entry = LogWarn) then 1 else 0).
Proof.
  unfold warnings, addLog; simpl. rewrite countWarnings_app. f_equal.
  unfold countWarnings. rewrite filter_cons, filter_nil. now destruct (decide _).
Qed.

Lemma calm_refl w : calm w w.
Proof. unfold calm; auto. Qed.

Lemma calm_trans w1 w2 w3 : calm w1 w2 -> calm w2 w3 -> calm w1 w3.
Proof.
  intros (Hj1 & Ho1 & Hw1) (Hj2 & Ho2 & Hw2).
  unfold calm. split; [congruence |]. split; [congruence | lia].
Qed.

Lemma calm_addLog entry w : calm w (addLog entry w).
Proof. unfold calm. rewrite warnings_addLog. repeat split; lia. Qed.

Lemma calm_tick w : calm w (tick w).
Proof. unfold calm, warnings; simpl; auto. Qed.

Lemma calm_addFile name content w : calm w (addFile name content w).
Proof. unfold calm, warnings; simpl; auto. Qed.

Lemma calm_warned msg w w0 :
  calm w0 w -> calm w0 (addLog {| level := LogWarn; text := msg |} w)
               /\ warnings w0 < warnings (addLog {| level := LogWarn; text := msg |} w).
Proof.
  intros Hc. split; [eapply calm_trans; [exact Hc | apply calm_addLog] |].
  destruct Hc as (_ & _ & Hle). rewrite warnings_addLog. simpl. lia.
Qed.

Create HintDb calm.
#[local] Hint Resolve calm_refl calm_addLog calm_tick calm_addFile : calm.
#[local] Hint Extern 2 (calm _ _) => (eapply calm_trans; [eassumption |]) : calm.
#[local] Hint Extern 3 (calm _ (addLog _ _)) => (eapply calm_trans; [| apply calm_addLog]) : calm.
#[local] Hint Extern 3 (calm _ (tick _)) => (eapply calm_trans; [| apply calm_tick]) : calm.
#[local] Hint Extern 3 (calm _ (addFile _ _ _)) => (eapply calm_trans; [| apply calm_addFile]) : calm.

Section ConversionEffects.

Variable caps : Capabilities.

Lemma convertWithMsOffice_calm buffer w :
  wp (convertWithMsOffice caps buffer) (fun _ w' => calm w w') w.
Proof.
  unfold convertWithMsOffice.
  destruct (negb (String.eqb (platform caps) "win32")); [wp_step; auto with calm |].
  wp_steps.
  destruct (msOffice caps (calls w) buffer) as [msg | [msg | [out |]] [cmsg |]];
    wp_steps; auto 6 with calm.
Qed.

Lemma convertWithLibreOffice_calm buffer w :
  wp (convertWithLibreOffice caps buffer)
     (fun o w' => calm w w' /\ exists r, o = Ok r) w.
Proof.
  unfold convertWithLibreOffice. wp_steps.
  destruct (libreOffice caps (calls w) buffer) as [msg | [out |]];
    wp_steps; (split; [auto 6 with calm | eauto]).
Qed.

Lemma convertWithPuppeteer_calm buffer w :
  wp (convertWithPuppeteer caps buffer)
     (fun o w' => calm w w' /\ exists r, o = Ok r) w.
Proof.
  unfold convertWithPuppeteer. wp_steps.
  destruct (puppeteerPdf caps (calls w) buffer) as [msg | out];
    wp_steps; (split; [auto 6 with calm | eauto]).
Qed.

(** The chain leaves jobs and mail alone; when it has no result it has
    warned that the browser was tried. *)
Lemma docxBufferToPdf_calm buffer w :
  wp (docxBufferToPdf caps buffer)
     (fun o w' => calm w w' /\ (o = Ok None -> warnings w < warnings w')) w.
Proof.
  unfold docxBufferToPdf. wp_step.
  eapply wp_mono; [apply convertWithMsOffice_calm |].
  intros [[pdf |] | msg] w1 Hc1; simpl.
  - wp_step. split; [exact Hc1 | discriminate].
  - wp_step. eapply wp_mono; [apply convertWithLibreOffice_calm |].
    intros o w2 [Hc2 [[pdf |] ->]].
    + wp_step. split; [eauto using calm_trans | discriminate].
    + wp_steps.
      destruct (calm_warned "Gerando PDF via Puppeteer; o layout pode divergir do DOCX."
                  w2 w (calm_trans _ _ _ Hc1 Hc2)) as [Hc3 Hlt].
      eapply wp_mono; [apply convertWithPuppeteer_calm |].
      intros o w4 [Hc4 _]. split; [eauto using calm_trans |].
      intros _. destruct Hc4 as (_ & _ & Hle). lia.
  - split; [exact Hc1 | discriminate].
Qed.

Lemma docxBufferToPdf_returns buffer w :
  officeTempDirOk caps buffer ->
  exists r w', docxBufferToPdf caps buffer w = (Ok r, w').
Proof.
  intros Hok. unfold docxBufferToPdf.
  destruct (convertWithMsOffice_returns caps buffer w Hok) as ([pdf |] & w1 & Hms);
    rewrite (bind_ok _ _ _ _ _ Hms); [now eauto |].
  destruct (convertWithLibreOffice_returns caps buffer w1) as ([pdf |] & w2 & Hlo);
    rewrite (bind_ok _ _ _ _ _ Hlo); [now eauto |].
  erewrite bind_ok by reflexivity.
  apply convertWithPuppeteer_returns.
Qed.

End ConversionEffects.

(** ** The row loop of the generate job *)

Lemma wp_bind_run {A B} (c : M A) (k : A -> M B) Q w a w1 :
  c w = (Ok a, w1) -> wp (k a) Q w1 -> wp (c ≫= k) Q w.
Proof. intros Hrun H. apply wp_bind. unfold wp at 1. now rewrite Hrun. Qed.

Section RowLoop.

Variable caps : Capabilities.
Variable jobId : string.
Variable input : GenerateInput.

Lemma keepPdf_spec idx pdfName pdfBuffer st w :
  wp (keepPdf caps idx pdfName pdfBuffer st)
     (fun o w' =>
        calm w w'
        /\ exists st',
             o = Ok st'
             /\ zipDocx st' = zipDocx st
             /\ usedNames st' = usedNames st
             /\ emailQueue st' = emailQueue st
             /\ (isPdfBuffer pdfBuffer = false ->
                 zipPdf st' = zipPdf st
                 /\ (pdfBuffer <> None -> warnings w < warnings w'))) w.
Proof.
  unfold keepPdf. destruct pdfBuffer as [pdf |].
  - destruct (isPdfBuffer (Some pdf)) eqn:Hvalid.
    + wp_steps. destruct (writePdf caps (calls w) (pdfName, pdf)) as [msg |];
        wp_steps; (split; [auto 6 with calm |]);
        eexists; (split; [reflexivity |]); repeat split; discriminate.
    + wp_steps.
      destruct (calm_warned ("PDF invalido gerado na linha " +:+ pretty (idx + 1) +:+ ".")
                  w w (calm_refl w)) as [Hc Hlt].
      split; [exact Hc |]. exists st. repeat split. intros _. exact Hlt.
  - wp_step. split; [apply calm_refl |]. exists st. repeat split. congruence.
Qed.

Lemma queueForRecipients_keeps recipients att : forall st,
  zipDocx (queueForRecipients recipients att st) = zipDocx st
  /\ zipPdf (queueForRecipients recipients att st) = zipPdf st
  /\ usedNames (queueForRecipients recipients att st) = usedNames st.
Proof.
  unfold queueForRecipients.
  induction recipients as [| recipient rest IH]; intros st; simpl; [repeat split |].
  destruct (ensureUniqueAttachmentName (usedNamesByRecipient st) recipient (filename att))
    as [uniqueName used'].
  destruct (IH (set_emailQueue
                  (queueEmailAttachment (emailQueue st) recipient
                     {| filename := uniqueName; buffer := buffer att |}) used' st))
    as (H1 & H2 & H3).
  now rewrite H1, H2, H3.
Qed.

Lemma queueRowEmails_spec idx row pdfName pdfBuffer st w :
  wp (queueRowEmails caps input idx row pdfName pdfBuffer st)
     (fun o w' =>
        calm w w'
        /\ exists st',
             o = Ok st'
             /\ zipDocx st' = zipDocx st
             /\ zipPdf st' = zipPdf st
             /\ usedNames st' = usedNames st
             /\ (isPdfBuffer pdfBuffer = false -> emailQueue st' = emailQueue st)) w.
Proof.
  unfold queueRowEmails.
  destruct (JS.truthy (emailColumn input)).
  2: { wp_step. split; [apply calm_refl |]. exists st. repeat split. }
  destruct (uniqueRecipients _) as [| recipient rest].
  { wp_step. split; [apply calm_refl |]. exists st. repeat split. }
  destruct pdfBuffer as [pdf |].
  - destruct (isPdfBuffer (Some pdf)) eqn:Hvalid.
    + unfold preparePdfAttachment. simpl buffer. rewrite Hvalid. simpl negb. cbv iota.
      wp_steps. split; [apply calm_refl |].
      eexists. split; [reflexivity |].
      destruct (queueForRecipients_keeps (recipient :: rest)
                  {| filename := normalizePdfFilename pdfName; buffer := pdf |} st)
        as (H1 & H2 & H3).
      repeat split; try assumption. discriminate.
    + wp_steps. split; [apply calm_addLog |]. exists st. repeat split.
  - wp_steps. split; [apply calm_addLog |]. exists st. repeat split.
Qed.

Lemma touch_spec (Q : Outcome unit -> World -> Prop) w :
  (forall now, Q (Ok tt) (alterJob jobId (touchJob now) (tick w))) ->
  wp (touch caps jobId) Q w.
Proof. intros H. unfold touch. wp_steps. apply H. Qed.

Lemma keepsOutcome_compose g1 g2 :
  keepsOutcome g1 -> keepsOutcome g2 -> keepsOutcome (g2 ∘ g1).
Proof.
  intros H1 H2 job. destruct (H1 job) as (? & ? & ? & ? & ?).
  destruct (H2 (g1 job)) as (? & ? & ? & ? & ?). simpl.
  repeat split; congruence.
Qed.

Lemma keepsOutcome_id : keepsOutcome (fun job => job).
Proof. intros job. repeat split. Qed.

Lemma keepsOutcome_touchJob now : keepsOutcome (touchJob now).
Proof. intros job. repeat split. Qed.

Hypothesis Hrender : rendersAlways caps.
Hypothesis Htemp : tempDirAlways caps.

(** One round of the loop: the document of the row is rendered and kept
    under its free name, whatever the conversion gives; no mail leaves;
    the job only moves on.  When conversion is never verified, nothing is
    queued or added to the PDF archive and the console has a new warning. *)
Lemma processRow_spec st idx row w :
  let finalName := uniqueDocxName (usedNames st) (rowFilename caps input idx row) in
  exists st' w' doc g,
    processRow caps jobId input st (idx, row) w = (Ok st', w')
    /\ renderedFor caps input row (finalName, doc)
    /\ zipDocx st' = zipFile finalName doc (zipDocx st)
    /\ usedNames st' = {[finalName]} ∪ usedNames st
    /\ outbox w' = outbox w
    /\ warnings w <= warnings w'
    /\ jobs w' !! jobId = g <$> (jobs w !! jobId)
    /\ keepsOutcome g
    /\ (forall job, Job.current (g job) = idx + 1)
    /\ (neverVerified caps ->
        zipPdf st' = zipPdf st /\ emailQueue st' = emailQueue st
        /\ warnings w < warnings w').
Proof.
  intros finalName.
  destruct (Hrender (calls w) (templateBuffer input, rowData input row, placeholders input))
    as [doc Hdoc].
  destruct (docxBufferToPdf_returns caps doc (tick w) (Htemp doc)) as (pdfBuffer & w2 & Hconv).
  pose proof (docxBufferToPdf_calm caps doc (tick w)) as Hcalm.
  unfold wp in Hcalm. rewrite Hconv in Hcalm. simpl in Hcalm.
  destruct Hcalm as [Hc2 Hnone].
  set (st1 := set_zipDocx (zipFile finalName doc
                             (zipDocx (set_usedNames ({[finalName]} ∪ usedNames st) st)))
                (set_usedNames ({[finalName]} ∪ usedNames st) st)).
  set (pdfName := replaceSuffix ".docx" ".pdf" finalName).
  pose proof (keepPdf_spec idx pdfName pdfBuffer st1 w2) as Hkeep.
  apply wp_run in Hkeep
    as (o2 & w3 & Hkeep & Hc3 & st2 & -> & Hz2 & Hu2 & Hq2 & Hfail2).
  pose proof (queueRowEmails_spec idx row pdfName pdfBuffer st2 w3) as Hqueue.
  apply wp_run in Hqueue
    as (o3 & w4 & Hqueue & Hc4 & st3 & -> & Hz3 & Hp3 & Hu3 & Hfail3).
  assert (Hc : calm w w4).
  { eapply calm_trans; [apply calm_tick |].
    eapply calm_trans; [exact Hc2 |]. eapply calm_trans; [exact Hc3 | exact Hc4]. }
  pose (msgOf := "Processando linha " +:+ pretty (idx + 1) +:+ " de "
                 +:+ pretty (length (rows input)) +:+ ".").
  pose (now := dateNow caps (calls (alterJob jobId
                 (fun job => Job.set_message msgOf (Job.set_current (idx + 1) job)) w4)) tt).
  exists st3,
    (alterJob jobId (touchJob now)
       (tick (alterJob jobId
                (fun job => Job.set_message msgOf (Job.set_current (idx + 1) job)) w4))),
    doc,
    (touchJob now ∘ (fun job => Job.set_message msgOf (Job.set_current (idx + 1) job))).
  split.
  { unfold processRow. fold finalName.
    erewrite bind_ok by reflexivity. rewrite Hdoc.
    erewrite bind_ok by reflexivity.
    fold st1 pdfName.
    rewrite (bind_ok _ _ _ _ _ Hconv), (bind_ok _ _ _ _ _ Hkeep), (bind_ok _ _ _ _ _ Hqueue).
    reflexivity. }
  destruct Hc as (Hjobs & Hout & Hwarn).
  split; [now exists (calls w) |].
  split; [now rewrite Hz3, Hz2 |].
  split; [now rewrite Hu3, Hu2 |].
  split; [exact Hout |].
  split; [exact Hwarn |].
  split.
  { simpl. rewrite !lookup_alter_eq, Hjobs. now rewrite <- option_fmap_compose. }
  split; [apply keepsOutcome_compose; intros job; repeat split |].
  split; [reflexivity |].
  intros Hnever. pose proof (Hnever _ _ _ _ Hconv) as Hinvalid.
  destruct (Hfail2 Hinvalid) as [Hpdf Hwarned].
  split; [now rewrite Hp3, Hpdf |].
  split; [now rewrite (Hfail3 Hinvalid), Hq2 |].
  destruct Hc2 as (_ & _ & Hw2). destruct Hc3 as (_ & _ & Hw3). destruct Hc4 as (_ & _ & Hw4).
  change (warnings (tick w)) with (warnings w) in *.
  change (warnings (alterJob jobId (touchJob now)
            (tick (alterJob jobId
               (fun job => Job.set_message msgOf (Job.set_current (idx + 1) job)) w4))))
    with (warnings w4).
  destruct pdfBuffer as [pdf |].
  - assert (warnings w2 < warnings w3) by (apply Hwarned; discriminate). lia.
  - assert (warnings w < warnings w2) by (apply Hnone; reflexivity). lia.
Qed.

End RowLoop.

(** Equations and memberships of sets built with union and singletons. *)
Ltac set_tauto :=
  try (apply set_eq; intros ?);
  rewrite ?elem_of_union, ?elem_of_singleton, ?elem_of_empty, ?elem_of_list_to_set,
    ?elem_of_cons, ?elem_of_app, ?elem_of_nil in *;
  tauto.

Section DocumentArchive.

Implicit Types (zip : list (string * Buffer)) (used : gset string).

Lemma zipFile_fresh name data zip :
  name ∉ map fst zip -> zipFile name data zip = (zip ++ [(name, data)])%list.
Proof.
  induction zip as [| [n d] rest IH]; intros Hfresh; simpl; [reflexivity |].
  simpl in Hfresh. apply not_elem_of_cons in Hfresh as [Hne Hrest].
  destruct (String.eqb n name) eqn:Heq.
  - apply String.eqb_eq in Heq. congruence.
  - now rewrite IH.
Qed.

Lemma finalNames_length used filenames :
  length (finalNames used filenames) = length filenames.
Proof.
  revert used; induction filenames as [| f rest IH]; intros used; simpl; [reflexivity |].
  now rewrite IH.
Qed.

(** The names given are free and pairwise distinct. *)
Lemma finalNames_fresh filenames : forall used,
  Forall (fun f => JS.endsWith ".docx" (JS.toLowerCase f) = true) filenames ->
  NoDup (finalNames used filenames)
  /\ forall name, name ∈ finalNames used filenames -> name ∉ used.
Proof.
  induction filenames as [| f rest IH]; intros used Hends; simpl.
  - split; [constructor | intros name Hin; now apply elem_of_nil in Hin].
  - apply Forall_cons in Hends as [Hf Hrest].
    destruct (uniqueDocxName_spec used f Hf) as (Hfree & _ & _).
    destruct (IH ({[uniqueDocxName used f]} ∪ used) Hrest) as [Hnodup Hnew].
    split.
    + apply NoDup_cons. split; [| exact Hnodup].
      intros Hin. apply Hnew in Hin. apply Hin. set_tauto.
    + intros name Hin. apply elem_of_cons in Hin as [-> | Hin]; [exact Hfree |].
      apply Hnew in Hin. intros Hu. apply Hin. set_tauto.
Qed.


End DocumentArchive.

Section RowLoopFold.

Variable caps : Capabilities.
Variable jobId : string.
Variable input : GenerateInput.

Hypothesis Hrender : rendersAlways caps.
Hypothesis Htemp : tempDirAlways caps.

(** The pause check of a job that is not paused returns at once. *)
Lemma waitIfPaused_free w : notPaused jobId w -> waitIfPaused jobId w = (Ok false, w).
Proof.
  intros Hfree. unfold waitIfPaused.
  destruct (jobs w !! jobId) as [job |] eqn:Hjob; [| reflexivity].
  now rewrite (Hfree job Hjob).
Qed.

Lemma notPaused_keeps g w w' :
  keepsOutcome g -> jobs w' !! jobId = g <$> (jobs w !! jobId) ->
  notPaused jobId w -> notPaused jobId w'.
Proof.
  intros Hkeep Hjobs Hfree job' Hjob'. rewrite Hjobs in Hjob'.
  destruct (jobs w !! jobId) as [job |] eqn:Hjob; [| discriminate].
  injection Hjob' as <-.
  destruct (Hkeep job) as (_ & _ & _ & _ & ->). now apply Hfree.
Qed.

(** The loop over the rows [l], the first of which has index [k], for a
    job that is not paused. *)
Lemma processRows_from l : forall k st w,
  notPaused jobId w ->
  (forall name, name ∈ map fst (zipDocx st) -> name ∈ usedNames st) ->
  exists st' w' entries g,
    rowLoop jobId (processRow caps jobId input) (imap (fun i row => (k + i, row)) l) st w
    = (Ok (Finished st'), w')
    /\ zipDocx st' = (zipDocx st ++ entries)%list
    /\ Forall2 (renderedFor caps input) l entries
    /\ map fst entries
       = finalNames (usedNames st) (imap (fun i row => rowFilename caps input (k + i) row) l)
    /\ outbox w' = outbox w
    /\ warnings w <= warnings w'
    /\ jobs w' !! jobId = g <$> (jobs w !! jobId)
    /\ keepsOutcome g
    /\ (forall job, Job.current (g job)
                    = match l with [] => Job.current job | _ :: _ => k + length l end)
    /\ (neverVerified caps ->
        zipPdf st' = zipPdf st /\ emailQueue st' = emailQueue st
        /\ warnings w + length l <= warnings w').
Proof.
  induction l as [| row rest IH]; intros k st w Hrun0 Hused.
  - exists st, w, [], (fun job => job). simpl.
    split; [reflexivity |]. split; [now rewrite app_nil_r |].
    split; [constructor |]. split; [reflexivity |].
    split; [reflexivity |]. split; [lia |].
    split; [now destruct (jobs w !! jobId) |].
    split; [apply keepsOutcome_id |]. split; [reflexivity |].
    intros _. repeat split. lia.
  - rewrite imap_cons. simpl rowLoop. rewrite Nat.add_0_r.
    destruct (processRow_spec caps jobId input Hrender Htemp st k row w)
      as (st1 & w1 & doc & g1 & Hstep & Hdoc & Hzip1 & Hused1 & Hout1 & Hwarn1
          & Hjob1 & Hkeep1 & Hcur1 & Hnever1).
    set (finalName := uniqueDocxName (usedNames st) (rowFilename caps input k row)) in *.
    assert (Hfree : finalName ∉ usedNames st).
    { apply uniqueDocxName_spec. apply withDocxExtension_ends. }
    rewrite zipFile_fresh in Hzip1 by (intros Hin; apply Hfree, Hused, Hin).
    assert (Hused1' : forall name, name ∈ map fst (zipDocx st1) -> name ∈ usedNames st1).
    { intros name. rewrite Hzip1, Hused1, map_app, elem_of_app. simpl.
      rewrite list_elem_of_singleton, elem_of_union, elem_of_singleton.
      intros [Hin | ->]; [right; now apply Hused | now left]. }
    destruct (IH (S k) st1 w1 (notPaused_keeps g1 w w1 Hkeep1 Hjob1 Hrun0) Hused1')
      as (st' & w' & entries & g & Hrun & Hzip & Hdocs & Hnames & Hout & Hwarn
          & Hjob & Hkeep & Hcur & Hnever).
    exists st', w', ((finalName, doc) :: entries), (g ∘ g1).
    split.
    { rewrite (bind_ok _ _ _ _ _ (waitIfPaused_free w Hrun0)).
      rewrite (bind_ok _ _ _ _ _ Hstep). rewrite <- Hrun. f_equal.
      apply imap_ext. intros i x _. simpl. f_equal. lia. }
    split; [now rewrite Hzip, Hzip1, <- app_assoc |].
    split; [now constructor |].
    split.
    { rewrite imap_cons. simpl. rewrite Nat.add_0_r. fold finalName. f_equal.
      rewrite Hnames, Hused1. f_equal.
      apply imap_ext. intros i x _. simpl. f_equal. lia. }
    split; [congruence |].
    split; [lia |].
    split; [now rewrite Hjob, Hjob1, <- option_fmap_compose |].
    split; [now apply keepsOutcome_compose |].
    split.
    { intros job. simpl. rewrite Hcur. destruct rest; simpl; [rewrite Hcur1 |]; lia. }
    intros Hn. destruct (Hnever1 Hn) as (Hp1 & Hq1 & Hw1).
    destruct (Hnever Hn) as (Hp & Hq & Hw).
    split; [congruence |]. split; [congruence |]. simpl. lia.
Qed.

(** When conversion is never verified the loop, as far as it comes, leaves
    the queue as it found it. *)
Lemma processRows_idle_queue (l : list (nat * Row)) : forall st w p w',
  neverVerified caps ->
  rowLoop jobId (processRow caps jobId input) l st w = (Ok p, w') ->
  emailQueue (stateOf p) = emailQueue st.
Proof.
  induction l as [| [idx row] rest IH]; intros st w p w' Hnever Hrun.
  - simpl in Hrun. rewrite mret_eq in Hrun. now injection Hrun as <- _.
  - simpl in Hrun.
    apply bind_inv_ok in Hrun as ([|] & w0 & _ & Hrun).
    + rewrite mret_eq in Hrun. now injection Hrun as <- _.
    + apply bind_inv_ok in Hrun as (st1 & w1 & Hstep & Hrun).
      destruct (processRow_spec caps jobId input Hrender Htemp st idx row w0)
        as (st2 & w2 & doc & g & Hstep' & _ & _ & _ & _ & _ & _ & _ & _ & Hfail).
      pose proof (eq_trans (eq_sym Hstep') Hstep) as Heq. injection Heq as -> ->.
      destruct (Hfail Hnever) as (_ & <- & _).
      now apply (IH st1 w1 p w').
Qed.

End RowLoopFold.

Lemma wp_waitIfPaused_free jobId (Q : Outcome bool -> World -> Prop) w :
  notPaused jobId w -> Q (Ok false) w -> wp (waitIfPaused jobId) Q w.
Proof. intros Hfree HQ. unfold wp. now rewrite (waitIfPaused_free jobId w Hfree). Qed.

(** A paused job is held at the pause check, its suspension signal armed. *)
Lemma wp_waitIfPaused_held jobId job (Q : Outcome bool -> World -> Prop) w :
  jobs w !! jobId = Some job -> Job.paused job = true ->
  Q (Ok true) (alterJob jobId armSignal w) -> wp (waitIfPaused jobId) Q w.
Proof. intros Hjob Hpaused HQ. unfold wp, waitIfPaused. now rewrite Hjob, Hpaused. Qed.

(** ** The dispatch behind a finished job *)

Lemma wp_handToTransport mail (Q : Outcome unit -> World -> Prop) w :
  Q (Ok tt) (addMail mail w) -> wp (handToTransport mail) Q w.
Proof. exact (fun H => H). Qed.

Lemma wp_foldM {A B} (f : B -> A -> M B) (I : World -> Prop) l :
  (forall b x w, I w -> wp (f b x) (fun o w' => I w' /\ exists b', o = Ok b') w) ->
  forall b w, I w -> wp (foldM f l b) (fun o w' => I w' /\ exists b', o = Ok b') w.
Proof.
  intros Hstep. induction l as [| x rest IH]; intros b w Hw; simpl.
  - apply wp_ret. eauto.
  - apply wp_bind. eapply wp_mono; [apply Hstep, Hw |].
    intros o w1 [Hw1 [b1 ->]]. now apply IH.
Qed.

Section Dispatch.

Variable caps : Capabilities.

Lemma sendEmailsSmtp_keeps_jobs queue subject message smtpConfig w :
  wp (sendEmailsSmtp caps queue subject message smtpConfig None)
     (fun _ w' => jobs w' = jobs w) w.
Proof.
  unfold sendEmailsSmtp. destruct (buildSmtpOptions caps smtpConfig) as [options |].
  - wp_step.
    eapply wp_mono;
      [apply (wp_foldM _ (fun w' => jobs w' = jobs w)); [| reflexivity] |].
    + intros st item w1 Hw1. unfold smtpSendOne.
      destruct (normalizeEmailAttachments item) as [| att atts].
      * unfold reportProgress. wp_steps. eauto.
      * wp_step. apply wp_handToTransport. wp_steps.
        destruct (sendMail caps _ _) as [msg |]; unfold reportProgress; wp_steps; eauto.
    + intros o w1 [Hw1 [st ->]]. wp_step. exact Hw1.
  - wp_steps. reflexivity.
Qed.

Lemma sendEmailsOutlook_keeps_jobs queue subject message outlookFrom w :
  wp (sendEmailsOutlook caps queue subject message outlookFrom)
     (fun _ w' => jobs w' = jobs w) w.
Proof.
  unfold sendEmailsOutlook.
  destruct (negb (String.eqb (platform caps) "win32")); [wp_step; reflexivity |].
  wp_step.
  eapply wp_mono;
    [apply (wp_foldM _ (fun w' => jobs w' = jobs w)); [| reflexivity] |].
  - intros [] p w1 Hw1. apply wp_handToTransport. eauto.
  - intros o w1 [Hw1 [[] ->]]. wp_steps.
    destruct (outlook caps _ _) as [msg | [msg | report] [cmsg |]]; wp_steps; exact Hw1.
Qed.

(** The dispatch never throws into the runner and leaves the jobs alone. *)
Lemma dispatchQueue_spec input emailsToSend w :
  wp (dispatchQueue caps input emailsToSend)
     (fun o w' => o = Ok tt /\ jobs w' = jobs w) w.
Proof.
  unfold dispatchQueue. destruct emailsToSend as [| item rest]; [wp_step; auto |].
  wp_step.
  destruct (String.eqb (JS.toLowerCase (orElse (emailMode input) "smtp")) "outlook").
  - wp_step. eapply wp_mono; [apply sendEmailsOutlook_keeps_jobs |].
    intros [r | msg] w1 Hw1; wp_steps; auto.
  - wp_step. eapply wp_mono; [apply sendEmailsSmtp_keeps_jobs |].
    intros [r | msg] w1 Hw1; wp_steps; auto.
Qed.

End Dispatch.

(** ** The generate job as a whole *)

Section GenerateJob.

Variable caps : Capabilities.
Variable jobId : string.
Variable input : GenerateInput.

Hypothesis Hrender : rendersAlways caps.
Hypothesis Htemp : tempDirAlways caps.

(** When the renderer never throws and no temporary folder is refused, the
    job ends done, whatever the conversions give: the result holds one
    document per row, under the names the search for free names gives. *)
Lemma runGenerateJob_spec w job :
  jobs w !! jobId = Some job ->
  Job.paused job = false ->
  exists w' job' st,
    runGenerateJob caps jobId input w = (Ok (Settled tt), w')
    /\ jobs w' !! jobId = Some job'
    /\ Job.status job' = Done
    /\ Job.total job' = length (rows input)
    /\ Job.current job' = length (rows input)
    /\ Job.error job' = Job.error job
    /\ Job.result job'
       = Some {| docxZipBuffer := zipDocx st;
                 pdfZipBuffer :=
                   if negb (bool_decide (zipPdf st = [])) then Some (zipPdf st) else None;
                 pdfGenerated := negb (bool_decide (zipPdf st = [])) |}
    /\ Forall2 (renderedFor caps input) (rows input) (zipDocx st)
    /\ map fst (zipDocx st) = finalNames ∅ (imap (rowFilename caps input) (rows input))
    /\ (neverVerified caps ->
        zipPdf st = [] /\ emailQueue st = [] /\ outbox w' = outbox w
        /\ warnings w + length (rows input) <= warnings w').
Proof.
  intros Hjob Hpaused.
  set (init := fun j : Job.t =>
                 Job.set_message "Gerando documentos."
                   (Job.set_current 0 (Job.set_total (length (rows input)) j))).
  set (wa := alterJob jobId (touchJob (dateNow caps (calls (alterJob jobId init w)) tt))
               (tick (alterJob jobId init w))).
  assert (Hfree : notPaused jobId wa).
  { intros j Hj. subst wa. simpl in Hj. rewrite !lookup_alter_eq, Hjob in Hj.
    injection Hj as <-. exact Hpaused. }
  destruct (processRows_from caps jobId input Hrender Htemp (rows input) 0 initialRunState wa
              Hfree)
    as (st & wb & entries & g & Hrows & Hzip & Hdocs & Hnames & Hout & Hwarn
        & Hjobb & Hkeep & Hcur & Hnever).
  { intros name Hin. now apply elem_of_nil in Hin. }
  simpl in Hzip. subst entries.
  set (finish := fun j : Job.t =>
         Job.set_message "Concluido."
           (Job.set_status Done
              (Job.set_result
                 (Some {| docxZipBuffer := zipDocx st;
                          pdfZipBuffer :=
                            if negb (bool_decide (zipPdf st = [])) then Some (zipPdf st)
                            else None;
                          pdfGenerated := negb (bool_decide (zipPdf st = [])) |}) j))).
  set (wc1 := alterJob jobId (Job.set_message "Finalizando arquivos.") wb).
  set (wc2 := alterJob jobId (touchJob (dateNow caps (calls wc1) tt)) (tick wc1)).
  set (wc3 := alterJob jobId finish wc2).
  set (wc := alterJob jobId (touchJob (dateNow caps (calls wc3) tt)) (tick wc3)).
  pose proof (dispatchQueue_spec caps input (map snd (emailQueue st)) wc) as Hdisp.
  apply wp_run in Hdisp as (o & wd & Hdisp & -> & Hjobd).
  set (ja := touchJob (dateNow caps (calls (alterJob jobId init w)) tt) (init job)).
  assert (Hja : jobs wa !! jobId = Some ja).
  { subst wa. simpl. now rewrite !lookup_alter_eq, Hjob. }
  set (jd := touchJob (dateNow caps (calls wc3) tt)
               (finish (touchJob (dateNow caps (calls wc1) tt)
                          (Job.set_message "Finalizando arquivos." (g ja))))).
  exists wd, jd, st.
  split.
  { unfold runGenerateJob. fold init.
    erewrite bind_ok by reflexivity.
    erewrite bind_ok by reflexivity. fold wa.
    unfold tryCatch. unfold processRows.
    change (imap pair (rows input)) with (imap (fun i row => (0 + i, row)) (rows input)).
    rewrite (bind_ok _ _ _ _ _ Hrows).
    erewrite bind_ok by reflexivity. fold wc1.
    erewrite bind_ok by reflexivity. fold wc2.
    erewrite bind_ok by reflexivity. fold finish wc3.
    erewrite bind_ok by reflexivity. fold wc.
    now rewrite (bind_ok _ _ _ _ _ Hdisp). }
  destruct (Hkeep ja) as (Hst & Htot & Hres & Herr & _).
  split.
  { rewrite Hjobd. subst wc wc3 wc2 wc1. simpl.
    now rewrite !lookup_alter_eq, Hjobb, Hja. }
  split; [reflexivity |].
  split; [simpl; now rewrite Htot |].
  split.
  { simpl. rewrite Hcur. destruct (rows input); reflexivity. }
  split; [simpl; now rewrite Herr |].
  split; [reflexivity |].
  split; [exact Hdocs |].
  split; [exact Hnames |].
  intros Hn. destruct (Hnever Hn) as (Hpdf & Hqueue & Hw).
  simpl in Hpdf, Hqueue.
  split; [exact Hpdf |]. split; [exact Hqueue |].
  rewrite Hqueue in Hdisp. simpl in Hdisp. injection Hdisp as <-.
  split; [exact Hout |]. exact Hw.
Qed.

End GenerateJob.

Lemma rowFilenames_end (caps : Capabilities) (input : GenerateInput) :
  Forall (fun f => JS.endsWith ".docx" (JS.toLowerCase f) = true)
         (imap (rowFilename caps input) (rows input)).
Proof.
  apply Forall_forall. intros f Hin.
  apply list_elem_of_lookup in Hin as [i Hi].
  rewrite list_lookup_imap in Hi.
  destruct (rows input !! i) as [row |]; [| discriminate].
  injection Hi as <-. apply withDocxExtension_ends.
Qed.


Lemma linuxServer_renders libre browser names recipients :
  rendersAlways (linuxServer libre browser names recipients).
Proof. intros n args. now exists docBytes. Qed.

Lemma linuxServer_tempDir libre browser names recipients :
  tempDirAlways (linuxServer libre browser names recipients).
Proof. intros buffer Hwin. discriminate Hwin. Qed.



(** C4 (as amended). Let every conversion of a generate job fail
    verification, the job not be paused, the renderer not throw and the
    Word conversion never be refused its temporary folder.  The job
    settles done, its error untouched; the result holds the rendered
    document of every row and no PDF archive; no row queues anything and
    nothing is handed to a mail transport; every round of the row loop
    adds at least one warning to the console, so that a job over N rows
    logs at least N. *)
Theorem C4_unverified_conversions_leave_the_job_done
    (caps : Capabilities) (jobId : string) (input : GenerateInput) (w : World) (job : Job.t) :
  rendersAlways caps ->
  tempDirAlways caps ->
  neverVerified caps ->
  jobs w !! jobId = Some job ->
  Job.paused job = false ->
  exists w' job' archive,
    runGenerateJob caps jobId input w = (Ok (Settled tt), w')
    /\ jobs w' !! jobId = Some job'
    /\ Job.status job' = Done
    /\ Job.error job' = Job.error job
    /\ Job.result job' = Some archive
    /\ length (docxZipBuffer archive) = length (rows input)
    /\ Forall2 (renderedFor caps input) (rows input) (docxZipBuffer archive)
    /\ pdfZipBuffer archive = None
    /\ pdfGenerated archive = false
    /\ outbox w' = outbox w
    /\ warnings w + length (rows input) <= warnings w'
    /\ (forall st idx row w0 st' w1,
          processRow caps jobId input st (idx, row) w0 = (Ok st', w1) ->
          emailQueue st' = emailQueue st /\ outbox w1 = outbox w0
          /\ warnings w0 < warnings w1)
    /\ (forall w0 p w1,
          processRows caps jobId input w0 = (Ok p, w1) -> emailQueue (stateOf p) = []).
Proof.
  intros Hrender Htemp Hnever Hjob Hpaused.
  destruct (runGenerateJob_spec caps jobId input Hrender Htemp w job Hjob Hpaused)
    as (w' & job' & st & Hrun & Hjob' & Hstatus & _ & _ & Herror & Hresult & Hdocs & _ & Hfail).
  destruct (Hfail Hnever) as (Hpdf & _ & Hout & Hwarn).
  rewrite Hpdf in Hresult. simpl in Hresult.
  eexists w', job', _. split; [exact Hrun |]. split; [exact Hjob' |].
  split; [exact Hstatus |]. split; [exact Herror |]. split; [exact Hresult |]. simpl.
  split; [symmetry; eapply Forall2_length; exact Hdocs |].
  split; [exact Hdocs |]. split; [reflexivity |]. split; [reflexivity |].
  split; [exact Hout |]. split; [exact Hwarn |]. split.
  - intros st0 idx row w0 st' w1 Hstep.
    destruct (processRow_spec caps jobId input Hrender Htemp st0 idx row w0)
      as (st1 & w2 & doc & g & Hstep' & _ & _ & _ & Hout1 & _ & _ & _ & _ & Hfail1).
    pose proof (eq_trans (eq_sym Hstep') Hstep) as Heq. injection Heq as -> ->.
    destruct (Hfail1 Hnever) as (_ & Hq & Hw). auto.
  - intros w0 p w1 Hloop.
    exact (processRows_idle_queue caps jobId input Hrender Htemp _ _ _ _ _ Hnever Hloop).
Qed.

Lemma noConverterServer_neverVerified : neverVerified noConverterServer.
Proof.
  intros buffer w r w' Hrun. cbv in Hrun. now injection Hrun as <- _.
Qed.

Lemma C4_witness :
  exists w' job',
    runGenerateJob noConverterServer "j1" (lettersInput [anaRow; ruiRow]) startOfJob
    = (Ok (Settled tt), w')
    /\ jobs w' !! "j1" = Some job'
    /\ Job.status job' = Done
    /\ outbox w' = []
    /\ 2 <= warnings w'.
Proof.
  destruct (C4_unverified_conversions_leave_the_job_done noConverterServer "j1"
              (lettersInput [anaRow; ruiRow]) startOfJob (createJob "j1" Generate 0)
              (linuxServer_renders _ _ _ _) (linuxServer_tempDir _ _ _ _)
              noConverterServer_neverVerified eq_refl eq_refl)
    as (w' & job' & archive & Hrun & Hjob & Hstatus & _ & _ & _ & _ & _ & _ & Hout & Hwarn & _).
  exists w', job'. repeat split; assumption.
Defined.

(** C4 (as stated) fails in its count of warnings: one row, whose
    conversion gives a buffer that is not a PDF and whose email cell names
    a recipient, is warned about twice; the job is done and nothing is
    sent. *)
Lemma C4_counterexample :
  let w' := snd (runGenerateJob garbageLibreMailServer "j1" (lettersInput [anaRow]) startOfJob) in
  Job.status <$> jobs w' !! "j1" = Some Done
  /\ outbox w' = []
  /\ length (rows (lettersInput [anaRow])) = 1
  /\ console w'
     = [ {| level := LogWarn; text := "PDF invalido gerado na linha 1." |};
         {| level := LogWarn;
            text := "PDF nao gerado; email nao enviado para ana@example.com" |} ]
  /\ warnings w' = 2.
Proof. vm_compute. repeat split. Qed.

(** On Windows the temporary folder of the Word conversion is made before
    the [try] of [convertWithMsOffice]: when it cannot be made, the
    failure leaves the conversion chain and the job ends in error at the
    first row, no document kept. *)
Example runGenerateJob_refused_temp_folder :
  let run := runGenerateJob noTempDirServer "j1" (lettersInput [anaRow; ruiRow]) startOfJob in
  fst run = Ok (Settled tt)
  /\ Job.status <$> jobs (snd run) !! "j1" = Some Error
  /\ Job.error <$> jobs (snd run) !! "j1" = Some "ENOSPC: no space left on device"
  /\ Job.result <$> jobs (snd run) !! "j1" = Some None.
Proof. vm_compute. repeat split. Qed.

(** ** Row resolver: groups *)

Section GroupDedup.

Implicit Types (seen : gmap string (gset string)) (item : Item.t) (items : list Item.t).

Lemma markSeen_item seen item :
  snd (markSeen seen item) = item
  \/ snd (markSeen seen item) = Item.set_hasValue false item.
Proof.
  unfold markSeen.
  destruct (negb (JS.truthy (Item.group item)) || negb (Item.hasValue item)); [now left |].
  destruct (decide _); [now right | now left].
Qed.

(** What the first loop does to one item: it loses [hasValue] exactly when
    it is in a group, has data, and its value is recorded for the group. *)
Lemma markSeen_dropped seen item :
  JS.truthy (Item.group item) = true ->
  Item.hasValue item = true ->
  (seenHas seen (Item.group item) (normalizedValue item) ->
   snd (markSeen seen item) = Item.set_hasValue false item)
  /\ (~ seenHas seen (Item.group item) (normalizedValue item) ->
      snd (markSeen seen item) = item).
Proof.
  intros Hg Hv. unfold markSeen. rewrite Hg, Hv. simpl.
  fold (normalizedValue item).
  destruct (seen !! Item.group item) as [set |] eqn:Hlook.
  - rewrite Hlook. simpl. destruct (decide (normalizedValue item ∈ set)) as [Hin | Hout]; simpl.
    + split; [reflexivity |]. intros Hno. exfalso. apply Hno. now exists set.
    + split; [| reflexivity]. intros (set' & Hset' & Hin). congruence.
  - rewrite lookup_insert_eq. simpl.
    rewrite decide_False by apply not_elem_of_empty. simpl.
    split; [| reflexivity]. intros (set' & Hset' & _). congruence.
Qed.

Lemma markSeen_kept seen item :
  JS.truthy (Item.group item) = false \/ Item.hasValue item = false ->
  markSeen seen item = (seen, item).
Proof.
  intros H. unfold markSeen.
  destruct H as [-> | ->]; simpl; [reflexivity |]. now rewrite orb_true_r.
Qed.

(** What the first loop records: the value of an item of a group that has
    data, and nothing else. *)
Lemma markSeen_seen seen item g v :
  seenHas (fst (markSeen seen item)) g v
  <-> seenHas seen g v
      \/ (JS.truthy (Item.group item) = true /\ Item.hasValue item = true
          /\ Item.group item = g /\ normalizedValue item = v).
Proof.
  unfold markSeen.
  destruct (JS.truthy (Item.group item)) eqn:Hg; simpl.
  2: { split; [tauto | intros [H | (H & _)]; [exact H | discriminate]]. }
  destruct (Item.hasValue item) eqn:Hv; simpl.
  2: { split; [tauto | intros [H | (_ & H & _)]; [exact H | discriminate]]. }
  fold (normalizedValue item).
  destruct (seen !! Item.group item) as [set |] eqn:Hlook.
  - rewrite Hlook. simpl.
    destruct (decide (normalizedValue item ∈ set)) as [Hin | Hout]; simpl.
    + split; [tauto |]. intros [H | (_ & _ & <- & <-)]; [exact H | now exists set].
    + unfold seenHas. split.
      * intros (set' & Hset' & Hv'). destruct (decide (Item.group item = g)) as [<- | Hne].
        -- rewrite lookup_insert_eq in Hset'. injection Hset' as <-.
           apply elem_of_union in Hv' as [Hv' | Hv'].
           ++ apply elem_of_singleton in Hv'. right. auto.
           ++ left. eauto.
        -- rewrite lookup_insert_ne in Hset' by exact Hne. left. eauto.
      * intros [(set' & Hset' & Hv') | (_ & _ & <- & <-)].
        -- destruct (decide (Item.group item = g)) as [<- | Hne].
           ++ rewrite lookup_insert_eq. eexists. split; [reflexivity |].
              apply elem_of_union. right. congruence.
           ++ rewrite lookup_insert_ne by exact Hne. eauto.
        -- rewrite lookup_insert_eq. eexists. split; [reflexivity |].
           apply elem_of_union. left. now apply elem_of_singleton.
  - rewrite lookup_insert_eq. simpl.
    rewrite decide_False by apply not_elem_of_empty. simpl.
    unfold seenHas. split.
    + intros (set' & Hset' & Hv'). destruct (decide (Item.group item = g)) as [<- | Hne].
      * rewrite lookup_insert_eq in Hset'. injection Hset' as <-.
        apply elem_of_union in Hv' as [Hv' | Hv'].
        -- apply elem_of_singleton in Hv'. right. auto.
        -- now apply not_elem_of_empty in Hv'.
      * rewrite !lookup_insert_ne in Hset' by exact Hne. left. eauto.
    + intros [(set' & Hset' & Hv') | (_ & _ & <- & <-)].
      * destruct (decide (Item.group item = g)) as [<- | Hne]; [congruence |].
        rewrite !lookup_insert_ne by exact Hne. eauto.
      * rewrite lookup_insert_eq. eexists. split; [reflexivity |].
        apply elem_of_union. left. now apply elem_of_singleton.
Qed.

Lemma dedupFrom_lookup items : forall seen j item,
  items !! j = Some item ->
  (JS.truthy (Item.group item) = false \/ Item.hasValue item = false ->
   dedupFrom seen items !! j = Some item)
  /\ (JS.truthy (Item.group item) = true -> Item.hasValue item = true ->
      (repeats seen items j item ->
       dedupFrom seen items !! j = Some (Item.set_hasValue false item))
      /\ (~ repeats seen items j item -> dedupFrom seen items !! j = Some item)).
Proof.
  induction items as [| head rest IH]; intros seen j item Hj; [discriminate |].
  simpl dedupFrom. destruct (markSeen seen head) as [seen' head'] eqn:Hmark.
  destruct j as [| j]; simpl in Hj.
  - injection Hj as ->. simpl. split.
    + intros H. now rewrite (markSeen_kept _ _ H) in Hmark; injection Hmark as _ <-.
    + intros Hg Hv. destruct (markSeen_dropped seen item Hg Hv) as [Hdrop Hkeep].
      rewrite Hmark in Hdrop, Hkeep. simpl in Hdrop, Hkeep. split.
      * intros [Hseen | (i & earlier & Hi & _)]; [| lia]. now rewrite Hdrop.
      * intros Hno. rewrite Hkeep; [reflexivity |]. intros Hseen. apply Hno. now left.
  - simpl. destruct (IH seen' j item Hj) as [Hplain Hgrouped]. split; [exact Hplain |].
    intros Hg Hv. destruct (Hgrouped Hg Hv) as [Hdrop Hkeep].
    assert (Hiff : repeats seen (head :: rest) (S j) item <-> repeats seen' rest j item).
    { unfold repeats. pose proof (markSeen_seen seen head (Item.group item)
                                   (normalizedValue item)) as Hseen.
      rewrite Hmark in Hseen. simpl in Hseen. rewrite Hseen. split.
      - intros [Hs | (i & earlier & Hi & Hlook & Hsame)]; [tauto |].
        destruct i as [| i]; simpl in Hlook.
        + injection Hlook as ->. destruct Hsame as (Hv0 & Hg0 & Hn0).
          left. right. repeat split; try assumption. now rewrite Hg0.
        + right. exists i, earlier. split; [lia |]. split; assumption.
      - intros [[Hs | (Hg0 & Hv0 & Hgrp & Hn0)] | (i & earlier & Hi & Hlook & Hsame)].
        + now left.
        + right. exists 0, head. split; [lia |]. split; [reflexivity |].
          repeat split; assumption.
        + right. exists (S i), earlier. split; [lia |]. split; assumption. }
    split; intros H; [apply Hdrop | apply Hkeep]; tauto.
Qed.

Lemma dedupFrom_length items : forall seen, length (dedupFrom seen items) = length items.
Proof.
  induction items as [| head rest IH]; intros seen; simpl; [reflexivity |].
  destruct (markSeen seen head). simpl. now rewrite IH.
Qed.

(** The first loop changes nothing of an item but [hasValue]. *)
Lemma dedupFrom_fields items : forall seen j item',
  dedupFrom seen items !! j = Some item' ->
  exists item,
    items !! j = Some item
    /\ Item.index item' = Item.index item /\ Item.key item' = Item.key item
    /\ Item.value item' = Item.value item /\ Item.trimmed item' = Item.trimmed item
    /\ Item.prefix item' = Item.prefix item /\ Item.group item' = Item.group item
    /\ (Item.hasValue item' = true -> Item.hasValue item = true).
Proof.
  induction items as [| head rest IH]; intros seen j item' Hj; [discriminate |].
  simpl in Hj. destruct (markSeen seen head) as [seen' head'] eqn:Hmark.
  destruct j as [| j]; simpl in Hj.
  - injection Hj as <-. exists head. split; [reflexivity |].
    pose proof (markSeen_item seen head) as Hitem. rewrite Hmark in Hitem. simpl in Hitem.
    destruct Hitem as [-> | ->]; simpl; repeat split; auto. discriminate.
  - apply (IH seen' j item' Hj).
Qed.

End GroupDedup.

Section GroupPositions.

Implicit Types (item : Item.t) (items present : list Item.t)
  (groups : list (string * list Item.t)) (positions : gmap nat (nat * nat)).

(** *** Sorting by index *)

Lemma wellIndexed_sorted items : forall k,
  (forall i item, items !! i = Some item -> Item.index item = k + i) ->
  StronglySorted byIndex items.
Proof.
  induction items as [| x rest IH]; intros k Hidx; [constructor |].
  apply StronglySorted_cons. split.
  - apply Forall_forall. intros y Hy. apply list_elem_of_lookup in Hy as [i Hi].
    unfold byIndex. rewrite (Hidx 0 x eq_refl), (Hidx (S i) y Hi). lia.
  - apply (IH (S k)). intros i item Hi. rewrite (Hidx (S i) item Hi). lia.
Qed.

Lemma sorted_filter (P : Item.t -> Prop) `{!forall x, Decision (P x)} items :
  StronglySorted byIndex items -> StronglySorted byIndex (filter P items).
Proof.
  induction items as [| x rest IH]; intros Hs; [constructor |].
  apply StronglySorted_cons in Hs as [Hall Hrest].
  rewrite filter_cons. destruct (decide (P x)); [| now apply IH].
  apply StronglySorted_cons. split; [| now apply IH].
  apply Forall_forall. intros y Hy. apply list_elem_of_filter in Hy as [_ Hy].
  rewrite Forall_forall in Hall. now apply Hall.
Qed.

Lemma sorted_NoDup_index items :
  StronglySorted byIndex items -> NoDup (map Item.index items).
Proof.
  induction items as [| x rest IH]; intros Hs; [constructor |].
  apply StronglySorted_cons in Hs as [Hall Hrest]. simpl.
  apply NoDup_cons. split; [| now apply IH].
  intros Hin. apply list_elem_of_fmap in Hin as (y & Heq & Hy).
  rewrite Forall_forall in Hall. specialize (Hall y Hy). unfold byIndex in Hall. lia.
Qed.

(** On items that stand in the order of their indices the sort changes
    nothing. *)
Lemma sortByIndex_sorted items :
  StronglySorted byIndex items -> sortByIndex items = items.
Proof.
  induction items as [| x rest IH]; intros Hs; [reflexivity |].
  apply StronglySorted_cons in Hs as [Hall Hrest].
  unfold sortByIndex in *. simpl. rewrite (IH Hrest).
  destruct rest as [| y rest']; [reflexivity |]. simpl.
  apply Forall_cons in Hall as [Hxy _]. unfold byIndex in Hxy.
  destruct (Nat.leb_spec (Item.index x) (Item.index y)); [reflexivity | lia].
Qed.

(** *** The positions of one group *)

Lemma positions_fold_miss present total : forall positions k,
  (forall item, item ∈ present -> Item.index item <> k) ->
  foldl (fun ps '(pos, item) => <[Item.index item := (pos, total)]> ps)
        positions (imap pair present) !! k
  = positions !! k.
Proof.
  induction present as [| x rest IH] using rev_ind; intros positions k Hmiss;
    [reflexivity |].
  rewrite imap_app, foldl_app. simpl.
  rewrite lookup_insert_ne.
  - apply IH. intros item Hin. apply Hmiss. apply elem_of_app. now left.
  - apply Hmiss. apply elem_of_app. right. apply list_elem_of_singleton. reflexivity.
Qed.

Lemma positions_fold_hit present total : forall positions p item,
  NoDup (map Item.index present) ->
  present !! p = Some item ->
  foldl (fun ps '(pos, item) => <[Item.index item := (pos, total)]> ps)
        positions (imap pair present) !! Item.index item
  = Some (p, total).
Proof.
  induction present as [| x rest IH] using rev_ind; intros positions p item Hnd Hp;
    [discriminate |].
  rewrite imap_app, foldl_app. simpl. rewrite Nat.add_0_r.
  rewrite map_app in Hnd. apply NoDup_app in Hnd as (Hnd & Hdisj & _).
  destruct (decide (p = length rest)) as [-> | Hne].
  - rewrite list_lookup_middle in Hp by reflexivity. injection Hp as ->.
    apply lookup_insert_eq.
  - assert (Hlt : p < length rest).
    { apply lookup_lt_Some in Hp. rewrite length_app in Hp. simpl in Hp. lia. }
    rewrite lookup_app_l in Hp by exact Hlt.
    rewrite lookup_insert_ne.
    + now apply IH.
    + intros Heq. apply (Hdisj (Item.index item)).
      * apply list_elem_of_fmap. exists item. split; [reflexivity |].
        apply list_elem_of_lookup. eauto.
      * simpl. rewrite Heq. apply list_elem_of_singleton. reflexivity.
Qed.

End GroupPositions.

Section GroupsMap.

Implicit Types (item : Item.t) (items : list Item.t)
  (groups : list (string * list Item.t)).

Lemma filter_none (P : Item.t -> Prop) `{!forall x, Decision (P x)} items :
  (forall x, x ∈ items -> ~ P x) -> filter P items = [].
Proof.
  induction items as [| x rest IH]; intros Hnone; [reflexivity |].
  rewrite filter_cons_False by (apply Hnone, list_elem_of_here).
  apply IH. intros y Hy. apply Hnone. now apply list_elem_of_further.
Qed.

Lemma groupsPush_keys groups item :
  map fst (groupsPush groups item)
  = if decide (Item.group item ∈ map fst groups) then map fst groups
    else (map fst groups ++ [Item.group item])%list.
Proof.
  induction groups as [| [g l] rest IH]; cbn [groupsPush].
  - rewrite decide_False by apply not_elem_of_nil. reflexivity.
  - destruct (String.eqb g (Item.group item)) eqn:Heq; cbn [map fst].
    + apply String.eqb_eq in Heq. subst g.
      rewrite decide_True by apply list_elem_of_here. reflexivity.
    + apply String.eqb_neq in Heq. rewrite IH.
      destruct (decide (Item.group item ∈ map fst rest)) as [Hin | Hout].
      * rewrite decide_True by (now apply list_elem_of_further). reflexivity.
      * rewrite decide_False; [reflexivity |].
        intros Hin. apply elem_of_cons in Hin as [Hin | Hin]; [congruence | tauto].
Qed.

Lemma groupsPush_elem groups item g l :
  NoDup (map fst groups) ->
  (g, l) ∈ groupsPush groups item ->
  (g <> Item.group item /\ (g, l) ∈ groups)
  \/ (g = Item.group item
      /\ ((exists l0, (g, l0) ∈ groups /\ l = (l0 ++ [item])%list)
          \/ ((g ∉ map fst groups) /\ l = [item]))).
Proof.
  induction groups as [| [g0 l0] rest IH]; intros Hnd Hin; cbn [groupsPush] in Hin.
  - apply list_elem_of_singleton in Hin. injection Hin as -> ->.
    right. split; [reflexivity |]. right. split; [apply not_elem_of_nil | reflexivity].
  - cbn [map fst] in Hnd. apply NoDup_cons in Hnd as [Hfresh Hnd].
    destruct (String.eqb g0 (Item.group item)) eqn:Heq.
    + apply String.eqb_eq in Heq. subst g0.
      apply elem_of_cons in Hin as [Hin | Hin].
      * injection Hin as -> ->. right. split; [reflexivity |]. left.
        exists l0. split; [apply list_elem_of_here | reflexivity].
      * left. split; [| now apply list_elem_of_further].
        intros ->. apply Hfresh. apply list_elem_of_fmap. now exists (Item.group item, l).
    + apply String.eqb_neq in Heq.
      apply elem_of_cons in Hin as [Hin | Hin].
      * injection Hin as -> ->. left. split; [exact Heq | apply list_elem_of_here].
      * destruct (IH Hnd Hin) as [[Hne Hold] | [-> [(l1 & Hold & ->) | [Hnew ->]]]].
        -- left. split; [exact Hne | now apply list_elem_of_further].
        -- right. split; [reflexivity |]. left. exists l1.
           split; [now apply list_elem_of_further | reflexivity].
        -- right. split; [reflexivity |]. right. split; [| reflexivity].
           cbn [map fst]. intros Hin'.
           apply elem_of_cons in Hin' as [Hin' | Hin']; [congruence | tauto].
Qed.

Lemma groupsOf_nil : groupsOf [] [].
Proof.
  split; [constructor |]. split.
  - intros g l Hin. now apply elem_of_nil in Hin.
  - intros item Hin. now apply elem_of_nil in Hin.
Qed.

Lemma groupsOf_snoc items groups item :
  groupsOf items groups ->
  groupsOf (items ++ [item])
    (if JS.truthy (Item.group item) then groupsPush groups item else groups).
Proof.
  intros (Hnd & Hlists & Hkeys).
  destruct (JS.truthy (Item.group item)) eqn:Hg.
  - split; [| split].
    + rewrite groupsPush_keys. destruct (decide _) as [Hin | Hout]; [exact Hnd |].
      apply NoDup_app. split; [exact Hnd |]. split; [| apply NoDup_singleton].
      intros x Hx Hx'. apply list_elem_of_singleton in Hx'. congruence.
    + intros g l Hin. rewrite filter_app, filter_cons, filter_nil.
      destruct (groupsPush_elem _ _ _ _ Hnd Hin)
        as [[Hne Hold] | [-> [(l0 & Hold & ->) | [Hnew ->]]]].
      * destruct (Hlists g l Hold) as [Htr ->]. split; [exact Htr |].
        rewrite decide_False by congruence. now rewrite app_nil_r.
      * destruct (Hlists _ l0 Hold) as [Htr ->]. split; [exact Htr |].
        now rewrite decide_True by reflexivity.
      * split; [exact Hg |]. rewrite decide_True by reflexivity.
        rewrite filter_none; [reflexivity |].
        intros x Hx Heq. apply Hnew. rewrite <- Heq. apply Hkeys; [exact Hx |].
        now rewrite Heq.
    + intros x Hx Hgx. rewrite groupsPush_keys.
      apply elem_of_app in Hx as [Hx | Hx].
      * specialize (Hkeys x Hx Hgx).
        destruct (decide _); [exact Hkeys | apply elem_of_app; now left].
      * apply list_elem_of_singleton in Hx. subst x.
        destruct (decide _) as [Hin | Hout]; [exact Hin |].
        apply elem_of_app. right. now apply list_elem_of_singleton.
  - split; [exact Hnd |]. split.
    + intros g l Hin. destruct (Hlists g l Hin) as [Htr ->]. split; [exact Htr |].
      rewrite filter_app, filter_cons, filter_nil.
      rewrite decide_False; [now rewrite app_nil_r |]. intros Heq. congruence.
    + intros x Hx Hgx. apply elem_of_app in Hx as [Hx | Hx]; [now apply Hkeys |].
      apply list_elem_of_singleton in Hx. congruence.
Qed.

(** The [Map] [groups] holds, for every group tag met, the items of the
    group in the order of the list. *)
Lemma buildGroups_spec items : groupsOf items (buildGroups items).
Proof.
  unfold buildGroups.
  induction items as [| item rest IH] using rev_ind; [apply groupsOf_nil |].
  rewrite foldl_snoc. now apply groupsOf_snoc.
Qed.

End GroupsMap.

Section PositionsMap.

Implicit Types (item : Item.t) (items : list Item.t)
  (groups : list (string * list Item.t)) (positions : gmap nat (nat * nat)).

Lemma setPositions_miss positions groupItems k :
  StronglySorted byIndex groupItems ->
  (forall item, item ∈ groupItems -> Item.index item <> k) ->
  setPositions positions groupItems !! k = positions !! k.
Proof.
  intros Hsorted Hmiss. unfold setPositions.
  rewrite sortByIndex_sorted by (now apply sorted_filter).
  apply positions_fold_miss. intros item Hin.
  apply list_elem_of_filter in Hin as [_ Hin]. now apply Hmiss.
Qed.

Lemma setPositions_hit positions groupItems p item :
  StronglySorted byIndex groupItems ->
  filter (fun x => Item.hasValue x = true) groupItems !! p = Some item ->
  setPositions positions groupItems !! Item.index item
  = Some (p, length (filter (fun x => Item.hasValue x = true) groupItems)).
Proof.
  intros Hsorted Hp. unfold setPositions.
  rewrite sortByIndex_sorted by (now apply sorted_filter).
  apply positions_fold_hit; [| exact Hp].
  now apply sorted_NoDup_index, sorted_filter.
Qed.

Lemma wellIndexed_inj items a b :
  wellIndexed items -> a ∈ items -> b ∈ items -> Item.index a = Item.index b -> a = b.
Proof.
  intros Hidx Ha Hb Heq.
  apply list_elem_of_lookup in Ha as [i Hi]. apply list_elem_of_lookup in Hb as [j Hj].
  rewrite (Hidx _ _ Hi), (Hidx _ _ Hj) in Heq. subst j. congruence.
Qed.

(** The position map, read at the index of an item that is present in its
    group: its place among the present items of the group and their
    number. *)
Lemma buildPositions_lookup items groups : forall g l p item,
  wellIndexed items ->
  NoDup (map fst groups) ->
  (forall g' l', (g', l') ∈ groups -> l' = filter (fun x => Item.group x = g') items) ->
  (g, l) ∈ groups ->
  filter (fun x => Item.hasValue x = true) l !! p = Some item ->
  buildPositions groups !! Item.index item
  = Some (p, length (filter (fun x => Item.hasValue x = true) l)).
Proof.
  unfold buildPositions.
  induction groups as [| [g0 l0] rest IH] using rev_ind;
    intros g l p item Hidx Hnd Hlists Hin Hp.
  { now apply elem_of_nil in Hin. }
  assert (Hsorted : StronglySorted byIndex items).
  { apply (wellIndexed_sorted items 0). intros i x Hi. now rewrite (Hidx _ _ Hi). }
  assert (Hl0 : l0 = filter (fun x => Item.group x = g0) items).
  { apply Hlists. apply elem_of_app. right. now apply list_elem_of_singleton. }
  rewrite foldl_snoc. cbn beta iota.
  rewrite map_app in Hnd. apply NoDup_app in Hnd as (Hnd & Hdisj & _).
  apply elem_of_app in Hin as [Hin | Hin].
  - assert (Hne : g <> g0).
    { intros ->. apply (Hdisj g0).
      - apply list_elem_of_fmap. now exists (g0, l).
      - simpl. apply list_elem_of_singleton. reflexivity. }
    assert (Hl : l = filter (fun x => Item.group x = g) items).
    { apply Hlists. apply elem_of_app. now left. }
    assert (Hitem : item ∈ items /\ Item.group item = g).
    { assert (Hin' : item ∈ filter (fun x => Item.hasValue x = true) l)
        by (apply list_elem_of_lookup; eauto).
      apply list_elem_of_filter in Hin' as [_ Hin']. rewrite Hl in Hin'.
      apply list_elem_of_filter in Hin' as [Hg Hin']. auto. }
    rewrite setPositions_miss.
    + apply (IH g l p item Hidx Hnd); [| exact Hin | exact Hp].
      intros g' l' Hin'. apply Hlists. apply elem_of_app. now left.
    + rewrite Hl0. now apply sorted_filter.
    + intros x Hx Heq. rewrite Hl0 in Hx. apply list_elem_of_filter in Hx as [Hgx Hx].
      destruct Hitem as [Hitem Hgi].
      pose proof (wellIndexed_inj items x item Hidx Hx Hitem Heq) as ->. congruence.
  - apply list_elem_of_singleton in Hin. injection Hin as -> ->.
    apply setPositions_hit; [| exact Hp].
    rewrite Hl0. now apply sorted_filter.
Qed.

Lemma filter_lookup_prefix (P : Item.t -> Prop) `{!forall x, Decision (P x)} items j item :
  items !! j = Some item -> P item ->
  filter P items !! length (filter P (take j items)) = Some item.
Proof.
  intros Hj HP. pose proof (take_drop_middle items j item Hj) as Hsplit.
  remember (take j items) as before eqn:Hbefore.
  remember (drop (S j) items) as behind eqn:Hbehind.
  rewrite <- Hsplit, filter_app, filter_cons_True by exact HP.
  now rewrite list_lookup_middle.
Qed.

Lemma makeItems_lookup mapping row j :
  makeItems mapping row !! j = makeItem row j <$> mapping !! j.
Proof. unfold makeItems. apply list_lookup_imap. Qed.

Lemma resolvedItems_wellIndexed mapping row : wellIndexed (resolvedItems mapping row).
Proof.
  intros k item' Hk. unfold resolvedItems, dedupItems in Hk.
  destruct (dedupFrom_fields _ _ _ _ Hk) as (item & Hitem & Hindex & _).
  rewrite makeItems_lookup in Hitem.
  destruct (mapping !! k) as [entry |]; [| discriminate].
  injection Hitem as <-. exact Hindex.
Qed.

(** What the resolver stores for an item that is present in a group: its
    list prefix, made from its place among the present items of the group,
    and its value. *)
Lemma resolvedEntries_present mapping row j item :
  resolvedItems mapping row !! j = Some item ->
  Item.hasValue item = true ->
  JS.truthy (Item.group item) = true ->
  let items := resolvedItems mapping row in
  let pos := length (filter (presentIn (Item.group item)) (take j items)) in
  let total := length (filter (presentIn (Item.group item)) items) in
  resolvedEntries mapping row !! j
  = Some (Item.key item,
          buildListPrefix (Item.prefix item) pos total +:+ Item.value item).
Proof.
  intros Hj Hv Hg items pos total.
  unfold resolvedEntries. fold items. rewrite list_lookup_fmap. fold items in Hj.
  rewrite Hj. simpl. f_equal. f_equal.
  unfold finalValue. rewrite Hv, Hg. simpl.
  destruct (buildGroups_spec items) as (Hnd & Hlists & Hkeys).
  assert (Hin : item ∈ items) by (apply list_elem_of_lookup; eauto).
  specialize (Hkeys item Hin Hg).
  apply list_elem_of_fmap in Hkeys as ([g l] & Hgl & Hmem). simpl in Hgl. subst g.
  pose proof (resolvedItems_wellIndexed mapping row) as Hidx. fold items in Hidx.
  assert (Hfilter : forall l0 : list Item.t,
            filter (fun x => Item.hasValue x = true)
                   (filter (fun x => Item.group x = Item.group item) l0)
            = filter (presentIn (Item.group item)) l0).
  { intros l0. rewrite list_filter_filter. apply list_filter_iff. intros x. reflexivity. }
  assert (Hl : l = filter (fun x => Item.group x = Item.group item) items)
    by (apply (Hlists _ _ Hmem)).
  assert (Hp : filter (fun x => Item.hasValue x = true) l !! pos = Some item).
  { rewrite Hl, Hfilter. apply filter_lookup_prefix; [exact Hj |]. now split. }
  pose proof (buildPositions_lookup items (buildGroups items) (Item.group item) l pos item
                Hidx Hnd (fun g' l' H => proj2 (Hlists g' l' H)) Hmem Hp) as Hpos.
  rewrite (Hidx _ _ Hj) in Hpos. rewrite (Hidx _ _ Hj), Hpos.
  now rewrite Hl, Hfilter.
Qed.

End PositionsMap.

Section Resolver.

Implicit Types (mapping : list MappingEntry.t) (row : Row) (item : Item.t).

Lemma seenHas_empty g v : ~ seenHas ∅ g v.
Proof. intros (set & Hset & _). now rewrite lookup_empty in Hset. Qed.


(** An item without [hasValue] resolves to the empty string. *)
Lemma resolvedEntries_absent mapping row j item :
  resolvedItems mapping row !! j = Some item ->
  Item.hasValue item = false ->
  resolvedEntries mapping row !! j = Some (Item.key item, "").
Proof.
  intros Hj Hv. unfold resolvedEntries. rewrite list_lookup_fmap, Hj. simpl.
  unfold finalValue. now rewrite Hv.
Qed.

(** The object [values] holds, under a key, what the last assignment to
    the key stored. *)
Lemma values_lookup_unassigned (entries : list (string * string)) k :
  forall acc : gmap string string,
  (forall k' v', (k', v') ∈ entries -> k' <> k) ->
  foldl assignValue acc entries !! k = acc !! k.
Proof.
  induction entries as [| [k0 v0] rest IH]; intros acc Hne; [reflexivity |].
  cbn [foldl]. rewrite IH.
  - unfold assignValue. destruct (String.eqb k0 "__proto__"); [reflexivity |].
    apply lookup_insert_ne. apply (Hne k0 v0), list_elem_of_here.
  - intros k' v' Hin. apply (Hne k' v'). now apply list_elem_of_further.
Qed.

Lemma values_lookup_last (entries : list (string * string)) :
  forall (acc : gmap string string) j k v,
  k <> "__proto__" ->
  entries !! j = Some (k, v) ->
  (forall j' k' v', j < j' -> entries !! j' = Some (k', v') -> k' <> k) ->
  foldl assignValue acc entries !! k = Some v.
Proof.
  induction entries as [| [k0 v0] rest IH]; intros acc j k v Hk Hj Hlast; [discriminate |].
  destruct j as [| j]; cbn [foldl]; simpl in Hj.
  - injection Hj as -> ->. rewrite values_lookup_unassigned.
    + unfold assignValue. apply String.eqb_neq in Hk. rewrite Hk.
      apply lookup_insert_eq.
    + intros k' v' Hin. apply list_elem_of_lookup in Hin as [i Hi].
      apply (Hlast (S i) k' v'); [lia | exact Hi].
  - apply (IH _ j k v Hk Hj). intros j' k' v' Hlt Hlook.
    apply (Hlast (S j') k' v'); [lia | exact Hlook].
Qed.

(** Nothing is ever held under [__proto__]. *)
Lemma values_lookup_proto (entries : list (string * string)) :
  forall acc : gmap string string,
  foldl assignValue acc entries !! "__proto__" = acc !! "__proto__".
Proof.
  induction entries as [| [k0 v0] rest IH]; intros acc; [reflexivity |].
  cbn [foldl]. rewrite IH. unfold assignValue.
  destruct (String.eqb_spec k0 "__proto__") as [-> | Hne]; [reflexivity |].
  now apply lookup_insert_ne.
Qed.

Lemma resolvedItems_lookup_key mapping row j item' :
  resolvedItems mapping row !! j = Some item' ->
  exists entry, mapping !! j = Some entry
                /\ Item.key item' = Item.key (makeItem row j entry)
                /\ Item.value item' = Item.value (makeItem row j entry).
Proof.
  intros Hj. unfold resolvedItems, dedupItems in Hj.
  destruct (dedupFrom_fields _ _ _ _ Hj) as (item & Hitem & _ & Hkey & Hvalue & _).
  rewrite makeItems_lookup in Hitem.
  destruct (mapping !! j) as [entry |]; [| discriminate].
  injection Hitem as <-. now exists entry.
Qed.

(** The three ways of [buildListPrefix]. *)
Lemma buildListPrefix_first prefix total : buildListPrefix prefix 0 total = prefix.
Proof. unfold buildListPrefix. simpl. now rewrite orb_true_r. Qed.

Lemma buildListPrefix_middle prefix pos total :
  0 < pos -> S pos < total -> buildListPrefix prefix pos total = ", " +:+ prefix.
Proof.
  intros Hpos Hlt. unfold buildListPrefix.
  destruct (Nat.leb_spec total 1); [lia |].
  destruct (Nat.eqb_spec pos 0); [lia |].
  destruct (Nat.eqb_spec pos (total - 1)); [lia |]. reflexivity.
Qed.

Lemma buildListPrefix_last prefix pos total :
  0 < pos -> S pos = total ->
  buildListPrefix prefix pos total
  = " e" +:+ (if JS.truthy prefix && negb (startsWithWhiteSpace prefix) then " " else "")
    +:+ prefix.
Proof.
  intros Hpos Hlt. unfold buildListPrefix.
  destruct (Nat.leb_spec total 1); [lia |].
  destruct (Nat.eqb_spec pos 0); [lia |].
  destruct (Nat.eqb_spec pos (total - 1)); [| lia]. reflexivity.
Qed.

End Resolver.



Example resolveRowValues_repeated_partner :
  resolvedEntries partnersMapping repeatedPartnerRow
  = [("s1", "Sr. Ana"); ("s2", ""); ("s3", " e Dr. Rui")].
Proof. vm_compute. reflexivity. Qed.

Section Enumeration.

Variable row : Row.
Variables e1 e2 e3 : MappingEntry.t.

Let i1 := makeItem row 0 e1.
Let i2 := makeItem row 1 e2.
Let i3 := makeItem row 2 e3.

Hypothesis Hgroup : JS.truthy (Item.group i1) = true.
Hypothesis Hgroup2 : Item.group i2 = Item.group i1.
Hypothesis Hgroup3 : Item.group i3 = Item.group i1.
Hypothesis Hdata1 : Item.hasValue i1 = true.
Hypothesis Hdata2 : Item.hasValue i2 = true.
Hypothesis Hdata3 : Item.hasValue i3 = true.
Hypothesis Hdiff12 : normalizedValue i1 <> normalizedValue i2.
Hypothesis Hdiff13 : normalizedValue i1 <> normalizedValue i3.
Hypothesis Hdiff23 : normalizedValue i2 <> normalizedValue i3.

Lemma three_present_items : resolvedItems [e1; e2; e3] row = [i1; i2; i3].
Proof.
  assert (Hkeep : forall j item,
            [i1; i2; i3] !! j = Some item ->
            dedupFrom ∅ [i1; i2; i3] !! j = Some item).
  { intros j item Hj.
    assert (Hg : JS.truthy (Item.group item) = true /\ Item.hasValue item = true).
    { destruct j as [| [| [| j]]]; simpl in Hj; try discriminate;
        injection Hj as <-; split; congruence. }
    destruct (dedupFrom_lookup [i1; i2; i3] ∅ j item Hj) as [_ Hgrouped].
    destruct (Hgrouped (proj1 Hg) (proj2 Hg)) as [_ Hkeep]. apply Hkeep.
    intros [Hseen | (i & earlier & Hi & Hlook & _ & _ & Hsame)];
      [now apply seenHas_empty in Hseen |].
    destruct j as [| [| [| j]]]; simpl in Hj; try discriminate; injection Hj as <-;
      destruct i as [| [| i]]; simpl in Hlook; try lia; injection Hlook as <-;
      congruence. }
  unfold resolvedItems, dedupItems, makeItems. simpl imap. fold i1 i2 i3.
  apply list_eq. intros j.
  destruct ([i1; i2; i3] !! j) as [item |] eqn:Hj; [now apply Hkeep |].
  apply lookup_ge_None. rewrite dedupFrom_length. now apply lookup_ge_None in Hj.
Qed.

(** Three present entries of one group: the first keeps its prefix, the
    second gets the separator, the third the conjunction. *)
Lemma three_present_entries :
  resolvedEntries [e1; e2; e3] row
  = [ (Item.key i1, Item.prefix i1 +:+ Item.value i1);
      (Item.key i2, ", " +:+ Item.prefix i2 +:+ Item.value i2);
      (Item.key i3,
       (" e" +:+ (if JS.truthy (Item.prefix i3) && negb (startsWithWhiteSpace (Item.prefix i3))
                  then " " else "")
        +:+ Item.prefix i3) +:+ Item.value i3) ].
Proof.
  pose proof three_present_items as Hitems.
  assert (Hpresent : forall item, item ∈ [i1; i2; i3] -> presentIn (Item.group i1) item).
  { intros item Hin. unfold presentIn.
    rewrite !elem_of_cons in Hin. destruct Hin as [-> | [-> | [-> | Hin]]]; auto.
    now apply elem_of_nil in Hin. }
  assert (Hall : filter (presentIn (Item.group i1)) [i1; i2; i3] = [i1; i2; i3]).
  { rewrite !filter_cons_True; [reflexivity | ..];
      apply Hpresent; rewrite !elem_of_cons; auto. }
  assert (Hone : filter (presentIn (Item.group i1)) [i1] = [i1]).
  { rewrite filter_cons_True; [reflexivity |]. apply Hpresent, list_elem_of_here. }
  assert (Htwo : filter (presentIn (Item.group i1)) [i1; i2] = [i1; i2]).
  { rewrite !filter_cons_True; [reflexivity | ..];
      apply Hpresent; rewrite !elem_of_cons; auto. }
  apply list_eq. intros j. destruct j as [| [| [| j]]].
  - rewrite (resolvedEntries_present [e1; e2; e3] row 0 i1); [| now rewrite Hitems | auto..].
    rewrite Hitems. simpl take. rewrite Hall. simpl length.
    now rewrite buildListPrefix_first.
  - rewrite (resolvedEntries_present [e1; e2; e3] row 1 i2);
      [| now rewrite Hitems | auto | congruence].
    rewrite Hitems, Hgroup2. simpl take. rewrite Hall, Hone. simpl length.
    rewrite buildListPrefix_middle by lia. simpl. now rewrite app_assoc_s.
  - rewrite (resolvedEntries_present [e1; e2; e3] row 2 i3);
      [| now rewrite Hitems | auto | congruence].
    rewrite Hitems, Hgroup3. simpl take. rewrite Hall, Htwo. simpl length.
    now rewrite buildListPrefix_last by lia.
  - simpl. apply lookup_ge_None. unfold resolvedEntries.
    rewrite length_map, Hitems. simpl. lia.
Qed.

End Enumeration.

(** Among the present entries of a group, in the order of the mapping,
    the first keeps its prefix as it is, every middle one gets ", " before
    its prefix, and the last one (when more than one is present) gets
    " e" before its prefix, with one space between the two when the
    prefix is not empty and does not begin with white space.  Three
    present entries with prefixes p1, p2, p3 (p3 not empty, not beginning
    with white space) and values A, B, C resolve to values that read
    p1A, p2B e p3C. *)
Lemma listPrefix_by_place_in_group :
  (forall (mapping : list MappingEntry.t) (row : Row) (j : nat) (item : Item.t),
     resolvedItems mapping row !! j = Some item ->
     Item.hasValue item = true ->
     JS.truthy (Item.group item) = true ->
     let items := resolvedItems mapping row in
     let pos := length (filter (presentIn (Item.group item)) (take j items)) in
     let total := length (filter (presentIn (Item.group item)) items) in
     let listPrefix := buildListPrefix (Item.prefix item) pos total in
     pos < total
     /\ resolvedEntries mapping row !! j
        = Some (Item.key item, listPrefix +:+ Item.value item)
     /\ (pos = 0 -> listPrefix = Item.prefix item)
     /\ (0 < pos -> S pos < total -> listPrefix = ", " +:+ Item.prefix item)
     /\ (0 < pos -> S pos = total ->
         listPrefix
         = " e" +:+ (if JS.truthy (Item.prefix item)
                        && negb (startsWithWhiteSpace (Item.prefix item))
                     then " " else "")
           +:+ Item.prefix item))
  /\ (forall (row : Row) (e1 e2 e3 : MappingEntry.t),
        let i1 := makeItem row 0 e1 in
        let i2 := makeItem row 1 e2 in
        let i3 := makeItem row 2 e3 in
        JS.truthy (Item.group i1) = true ->
        Item.group i2 = Item.group i1 ->
        Item.group i3 = Item.group i1 ->
        Item.hasValue i1 = true -> Item.hasValue i2 = true -> Item.hasValue i3 = true ->
        normalizedValue i1 <> normalizedValue i2 ->
        normalizedValue i1 <> normalizedValue i3 ->
        normalizedValue i2 <> normalizedValue i3 ->
        MappingEntry.prefix e3 <> "" ->
        startsWithWhiteSpace (MappingEntry.prefix e3) = false ->
        exists v1 v2 v3,
          resolvedEntries [e1; e2; e3] row
          = [(Item.key i1, v1); (Item.key i2, v2); (Item.key i3, v3)]
          /\ v1 = MappingEntry.prefix e1 +:+ Item.value i1
          /\ v2 = ", " +:+ MappingEntry.prefix e2 +:+ Item.value i2
          /\ v3 = " e " +:+ MappingEntry.prefix e3 +:+ Item.value i3
          /\ v1 +:+ v2 +:+ v3
             = MappingEntry.prefix e1 +:+ Item.value i1 +:+ ", "
               +:+ MappingEntry.prefix e2 +:+ Item.value i2 +:+ " e "
               +:+ MappingEntry.prefix e3 +:+ Item.value i3).
Proof.
  split.
  - intros mapping row j item Hj Hv Hg items pos total listPrefix.
    assert (Hlt : pos < total).
    { assert (Hp : filter (presentIn (Item.group item)) items !! pos = Some item)
        by (apply filter_lookup_prefix; [exact Hj | now split]).
      now apply lookup_lt_Some in Hp. }
    split; [exact Hlt |].
    split; [apply (resolvedEntries_present mapping row j item Hj Hv Hg) |].
    split; [intros Hpos; subst listPrefix; rewrite Hpos; apply buildListPrefix_first |].
    split; [apply buildListPrefix_middle | apply buildListPrefix_last].
  - intros row e1 e2 e3 i1 i2 i3 Hg Hg2 Hg3 Hd1 Hd2 Hd3 Hn12 Hn13 Hn23 Hp3 Hws.
    pose proof (three_present_entries row e1 e2 e3 Hg Hg2 Hg3 Hd1 Hd2 Hd3 Hn12 Hn13 Hn23)
      as Hentries.
    fold i1 i2 i3 in Hentries.
    change (Item.prefix i1) with (MappingEntry.prefix e1) in Hentries.
    change (Item.prefix i2) with (MappingEntry.prefix e2) in Hentries.
    change (Item.prefix i3) with (MappingEntry.prefix e3) in Hentries.
    apply truthy_true in Hp3. rewrite Hp3, Hws in Hentries. simpl in Hentries.
    eexists _, _, _. split; [exact Hentries |].
    repeat split; rewrite ?app_assoc_s; reflexivity.
Qed.

Example resolvedEntries_three_partners :
  resolvedEntries partnersMapping threePartnersRow
  = [("s1", "Sr. Ana"); ("s2", ", Sra. Bia"); ("s3", " e Dr. Caio")].
Proof. vm_compute. reflexivity. Qed.

(** C3. The last present entry of a group when it has no prefix: the
    conjunction is joined to its value.  Whenever an entry with data is
    the last of two or more present entries of its group and its prefix
    is empty, the value the resolver assigns for it is " e" followed at
    once by the value of the cell, and this is what the object
    [resolveRowValues] returns holds under its key (no later entry
    writing to the same key, and the key [__proto__] left aside). *)
Theorem C3_last_entry_without_prefix_joins_its_value
    (mapping : list MappingEntry.t) (row : Row) (j : nat) (item : Item.t) :
  resolvedItems mapping row !! j = Some item ->
  Item.hasValue item = true ->
  JS.truthy (Item.group item) = true ->
  let items := resolvedItems mapping row in
  let pos := length (filter (presentIn (Item.group item)) (take j items)) in
  let total := length (filter (presentIn (Item.group item)) items) in
  0 < pos -> S pos = total ->
  Item.prefix item = "" ->
  buildListPrefix (Item.prefix item) pos total = " e"
  /\ resolvedEntries mapping row !! j = Some (Item.key item, " e" +:+ Item.value item)
  /\ (Item.key item <> "__proto__" ->
      (forall j' later, j < j' -> mapping !! j' = Some later ->
         Item.key (makeItem row j' later) <> Item.key item) ->
      resolveRowValues mapping row !! Item.key item = Some (" e" +:+ Item.value item)).
Proof.
  intros Hj Hv Hg items pos total Hpos Hlast Hprefix.
  destruct listPrefix_by_place_in_group as [Hplace _].
  destruct (Hplace mapping row j item Hj Hv Hg) as (_ & Hentry & _ & _ & Hend).
  fold items pos total in Hentry, Hend.
  assert (Hlist : buildListPrefix (Item.prefix item) pos total = " e").
  { rewrite (Hend Hpos Hlast), Hprefix. reflexivity. }
  rewrite Hlist in Hentry.
  split; [exact Hlist |]. split; [exact Hentry |].
  intros Hkey Hlater. unfold resolveRowValues.
  apply (values_lookup_last _ ∅ j); [exact Hkey | exact Hentry |].
  intros j' k' v' Hlt Hlook. unfold resolvedEntries in Hlook.
  rewrite list_lookup_fmap in Hlook.
  destruct (resolvedItems mapping row !! j') as [item' |] eqn:Hj'; [| discriminate].
  injection Hlook as <- _.
  destruct (resolvedItems_lookup_key mapping row j' item' Hj') as (later & Hl & -> & _).
  now apply (Hlater j' later).
Qed.

(** Three partners of one group without prefixes, Ana, Bia and Caio: the
    object returned reads "Ana, Bia eCaio".  With the prefixes "Sr. ",
    "Sra. " and "Dr. " it reads "Sr. Ana, Sra. Bia e Dr. Caio". *)
Lemma C3_witness :
  let bare := resolveRowValues barePartnersMapping threePartnersRow in
  let titled := resolveRowValues partnersMapping threePartnersRow in
  bare !! "s1" = Some "Ana"
  /\ bare !! "s2" = Some ", Bia"
  /\ bare !! "s3" = Some " eCaio"
  /\ "Ana" +:+ ", Bia" +:+ " eCaio" = "Ana, Bia eCaio"
  /\ titled !! "s1" = Some "Sr. Ana"
  /\ titled !! "s2" = Some ", Sra. Bia"
  /\ titled !! "s3" = Some " e Dr. Caio".
Proof.
  intros bare titled.
  assert (Hlast : bare !! "s3" = Some " eCaio").
  { destruct (C3_last_entry_without_prefix_joins_its_value barePartnersMapping
                threePartnersRow 2
                (makeItem threePartnersRow 2 (groupEntry "{{s3}}" "Socio3" "")))
      as (_ & _ & Hobject).
    - vm_compute. reflexivity.
    - reflexivity.
    - reflexivity.
    - vm_compute. lia.
    - vm_compute. reflexivity.
    - reflexivity.
    - apply Hobject; [vm_compute; discriminate |].
      intros j' later Hlt Hlook.
      destruct j' as [| [| [| j']]]; try lia. discriminate Hlook. }
  split; [vm_compute; reflexivity |]. split; [vm_compute; reflexivity |].
  split; [exact Hlast |]. split; [reflexivity |].
  vm_compute. repeat split.
Defined.

(* ===================================================================== *)
(** * Further properties of the server                                     *)
(* ===================================================================== *)

(** ** Job registry: pausing, resuming, eviction *)

Section RegistryLifeCycle.

Implicit Types (jobs : gmap string Job.t) (job : Job.t).

Lemma touchJob_set_updatedAt now now' job :
  touchJob now' (touchJob now job) = touchJob now' job.
Proof. reflexivity. Qed.

Lemma pauseJob_running now job :
  Job.status job = Running ->
  Job.status (pauseJob now job) = Paused
  /\ Job.paused (pauseJob now job) = true
  /\ Job.pausePromise (pauseJob now job) = true
  /\ Job.resume (pauseJob now job) = (if Job.pausePromise job then Job.resume job else true)
  /\ Job.updatedAt (pauseJob now job) = now.
Proof.
  intros Hst. unfold pauseJob. rewrite decide_True by exact Hst. simpl.
  destruct (Job.pausePromise job) eqn:Hp; simpl; rewrite ?Hp; tauto.
Qed.

Lemma createJob_consistent newId ty now : pauseConsistent (createJob newId ty now).
Proof. unfold pauseConsistent. simpl. repeat split; discriminate. Qed.

Lemma pauseJob_consistent now job : pauseConsistent job -> pauseConsistent (pauseJob now job).
Proof.
  intros (Hp & Hr & Hst & Hrun). unfold pauseJob.
  destruct (decide (Job.status job = Running)) as [Hs | Hs]; [| now repeat split].
  destruct (Job.paused job) eqn:Hpaused; [now destruct (Hrun eq_refl) |].
  simpl. rewrite Hp. simpl. repeat split; discriminate.
Qed.

Lemma resumeJob_consistent now job : pauseConsistent job -> pauseConsistent (resumeJob now job).
Proof.
  intros Hc. unfold resumeJob.
  destruct (Job.paused job) eqn:Hpaused; [| exact Hc].
  unfold pauseConsistent. simpl. repeat split; discriminate.
Qed.

Lemma handle_consistent jobs r :
  map_Forall (fun _ => pauseConsistent) jobs ->
  map_Forall (fun _ => pauseConsistent) (handle jobs r).
Proof.
  intros Hall. destruct r as [i now | i now]; simpl.
  - unfold postPause. destruct (jobs !! i) as [job |] eqn:Hjob; [| exact Hall].
    destruct (isTerminal (Job.status job)); [exact Hall |]. simpl.
    apply map_Forall_insert_2; [| exact Hall].
    apply pauseJob_consistent, (Hall i job Hjob).
  - unfold postResume. destruct (jobs !! i) as [job |] eqn:Hjob; [| exact Hall].
    destruct (isTerminal (Job.status job)); [exact Hall |]. simpl.
    apply map_Forall_insert_2; [| exact Hall].
    apply resumeJob_consistent, (Hall i job Hjob).
Qed.

End RegistryLifeCycle.

(** X1. A running job that is paused and then resumed through the routes
    is answered [paused], then [running], and is afterwards the job it was
    before, but for the time of its last update. *)
Theorem X1_pause_then_resume_gives_back_the_job
    (jobs : gmap string Job.t) (jobId : string) (job : Job.t) (t1 t2 : Z) :
  jobs !! jobId = Some job ->
  Job.status job = Running ->
  pauseConsistent job ->
  let paused := postPause jobId t1 jobs in
  let resumed := postResume jobId t2 (fst paused) in
  snd paused = {| code := 200; body := StatusBody Paused |}
  /\ Job.paused <$> (fst paused !! jobId) = Some true
  /\ snd resumed = {| code := 200; body := StatusBody Running |}
  /\ fst resumed = <[jobId := touchJob t2 job]> jobs.
Proof.
  intros Hjob Hst (Hp & Hr & _ & Hrun).
  assert (Hflag : Job.paused job = false).
  { destruct (Job.paused job); [now destruct (Hrun eq_refl) | reflexivity]. }
  rewrite Hflag in Hp, Hr.
  unfold postPause. rewrite Hjob, Hst. cbn [isTerminal fst snd].
  destruct (pauseJob_running t1 job Hst) as (Hs1 & Hf1 & _).
  unfold postResume. rewrite lookup_insert_eq, Hs1. cbn [isTerminal fst snd].
  split; [reflexivity |]. split; [simpl; now rewrite Hf1 |].
  assert (Hback : resumeJob t2 (pauseJob t1 job) = touchJob t2 job).
  { unfold resumeJob. rewrite Hf1. unfold pauseJob. rewrite decide_True by exact Hst.
    destruct job; simpl in *. subst. reflexivity. }
  rewrite Hback. change (Job.status (touchJob t2 job)) with (Job.status job).
  split; [now rewrite Hst |]. apply insert_insert_eq.
Qed.

Lemma X1_witness :
  snd (postResume "j1" 3000 (fst (postPause "j1" 2000 {[ "j1" := freshJob ]})))
  = {| code := 200; body := StatusBody Running |}.
Proof.
  apply (X1_pause_then_resume_gives_back_the_job {[ "j1" := freshJob ]} "j1" freshJob 2000 3000).
  - reflexivity.
  - reflexivity.
  - unfold pauseConsistent. simpl. repeat split; discriminate.
Defined.

(** X2. Pause and resume requests keep the pause flag, the suspension
    signal and the status of every job of the registry in agreement, as
    [createJob] makes them; hence a job whose status is paused is set
    running again by a resume request. *)
Theorem X2_pause_flag_signal_and_status_agree
    (jobs : gmap string Job.t) (rs : list Request) :
  map_Forall (fun _ => pauseConsistent) jobs ->
  map_Forall (fun _ => pauseConsistent) (handleAll jobs rs)
  /\ (forall jobId job now,
        handleAll jobs rs !! jobId = Some job ->
        Job.status job = Paused ->
        snd (postResume jobId now (handleAll jobs rs))
        = {| code := 200; body := StatusBody Running |}).
Proof.
  intros Hall.
  assert (Hinv : map_Forall (fun _ => pauseConsistent) (handleAll jobs rs)).
  { unfold handleAll. revert jobs Hall.
    induction rs as [| r rs IH]; intros jobs Hall; [exact Hall |].
    simpl. apply IH, handle_consistent, Hall. }
  split; [exact Hinv |].
  intros jobId job now Hjob Hst.
  destruct (Hinv jobId job Hjob) as (_ & _ & Hflag & _).
  unfold postResume. rewrite Hjob, Hst. cbn [isTerminal snd].
  unfold resumeJob. now rewrite (Hflag Hst).
Qed.

Lemma X2_witness :
  map_Forall (fun _ => pauseConsistent)
    (handleAll {[ "j1" := freshJob ]}
       [PauseRequest "j1" 2000; PauseRequest "j1" 2500; ResumeRequest "j1" 3000]).
Proof.
  apply (X2_pause_flag_signal_and_status_agree {[ "j1" := freshJob ]}).
  apply map_Forall_singleton. apply createJob_consistent.
Defined.

(** X3. A job is kept by [cleanupJobs] exactly as long as its last update
    is at most [JOB_TTL_MS] old, and a kept job is not changed.  Pausing a
    running job counts as an update: up to that age the paused job is
    kept; once it is older it is deleted, paused or not, and a resume
    request for it is answered 404. *)
Theorem X3_paused_job_is_evicted_after_its_lease
    (jobs : gmap string Job.t) (jobId : string) (job : Job.t) (t now : Z) :
  jobs !! jobId = Some job ->
  Job.status job = Running ->
  let jobs1 := fst (postPause jobId t jobs) in
  (forall i j, cleanupJobs now jobs1 !! i = Some j
               <-> jobs1 !! i = Some j /\ (now - Job.updatedAt j <= JOB_TTL_MS)%Z)
  /\ ((now - t <= JOB_TTL_MS)%Z -> cleanupJobs now jobs1 !! jobId = Some (pauseJob t job))
  /\ ((now - t > JOB_TTL_MS)%Z ->
      cleanupJobs now jobs1 !! jobId = None
      /\ postResume jobId now (cleanupJobs now jobs1)
         = (cleanupJobs now jobs1, {| code := 404; body := ErrorBody "Job nao encontrado." |})).
Proof.
  intros Hjob Hst jobs1.
  assert (Hlook : jobs1 !! jobId = Some (pauseJob t job)).
  { unfold jobs1, postPause. rewrite Hjob, Hst. cbn [isTerminal fst].
    apply lookup_insert_eq. }
  destruct (pauseJob_running t job Hst) as (_ & _ & _ & _ & Htime).
  assert (Hchar : forall i j, cleanupJobs now jobs1 !! i = Some j
                   <-> jobs1 !! i = Some j /\ (now - Job.updatedAt j <= JOB_TTL_MS)%Z).
  { intros i j. unfold cleanupJobs. rewrite map_lookup_filter_Some. simpl.
    split; intros [H1 H2]; (split; [exact H1 | lia]). }
  split; [exact Hchar |]. split.
  - intros Hyoung. apply Hchar. split; [exact Hlook |]. rewrite Htime. exact Hyoung.
  - intros Hold.
    assert (Hgone : cleanupJobs now jobs1 !! jobId = None).
    { destruct (cleanupJobs now jobs1 !! jobId) as [j |] eqn:Hj; [| reflexivity].
      apply Hchar in Hj as [Hj Hage]. rewrite Hlook in Hj. injection Hj as <-.
      rewrite Htime in Hage. lia. }
    split; [exact Hgone |]. unfold postResume. now rewrite Hgone.
Qed.

Lemma X3_witness :
  cleanupJobs 1802001 (fst (postPause "j1" 2000 {[ "j1" := freshJob ]})) !! "j1" = None.
Proof.
  apply (X3_paused_job_is_evicted_after_its_lease {[ "j1" := freshJob ]} "j1" freshJob
           2000 1802001).
  - reflexivity.
  - reflexivity.
  - reflexivity.
Defined.

(** ** File names *)

Section Trimming.

Implicit Types (s t : string) (c : ascii).

Lemma trimStart_head s c r :
  JS.trimStart s = String c r -> JS.isWhiteSpace c = false.
Proof.
  induction s as [| a s IH]; simpl; [discriminate |].
  destruct (JS.isWhiteSpace a) eqn:Ha; [exact IH |].
  intros [= <- _]. exact Ha.
Qed.

Lemma trimStart_fixed c r :
  JS.isWhiteSpace c = false -> JS.trimStart (String c r) = String c r.
Proof. intros H. simpl. now rewrite H. Qed.

Lemma trimEnd_cons c r :
  JS.isWhiteSpace c = false -> JS.trimEnd (String c r) = String c (JS.trimEnd r).
Proof. intros H. simpl. rewrite H. now destruct (JS.trimEnd r). Qed.

Lemma trimEnd_idem s : JS.trimEnd (JS.trimEnd s) = JS.trimEnd s.
Proof.
  induction s as [| c s IH]; [reflexivity |].
  simpl. destruct (JS.trimEnd s) as [| a r] eqn:Hs.
  - destruct (JS.isWhiteSpace c) eqn:Hc; [reflexivity |]. simpl. now rewrite Hc.
  - change (JS.trimEnd (String c (String a r))) with
      (match JS.trimEnd (String a r) with
       | EmptyString => if JS.isWhiteSpace c then EmptyString else String c EmptyString
       | r' => String c r'
       end).
    now rewrite IH.
Qed.

(** Trimming twice is trimming once. *)
Lemma trim_idem s : JS.trim (JS.trim s) = JS.trim s.
Proof.
  unfold JS.trim. destruct (JS.trimStart s) as [| c r] eqn:Hs; [reflexivity |].
  pose proof (trimStart_head s c r Hs) as Hc.
  rewrite (trimEnd_cons c r Hc), (trimStart_fixed c _ Hc), (trimEnd_cons c _ Hc).
  now rewrite trimEnd_idem.
Qed.

(** Behind a text that white space does not end, the text before is kept
    whole. *)
Lemma trimEnd_app s t :
  JS.trimEnd t <> "" -> JS.trimEnd (s +:+ t) = s +:+ JS.trimEnd t.
Proof.
  intros Ht. induction s as [| c s IH]; [reflexivity |].
  rewrite !app_String. simpl. rewrite IH.
  destruct (s +:+ JS.trimEnd t) as [| a r] eqn:Hr; [| reflexivity].
  destruct s; [simpl in Hr; contradiction | discriminate].
Qed.

Lemma mapChars_empty f s : mapChars f s = "" <-> s = "".
Proof. destruct s; simpl; split; (reflexivity || discriminate). Qed.

Lemma trimStart_mapChars f s :
  (forall c, JS.isWhiteSpace (f c) = JS.isWhiteSpace c) ->
  JS.trimStart (mapChars f s) = mapChars f (JS.trimStart s).
Proof.
  intros Hf. induction s as [| c s IH]; [reflexivity |].
  simpl. rewrite Hf. now destruct (JS.isWhiteSpace c).
Qed.

Lemma trimEnd_mapChars f s :
  (forall c, JS.isWhiteSpace (f c) = JS.isWhiteSpace c) ->
  JS.trimEnd (mapChars f s) = mapChars f (JS.trimEnd s).
Proof.
  intros Hf. induction s as [| c s IH]; [reflexivity |].
  simpl. rewrite IH, Hf.
  destruct (JS.trimEnd s) as [| a r]; simpl; [| reflexivity].
  now destruct (JS.isWhiteSpace c).
Qed.

Lemma trim_mapChars f s :
  (forall c, JS.isWhiteSpace (f c) = JS.isWhiteSpace c) ->
  JS.trim (mapChars f s) = mapChars f (JS.trim s).
Proof.
  intros Hf. unfold JS.trim. now rewrite trimStart_mapChars, trimEnd_mapChars.
Qed.

Lemma mapChars_mapChars f g s : mapChars f (mapChars g s) = mapChars (fun c => f (g c)) s.
Proof. induction s as [| c s IH]; simpl; [reflexivity | now rewrite IH]. Qed.

Lemma mapChars_ext f g s : (forall c, f c = g c) -> mapChars f s = mapChars g s.
Proof. intros H. induction s as [| c s IH]; simpl; [reflexivity | now rewrite H, IH]. Qed.

Lemma mapChars_fixed f s :
  everyChar (fun c => Ascii.eqb (f c) c) s = true -> mapChars f s = s.
Proof.
  induction s as [| c s IH]; simpl; [reflexivity |].
  rewrite andb_true_iff, Ascii.eqb_eq. intros [-> H]. now rewrite IH.
Qed.

Lemma everyChar_app p s t : everyChar p (s +:+ t) = everyChar p s && everyChar p t.
Proof.
  induction s as [| c s IH]; [reflexivity |].
  rewrite app_String. simpl. now rewrite IH, andb_assoc.
Qed.

Lemma everyChar_take p n s : everyChar p s = true -> everyChar p (JS.take n s) = true.
Proof.
  revert s; induction n as [| n IH]; intros s; [reflexivity |].
  destruct s as [| c s]; [reflexivity |]. simpl.
  rewrite !andb_true_iff. intros [Hc Hs]. split; [exact Hc | now apply IH].
Qed.

Lemma everyChar_mono (p q : ascii -> bool) s :
  (forall c, p c = true -> q c = true) -> everyChar p s = true -> everyChar q s = true.
Proof.
  intros Hpq. induction s as [| c s IH]; [reflexivity |]. simpl.
  rewrite !andb_true_iff. intros [Hc Hs]. split; [now apply Hpq | now apply IH].
Qed.

Lemma everyChar_mapChars p f s :
  (forall c, p (f c) = true) -> everyChar p (mapChars f s) = true.
Proof.
  intros H. induction s as [| c s IH]; [reflexivity |]. simpl. now rewrite H, IH.
Qed.

End Trimming.

Section FileNames.

Implicit Types (name s : string).

Let underscore (c : ascii) : ascii := if isForbiddenInName c then "_"%char else c.

Lemma underscore_allowed c : allowedInName (underscore c) = true.
Proof.
  unfold underscore. destruct (isForbiddenInName c) eqn:Hc.
  - reflexivity.
  - unfold allowedInName. now rewrite Hc.
Qed.

Lemma underscore_whiteSpace c : JS.isWhiteSpace (underscore c) = JS.isWhiteSpace c.
Proof.
  unfold underscore. destruct (isForbiddenInName c) eqn:Hc; [| reflexivity].
  unfold isForbiddenInName in Hc. apply bool_decide_eq_true in Hc.
  repeat (apply elem_of_cons in Hc as [-> | Hc]; [reflexivity |]).
  now apply elem_of_nil in Hc.
Qed.

Lemma orElse_truthy a b : a <> "" -> orElse a b = a.
Proof.
  intros Ha. unfold orElse, JS.truthy.
  destruct (String.eqb_spec a ""); [contradiction | reflexivity].
Qed.

Lemma orElse_nonempty a b : b <> "" -> orElse a b <> "".
Proof.
  intros Hb. unfold orElse, JS.truthy.
  destruct (String.eqb_spec a ""); simpl; assumption.
Qed.

(** The name before the forbidden characters are replaced: trimmed and
    not empty. *)
Lemma sanitizeFilename_base name :
  let base := orElse (JS.trim (orElse name "arquivo")) "arquivo" in
  base <> "" /\ JS.trim base = base.
Proof.
  intros base. split; [now apply orElse_nonempty |].
  unfold base. destruct (String.eqb_spec (JS.trim (orElse name "arquivo")) "") as [He | Hne].
  - now rewrite He.
  - rewrite (orElse_truthy _ _ Hne). apply trim_idem.
Qed.

(** A name that is not empty, is trimmed and has no forbidden character
    is left as it is. *)
Lemma sanitizeFilename_fixed s :
  s <> "" -> JS.trim s = s -> everyChar allowedInName s = true -> sanitizeFilename s = s.
Proof.
  intros Hne Htrim Hok. unfold sanitizeFilename.
  rewrite (orElse_truthy s _ Hne), Htrim, (orElse_truthy s _ Hne).
  apply mapChars_fixed. revert Hok. apply everyChar_mono.
  intros c Hc. unfold allowedInName in Hc. apply negb_true_iff in Hc.
  rewrite Hc. apply Ascii.eqb_refl.
Qed.

Lemma sanitizeFilename_spec name :
  let r := sanitizeFilename name in
  r <> "" /\ JS.trim r = r /\ everyChar allowedInName r = true.
Proof.
  intros r. destruct (sanitizeFilename_base name) as [Hne Htrim].
  unfold r, sanitizeFilename. fold underscore.
  set (base := orElse (JS.trim (orElse name "arquivo")) "arquivo") in *.
  split; [now rewrite mapChars_empty |]. split.
  - now rewrite (trim_mapChars _ _ underscore_whiteSpace), Htrim.
  - apply everyChar_mapChars, underscore_allowed.
Qed.

(** A trimmed text followed by an extension is trimmed. *)
Lemma trim_with_extension s ext :
  JS.trimStart s = s -> JS.trimStart ext = ext -> ext <> "" -> JS.trimEnd ext = ext ->
  JS.trim (s +:+ ext) = s +:+ ext.
Proof.
  intros Hs Hext Hne Hend. unfold JS.trim.
  assert (Hstart : JS.trimStart (s +:+ ext) = s +:+ ext).
  { destruct s as [| c s]; [exact Hext |].
    pose proof (trimStart_head _ _ _ Hs) as Hc.
    rewrite app_String. now apply trimStart_fixed. }
  rewrite Hstart, trimEnd_app; [now rewrite Hend | now rewrite Hend].
Qed.

Lemma trimStart_trim s : JS.trimStart (JS.trim s) = JS.trim s.
Proof.
  unfold JS.trim. destruct (JS.trimStart s) as [| c r] eqn:Hs; [reflexivity |].
  pose proof (trimStart_head _ _ _ Hs) as Hc.
  rewrite (trimEnd_cons _ _ Hc). now apply trimStart_fixed.
Qed.

Lemma trimStart_of_trim s : JS.trim s = s -> JS.trimStart s = s.
Proof. intros H. rewrite <- H. apply trimStart_trim. Qed.

Lemma trimStart_take n s : JS.trimStart s = s -> JS.trimStart (JS.take n s) = JS.take n s.
Proof.
  intros Hs. destruct n as [| n]; [reflexivity |]. destruct s as [| c s]; [reflexivity |].
  pose proof (trimStart_head _ _ _ Hs) as Hc. simpl. now rewrite Hc.
Qed.

End FileNames.

(** X4. [sanitizeFilename] gives, for every name, a name that is not
    empty, has no white space at either end and none of the characters
    [\ / : * ? < > |] or the double quote; sanitizing that name again
    changes nothing. *)
Theorem X4_sanitizeFilename_gives_a_clean_name (name : string) :
  let r := sanitizeFilename name in
  r <> ""
  /\ JS.trim r = r
  /\ everyChar allowedInName r = true
  /\ sanitizeFilename r = r.
Proof.
  intros r. destruct (sanitizeFilename_spec name) as (Hne & Htrim & Hok).
  split; [exact Hne |]. split; [exact Htrim |]. split; [exact Hok |].
  now apply sanitizeFilename_fixed.
Qed.

(** A clean name, or the first characters of one, followed by [.pdf] is a
    clean name that ends in [.pdf]. *)
Lemma pdf_name_clean (base : string) (n : nat) :
  JS.trim base = base -> everyChar allowedInName base = true ->
  let r := JS.take n base +:+ ".pdf" in
  r <> "" /\ JS.trim r = r /\ everyChar allowedInName r = true
  /\ JS.endsWith ".pdf" (JS.toLowerCase r) = true.
Proof.
  intros Htrim Hok r. unfold r. split; [| split; [| split]].
  - destruct (JS.take n base); discriminate.
  - apply trim_with_extension; [| reflexivity | discriminate | reflexivity].
    apply trimStart_take. now apply trimStart_of_trim.
  - rewrite everyChar_app, (everyChar_take _ n _ Hok). reflexivity.
  - rewrite toLowerCase_app. apply endsWith_app.
Qed.

Lemma take_all (s : string) : JS.take (String.length s) s = s.
Proof. induction s as [| c s IH]; simpl; [reflexivity | now rewrite IH]. Qed.

Lemma normalizePdfFilename_spec (name : string) :
  let r := normalizePdfFilename name in
  r <> "" /\ JS.trim r = r /\ everyChar allowedInName r = true
  /\ JS.endsWith ".pdf" (JS.toLowerCase r) = true.
Proof.
  intros r. unfold r, normalizePdfFilename.
  destruct (sanitizeFilename_spec (orElse name "documento.pdf")) as (Hne & Htrim & Hok).
  set (base := sanitizeFilename (orElse name "documento.pdf")) in *.
  destruct (JS.endsWith ".pdf" (JS.toLowerCase base)) eqn:Hpdf; [now repeat split |].
  destruct (JS.endsWith ".docx" (JS.toLowerCase base)) eqn:Hdocx.
  - rewrite (replaceSuffix_ends _ _ _ Hdocx). now apply pdf_name_clean.
  - pose proof (pdf_name_clean base (String.length base) Htrim Hok) as H.
    cbv zeta in H. now rewrite take_all in H.
Qed.

(** X5. [normalizePdfFilename] gives, for every name, a clean name (see
    X4) that ends in [.pdf], in whatever case; normalizing that name again
    changes nothing. *)
Theorem X5_normalizePdfFilename_gives_a_pdf_name (name : string) :
  let r := normalizePdfFilename name in
  r <> ""
  /\ everyChar allowedInName r = true
  /\ JS.endsWith ".pdf" (JS.toLowerCase r) = true
  /\ normalizePdfFilename r = r.
Proof.
  intros r. destruct (normalizePdfFilename_spec name) as (Hne & Htrim & Hok & Hends).
  fold r in Hne, Htrim, Hok, Hends.
  split; [exact Hne |]. split; [exact Hok |]. split; [exact Hends |].
  unfold normalizePdfFilename.
  rewrite (orElse_truthy r _ Hne), (sanitizeFilename_fixed r Hne Htrim Hok).
  now rewrite Hends.
Qed.

(** ** Maps in insertion order *)

Section InsertionOrderedMap.

Context {V : Type}.
Implicit Types (m : list (string * V)) (k : string) (v : V).

Lemma mapSet_keys k v m : map fst (mapSet k v m) = setAdd (map fst m) k.
Proof.
  induction m as [| [k0 x] rest IH]; simpl; [reflexivity |].
  unfold setAdd. destruct (String.eqb_spec k0 k) as [-> | Hne]; simpl.
  - rewrite decide_True by apply list_elem_of_here. reflexivity.
  - rewrite IH. unfold setAdd.
    destruct (decide (k ∈ map fst rest)) as [Hin | Hout].
    + rewrite decide_True by now apply list_elem_of_further. reflexivity.
    + rewrite decide_False; [reflexivity |].
      rewrite elem_of_cons. intros [-> | Hin]; contradiction.
Qed.

Lemma NoDup_setAdd (set : list string) x : NoDup set -> NoDup (setAdd set x).
Proof.
  intros Hnd. unfold setAdd. destruct (decide (x ∈ set)) as [Hin | Hout]; [exact Hnd |].
  apply NoDup_app. split; [exact Hnd |]. split; [| apply NoDup_singleton].
  intros y Hy Hy'. apply list_elem_of_singleton in Hy'. now subst.
Qed.

Lemma mapSet_NoDup k v m : NoDup (map fst m) -> NoDup (map fst (mapSet k v m)).
Proof. rewrite mapSet_keys. apply NoDup_setAdd. Qed.

Lemma elem_of_mapSet k v m k' v' :
  NoDup (map fst m) ->
  (k', v') ∈ mapSet k v m <-> (k' = k /\ v' = v) \/ (k' <> k /\ (k', v') ∈ m).
Proof.
  induction m as [| [k0 x] rest IH]; simpl; intros Hnd.
  - rewrite list_elem_of_singleton, elem_of_nil. split.
    + intros [= -> ->]. now left.
    + intros [[-> ->] | [_ []]]. reflexivity.
  - apply NoDup_cons in Hnd as [Hfresh Hnd].
    destruct (String.eqb_spec k0 k) as [-> | Hne]; rewrite !elem_of_cons.
    + split.
      * intros [[= -> ->] | H]; [now left |].
        right. split; [| now right].
        intros ->. apply Hfresh. apply list_elem_of_fmap. now exists (k, v').
      * intros [[-> ->] | [Hk [[= -> _] | Hin]]]; [now left | contradiction | now right].
    + rewrite (IH Hnd). split.
      * intros [[= -> ->] | [Heq | [Hk Hin]]]; [right | now left | right]; split; auto.
      * intros [[-> ->] | [Hk [[= -> ->] | Hin]]]; [right; now left | now left |].
        right. right. now split.
Qed.

Lemma mapGet_elem k v m :
  NoDup (map fst m) -> mapGet k m = Some v <-> (k, v) ∈ m.
Proof.
  induction m as [| [k0 x] rest IH]; simpl; intros Hnd.
  - rewrite elem_of_nil. split; [discriminate | tauto].
  - apply NoDup_cons in Hnd as [Hfresh Hnd]. rewrite elem_of_cons.
    destruct (String.eqb_spec k0 k) as [-> | Hne].
    + split; [intros [= ->]; now left |].
      intros [[= ->] | Hin]; [reflexivity |].
      exfalso. apply Hfresh. apply list_elem_of_fmap. now exists (k, v).
    + rewrite (IH Hnd). split; [now right |].
      intros [[= -> _] | Hin]; [contradiction | exact Hin].
Qed.

Lemma mapGet_None k m : mapGet k m = None <-> k ∉ map fst m.
Proof.
  induction m as [| [k0 x] rest IH]; simpl.
  - rewrite elem_of_nil. tauto.
  - rewrite not_elem_of_cons. destruct (String.eqb_spec k0 k) as [-> | Hne].
    + split; [discriminate | tauto].
    + rewrite IH. split; [intros H; split; [congruence | exact H] | tauto].
Qed.

End InsertionOrderedMap.

(** ** Recipients of a row *)

Section Recipients.

Implicit Types (l : list string) (m : list (string * string)).

Let byAddress (m : list (string * string)) (addr : string) : list (string * string) :=
  mapSet (JS.toLowerCase addr) addr m.

(** [a] is spelled in [l] as its last address equal to it but for case. *)
Let lastSpelling (l : list string) (a : string) : Prop :=
  exists pre post,
    l = (pre ++ a :: post)%list
    /\ forall b, b ∈ post -> JS.toLowerCase b <> JS.toLowerCase a.

Lemma firstOccurrences_foldl l : firstOccurrences l = foldl setAdd [] l.
Proof.
  rewrite foldl_setAdd. simpl. f_equal.
  induction l as [| x l IH]; [reflexivity |].
  rewrite filter_cons_True by apply not_elem_of_nil. now f_equal.
Qed.

Lemma recipients_fold l :
  let m := foldl byAddress [] l in
  map fst m = firstOccurrences (map JS.toLowerCase l)
  /\ forall k a, (k, a) ∈ m -> k = JS.toLowerCase a /\ lastSpelling l a.
Proof.
  induction l as [| x l IH] using rev_ind.
  - split; [reflexivity |]. intros k a Hin. now apply elem_of_nil in Hin.
  - destruct IH as [Hkeys Hlast]. cbv zeta. rewrite foldl_app. simpl.
    set (m := foldl byAddress [] l) in *.
    assert (Hnd : NoDup (map fst m)) by (rewrite Hkeys; apply NoDup_firstOccurrences).
    split.
    + unfold byAddress at 1. rewrite mapSet_keys, Hkeys, map_app. simpl.
      rewrite !firstOccurrences_foldl, foldl_app. reflexivity.
    + intros k a Hin. unfold byAddress in Hin.
      apply (elem_of_mapSet _ _ _ _ _ Hnd) in Hin as [[-> ->] | [Hk Hin]].
      * split; [reflexivity |]. exists l, []. split; [reflexivity |].
        intros b Hb. now apply elem_of_nil in Hb.
      * destruct (Hlast k a Hin) as [-> (pre & post & -> & Hpost)].
        split; [reflexivity |].
        exists pre, (post ++ [x])%list. split; [now rewrite <- app_assoc |].
        intros b Hb. apply elem_of_app in Hb as [Hb | Hb]; [now apply Hpost |].
        apply list_elem_of_singleton in Hb as ->. congruence.
Qed.

End Recipients.

(** X6. The recipients of a row after [uniqueRecipients]: one address for
    each address of the cell, compared without regard to case, in the
    order in which the addresses first come, each spelled as it comes
    last. *)
Theorem X6_uniqueRecipients_keeps_one_spelling_per_address (recipients : list string) :
  let unique := uniqueRecipients recipients in
  map JS.toLowerCase unique = firstOccurrences (map JS.toLowerCase recipients)
  /\ NoDup (map JS.toLowerCase unique)
  /\ (forall a, a ∈ recipients ->
        exists b, b ∈ unique /\ JS.toLowerCase b = JS.toLowerCase a)
  /\ (forall a, a ∈ unique ->
        exists pre post,
          recipients = (pre ++ a :: post)%list
          /\ forall b, b ∈ post -> JS.toLowerCase b <> JS.toLowerCase a).
Proof.
  intros unique. destruct (recipients_fold recipients) as [Hkeys Hlast].
  cbv zeta in Hkeys, Hlast.
  set (m := foldl (fun m addr => mapSet (JS.toLowerCase addr) addr m) [] recipients) in *.
  assert (Hlower : map JS.toLowerCase unique = map fst m).
  { unfold unique, uniqueRecipients. fold m. rewrite <- list_fmap_compose.
    apply list_fmap_ext. intros i [k a] Hi. simpl.
    apply list_elem_of_lookup_2 in Hi. now destruct (Hlast k a Hi) as [-> _]. }
  split; [now rewrite Hlower |].
  split; [rewrite Hlower, Hkeys; apply NoDup_firstOccurrences |].
  split.
  - intros a Ha.
    assert (Hin : JS.toLowerCase a ∈ map JS.toLowerCase unique).
    { rewrite Hlower, Hkeys, elem_of_firstOccurrences. now apply list_elem_of_fmap_2. }
    apply list_elem_of_fmap in Hin as (b & Hb & Hin). now exists b.
  - intros a Ha. unfold unique, uniqueRecipients in Ha. fold m in Ha.
    apply list_elem_of_fmap in Ha as ([k a'] & -> & Hin). simpl.
    now destruct (Hlast k a' Hin) as [_ H].
Qed.

(** An address written three times, in two spellings, between two others. *)
Example uniqueRecipients_spellings :
  uniqueRecipients ["Ana@x.org"; "rui@x.org"; "ANA@x.org"; "ana@X.org"]
  = ["ana@X.org"; "rui@x.org"].
Proof. vm_compute. reflexivity. Qed.

(** ** Names of attachments *)

Section AttachmentNames.

Implicit Types (name recipient : string) (used : gmap string (gset string)).

Let lowerFixed (c : ascii) : bool := Ascii.eqb (JS.toLowerChar c) c.

Lemma toLowerCase_fixed s : everyChar lowerFixed s = true -> JS.toLowerCase s = s.
Proof.
  induction s as [| c s IH]; simpl; [reflexivity |].
  rewrite andb_true_iff. unfold lowerFixed at 1. rewrite Ascii.eqb_eq.
  intros [-> H]. now rewrite IH.
Qed.

Lemma pretty_N_go_lowerFixed (x : N) : forall s,
  everyChar lowerFixed s = true -> everyChar lowerFixed (pretty_N_go x s) = true.
Proof.
  induction (N.lt_wf_0 x) as [x _ IH]. intros s Hs.
  destruct (decide (0 < x)%N) as [Hpos | Hzero].
  - rewrite pretty_N_go_step by exact Hpos. apply IH.
    + now apply N.div_lt.
    + simpl. rewrite Hs, andb_true_r.
      unfold pretty_N_char. now repeat case_match.
  - replace x with 0%N by lia. now rewrite pretty_N_go_0.
Qed.

(** A number is written in digits: lower-casing leaves it as it is. *)
Lemma toLowerCase_pretty (n : nat) : JS.toLowerCase (pretty n) = pretty n.
Proof.
  apply toLowerCase_fixed. unfold pretty, pretty_nat, pretty, pretty_N.
  destruct (decide (N.of_nat n = 0%N)); [reflexivity |].
  now apply pretty_N_go_lowerFixed.
Qed.

Lemma pdfCandidate_inj name i j :
  JS.toLowerCase (pdfCandidate name i) = JS.toLowerCase (pdfCandidate name j) -> i = j.
Proof.
  unfold pdfCandidate. rewrite !toLowerCase_app, !toLowerCase_pretty.
  intros H. apply app_inv_head_s, app_inv_head_s, app_inv_tail_s in H.
  now apply (inj pretty) in H.
Qed.

Lemma pdfCandidate_ends name k :
  JS.endsWith ".pdf" (JS.toLowerCase (pdfCandidate name k)) = true.
Proof.
  unfold pdfCandidate. rewrite <- !app_assoc_s, toLowerCase_app. apply endsWith_app.
Qed.

Lemma truthy_toLowerCase s : JS.truthy (JS.toLowerCase s) = JS.truthy s.
Proof. now destruct s. Qed.

(** What [ensureUniqueAttachmentName] gives for a recipient with an
    address. *)
Lemma ensureUniqueAttachmentName_spec used recipient name :
  recipient <> "" ->
  let key := JS.toLowerCase recipient in
  let set := default ∅ (used !! key) in
  let final := fst (ensureUniqueAttachmentName used recipient name) in
  let used' := snd (ensureUniqueAttachmentName used recipient name) in
  (JS.toLowerCase final ∉ set)
  /\ used' = <[key := {[JS.toLowerCase final]} ∪ set]> used
  /\ (JS.toLowerCase name ∉ set -> final = name)
  /\ (JS.toLowerCase name ∈ set ->
      exists k, 2 <= k /\ final = pdfCandidate name k
                /\ forall j, 2 <= j < k -> JS.toLowerCase (pdfCandidate name j) ∈ set).
Proof.
  intros Hne key set final used'.
  assert (Hkey : JS.truthy key = true).
  { unfold key. rewrite truthy_toLowerCase. unfold JS.truthy.
    now destruct (String.eqb_spec recipient ""). }
  unfold final, used', ensureUniqueAttachmentName. fold key. rewrite Hkey.
  cbn [negb fst snd]. fold set.
  pose proof (untilUnused_first_free JS.toLowerCase set (pdfCandidate name)
                (pdfCandidate_inj name) (S (size set)) set name 2) as Hfree.
  cbv zeta in Hfree.
  destruct Hfree as (H1 & H2 & H3); [tauto | lia |].
  split; [exact H1 |]. split; [reflexivity |]. split; [exact H2 | exact H3].
Qed.

End AttachmentNames.

(** X7. For a recipient with an address, [ensureUniqueAttachmentName]
    gives a name that was not yet used for that recipient, names being
    compared without regard to case: the given name when it is free, else
    the first free one of [name_2.pdf], [name_3.pdf], ...  The name is
    recorded as used for the recipient, and the names used for other
    recipients are left alone. *)
Theorem X7_attachment_name_is_new_for_the_recipient
    (used : gmap string (gset string)) (recipient name : string) :
  recipient <> "" ->
  let key := JS.toLowerCase recipient in
  let taken := default ∅ (used !! key) in
  let final := fst (ensureUniqueAttachmentName used recipient name) in
  let used' := snd (ensureUniqueAttachmentName used recipient name) in
  (JS.toLowerCase final ∉ taken)
  /\ (JS.toLowerCase name ∉ taken -> final = name)
  /\ (JS.toLowerCase name ∈ taken ->
      exists k, 2 <= k /\ final = pdfCandidate name k
                /\ forall j, 2 <= j < k -> JS.toLowerCase (pdfCandidate name j) ∈ taken)
  /\ used' !! key = Some ({[JS.toLowerCase final]} ∪ taken)
  /\ (forall other, other <> key -> used' !! other = used !! other).
Proof.
  intros Hne key taken final used'.
  destruct (ensureUniqueAttachmentName_spec used recipient name Hne)
    as (Hfree & Hused & Hsame & Hnext).
  fold key taken final used' in Hfree, Hused, Hsame, Hnext.
  split; [exact Hfree |]. split; [exact Hsame |]. split; [exact Hnext |].
  rewrite Hused. split; [apply lookup_insert_eq |].
  intros other Hother. now apply lookup_insert_ne.
Qed.

(** [Carta.PDF] for a recipient who has [carta.pdf] and [carta_2.pdf]
    already; and a name written in capitals, with a tilde, for a recipient
    who has the same name in small letters. *)
Lemma X7_witness :
  fst (ensureUniqueAttachmentName usedByAna "Ana@x.org" "Carta.PDF") = "Carta_3.pdf"
  /\ fst (ensureUniqueAttachmentName usedByJoao "ana@x.org" (joaoUpper +:+ ".pdf"))
     = joaoUpper +:+ "_2.pdf".
Proof.
  destruct (X7_attachment_name_is_new_for_the_recipient usedByAna "Ana@x.org" "Carta.PDF")
    as (_ & _ & _ & _ & _); [discriminate |].
  destruct (X7_attachment_name_is_new_for_the_recipient usedByJoao "ana@x.org"
              (joaoUpper +:+ ".pdf")) as (_ & _ & Htaken & _); [discriminate |].
  split; [vm_compute; reflexivity |].
  destruct Htaken as (k & Hk & Hfinal & Hbefore); [vm_compute; set_solver |].
  vm_compute. reflexivity.
Defined.

(** ** The email queue of a generate job *)

Section EmailQueue.

Implicit Types (st : RunState) (att : Attachment) (recipient : string).

(** One round of the loop over the recipients of a row. *)
Let queueOne (att : Attachment) (st : RunState) (recipient : string) : RunState :=
  let '(uniqueName, used') :=
    ensureUniqueAttachmentName (usedNamesByRecipient st) recipient (filename att) in
  set_emailQueue
    (queueEmailAttachment (emailQueue st) recipient
       {| filename := uniqueName; buffer := buffer att |})
    used' st.

Lemma queueOk_same st st' :
  emailQueue st' = emailQueue st ->
  usedNamesByRecipient st' = usedNamesByRecipient st ->
  queueOk st -> queueOk st'.
Proof. unfold queueOk. now intros -> ->. Qed.

Lemma queueOne_ok att st recipient :
  attachmentOk att -> queueOk st -> queueOk (queueOne att st recipient).
Proof.
  intros [Hpdf Hext] [Hnd Hall]. unfold queueOne.
  destruct (String.eqb_spec recipient "") as [-> | Hne]; [now split |].
  pose proof (ensureUniqueAttachmentName_spec (usedNamesByRecipient st) recipient
                (filename att) Hne) as Hspec.
  cbv zeta in Hspec.
  destruct (ensureUniqueAttachmentName (usedNamesByRecipient st) recipient (filename att))
    as [final used'].
  cbn [fst snd] in Hspec. destruct Hspec as (Hfree & -> & Hsame & Hnext).
  set (key := JS.toLowerCase recipient) in *.
  set (taken := default ∅ (usedNamesByRecipient st !! key)) in *.
  assert (Hkey : key <> "") by (unfold key; now rewrite toLowerCase_empty).
  assert (Hfinal : JS.endsWith ".pdf" (JS.toLowerCase final) = true).
  { destruct (decide (JS.toLowerCase (filename att) ∈ taken)) as [Hin | Hout].
    - destruct (Hnext Hin) as (k & _ & -> & _). apply pdfCandidate_ends.
    - now rewrite (Hsame Hout). }
  unfold queueEmailAttachment. fold key.
  replace (JS.truthy key) with true
    by (unfold JS.truthy; now destruct (String.eqb_spec key "")).
  cbn [negb].
  set (entry := default {| to := recipient; attachments := []; itemFilename := "";
                           itemBuffer := None |} (mapGet key (emailQueue st))).
  assert (Hentry : recipientKey entry = key
                   /\ Forall attachmentOk (attachments entry)
                   /\ NoDup (map attachmentKey (attachments entry))
                   /\ forall a, a ∈ attachments entry -> attachmentKey a ∈ taken).
  { unfold entry. destruct (mapGet key (emailQueue st)) as [e |] eqn:Hget; simpl.
    - apply (mapGet_elem _ _ _ Hnd) in Hget.
      destruct (Hall key e Hget) as (Hk & (_ & _ & Hatts & Hdistinct) & Hused).
      now repeat split.
    - repeat split; [constructor | constructor |].
      intros a Ha. now apply elem_of_nil in Ha. }
  destruct Hentry as (Hto & Hatts & Hdistinct & Hused).
  split; cbn [emailQueue usedNamesByRecipient set_emailQueue].
  - now apply mapSet_NoDup.
  - intros k item Hin. apply (elem_of_mapSet _ _ _ _ _ Hnd) in Hin as [[-> ->] | [Hk Hin]].
    + split; [now rewrite <- Hto |]. split.
      * split; [| split; [| split]]; cbn [to attachments].
        -- intros Hempty. apply Hkey. rewrite <- Hto. unfold recipientKey.
           now rewrite Hempty.
        -- now destruct (attachments entry).
        -- apply Forall_app. split; [exact Hatts |]. apply Forall_singleton. now split.
        -- rewrite map_app. apply NoDup_app. split; [exact Hdistinct |].
           split; [| apply NoDup_singleton].
           intros x Hx Hx'. apply list_elem_of_singleton in Hx' as ->.
           apply list_elem_of_fmap in Hx as (a & Heq & Ha).
           apply Hfree. unfold attachmentKey in Heq. simpl in Heq. rewrite Heq.
           now apply Hused.
      * cbn [attachments]. intros a Ha. rewrite lookup_insert_eq. simpl.
        apply elem_of_app in Ha as [Ha | Ha].
        -- apply elem_of_union_r. now apply Hused.
        -- apply list_elem_of_singleton in Ha as ->. apply elem_of_union_l.
           now apply elem_of_singleton.
    + destruct (Hall k item Hin) as (Hk' & Hsend & Hnames).
      split; [exact Hk' |]. split; [exact Hsend |].
      now rewrite lookup_insert_ne by congruence.
Qed.

Lemma queueForRecipients_ok recipients att : forall st,
  attachmentOk att -> queueOk st -> queueOk (queueForRecipients recipients att st).
Proof.
  unfold queueForRecipients.
  induction recipients as [| recipient rest IH]; intros st Hatt Hok; [exact Hok |].
  simpl. apply IH; [exact Hatt |]. now apply (queueOne_ok att st recipient).
Qed.

End EmailQueue.

Section RowLoopQueue.

Variable caps : Capabilities.
Variable jobId : string.
Variable input : GenerateInput.

(** A property of the returned value that no step of the world matters
    for. *)
Lemma wp_bind_post {A B} (c : M A) (k : A -> M B) (P : Outcome A -> World -> Prop) Q w :
  wp c P w ->
  (forall o w1, P o w1 ->
     match o with
     | Ok a => wp (k a) Q w1
     | Throw msg => Q (Throw msg) w1
     end) ->
  wp (c ≫= k) Q w.
Proof. intros Hc Hk. apply wp_bind. eapply wp_mono; [exact Hc | exact Hk]. Qed.

Lemma wp_any {A} (c : M A) w : wp c (fun _ _ => True) w.
Proof. exact I. Qed.

Lemma keepPdf_queue idx pdfName pdfBuffer st w :
  wp (keepPdf caps idx pdfName pdfBuffer st)
     (fun o _ => forall st', o = Ok st' ->
                 emailQueue st' = emailQueue st
                 /\ usedNamesByRecipient st' = usedNamesByRecipient st) w.
Proof.
  unfold keepPdf. destruct pdfBuffer as [pdf |].
  - destruct (isPdfBuffer (Some pdf)).
    + wp_steps. destruct (writePdf caps (calls w) (pdfName, pdf)) as [msg |];
        wp_steps; now intros st' [= <-].
    + wp_steps. now intros st' [= <-].
  - wp_step. now intros st' [= <-].
Qed.

Lemma queueRowEmails_queue idx row pdfName pdfBuffer st w :
  queueOk st ->
  wp (queueRowEmails caps input idx row pdfName pdfBuffer st)
     (fun o _ => forall st', o = Ok st' -> queueOk st') w.
Proof.
  intros Hok. unfold queueRowEmails.
  destruct (JS.truthy (emailColumn input)); [| wp_step; now intros st' [= <-]].
  destruct (uniqueRecipients _) as [| recipient rest]; [wp_step; now intros st' [= <-] |].
  destruct pdfBuffer as [pdf |]; [| wp_steps; now intros st' [= <-]].
  destruct (isPdfBuffer (Some pdf)) eqn:Hvalid; [| wp_steps; now intros st' [= <-]].
  unfold preparePdfAttachment. simpl buffer. rewrite Hvalid. simpl negb. cbv iota.
  wp_steps. intros st' [= <-].
  apply (queueForRecipients_ok (recipient :: rest)
           {| filename := normalizePdfFilename pdfName; buffer := pdf |} st);
    [| exact Hok].
  split; [exact Hvalid |]. simpl. apply normalizePdfFilename_spec.
Qed.

Lemma processRow_queue st idxRow w :
  queueOk st ->
  wp (processRow caps jobId input st idxRow)
     (fun o _ => forall st', o = Ok st' -> queueOk st') w.
Proof.
  intros Hok. destruct idxRow as [idx row]. unfold processRow.
  wp_steps. destruct (renderDoc caps (calls w) _) as [msg | docBuffer]; simpl orThrow.
  - wp_step. discriminate.
  - wp_step. eapply wp_bind_post; [apply wp_any |].
    intros [pdfBuffer | msg] w1 _; [| discriminate].
    eapply wp_bind_post; [apply keepPdf_queue |].
    intros [st2 | msg] w2 Hkeep; [| discriminate].
    destruct (Hkeep st2 eq_refl) as [Hq Hu].
    eapply wp_bind_post; [apply queueRowEmails_queue |].
    + eapply queueOk_same; [exact Hq | exact Hu | exact Hok].
    + intros [st3 | msg] w3 Hqueue; [| discriminate].
      wp_steps. unfold touch. wp_steps. intros st' [= <-]. now apply Hqueue.
Qed.

Lemma foldM_keeps {A B} (f : B -> A -> M B) (I : B -> Prop) l :
  (forall b x w, I b -> wp (f b x) (fun o _ => forall b', o = Ok b' -> I b') w) ->
  forall b w, I b -> wp (foldM f l b) (fun o _ => forall b', o = Ok b' -> I b') w.
Proof.
  intros Hstep. induction l as [| x rest IH]; intros b w Hb; simpl.
  - apply wp_ret. now intros b' [= <-].
  - eapply wp_bind_post; [now apply Hstep |].
    intros [b1 | msg] w1 H1; [| discriminate]. apply IH. now apply H1.
Qed.

(** The same for a row loop, which may be held before any of its rounds. *)
Lemma rowLoop_keeps {A B} (f : B -> A -> M B) (I : B -> Prop) l :
  (forall b x w, I b -> wp (f b x) (fun o _ => forall b', o = Ok b' -> I b') w) ->
  forall b w, I b ->
    wp (rowLoop jobId f l b) (fun o _ => forall p, o = Ok p -> I (stateOf p)) w.
Proof.
  intros Hstep. induction l as [| x rest IH]; intros b w Hb; cbn [rowLoop].
  - apply wp_ret. now intros p [= <-].
  - eapply wp_bind_post; [apply wp_any |].
    intros [[|] | msg] w0 _; [| | discriminate].
    + apply wp_ret. now intros p [= <-].
    + eapply wp_bind_post; [now apply Hstep |].
      intros [b1 | msg] w1 H1; [| discriminate]. apply IH. now apply H1.
Qed.

Lemma processRows_queue w :
  wp (processRows caps jobId input)
     (fun o _ => forall p, o = Ok p -> queueOk (stateOf p)) w.
Proof.
  unfold processRows. apply rowLoop_keeps.
  - intros st x w1. apply processRow_queue.
  - split; [constructor |]. intros key item Hin. now apply elem_of_nil in Hin.
Qed.

End RowLoopQueue.

(** X8. The queue a generate job builds over its rows, whatever the
    converters, the renderer and the cells give, and as far as the row
    loop comes (through all rows, or held by a pause before one of
    them): it has one entry for an address (addresses compared without
    regard to case), every entry has an address and at least one
    attachment, every attachment is a PDF under a name that ends in
    [.pdf], and no entry has two attachments of the same name (compared
    without regard to case). *)
Theorem X8_queue_of_a_generate_job_can_be_sent
    (caps : Capabilities) (jobId : string) (input : GenerateInput) (w : World) :
  wp (processRows caps jobId input)
     (fun o _ =>
        forall p, o = Ok p ->
        let queue := map snd (emailQueue (stateOf p)) in
        NoDup (map recipientKey queue) /\ Forall sendable queue) w.
Proof.
  eapply wp_mono; [apply processRows_queue |].
  intros o w' Hok p -> queue. destruct (Hok p eq_refl) as [Hnd Hall].
  set (st := stateOf p) in *.
  assert (Hkeys : map recipientKey queue = map fst (emailQueue st)).
  { unfold queue. rewrite <- list_fmap_compose. apply list_fmap_ext.
    intros i [key item] Hi. simpl. apply list_elem_of_lookup_2 in Hi.
    now destruct (Hall key item Hi) as [-> _]. }
  split; [now rewrite Hkeys |].
  apply Forall_forall. intros item Hin. unfold queue in Hin.
  apply list_elem_of_fmap in Hin as ([key item'] & -> & Hin). simpl.
  now destruct (Hall key item' Hin) as (_ & Hsend & _).
Qed.

(** Two rows for one recipient whose documents get the same attachment
    name: the second attachment is renamed. *)
Example processRows_same_recipient_twice :
  (fun o => match o with
            | Ok (Finished st) => map snd (emailQueue st)
            | _ => []
            end)
    (fst (processRows colonNamesServer "j1" (lettersInput [anaRow; anaUpperRow]) startOfJob))
  = [ {| to := "ana@example.com";
         attachments := [ {| filename := "a_b.pdf"; buffer := goodPdf |};
                          {| filename := "a_b_2.pdf"; buffer := goodPdf |} ];
         itemFilename := ""; itemBuffer := None |} ].
Proof. vm_compute. reflexivity. Qed.

Lemma X8_witness :
  match fst (processRows colonNamesServer "j1" (lettersInput [anaRow; anaUpperRow])
               startOfJob) with
  | Ok (Finished st) =>
      NoDup (map recipientKey (map snd (emailQueue st)))
      /\ Forall sendable (map snd (emailQueue st))
  | _ => False
  end.
Proof.
  pose proof (X8_queue_of_a_generate_job_can_be_sent colonNamesServer "j1"
                (lettersInput [anaRow; anaUpperRow]) startOfJob) as H.
  unfold wp in H.
  destruct (fst (processRows colonNamesServer "j1" (lettersInput [anaRow; anaUpperRow])
                   startOfJob)) as [[st | st] | msg] eqn:Hrun.
  - exact (H (Finished st) eq_refl).
  - vm_compute in Hrun. discriminate Hrun.
  - vm_compute in Hrun. discriminate Hrun.
Defined.

(** ** Templates without placeholders *)

Lemma everyChar_tail (p : ascii -> bool) c r :
  everyChar p (String c r) = true -> everyChar p r = true.
Proof. simpl. rewrite andb_true_iff. now intros [_ H]. Qed.

Lemma everyChar_drop (p : ascii -> bool) n : forall s,
  everyChar p s = true -> everyChar p (JS.drop n s) = true.
Proof.
  induction n as [| n IH]; intros s Hs; [exact Hs |].
  destruct s as [| c r]; [reflexivity |]. simpl. apply IH. now apply everyChar_tail in Hs.
Qed.

Section Scanning.

Variable matchAt : string -> option (nat * string).
Variable p : ascii -> bool.

(** A pattern that matches nowhere in a text leaves it as it is, and the
    loop over its matches finds nothing. *)
Lemma replaceFrom_no_match s :
  (forall t, everyChar p t = true -> matchAt t = None) ->
  everyChar p s = true -> JS.replaceFrom matchAt 0 s = s.
Proof.
  intros Hnone. induction s as [| c r IH]; intros Hs; [reflexivity |].
  simpl. rewrite (Hnone _ Hs). f_equal. apply IH. now apply everyChar_tail in Hs.
Qed.

Lemma execFrom_no_match s :
  (forall t, everyChar p t = true -> matchAt t = None) ->
  everyChar p s = true -> JS.execFrom matchAt 0 s = [].
Proof.
  intros Hnone. induction s as [| c r IH]; intros Hs; [reflexivity |].
  simpl. rewrite (Hnone _ Hs). apply IH. now apply everyChar_tail in Hs.
Qed.

(** When the replacements have only characters of a kind, a text of such
    characters stays one. *)
Lemma replaceFrom_everyChar :
  (forall t n repl, everyChar p t = true -> matchAt t = Some (n, repl) ->
                    everyChar p repl = true) ->
  forall s k, everyChar p s = true -> everyChar p (JS.replaceFrom matchAt k s) = true.
Proof.
  intros Hrepl. induction s as [| c r IH]; intros k Hs; [reflexivity |].
  pose proof (everyChar_tail _ _ _ Hs) as Hr. simpl.
  destruct k as [| k]; [| now apply IH].
  destruct (matchAt (String c r)) as [[n repl] |] eqn:Hm.
  - rewrite everyChar_app, (Hrepl _ _ _ Hs Hm). now apply IH.
  - simpl. apply andb_true_iff. split; [| now apply IH].
    simpl in Hs. now apply andb_true_iff in Hs.
Qed.

(** What holds of every capture holds of every element the loop over the
    matches collects. *)
Lemma execFrom_Forall (P : string -> Prop) :
  (forall t n cap, matchAt t = Some (n, cap) -> P cap) ->
  forall s k, Forall P (JS.execFrom matchAt k s).
Proof.
  intros Hcap. induction s as [| c r IH]; intros k; [constructor |].
  simpl. destruct k as [| k]; [| apply IH].
  destruct (matchAt (String c r)) as [[n cap] |] eqn:Hm; [| apply IH].
  constructor; [now apply (Hcap _ _ _ Hm) | apply IH].
Qed.

End Scanning.

(** Case analysis on the outermost test of a hypothesis. *)
Ltac split_if H :=
  match type of H with
  | (if ?b then _ else _) = _ => destruct b eqn:?
  end.

Section BraceFree.

Implicit Types (s t : string) (c : ascii).

Lemma startsWith_other c rest t :
  everyChar (notChar c) t = true -> JS.startsWith (String c rest) t = false.
Proof.
  destruct t as [| a r]; [reflexivity |]. simpl.
  rewrite andb_true_iff. unfold notChar at 1. intros [Ha _].
  rewrite Ascii.eqb_sym. now destruct (Ascii.eqb a c).
Qed.

Lemma spanLength_other c t :
  everyChar (notChar c) t = true -> JS.spanLength (isChar c) t = 0.
Proof.
  destruct t as [| a r]; [reflexivity |]. simpl.
  rewrite andb_true_iff. unfold notChar at 1, isChar. intros [Ha _].
  now destruct (Ascii.eqb a c).
Qed.

Lemma matchOpenSpace_head c r :
  matchOpenSpace (String c r)
  = if Ascii.eqb c "{" then
      if (1 <=? JS.spanLength JS.isWhiteSpace r)%nat
      then Some (S (JS.spanLength JS.isWhiteSpace r), "{") else None
    else None.
Proof. destruct c as [[] [] [] [] [] [] [] []]; reflexivity. Qed.

Lemma matchTag_head c r :
  matchTag (String c r)
  = if Ascii.eqb c "<" then
      if (1 <=? JS.spanLength (notChar ">") r)%nat
         && JS.startsWith ">" (JS.drop (JS.spanLength (notChar ">") r) r)
      then Some (JS.spanLength (notChar ">") r + 2, "") else None
    else None.
Proof. destruct c as [[] [] [] [] [] [] [] []]; reflexivity. Qed.

Lemma matchOpenSpace_other t : everyChar notOpenBrace t = true -> matchOpenSpace t = None.
Proof.
  destruct t as [| a r]; [reflexivity |]. rewrite matchOpenSpace_head. simpl.
  rewrite andb_true_iff. unfold notOpenBrace, notChar at 1. intros [Ha _].
  now destruct (Ascii.eqb a "{").
Qed.

Lemma matchSpacedPair_other c t : everyChar (notChar c) t = true -> matchSpacedPair c t = None.
Proof.
  destruct t as [| a r]; [reflexivity |]. simpl.
  rewrite andb_true_iff. unfold notChar at 1. intros [Ha _].
  now destruct (Ascii.eqb a c).
Qed.

Lemma matchRun_other c t : everyChar (notChar c) t = true -> matchRun c t = None.
Proof. intros H. unfold matchRun. now rewrite (spanLength_other _ _ H). Qed.

Lemma matchSpaceClose_other t : everyChar notCloseBrace t = true -> matchSpaceClose t = None.
Proof.
  intros H. unfold matchSpaceClose.
  rewrite (startsWith_other "}" "" (JS.drop _ t)); [now rewrite andb_false_r |].
  apply everyChar_drop. exact H.
Qed.

Lemma matchToken_other t : everyChar notOpenBrace t = true -> matchToken t = None.
Proof. intros H. unfold matchToken. now rewrite (startsWith_other "{" "{" t H). Qed.

Lemma matchSplitToken_other t : everyChar notOpenBrace t = true -> matchSplitToken t = None.
Proof. intros H. unfold matchSplitToken. now rewrite (startsWith_other "{" "{" t H). Qed.

(** The sanitizer puts no opening brace into a text that has none. *)
Lemma sanitizeTemplate_no_open_brace xml :
  everyChar notOpenBrace xml = true -> everyChar notOpenBrace (sanitizeTemplate xml) = true.
Proof.
  intros H. unfold sanitizeTemplate, fixSplitPlaceholders, normalizeXml, JS.replaceAll.
  repeat (apply replaceFrom_everyChar;
          [intros t n repl Ht Hm;
           first [ now rewrite (matchSplitToken_other t Ht) in Hm
                 | now rewrite (matchRun_other "{" t Ht) in Hm
                 | now rewrite (matchSpacedPair_other "{" t Ht) in Hm
                 | now rewrite (matchOpenSpace_other t Ht) in Hm
                 | idtac ] |]).
  - unfold matchRun in Hm. cbv zeta in Hm. split_if Hm; [| discriminate].
    injection Hm as _ <-.
    match goal with |- context [if ?b then _ else _] => now destruct b end.
  - unfold matchSpacedPair in Hm. destruct t as [| a r]; [discriminate |].
    cbv zeta in Hm. split_if Hm; [| discriminate].
    split_if Hm; [| discriminate]. now injection Hm as _ <-.
  - unfold matchSpaceClose in Hm. cbv zeta in Hm. split_if Hm; [| discriminate].
    now injection Hm as _ <-.
  - exact H.
Qed.

Lemma stripTags_everyChar p xml :
  everyChar p xml = true -> everyChar p (stripTags xml) = true.
Proof.
  intros H. unfold stripTags, JS.replaceAll. apply replaceFrom_everyChar; [| exact H].
  intros [| a r] n repl _ Hm; [discriminate |]. rewrite matchTag_head in Hm.
  split_if Hm; [| discriminate].
  split_if Hm; [| discriminate]. now injection Hm as _ <-.
Qed.

Lemma notBrace_split t :
  everyChar notBrace t = true ->
  everyChar notOpenBrace t = true /\ everyChar notCloseBrace t = true.
Proof.
  intros H. split; revert H; apply everyChar_mono; intros c; unfold notBrace;
    rewrite andb_true_iff; tauto.
Qed.

End BraceFree.

(** X9. A template without an opening brace has no placeholder, and the
    sanitizer leaves a template without any brace as it is. *)
Theorem X9_template_without_braces_has_no_placeholder (xml : string) :
  everyChar notOpenBrace xml = true ->
  extractPlaceholders xml = []
  /\ (everyChar notCloseBrace xml = true -> sanitizeTemplate xml = xml).
Proof.
  intros Hopen. split.
  - unfold extractPlaceholders, matchedNames, JS.execAll.
    rewrite (execFrom_no_match matchToken notOpenBrace); [reflexivity | |].
    + apply matchToken_other.
    + apply stripTags_everyChar, sanitizeTemplate_no_open_brace, Hopen.
  - intros Hclose.
    unfold sanitizeTemplate, fixSplitPlaceholders, normalizeXml, JS.replaceAll.
    rewrite (replaceFrom_no_match matchOpenSpace notOpenBrace xml matchOpenSpace_other Hopen).
    rewrite (replaceFrom_no_match matchSpaceClose notCloseBrace xml
               matchSpaceClose_other Hclose).
    rewrite (replaceFrom_no_match (matchSpacedPair "{") notOpenBrace xml
               (matchSpacedPair_other "{") Hopen).
    rewrite (replaceFrom_no_match (matchSpacedPair "}") notCloseBrace xml
               (matchSpacedPair_other "}") Hclose).
    rewrite (replaceFrom_no_match (matchRun "{") notOpenBrace xml (matchRun_other "{") Hopen).
    rewrite (replaceFrom_no_match (matchRun "}") notCloseBrace xml (matchRun_other "}") Hclose).
    apply (replaceFrom_no_match matchSplitToken notOpenBrace xml matchSplitToken_other Hopen).
Qed.

Lemma X9_witness :
  extractPlaceholders plainParagraph = []
  /\ (everyChar notCloseBrace plainParagraph = true ->
      sanitizeTemplate plainParagraph = plainParagraph).
Proof.
  apply (X9_template_without_braces_has_no_placeholder plainParagraph). reflexivity.
Defined.

Section PlaceholderNames.

Variable p : ascii -> bool.

Lemma everyChar_trimStart s : everyChar p s = true -> everyChar p (JS.trimStart s) = true.
Proof.
  induction s as [| c r IH]; [reflexivity |]. intros H. simpl.
  destruct (JS.isWhiteSpace c); [| exact H]. apply IH. now apply everyChar_tail in H.
Qed.

Lemma everyChar_trimEnd s : everyChar p s = true -> everyChar p (JS.trimEnd s) = true.
Proof.
  induction s as [| c r IH]; [reflexivity |]. simpl. rewrite andb_true_iff.
  intros [Hc Hr]. specialize (IH Hr).
  destruct (JS.trimEnd r) as [| a r'].
  - destruct (JS.isWhiteSpace c); [reflexivity |]. simpl. now rewrite Hc.
  - change (everyChar p (String c (String a r'))) with (p c && everyChar p (String a r')).
    now rewrite Hc, IH.
Qed.

Lemma everyChar_trim s : everyChar p s = true -> everyChar p (JS.trim s) = true.
Proof. intros H. now apply everyChar_trimEnd, everyChar_trimStart. Qed.

Lemma everyChar_lastChar s : everyChar p s = true -> everyChar p (lastChar s) = true.
Proof.
  induction s as [| c r IH]; [reflexivity |]. intros H.
  destruct r as [| a r']; [exact H |].
  change (lastChar (String c (String a r'))) with (lastChar (String a r')).
  apply IH. now apply everyChar_tail in H.
Qed.

Lemma everyChar_span s : everyChar p (JS.take (JS.spanLength p s) s) = true.
Proof.
  induction s as [| c r IH]; [reflexivity |]. simpl.
  destruct (p c) eqn:Hc; [| reflexivity]. simpl. now rewrite Hc, IH.
Qed.

End PlaceholderNames.

Lemma tokenCapture_everyChar (p : ascii -> bool) body :
  everyChar p body = true -> everyChar p (tokenCapture body) = true.
Proof.
  intros H. unfold tokenCapture.
  pose proof (everyChar_trimStart p body H) as Hstart.
  destruct (JS.trimStart body) as [| c r]; [now apply everyChar_lastChar |].
  now apply everyChar_trimEnd.
Qed.

(** X10. No placeholder name that [extractPlaceholders] returns has white
    space at either end or a closing brace in it. *)
Theorem X10_placeholder_names_are_trimmed (xml name : string) :
  name ∈ extractPlaceholders xml ->
  JS.trim name = name /\ everyChar notCloseBrace name = true.
Proof.
  intros Hin. unfold extractPlaceholders in Hin.
  rewrite <- firstOccurrences_foldl, elem_of_firstOccurrences in Hin.
  unfold matchedNames, JS.execAll in Hin.
  apply list_elem_of_fmap in Hin as (cap & -> & Hcap).
  split; [apply trim_idem |]. apply everyChar_trim.
  assert (Hall : Forall (fun c => everyChar notCloseBrace c = true)
                   (JS.execFrom matchToken 0 (stripTags (sanitizeTemplate xml)))).
  { apply execFrom_Forall. intros t n c Hm. unfold matchToken in Hm.
    split_if Hm; [| discriminate]. cbv zeta in Hm. split_if Hm; [| discriminate].
    injection Hm as _ <-. apply tokenCapture_everyChar, everyChar_span. }
  rewrite Forall_forall in Hall. now apply Hall.
Qed.

Lemma X10_witness :
  JS.trim "cidade" = "cidade" /\ everyChar notCloseBrace "cidade" = true.
Proof.
  apply (X10_placeholder_names_are_trimmed
           "<w:t>{{ nome }}</w:t><w:t>{{</w:t><w:t>cidade</w:t><w:t>}}</w:t>" "cidade").
  vm_compute. apply list_elem_of_further, list_elem_of_here.
Defined.

(** ** The Outlook transport on Windows *)

Section OutlookOnWindows.

Variable caps : Capabilities.

Lemma foldM_handToTransport {X} (f : X -> Mail) (l : list X) : forall w,
  foldM (fun _ x => handToTransport (f x)) l tt w = (Ok tt, addMails (map f l) w).
Proof.
  induction l as [| x rest IH]; intros w; simpl.
  - unfold addMails. rewrite app_nil_r. now destruct w.
  - unfold mbind, M_bind, bind, handToTransport at 1. rewrite IH.
    unfold addMails, addMail. simpl. now rewrite <- app_assoc.
Qed.

Lemma countStatus_cons st r rows :
  countStatus st (r :: rows)
  = ((if decide (reportStatus r = st) then 1 else 0) + countStatus st rows)%Z.
Proof.
  unfold countStatus. rewrite filter_cons.
  destruct (decide (reportStatus r = st)); simpl length; lia.
Qed.

(** Rows of the three statuses of the script are all counted. *)
Lemma countStatus_total report :
  Forall scriptStatus report ->
  (countStatus "sent" report + (countStatus "failed" report + countStatus "skipped" report))%Z
  = Z.of_nat (length report).
Proof.
  induction 1 as [| r rows Hr _ IH]; [reflexivity |].
  rewrite !countStatus_cons. simpl length.
  destruct Hr as [Hs | [Hs | Hs]]; rewrite Hs; simpl; lia.
Qed.

End OutlookOnWindows.

(** X11. On Windows the Outlook transport throws only when its temporary
    folder cannot be made.  When the script or the reading of its report
    fails, nothing counts as sent and every entry of the queue gets a
    failed row with the error, which is also written to the console.  When
    the script reports, there is one result row for each row of the
    report, and [sent] and [failed] add up to the number of rows of the
    statuses sent, failed and skipped. *)
Theorem X11_outlook_on_windows_accounts_for_the_report
    (caps : Capabilities) (queue : list QueueItem)
    (subject message outlookFrom : string) (w : World) :
  platform caps = "win32" ->
  let payload := imap (outlookPayload subject message) queue in
  let run := outlook caps (calls w) (payload, JS.trim outlookFrom) in
  let outcome := sendEmailsOutlook caps queue subject message outlookFrom w in
  (forall msg, run = OutlookTempDirError msg -> fst outcome = Throw msg)
  /\ (forall msg cleanup, run = OutlookRan (Threw msg) cleanup ->
      fst outcome
      = Ok {| sent := 0; failed := Z.of_nat (length queue); errors := [msg];
              results := Some (map (failedRow msg) queue) |}
      /\ {| level := LogError; text := "Falha ao enviar via Outlook: " +:+ msg |}
         ∈ console (snd outcome))
  /\ (forall report cleanup, run = OutlookRan (Returned report) cleanup ->
      exists r rows,
        fst outcome = Ok r
        /\ results r = Some rows
        /\ map resultStatus rows = map reportStatus report
        /\ sent r = countStatus "sent" report
        /\ (Forall scriptStatus report ->
            (sent r + failed r)%Z = Z.of_nat (length report))).
Proof.
  intros Hwin payload run outcome.
  set (w1 := addMails (map (outlookMail (JS.trim outlookFrom)) payload) w).
  assert (Hstart : outcome
                   = match run with
                     | OutlookTempDirError msg => (Throw msg, tick w1)
                     | OutlookRan (Threw msg) cleanup =>
                         let w2 := addLog {| level := LogError;
                                             text := "Falha ao enviar via Outlook: " +:+ msg |}
                                     (tick w1) in
                         (Ok {| sent := 0; failed := Z.of_nat (length queue);
                                errors := [msg];
                                results := Some (map (failedRow msg) queue) |},
                          match cleanup with
                          | Some cmsg =>
                              addLog {| level := LogWarn;
                                        text := "Falha ao limpar temp de email: " +:+ cmsg |} w2
                          | None => w2
                          end)
                     | OutlookRan (Returned report) cleanup =>
                         (Ok {| sent := countStatus "sent" report;
                                failed := (countStatus "failed" report
                                           + countStatus "skipped" report)%Z;
                                errors :=
                                  map (fun r => reportTo r +:+ ": " +:+ reportError r)
                                    (filter (fun r => JS.truthy (reportError r) = true) report);
                                results :=
                                  Some (map (fun r =>
                                               {| resultTo := reportTo r;
                                                  resultFilename := reportFilename r;
                                                  resultStatus := reportStatus r;
                                                  resultError := reportError r |})
                                          report) |},
                          match cleanup with
                          | Some cmsg =>
                              addLog {| level := LogWarn;
                                        text := "Falha ao limpar temp de email: " +:+ cmsg |}
                                (tick w1)
                          | None => tick w1
                          end)
                     end).
  { unfold outcome, sendEmailsOutlook. rewrite Hwin, String.eqb_refl. cbn [negb].
    fold payload.
    rewrite (bind_ok _ _ w tt w1) by apply foldM_handToTransport.
    rewrite (bind_ok _ _ w1 run (tick w1)) by reflexivity.
    destruct run as [msg | [msg | report] [cmsg |]]; reflexivity. }
  rewrite Hstart. split; [| split].
  - intros msg ->. reflexivity.
  - intros msg cleanup ->. split; [reflexivity |].
    destruct cleanup as [cmsg |]; simpl; rewrite !elem_of_app.
    + left. right. apply list_elem_of_here.
    + right. apply list_elem_of_here.
  - intros report cleanup ->. eexists _, _.
    split; [reflexivity |].
    split; [reflexivity |]. split; [now rewrite <- list_fmap_compose |].
    split; [reflexivity |]. apply countStatus_total.
Qed.

Lemma X11_witness :
  fst (sendEmailsOutlook brokenOutlookServer twoRecipients "" "" "" emptyWorld)
  = Ok {| sent := 0; failed := 2; errors := ["Outlook nao instalado"];
          results := Some (map (failedRow "Outlook nao instalado") twoRecipients) |}.
Proof.
  destruct (X11_outlook_on_windows_accounts_for_the_report brokenOutlookServer twoRecipients
              "" "" "" emptyWorld eq_refl) as (_ & Hfail & _).
  apply (Hfail "Outlook nao instalado" None). reflexivity.
Defined.

(** ** SMTP settings *)

Section SmtpSettings.

Variable caps : Capabilities.

Lemma orElse_empty a b : orElse a b = "" <-> a = "" /\ b = "".
Proof.
  unfold orElse, JS.truthy. destruct (String.eqb_spec a "") as [-> | Hne]; simpl.
  - tauto.
  - split; [contradiction | tauto].
Qed.

Lemma truthy_false_iff s : JS.truthy s = false <-> s = "".
Proof. unfold JS.truthy. destruct (String.eqb_spec s ""); simpl; split; congruence. Qed.

End SmtpSettings.

(** X12. [buildSmtpOptions] gives no options exactly when the host, the
    user or the password is given neither by the request nor by the
    environment.  In the options it gives, host, user, password and sender
    are not empty; what the request gives wins over the environment; the
    sender falls back on the user; the port is 587 when none is given; and
    the connection is secure as the request says, or when it says nothing,
    exactly on port 465. *)
Theorem X12_smtp_options_need_host_user_and_password
    (caps : Capabilities) (config : SmtpConfig) :
  let e := env caps in
  (buildSmtpOptions caps config = None
   <-> (host config = "" /\ SMTP_HOST e = "")
       \/ (user config = "" /\ SMTP_USER e = "")
       \/ (pass config = "" /\ SMTP_PASS e = ""))
  /\ (forall o, buildSmtpOptions caps config = Some o ->
        optHost o <> "" /\ optUser o <> "" /\ optPass o <> "" /\ optFrom o <> ""
        /\ optHost o = orElse (host config) (SMTP_HOST e)
        /\ optUser o = orElse (user config) (SMTP_USER e)
        /\ optPass o = orElse (pass config) (SMTP_PASS e)
        /\ optFrom o = orElse (from config) (orElse (SMTP_FROM e) (optUser o))
        /\ (port config = "" -> SMTP_PORT e = "" -> optPort o = 587%Z)
        /\ optSecure o = match secure config with
                         | Some b => b
                         | None => (optPort o =? 465)%Z
                         end).
Proof.
  intros e. unfold buildSmtpOptions. fold e.
  set (h := orElse (host config) (SMTP_HOST e)).
  set (u := orElse (user config) (SMTP_USER e)).
  set (pw := orElse (pass config) (SMTP_PASS e)).
  assert (Hcase : negb (JS.truthy h) || negb (JS.truthy u) || negb (JS.truthy pw) = true
                  <-> h = "" \/ u = "" \/ pw = "").
  { rewrite !orb_true_iff, !negb_true_iff, !truthy_false_iff. tauto. }
  unfold h, u, pw in Hcase. rewrite !orElse_empty in Hcase. fold h u pw in Hcase.
  destruct (negb (JS.truthy h) || negb (JS.truthy u) || negb (JS.truthy pw)) eqn:Hmissing.
  - split; [split; [intros _; now apply Hcase | reflexivity] | discriminate].
  - split.
    + split; [discriminate |]. intros H. apply Hcase in H. discriminate.
    + intros o [= <-]. simpl.
      apply orb_false_iff in Hmissing as [Hmissing Hp].
      apply orb_false_iff in Hmissing as [Hh Hu].
      apply negb_false_iff in Hh, Hu, Hp.
      assert (Hne : forall s, JS.truthy s = true -> s <> "").
      { intros s Hs ->. discriminate. }
      split; [now apply Hne |]. split; [now apply Hne |]. split; [now apply Hne |].
      split.
      { rewrite orElse_empty, orElse_empty. intros (_ & _ & Hempty). now apply (Hne u). }
      repeat split.
      intros Hport Henv. now rewrite Hport, Henv.
Qed.

Lemma X12_witness :
  buildSmtpOptions plainLinuxServer noSmtpConfig = None
  /\ exists o, buildSmtpOptions flakyMailServer noSmtpConfig = Some o
               /\ optFrom o = "robot" /\ optPort o = 587%Z /\ optSecure o = false.
Proof.
  split.
  - apply (X12_smtp_options_need_host_user_and_password plainLinuxServer noSmtpConfig).
    left. split; reflexivity.
  - eexists. split; [reflexivity |].
    destruct (X12_smtp_options_need_host_user_and_password flakyMailServer noSmtpConfig)
      as [_ Hsome].
    destruct (Hsome _ eq_refl) as (_ & _ & _ & _ & _ & _ & _ & Hfrom & Hport & Hsecure).
    split; [exact Hfrom |]. split; [now apply Hport | exact Hsecure].
Defined.

(** X13. For the settings [normalizeSmtpConfig] reads from a request, the
    connection is secure exactly when the request says so: the rule for
    port 465 is never used.  Host, port, user and sender are trimmed before
    they are looked at, so that a field of white space counts as not given;
    the password is taken as it is written. *)
Theorem X13_request_decides_the_secure_flag
    (caps : Capabilities) (body : SmtpBody) (o : SmtpOptions) :
  buildSmtpOptions caps (normalizeSmtpConfig body) = Some o ->
  optSecure o = parseBoolean (smtpSecure body)
  /\ optHost o = orElse (JS.trim (smtpHost body)) (SMTP_HOST (env caps))
  /\ optUser o = orElse (JS.trim (smtpUser body)) (SMTP_USER (env caps))
  /\ optPass o = orElse (smtpPass body) (SMTP_PASS (env caps)).
Proof.
  intros H. unfold buildSmtpOptions in H.
  match type of H with (if ?b then _ else _) = _ => destruct b end; [discriminate |].
  injection H as <-. simpl. repeat split.
Qed.

Lemma X13_witness :
  exists o,
    buildSmtpOptions portReadingServer (normalizeSmtpConfig port465Body) = Some o
    /\ optPort o = 465%Z /\ optSecure o = false
    /\ optHost o = "smtp.example.com" /\ optPass o = " secret ".
Proof.
  eexists. split; [reflexivity |].
  destruct (X13_request_decides_the_secure_flag portReadingServer port465Body _ eq_refl)
    as (Hsecure & Hhost & _ & Hpass).
  split; [reflexivity |]. split; [exact Hsecure |]. split; [exact Hhost | exact Hpass].
Defined.

(** ** What the SMTP transport is given *)

Section SmtpOutbox.

Variable caps : Capabilities.
Variables subject message : string.
Variable onProgress : option (Progress -> M unit).
Variable options : SmtpOptions.
Variable w0 : World.

Hypothesis Hquiet : quietCallback onProgress.

Lemma reportProgress_quiet processed total sent w :
  exists w', reportProgress onProgress processed total sent w = (Ok tt, w')
             /\ outbox w' = outbox w.
Proof.
  unfold reportProgress. pose proof Hquiet as Hq.
  destruct onProgress as [callback |].
  - apply (Hq callback eq_refl).
  - now exists w.
Qed.

Lemma smtpSendOne_hands_over total done st item w :
  handedOver options subject message w0 done st w ->
  exists st' w',
    smtpSendOne caps options subject message total onProgress st item w = (Ok st', w')
    /\ handedOver options subject message w0 (done ++ [item]) st' w'.
Proof.
  intros (Hout & Herr & Hproc).
  assert (Hhas : hasAttachments item
                 = match normalizeEmailAttachments item with [] => false | _ => true end)
    by reflexivity.
  assert (Hmail : mailAttachments (smtpMail options subject message item)
                  = normalizeEmailAttachments item) by reflexivity.
  unfold smtpSendOne, handedOver. rewrite filter_app, map_app.
  destruct (normalizeEmailAttachments item) as [| att atts] eqn:Hatts.
  - rewrite filter_cons_False by (rewrite Hhas; discriminate).
    cbv [mbind M_bind bind mret M_ret ret].
    match goal with
    | |- context [reportProgress onProgress ?p ?t ?s ?w1] =>
        destruct (reportProgress_quiet p t s w1) as (w' & Hrep & Hkeep); rewrite Hrep
    end.
    eexists _, w'. split; [reflexivity |]. simpl.
    rewrite app_nil_r, !length_app. simpl.
    split; [congruence |]. split; lia.
  - rewrite filter_cons_True by (rewrite Hhas; reflexivity).
    assert (Hsame : {| mailFrom := optFrom options; mailTo := to item;
                       mailSubject := orElse subject DEFAULT_EMAIL_SUBJECT;
                       mailText := orElse message DEFAULT_EMAIL_MESSAGE;
                       mailAttachments := att :: atts |}
                    = smtpMail options subject message item).
    { unfold smtpMail. now rewrite Hatts. }
    cbv [mbind M_bind bind mret M_ret ret handToTransport external
           consoleError consoleLog].
    match goal with
    | |- context [sendMail caps ?n ?arg] => destruct (sendMail caps n arg) as [msg |]
    end;
      match goal with
      | |- context [reportProgress onProgress ?p ?t ?s ?w1] =>
          destruct (reportProgress_quiet p t s w1) as (w' & Hrep & Hkeep); rewrite Hrep
      end;
      eexists _, w'; (split; [reflexivity |]); simpl in Hkeep |- *;
      rewrite Hkeep, Hout, ?length_app, <- app_assoc, Hsame; simpl;
      (split; [reflexivity |]); split; lia.
Qed.

Lemma smtp_loop_hands_over total queue : forall done st w,
  handedOver options subject message w0 done st w ->
  exists st' w',
    foldM (smtpSendOne caps options subject message total onProgress) queue st w = (Ok st', w')
    /\ handedOver options subject message w0 (done ++ queue) st' w'.
Proof.
  induction queue as [| item rest IH]; intros done st w Hinv; simpl.
  - exists st, w. rewrite app_nil_r. split; [reflexivity | exact Hinv].
  - destruct (smtpSendOne_hands_over total done st item w Hinv) as (st1 & w1 & Hstep & Hinv1).
    destruct (IH (done ++ [item])%list st1 w1 Hinv1) as (st' & w' & Hrest & Hinv').
    exists st', w'. rewrite (bind_ok _ _ _ _ _ Hstep).
    split; [exact Hrest |]. now rewrite <- app_assoc in Hinv'.
Qed.

End SmtpOutbox.

(** X14. With SMTP settings, [sendEmailsSmtp] hands to the transporter
    one message for every entry of the queue that has an attachment, in
    the order of the queue, and none for the others: from the sender of
    the settings to the address of the entry, with the default subject and
    text in place of empty ones and all attachments of the entry.  The
    list of errors has one line for every entry that is not counted as
    sent. *)
Theorem X14_smtp_hands_over_the_entries_with_attachments
    (caps : Capabilities) (queue : list QueueItem) (subject message : string)
    (smtpConfig : SmtpConfig) (onProgress : option (Progress -> M unit))
    (options : SmtpOptions) (w : World) :
  buildSmtpOptions caps smtpConfig = Some options ->
  quietCallback onProgress ->
  exists r w',
    sendEmailsSmtp caps queue subject message smtpConfig onProgress w = (Ok r, w')
    /\ outbox w'
       = (outbox w
          ++ map (smtpMail options subject message)
               (filter (fun item => hasAttachments item = true) queue))%list
    /\ Forall (fun mail => mailAttachments mail <> [] /\ mailFrom mail = optFrom options
                           /\ mailSubject mail <> "" /\ mailText mail <> "")
         (map (smtpMail options subject message)
            (filter (fun item => hasAttachments item = true) queue))
    /\ Z.of_nat (length (errors r)) = failed r.
Proof.
  intros Hopt Hquiet. unfold sendEmailsSmtp. rewrite Hopt.
  destruct (smtp_loop_hands_over caps subject message onProgress options w Hquiet
              (Z.of_nat (length queue)) queue []
              {| loopSent := 0; loopProcessed := 0; loopErrors := []; loopResults := [] |} w)
    as (st & w' & Hloop & Hout & Herr & Hproc).
  { split; [now rewrite app_nil_r |]. split; reflexivity. }
  simpl in Hout, Hproc.
  eexists _, w'. split; [now rewrite (bind_ok _ _ _ _ _ Hloop) |].
  split; [exact Hout |]. split.
  - apply Forall_map, Forall_forall. intros item Hin.
    apply list_elem_of_filter in Hin as [Hhas _]. unfold hasAttachments in Hhas. simpl.
    split; [now destruct (normalizeEmailAttachments item) |].
    split; [reflexivity |]. split; now apply orElse_nonempty.
  - simpl. lia.
Qed.

Lemma X14_witness :
  exists r w',
    sendEmailsSmtp flakyMailServer twoRecipients "" "" noSmtpConfig None emptyWorld = (Ok r, w')
    /\ map mailTo (outbox w') = ["ana@example.com"; "rui@example.com"]
    /\ map mailSubject (outbox w') = ["Documento gerado"; "Documento gerado"]
    /\ failed r = 1%Z /\ length (errors r) = 1.
Proof.
  assert (Hq : quietCallback None) by (intros callback H; discriminate H).
  destruct (X14_smtp_hands_over_the_entries_with_attachments flakyMailServer twoRecipients
              "" "" noSmtpConfig None _ emptyWorld eq_refl Hq)
    as (r & w' & Hrun & Hout & _).
  exists r, w'. split; [exact Hrun |].
  vm_compute in Hrun. injection Hrun as <- <-. repeat split.
Defined.

(** ** Resolver: entries without a group, blank cells, keys *)

(** X15. An entry whose cell is blank (empty after trimming, a cell of
    no-break spaces included) resolves to the empty string, in a group or
    not: its prefix is not written.  An entry without a group whose cell
    has data resolves to its prefix followed by the value of the cell.
    This is the assignment the resolver makes for the entry, and what the
    object it returns holds under the key of the entry, unless a later
    entry of the mapping writes to the same key (the key [__proto__],
    which an object cannot hold, left aside). *)
Theorem X15_blank_cells_resolve_to_nothing
    (mapping : list MappingEntry.t) (row : Row) (j : nat) (entry : MappingEntry.t) :
  mapping !! j = Some entry ->
  let item := makeItem row j entry in
  let cell := sanitizeCellValue (getRowValue row (MappingEntry.column entry)) in
  let lastForKey :=
    Item.key item <> "__proto__"
    /\ forall j' later, j < j' -> mapping !! j' = Some later ->
                        Item.key (makeItem row j' later) <> Item.key item in
  (JS.trim cell = "" ->
   resolvedEntries mapping row !! j = Some (Item.key item, "")
   /\ (lastForKey -> resolveRowValues mapping row !! Item.key item = Some ""))
  /\ (JS.trim cell <> "" -> JS.truthy (Item.group item) = false ->
      resolvedEntries mapping row !! j
      = Some (Item.key item, MappingEntry.prefix entry +:+ cell)
      /\ (lastForKey ->
          resolveRowValues mapping row !! Item.key item
          = Some (MappingEntry.prefix entry +:+ cell))).
Proof.
  intros Hentry item cell lastForKey.
  assert (Hitem : makeItems mapping row !! j = Some item).
  { now rewrite makeItems_lookup, Hentry. }
  destruct (dedupFrom_lookup (makeItems mapping row) ∅ j item Hitem) as [Hplain _].
  assert (Hobject : forall v,
            resolvedEntries mapping row !! j = Some (Item.key item, v) ->
            lastForKey -> resolveRowValues mapping row !! Item.key item = Some v).
  { intros v Hlook [Hkey Hlast]. unfold resolveRowValues.
    apply (values_lookup_last _ ∅ j); [exact Hkey | exact Hlook |].
    intros j' k' v' Hlt Hlook'. unfold resolvedEntries in Hlook'.
    rewrite list_lookup_fmap in Hlook'.
    destruct (resolvedItems mapping row !! j') as [item' |] eqn:Hj'; [| discriminate].
    injection Hlook' as <- _.
    destruct (resolvedItems_lookup_key mapping row j' item' Hj') as (later & Hlater & -> & _).
    now apply (Hlast j' later). }
  assert (Hflag : Item.hasValue item = negb (String.eqb (JS.trim cell) "")) by reflexivity.
  split.
  - intros Hblank.
    assert (Hv : Item.hasValue item = false) by now rewrite Hflag, Hblank.
    assert (Hlook : resolvedEntries mapping row !! j = Some (Item.key item, "")).
    { apply resolvedEntries_absent; [| exact Hv]. apply Hplain. now right. }
    split; [exact Hlook | now apply Hobject].
  - intros Hdata Hg.
    assert (Hv : Item.hasValue item = true).
    { rewrite Hflag. apply negb_true_iff. now apply String.eqb_neq. }
    assert (Hresolved : resolvedItems mapping row !! j = Some item) by (apply Hplain; now left).
    assert (Hlook : resolvedEntries mapping row !! j
                    = Some (Item.key item, MappingEntry.prefix entry +:+ cell)).
    { unfold resolvedEntries. rewrite list_lookup_fmap, Hresolved. simpl.
      unfold finalValue. now rewrite Hv, Hg. }
    split; [exact Hlook | now apply Hobject].
Qed.

(** A cell of two spaces and a cell that holds a no-break space only. *)
Lemma X15_witness :
  resolveRowValues [cpfEntry] blankCpfRow !! "cpf" = Some ""
  /\ resolveRowValues [cpfEntry] nbspCpfRow !! "cpf" = Some ""
  /\ resolveRowValues [cpfEntry] [("CPF", CellString "123")] !! "cpf" = Some "CPF: 123".
Proof.
  assert (Hlast : forall row : Row,
            Item.key (makeItem row 0 cpfEntry) <> "__proto__"
            /\ forall j' later, 0 < j' -> [cpfEntry] !! j' = Some later ->
                  Item.key (makeItem row j' later) <> Item.key (makeItem row 0 cpfEntry)).
  { intros row. split; [vm_compute; discriminate |].
    intros j' later Hj Hlook. destruct j' as [| j']; [lia | discriminate Hlook]. }
  split; [| split].
  - destruct (X15_blank_cells_resolve_to_nothing [cpfEntry] blankCpfRow 0 cpfEntry eq_refl)
      as [Hblank _].
    now apply Hblank.
  - destruct (X15_blank_cells_resolve_to_nothing [cpfEntry] nbspCpfRow 0 cpfEntry eq_refl)
      as [Hblank _].
    now apply Hblank.
  - destruct (X15_blank_cells_resolve_to_nothing [cpfEntry] [("CPF", CellString "123")] 0
                cpfEntry eq_refl) as [_ Hdata].
    apply Hdata; [vm_compute; discriminate | reflexivity | apply Hlast].
Defined.

Section ResolvedKeys.

Lemma assignValue_dom (entries : list (string * string)) : forall (acc : gmap string string) k,
  is_Some (foldl assignValue acc entries !! k)
  <-> is_Some (acc !! k) \/ (k <> "__proto__" /\ k ∈ map fst entries).
Proof.
  induction entries as [| [k0 v0] rest IH]; intros acc k.
  - simpl. rewrite elem_of_nil. tauto.
  - cbn [foldl map fst]. rewrite IH, elem_of_cons. unfold assignValue.
    destruct (String.eqb_spec k0 "__proto__") as [-> | Hne].
    + split; [tauto |]. intros [H | [Hk [-> | Hin]]]; [tauto | contradiction | tauto].
    + destruct (decide (k = k0)) as [-> | Hk].
      * rewrite lookup_insert_eq. split; [intros _ | intros _; left; eauto].
        right. split; [exact Hne | now left].
      * rewrite lookup_insert_ne by congruence. split; [tauto |].
        intros [H | [Hp [-> | Hin]]]; [tauto | contradiction | tauto].
Qed.

Lemma resolvedEntries_keys mapping row :
  map fst (resolvedEntries mapping row)
  = map (fun entry => placeholderKey (MappingEntry.placeholder entry)) mapping.
Proof.
  unfold resolvedEntries. rewrite <- list_fmap_compose.
  apply list_eq. intros j. rewrite !list_lookup_fmap.
  destruct (resolvedItems mapping row !! j) as [item' |] eqn:Hj.
  - destruct (resolvedItems_lookup_key mapping row j item' Hj) as (entry & -> & Hkey & _).
    simpl. now rewrite Hkey.
  - apply lookup_ge_None in Hj. unfold resolvedItems, dedupItems in Hj.
    rewrite dedupFrom_length in Hj. unfold makeItems in Hj. rewrite length_imap in Hj.
    apply lookup_ge_None in Hj. now rewrite Hj.
Qed.

End ResolvedKeys.

(** X16. The object [resolveRowValues] returns has a value, possibly the
    empty string, for the key of every entry of the mapping (the key
    [__proto__], which an object cannot hold, left aside), and for nothing
    else. *)
Theorem X16_every_mapped_key_gets_a_value
    (mapping : list MappingEntry.t) (row : Row) (k : string) :
  is_Some (resolveRowValues mapping row !! k)
  <-> k <> "__proto__"
      /\ exists entry, entry ∈ mapping /\ placeholderKey (MappingEntry.placeholder entry) = k.
Proof.
  unfold resolveRowValues. rewrite assignValue_dom, resolvedEntries_keys, lookup_empty.
  rewrite list_elem_of_fmap. split.
  - intros [[x Hx] | [Hk (entry & -> & Hin)]]; [discriminate |].
    split; [exact Hk |]. now exists entry.
  - intros [Hk (entry & Hin & <-)]. right. split; [exact Hk |]. now exists entry.
Qed.

(** X17. The key of an entry is its placeholder without the braces: a
    placeholder written [{{name}}] and one written [name] (a name that
    neither begins with two opening braces nor ends in two closing ones)
    have the same key. *)
Theorem X17_placeholder_key_with_or_without_braces (name : string) :
  placeholderKey ("{{" +:+ name +:+ "}}") = name
  /\ (JS.startsWith "{{" name = false -> JS.endsWith "}}" name = false ->
      placeholderKey name = name).
Proof.
  split.
  - unfold placeholderKey.
    change (JS.startsWith "{{" ("{{" +:+ name +:+ "}}")) with true.
    change (JS.drop 2 ("{{" +:+ name +:+ "}}")) with (name +:+ "}}").
    cbv iota zeta. rewrite endsWith_app, length_app_s.
    replace (String.length name + String.length "}}" - 2) with (String.length name)
      by (simpl; lia).
    apply take_app_length.
  - intros Hstart Hend. unfold placeholderKey. now rewrite Hstart, Hend.
Qed.

Lemma X17_witness :
  placeholderKey "{{nome}}" = "nome" /\ placeholderKey "nome" = "nome".
Proof.
  destruct (X17_placeholder_key_with_or_without_braces "nome") as [Hbraces Hplain].
  split; [exact Hbraces | now apply Hplain].
Defined.

(** ** A generate job whose renderer fails *)

(** X18. When the renderer throws on the first row of a generate job that
    is not paused (as [createJob] makes it), the job ends with the status
    error and the message thrown (the default message when that is empty)
    as its error; no row was completed, no result is stored and nothing is
    handed to a mail transport. *)
Theorem X18_renderer_failure_ends_the_job_in_error
    (caps : Capabilities) (jobId : string) (input : GenerateInput) (w : World)
    (job : Job.t) (msg : string) :
  jobs w !! jobId = Some job ->
  Job.paused job = false ->
  rows input <> [] ->
  (forall n args, renderDoc caps n args = Threw msg) ->
  exists w' job',
    runGenerateJob caps jobId input w = (Ok (Settled tt), w')
    /\ jobs w' !! jobId = Some job'
    /\ Job.status job' = Error
    /\ Job.error job' = orElse msg "Erro ao gerar"
    /\ Job.result job' = Job.result job
    /\ Job.total job' = length (rows input)
    /\ Job.current job' = 0
    /\ outbox w' = outbox w
    /\ console w' = console w.
Proof.
  intros Hjob Hpaused Hrows Hthrow.
  cut (wp (runGenerateJob caps jobId input)
          (fun o w' =>
             o = Ok (Settled tt)
             /\ exists job', jobs w' !! jobId = Some job'
                  /\ Job.status job' = Error
                  /\ Job.error job' = orElse msg "Erro ao gerar"
                  /\ Job.result job' = Job.result job
                  /\ Job.total job' = length (rows input)
                  /\ Job.current job' = 0
                  /\ outbox w' = outbox w
                  /\ console w' = console w) w).
  { intros H. apply wp_run in H as (o & w' & Hrun & -> & job' & Hrest).
    now exists w', job'. }
  unfold runGenerateJob, touch, processRows.
  destruct (rows input) as [| row rest] eqn:Hr; [contradiction |].
  rewrite imap_cons. cbn [rowLoop].
  wp_steps. apply wp_waitIfPaused_free.
  { intros j Hj. simpl in Hj. rewrite !lookup_alter_eq, Hjob in Hj.
    injection Hj as <-. exact Hpaused. }
  cbv beta iota. wp_step. unfold processRow at 1. wp_steps. rewrite Hthrow. simpl orThrow. wp_steps. unfold touch. wp_steps.
  split; [reflexivity |]. simpl.
  rewrite !lookup_alter_eq, Hjob. simpl. eexists. split; [reflexivity |].
  simpl. repeat split.
Qed.

Lemma X18_witness :
  Job.status <$>
    jobs (snd (runGenerateJob brokenRendererServer "j1" (lettersInput [anaRow]) startOfJob))
         !! "j1"
  = Some Error.
Proof.
  destruct (X18_renderer_failure_ends_the_job_in_error brokenRendererServer "j1"
              (lettersInput [anaRow]) startOfJob (createJob "j1" Generate 0) "Corrupted zip")
    as (w' & job' & Hrun & Hjob & Hstatus & _).
  - reflexivity.
  - reflexivity.
  - discriminate.
  - reflexivity.
  - rewrite Hrun. simpl. now rewrite Hjob, <- Hstatus.
Defined.

(** ** What a generate job does to the registry *)

Section OwnJob.

Variable caps : Capabilities.
Variable jobId : string.
Variable input : GenerateInput.

Lemma own_refl w : onlyOwnJob jobId w w.
Proof. exists (fun job => job). split; [now intros job |]. now rewrite alter_id. Qed.

Lemma own_trans w1 w2 w3 :
  onlyOwnJob jobId w1 w2 -> onlyOwnJob jobId w2 w3 -> onlyOwnJob jobId w1 w3.
Proof.
  intros (g1 & Hg1 & H1) (g2 & Hg2 & H2). exists (g2 ∘ g1). split.
  - intros job. destruct (Hg1 job) as (? & ? & ? & ? & ? & ?).
    destruct (Hg2 (g1 job)) as (? & ? & ? & ? & ? & ?). simpl. repeat split; congruence.
  - now rewrite H2, H1, alter_alter_eq.
Qed.

Lemma own_jobs w1 w2 w3 :
  onlyOwnJob jobId w1 w2 -> jobs w3 = jobs w2 -> onlyOwnJob jobId w1 w3.
Proof. intros (g & Hg & H) Heq. exists g. split; [exact Hg | congruence]. Qed.

Lemma own_update w1 w2 f :
  onlyOwnJob jobId w1 w2 -> keepsIdentity f -> onlyOwnJob jobId w1 (alterJob jobId f w2).
Proof.
  intros H Hf. eapply own_trans; [exact H |]. exists f. split; [exact Hf | reflexivity].
Qed.

Lemma calm_jobs w w' : calm w w' -> jobs w' = jobs w.
Proof. now intros (H & _). Qed.

Lemma keepsIdentity_touchJob now : keepsIdentity (touchJob now).
Proof. intros job. repeat split. Qed.

Lemma touch_own w0 (Q : Outcome unit -> World -> Prop) w :
  onlyOwnJob jobId w0 w ->
  (forall w', onlyOwnJob jobId w0 w' -> jobs w' = alter (touchJob (dateNow caps (calls w) tt))
                                                    jobId (jobs w) ->
              Q (Ok tt) w') ->
  wp (touch caps jobId) Q w.
Proof.
  intros Hown HQ. unfold touch. wp_steps. apply HQ; [| reflexivity].
  apply own_update; [| apply keepsIdentity_touchJob].
  eapply own_jobs; [exact Hown | reflexivity].
Qed.

Lemma processRow_own st idxRow w :
  wp (processRow caps jobId input st idxRow) (fun _ w' => onlyOwnJob jobId w w') w.
Proof.
  destruct idxRow as [idx row]. unfold processRow.
  wp_steps. destruct (renderDoc caps (calls w) _) as [msg | docBuffer]; simpl orThrow.
  - wp_step. eapply own_jobs; [apply own_refl | reflexivity].
  - wp_step. eapply wp_bind_post; [apply docxBufferToPdf_calm |].
    intros [pdfBuffer | msg] w1 (Hc1 & _); apply calm_jobs in Hc1; simpl in Hc1;
      [| eapply own_jobs; [apply own_refl | exact Hc1]].
    eapply wp_bind_post; [apply keepPdf_spec |].
    intros [st2 | msg] w2 (Hc2 & _); apply calm_jobs in Hc2;
      [| eapply own_jobs; [apply own_refl | congruence]].
    eapply wp_bind_post; [apply queueRowEmails_spec |].
    intros [st3 | msg] w3 (Hc3 & _); apply calm_jobs in Hc3;
      [| eapply own_jobs; [apply own_refl | congruence]].
    wp_steps. apply (touch_own w).
    + apply own_update; [eapply own_jobs; [apply own_refl | congruence] |].
      intros job. repeat split.
    + intros w' Hown _. wp_step. exact Hown.
Qed.

Lemma foldM_own {A B} (f : B -> A -> M B) l :
  (forall b x w, wp (f b x) (fun _ w' => onlyOwnJob jobId w w') w) ->
  forall b w, wp (foldM f l b) (fun _ w' => onlyOwnJob jobId w w') w.
Proof.
  intros Hstep. induction l as [| x rest IH]; intros b w; simpl.
  - apply wp_ret, own_refl.
  - eapply wp_bind_post; [apply Hstep |].
    intros [b1 | msg] w1 H1; [| exact H1].
    eapply wp_mono; [apply IH |]. intros o w2 H2. eapply own_trans; eassumption.
Qed.

Lemma notPaused_own w w' : onlyOwnJob jobId w w' -> notPaused jobId w -> notPaused jobId w'.
Proof.
  intros (g & Hg & Hjobs) Hfree job' Hjob'. rewrite Hjobs, lookup_alter_eq in Hjob'.
  destruct (jobs w !! jobId) as [job |] eqn:Hjob; [| discriminate].
  injection Hjob' as <-. destruct (Hg job) as (_ & _ & _ & -> & _). now apply Hfree.
Qed.

(** The row loop of a job that is not paused comes through all its rounds
    unless a round throws, and works on the job only if the rounds do. *)
Lemma rowLoop_own {A B} (f : B -> A -> M B) l :
  (forall b x w, wp (f b x) (fun _ w' => onlyOwnJob jobId w w') w) ->
  forall b w, notPaused jobId w \/ l = [] ->
    wp (rowLoop jobId f l b)
       (fun o w' => onlyOwnJob jobId w w' /\ forall p, o = Ok p -> exists b', p = Finished b') w.
Proof.
  intros Hstep. induction l as [| x rest IH]; intros b w Hfree; cbn [rowLoop].
  - apply wp_ret. split; [apply own_refl |]. intros p [= <-]. now exists b.
  - destruct Hfree as [Hfree | Hnil]; [| discriminate].
    wp_step. apply wp_waitIfPaused_free; [exact Hfree |]. cbv beta iota.
    eapply wp_bind_post; [apply Hstep |].
    intros [b1 | msg] w1 H1; [| split; [exact H1 | discriminate]].
    eapply wp_mono; [apply IH; left; eapply notPaused_own; eassumption |].
    intros o w2 [H2 Hend]. split; [eapply own_trans; eassumption | exact Hend].
Qed.

Lemma jobHasStatus_update st f w :
  (forall job, Job.status (f job) = st) -> jobHasStatus jobId st (alterJob jobId f w).
Proof.
  intros Hf job Hjob. simpl in Hjob. rewrite lookup_alter_eq in Hjob.
  destruct (jobs w !! jobId) as [j |]; [| discriminate]. injection Hjob as <-. apply Hf.
Qed.

Lemma jobHasStatus_touch st now w w' :
  jobHasStatus jobId st w -> jobs w' = alter (touchJob now) jobId (jobs w) ->
  jobHasStatus jobId st w'.
Proof.
  intros Hst Heq job Hjob. rewrite Heq, lookup_alter_eq in Hjob.
  destruct (jobs w !! jobId) as [j |] eqn:Hj; [| discriminate].
  injection Hjob as <-. change (Job.status j = st). now apply Hst.
Qed.

(** A generate job that is not paused, whatever its capabilities do,
    settles; it works on its own job only, and leaves it done or in
    error. *)
Lemma runGenerateJob_own w :
  notPaused jobId w \/ rows input = [] ->
  wp (runGenerateJob caps jobId input)
     (fun o w' =>
        o = Ok (Settled tt)
        /\ onlyOwnJob jobId w w'
        /\ (jobHasStatus jobId Done w' \/ jobHasStatus jobId Error w')) w.
Proof.
  intros Hfree.
  unfold runGenerateJob. wp_steps. apply (touch_own w).
  { apply own_update; [apply own_refl |]. intros job. repeat split. }
  intros w1 Hown1 _. wp_step. unfold processRows.
  eapply wp_bind_post; [apply rowLoop_own; [apply processRow_own |] |].
  { destruct Hfree as [Hfree | Hnil]; [left | right; now rewrite Hnil].
    eapply notPaused_own; eassumption. }
  intros [p | msg] w2 [Hown2 Hend].
  - destruct (Hend p eq_refl) as [st ->].
    wp_steps. apply (touch_own w).
    { apply own_update; [eapply own_trans; eassumption |]. intros job. repeat split. }
    intros w3 Hown3 _. wp_steps. apply (touch_own w).
    { apply own_update; [exact Hown3 |]. intros job. repeat split. }
    intros w4 Hown4 Hjobs4. wp_step. eapply wp_mono; [apply dispatchQueue_spec |].
    intros o w5 [-> Hj5]. wp_step. split; [reflexivity |].
    split; [eapply own_jobs; eassumption |]. left.
    intros job Hjob. rewrite Hj5 in Hjob. revert job Hjob.
    eapply jobHasStatus_touch; [| exact Hjobs4]. now apply jobHasStatus_update.
  - wp_steps. apply (touch_own w).
    { apply own_update; [eapply own_trans; eassumption |]. intros job. repeat split. }
    intros w3 Hown3 Hjobs3. wp_step. split; [reflexivity |]. split; [exact Hown3 |]. right.
    eapply jobHasStatus_touch; [| exact Hjobs3]. now apply jobHasStatus_update.
Qed.

(** A paused job is held before the first round of its row loop. *)
Lemma rowLoop_held {A B} (f : B -> A -> M B) l b w job :
  jobs w !! jobId = Some job -> Job.paused job = true -> l <> [] ->
  rowLoop jobId f l b w = (Ok (HeldAt b), alterJob jobId armSignal w).
Proof.
  intros Hjob Hpaused Hl. destruct l as [| x rest]; [contradiction |]. cbn [rowLoop].
  rewrite (bind_ok _ _ w true (alterJob jobId armSignal w)); [reflexivity |].
  unfold waitIfPaused. now rewrite Hjob, Hpaused.
Qed.

(** A paused generate job with rows is held at the first round: the job
    has its totals set, its signal armed, and nothing else has happened. *)
Lemma runGenerateJob_held w job :
  jobs w !! jobId = Some job -> Job.paused job = true -> rows input <> [] ->
  exists now,
    runGenerateJob caps jobId input w
    = (Ok Suspended,
       alterJob jobId armSignal
         (alterJob jobId (touchJob now)
            (tick (alterJob jobId
                     (fun job =>
                        Job.set_message "Gerando documentos."
                          (Job.set_current 0 (Job.set_total (length (rows input)) job)))
                     w)))).
Proof.
  intros Hjob Hpaused Hrows.
  set (init := fun j : Job.t =>
                 Job.set_message "Gerando documentos."
                   (Job.set_current 0 (Job.set_total (length (rows input)) j))).
  exists (dateNow caps (calls (alterJob jobId init w)) tt).
  set (wa := alterJob jobId (touchJob (dateNow caps (calls (alterJob jobId init w)) tt))
               (tick (alterJob jobId init w))).
  assert (Hloop : imap pair (rows input) <> []).
  { destruct (rows input); [contradiction | discriminate]. }
  unfold runGenerateJob, processRows. fold init.
  erewrite bind_ok by reflexivity.
  erewrite bind_ok by reflexivity. fold wa.
  unfold tryCatch.
  rewrite (bind_ok _ _ wa (HeldAt initialRunState) (alterJob jobId armSignal wa));
    [reflexivity |].
  apply (rowLoop_held _ _ _ _ (touchJob (dateNow caps (calls (alterJob jobId init w)) tt)
                                 (init job))); [| exact Hpaused | exact Hloop].
  subst wa. simpl. now rewrite !lookup_alter_eq, Hjob.
Qed.

End OwnJob.

(** The registry after a generate job that is not paused. *)
Lemma runGenerateJob_frame (caps : Capabilities) (jobId : string) (input : GenerateInput) (w : World) :
  notPaused jobId w ->
  exists g, keepsIdentity g
            /\ jobs (snd (runGenerateJob caps jobId input w)) = alter g jobId (jobs w).
Proof.
  intros Hfree.
  pose proof (runGenerateJob_own caps jobId input w (or_introl Hfree)) as H.
  unfold wp in H. now destruct H as (_ & H & _).
Qed.

(** How the run of a generate job ends. *)
Lemma runGenerateJob_ends
    (caps : Capabilities) (jobId : string) (input : GenerateInput) (w : World) :
  exists e w',
    runGenerateJob caps jobId input w = (Ok e, w')
    /\ (forall other, other <> jobId -> jobs w' !! other = jobs w !! other)
    /\ (jobs w !! jobId = None -> jobs w' !! jobId = None /\ e = Settled tt)
    /\ (forall job, jobs w !! jobId = Some job ->
        exists job',
          jobs w' !! jobId = Some job'
          /\ Job.id job' = Job.id job
          /\ Job.type job' = Job.type job
          /\ Job.createdAt job' = Job.createdAt job
          /\ Job.paused job' = Job.paused job
          /\ match e with
             | Settled _ => Job.status job' = Done \/ Job.status job' = Error
             | Suspended =>
                 Job.paused job = true /\ rows input <> []
                 /\ Job.status job' = Job.status job
                 /\ Job.result job' = Job.result job
                 /\ Job.error job' = Job.error job
                 /\ Job.current job' = 0
                 /\ Job.pausePromise job' = true
                 /\ console w' = console w
                 /\ outbox w' = outbox w
             end
          /\ (Job.paused job = false -> e = Settled tt)
          /\ (Job.paused job = true -> rows input <> [] -> e = Suspended)).
Proof.
  assert (Hsettled : notPaused jobId w \/ rows input = [] ->
            exists w', runGenerateJob caps jobId input w = (Ok (Settled tt), w')
              /\ (forall other, other <> jobId -> jobs w' !! other = jobs w !! other)
              /\ (jobs w !! jobId = None -> jobs w' !! jobId = None)
              /\ (forall job, jobs w !! jobId = Some job ->
                  exists job', jobs w' !! jobId = Some job'
                    /\ Job.id job' = Job.id job
                    /\ Job.type job' = Job.type job
                    /\ Job.createdAt job' = Job.createdAt job
                    /\ Job.paused job' = Job.paused job
                    /\ (Job.status job' = Done \/ Job.status job' = Error))).
  { intros Hfree.
    pose proof (runGenerateJob_own caps jobId input w Hfree) as H.
    apply wp_run in H as (o & w' & Hrun & -> & (g & Hg & Hjobs) & Hstatus).
    exists w'. split; [exact Hrun |]. rewrite Hjobs. split; [| split].
    - intros other Hne. now apply lookup_alter_ne.
    - intros Hnone. now rewrite lookup_alter_eq, Hnone.
    - intros job Hjob. exists (g job).
      assert (Hlook : jobs w' !! jobId = Some (g job)).
      { now rewrite Hjobs, lookup_alter_eq, Hjob. }
      split; [now rewrite lookup_alter_eq, Hjob |].
      destruct (Hg job) as (Hid & Hty & Hcreated & Hpaused & _).
      repeat (split; [assumption |]).
      destruct Hstatus as [Hs | Hs]; [left | right]; now apply Hs. }
  destruct (jobs w !! jobId) as [job |] eqn:Hjob.
  - destruct (Job.paused job) eqn:Hpaused.
    + destruct (rows input) as [| row rest] eqn:Hr.
      * destruct (Hsettled (or_intror eq_refl)) as (w' & Hrun & Hother & _ & Hown).
        exists (Settled tt), w'. split; [exact Hrun |]. split; [exact Hother |].
        split; [discriminate |]. intros job0 [= <-].
        destruct (Hown job eq_refl) as (job' & Hjob' & Hid & Hty & Hcr & Hp & Hst).
        exists job'. repeat (split; [assumption |]). split; [reflexivity |].
        intros _ Hrows. now contradiction Hrows.
      * destruct (runGenerateJob_held caps jobId input w job Hjob Hpaused) as [now Hrun].
        { rewrite Hr. discriminate. }
        rewrite Hr in Hrun. eexists Suspended, _. split; [exact Hrun |].
        cbn [jobs alterJob tick console outbox].
        split; [intros other Hne; now rewrite !lookup_alter_ne by congruence |].
        split; [discriminate |]. intros job0 [= <-].
        rewrite !lookup_alter_eq, Hjob. cbn [fmap option_fmap option_map].
        eexists. split; [reflexivity |].
        unfold armSignal.
        destruct (Job.pausePromise (touchJob now _)) eqn:Hsignal;
          cbn; repeat (split; try reflexivity; try assumption; try discriminate);
          intros Habs; rewrite Hpaused in Habs; discriminate.
    + assert (Hfree : notPaused jobId w).
      { intros j Hj. rewrite Hjob in Hj. now injection Hj as <-. }
      destruct (Hsettled (or_introl Hfree)) as (w' & Hrun & Hother & _ & Hown).
      exists (Settled tt), w'. split; [exact Hrun |]. split; [exact Hother |].
      split; [discriminate |]. intros job0 [= <-].
      destruct (Hown job eq_refl) as (job' & Hjob' & Hid & Hty & Hcr & Hp & Hst).
      exists job'. repeat (split; [assumption |]). split; [reflexivity |].
      intros Habs. rewrite Hpaused in Habs. discriminate.
  - assert (Hfree : notPaused jobId w).
    { intros j Hj. rewrite Hjob in Hj. discriminate. }
    destruct (Hsettled (or_introl Hfree)) as (w' & Hrun & Hother & Hnone & _).
    exists (Settled tt), w'. split; [exact Hrun |]. split; [exact Hother |].
    split; [intros _; split; [now apply Hnone | reflexivity] |]. discriminate.
Qed.

(** X19. A generate job lets no failure escape, whatever the renderer,
    the converters, the disk and the mail transports do: its run either
    settles or is held at a pause.  It changes no other job of the
    registry, and neither adds nor removes a job.  Of its own job it
    never changes the id, the type, the time of creation or the pause
    flag.  A run that settles leaves the job with the status done or
    error, and the run of a job that is not paused settles.  A job that
    is paused and has rows is held before its first row: the status, the
    result and the error are as they were, the suspension signal is
    armed, nothing is logged and nothing is handed to a mail transport;
    the run is held only so.  The pause check stands at the head of every
    round: whatever the rows left and the variables of the loop, a round
    that finds the job paused holds the loop there and does nothing but
    arm the signal; so it is for a running job that [pauseJob] has
    paused, and behind [resumeJob] the round goes on with its row. *)
Theorem X19_generate_job_changes_only_its_job
    (caps : Capabilities) (jobId : string) (input : GenerateInput) (w : World) :
  (exists e w',
    runGenerateJob caps jobId input w = (Ok e, w')
    /\ (forall other, other <> jobId -> jobs w' !! other = jobs w !! other)
    /\ (jobs w !! jobId = None -> jobs w' !! jobId = None /\ e = Settled tt)
    /\ (forall job, jobs w !! jobId = Some job ->
        exists job',
          jobs w' !! jobId = Some job'
          /\ Job.id job' = Job.id job
          /\ Job.type job' = Job.type job
          /\ Job.createdAt job' = Job.createdAt job
          /\ Job.paused job' = Job.paused job
          /\ match e with
             | Settled _ => Job.status job' = Done \/ Job.status job' = Error
             | Suspended =>
                 Job.paused job = true /\ rows input <> []
                 /\ Job.status job' = Job.status job
                 /\ Job.result job' = Job.result job
                 /\ Job.error job' = Job.error job
                 /\ Job.current job' = 0
                 /\ Job.pausePromise job' = true
                 /\ console w' = console w
                 /\ outbox w' = outbox w
             end
          /\ (Job.paused job = false -> e = Settled tt)
          /\ (Job.paused job = true -> rows input <> [] -> e = Suspended)))
  /\ (forall (rest : list (nat * Row)) (st : RunState) (w0 : World) (job0 : Job.t),
        jobs w0 !! jobId = Some job0 -> Job.paused job0 = true -> rest <> [] ->
        rowLoop jobId (processRow caps jobId input) rest st w0
        = (Ok (HeldAt st), alterJob jobId armSignal w0))
  /\ (forall (rest : list (nat * Row)) (st : RunState) (w0 : World) (job0 : Job.t) (now : Z),
        jobs w0 !! jobId = Some job0 -> Job.status job0 = Running -> rest <> [] ->
        let paused := alterJob jobId (pauseJob now) w0 in
        rowLoop jobId (processRow caps jobId input) rest st paused
        = (Ok (HeldAt st), alterJob jobId armSignal paused))
  /\ (forall (x : nat * Row) (rest : list (nat * Row)) (st : RunState) (w0 : World)
             (job0 : Job.t) (now : Z),
        jobs w0 !! jobId = Some job0 ->
        let resumed := alterJob jobId (resumeJob now) w0 in
        rowLoop jobId (processRow caps jobId input) (x :: rest) st resumed
        = (st' ← processRow caps jobId input st x;
           rowLoop jobId (processRow caps jobId input) rest st') resumed).
Proof.
  split; [apply runGenerateJob_ends |].
  split; [intros rest st w0 job0; apply rowLoop_held |]. split.
  - intros rest st w0 job0 now Hjob Hrunning Hrest paused.
    apply (rowLoop_held _ _ _ _ _ (pauseJob now job0)); [| | exact Hrest].
    + subst paused. simpl. now rewrite lookup_alter_eq, Hjob.
    + unfold pauseJob. rewrite decide_True by exact Hrunning.
      now destruct (Job.pausePromise _).
  - intros x rest st w0 job0 now Hjob resumed. cbn [rowLoop].
    rewrite (bind_ok _ _ resumed false resumed); [reflexivity |].
    apply waitIfPaused_free. intros j Hj. subst resumed. simpl in Hj.
    rewrite lookup_alter_eq, Hjob in Hj. injection Hj as <-.
    unfold resumeJob. now destruct (Job.paused job0) eqn:Hp.
Qed.

Lemma X19_witness :
  fst (runGenerateJob noConverterServer "j1" (lettersInput [anaRow]) pausedStartOfJob)
  = Ok Suspended
  /\ fst (runGenerateJob brokenRendererServer "j1" (lettersInput [anaRow]) startOfJob)
     = Ok (Settled tt).
Proof.
  split.
  - destruct (X19_generate_job_changes_only_its_job noConverterServer "j1"
                (lettersInput [anaRow]) pausedStartOfJob)
      as [(e & w' & Hrun & _ & _ & Hown) _].
    destruct (Hown _ eq_refl) as (_ & _ & _ & _ & _ & _ & _ & _ & Hheld).
    rewrite Hrun. simpl. f_equal. apply Hheld; [reflexivity | discriminate].
  - destruct (X19_generate_job_changes_only_its_job brokenRendererServer "j1"
                (lettersInput [anaRow]) startOfJob)
      as [(e & w' & Hrun & _ & _ & Hown) _].
    destruct (Hown _ eq_refl) as (_ & _ & _ & _ & _ & _ & _ & Hfree & _).
    rewrite Hrun. simpl. f_equal. now apply Hfree.
Defined.

(** ** The result route *)

(** X20. The result route refuses (404) for a job the registry does not
    hold and (400) for a job that is not done: running, paused or in
    error.  After a generate job that is not paused, whose renderer does
    not throw and whose Word conversion is never refused its temporary
    folder, it answers with the archive of the documents, one for each
    row and under pairwise distinct names, and with a PDF archive exactly
    when the flag says that PDFs were generated. *)
Theorem X20_result_route_answers_after_the_job_is_done
    (caps : Capabilities) (jobId : string) (input : GenerateInput) (w : World) (job : Job.t) :
  rendersAlways caps ->
  tempDirAlways caps ->
  jobs w !! jobId = Some job ->
  Job.paused job = false ->
  Job.type job = Generate ->
  (Job.status job <> Done ->
   getResult jobId (jobs w) = ResultRefused 400 "Resultado indisponivel.")
  /\ getResult jobId (delete jobId (jobs w)) = ResultRefused 404 "Job nao encontrado."
  /\ exists docxZip pdfZip pdfGenerated,
       getResult jobId (jobs (snd (runGenerateJob caps jobId input w)))
       = GenerateArchives docxZip pdfZip pdfGenerated
       /\ length docxZip = length (rows input)
       /\ NoDup (map fst docxZip)
       /\ (pdfGenerated = true <-> pdfZip <> None).
Proof.
  intros Hrender Htemp Hjob Hpaused Htype. split; [| split].
  - intros Hst. unfold getResult. rewrite Hjob. now rewrite decide_False by exact Hst.
  - unfold getResult. now rewrite lookup_delete_eq.
  - destruct (runGenerateJob_spec caps jobId input Hrender Htemp w job Hjob Hpaused)
      as (w' & job' & st & Hrun & Hjob' & Hstatus & _ & _ & _ & Hresult & Hdocs & Hnames & _).
    destruct (runGenerateJob_frame caps jobId input w) as (g & Hg & Hkeep).
    { intros j Hj. rewrite Hjob in Hj. now injection Hj as <-. }
    rewrite Hrun in Hkeep |- *. cbn [snd] in Hkeep |- *.
    assert (Hty : Job.type job' = Generate).
    { rewrite Hkeep, lookup_alter_eq, Hjob in Hjob'. injection Hjob' as <-.
      destruct (Hg job) as (_ & -> & _). exact Htype. }
    unfold getResult. rewrite Hjob', Hstatus, Hty, Hresult.
    rewrite decide_True by reflexivity. eexists _, _, _. split; [reflexivity |].
    cbn [docxZipBuffer pdfZipBuffer pdfGenerated].
    split; [symmetry; eapply Forall2_length; exact Hdocs |].
    split; [rewrite Hnames; apply finalNames_fresh, rowFilenames_end |].
    destruct (bool_decide (zipPdf st = [])); simpl; split; congruence.
Qed.

Lemma X20_witness :
  getResult "j1" (jobs startOfJob) = ResultRefused 400 "Resultado indisponivel."
  /\ exists docxZip pdfZip pdfGenerated,
       getResult "j1"
         (jobs (snd (runGenerateJob colonNamesServer "j1" (lettersInput [anaRow; anaUpperRow])
                       startOfJob)))
       = GenerateArchives docxZip pdfZip pdfGenerated
       /\ length docxZip = 2.
Proof.
  destruct (X20_result_route_answers_after_the_job_is_done colonNamesServer "j1"
              (lettersInput [anaRow; anaUpperRow]) startOfJob (createJob "j1" Generate 0)
              (linuxServer_renders _ _ _ _) (linuxServer_tempDir _ _ _ _) eq_refl eq_refl
              eq_refl)
    as (Hrunning & _ & docxZip & pdfZip & flag & Hreply & Hlen & _).
  split; [apply Hrunning; discriminate |].
  exists docxZip, pdfZip, flag. split; [exact Hreply | exact Hlen].
Defined.

(** ** Escaping *)

Section Escaping.

Implicit Types (s repl : string) (c : ascii).

Lemma replaceOne_step c repl a r :
  JS.replaceFrom (matchOneChar c repl) 0 (String a r)
  = if Ascii.eqb a c then repl +:+ JS.replaceFrom (matchOneChar c repl) 0 r
    else String a (JS.replaceFrom (matchOneChar c repl) 0 r).
Proof. simpl. now destruct (Ascii.eqb a c). Qed.

(** Replacing a character by a text without it removes it. *)
Lemma replaceOne_removes c repl s :
  everyChar (notChar c) repl = true ->
  everyChar (notChar c) (JS.replaceFrom (matchOneChar c repl) 0 s) = true.
Proof.
  intros Hrepl. induction s as [| a r IH]; [reflexivity |].
  rewrite replaceOne_step. destruct (Ascii.eqb a c) eqn:Ha.
  - now rewrite everyChar_app, Hrepl, IH.
  - simpl. unfold notChar at 1. now rewrite Ha, IH.
Qed.

Lemma replaceOne_keeps (p : ascii -> bool) c repl s :
  everyChar p repl = true -> everyChar p s = true ->
  everyChar p (JS.replaceFrom (matchOneChar c repl) 0 s) = true.
Proof.
  intros Hrepl Hs. apply replaceFrom_everyChar; [| exact Hs].
  intros [| a r] n repl' _ Hm; [discriminate |]. simpl in Hm.
  destruct (Ascii.eqb a c); [| discriminate]. now injection Hm as _ <-.
Qed.

Lemma replaceOne_absent c repl s :
  everyChar (notChar c) s = true -> JS.replaceFrom (matchOneChar c repl) 0 s = s.
Proof.
  intros Hs. apply (replaceFrom_no_match _ (notChar c)); [| exact Hs].
  intros [| a r] Ht; [reflexivity |]. simpl in Ht |- *.
  apply andb_true_iff in Ht as [Ha _]. unfold notChar in Ha. now destruct (Ascii.eqb a c).
Qed.

Lemma everyChar_and (p q : ascii -> bool) s :
  everyChar (fun c => p c && q c) s = everyChar p s && everyChar q s.
Proof.
  induction s as [| a r IH]; [reflexivity |]. simpl. rewrite IH.
  destruct (p a), (q a), (everyChar p r), (everyChar q r); reflexivity.
Qed.

End Escaping.

(** X21. The text [escapeXml] gives has no angle bracket and no double
    quote, whatever the value; a value without ampersand, angle bracket
    and double quote is left as it is. *)
Theorem X21_escapeXml_leaves_no_markup (val : string) :
  everyChar plainInXml (escapeXml val) = true
  /\ (everyChar plainInXml val = true -> everyChar (notChar "&") val = true ->
      escapeXml val = val).
Proof.
  split.
  - unfold plainInXml, escapeXml, JS.replaceAll.
    rewrite !everyChar_and, !andb_true_iff. split; [split |].
    + apply replaceOne_keeps; [reflexivity |]. apply replaceOne_keeps; [reflexivity |].
      now apply replaceOne_removes.
    + apply replaceOne_keeps; [reflexivity |]. now apply replaceOne_removes.
    + now apply replaceOne_removes.
  - unfold plainInXml. rewrite !everyChar_and, !andb_true_iff.
    intros [[Hlt Hgt] Hquote] Hamp. unfold escapeXml, JS.replaceAll.
    now rewrite (replaceOne_absent "&" _ val Hamp), (replaceOne_absent "<" _ val Hlt),
      (replaceOne_absent ">" _ val Hgt), (replaceOne_absent doubleQuote _ val Hquote).
Qed.

Lemma X21_witness :
  everyChar plainInXml (escapeXml "Silva & Filhos <Ltda>") = true
  /\ escapeXml "Ana Souza" = "Ana Souza".
Proof.
  destruct (X21_escapeXml_leaves_no_markup "Silva & Filhos <Ltda>") as [Hplain _].
  destruct (X21_escapeXml_leaves_no_markup "Ana Souza") as [_ Hsame].
  split; [exact Hplain | now apply Hsame].
Defined.

(** The escaped form of a value with markup. *)
Example escapeXml_company :
  escapeXml "Silva & Filhos <Ltda>" = "Silva &amp; Filhos &lt;Ltda&gt;".
Proof. vm_compute. reflexivity. Qed.

(** X22. [escapePowerShellString] doubles every apostrophe (U+0027) of
    the value and changes nothing else: in the text it gives the
    apostrophes come in adjacent pairs, leaving out one of each pair
    gives the value back, and a value without apostrophe is left as it
    is. *)
Theorem X22_escapePowerShellString_pairs_the_quotes (value : string) :
  quotesPaired (escapePowerShellString value) = true
  /\ unpairQuotes (escapePowerShellString value) = value
  /\ (everyChar (notChar "'") value = true -> escapePowerShellString value = value).
Proof.
  unfold escapePowerShellString, JS.replaceAll. split; [| split].
  - induction value as [| a r IH]; [reflexivity |].
    rewrite replaceOne_step. destruct (Ascii.eqb a "'") eqn:Ha.
    + exact IH.
    + simpl. now rewrite Ha.
  - induction value as [| a r IH]; [reflexivity |].
    rewrite replaceOne_step. destruct (Ascii.eqb a "'") eqn:Ha.
    + apply Ascii.eqb_eq in Ha. subst a.
      change ("''" +:+ ?x) with (String "'" (String "'" x)).
      cbn [unpairQuotes]. rewrite Ascii.eqb_refl. now f_equal.
    + cbn [unpairQuotes]. rewrite Ha. now f_equal.
  - apply replaceOne_absent.
Qed.

Lemma X22_witness :
  escapePowerShellString "C:\Users\D'Avila\queue.json" = "C:\Users\D''Avila\queue.json"
  /\ escapePowerShellString "C:\Temp\queue.json" = "C:\Temp\queue.json".
Proof.
  destruct (X22_escapePowerShellString_pairs_the_quotes "C:\Users\D'Avila\queue.json")
    as (_ & Hback & _).
  destruct (X22_escapePowerShellString_pairs_the_quotes "C:\Temp\queue.json")
    as (_ & _ & Hsame).
  split; [vm_compute; reflexivity | now apply Hsame].
Defined.

(** ** Recipients of a cell *)

Section AddressPattern.

Import Address.

Implicit Types (s t : string) (c : ascii).

Lemma localChar_not_space c : isLocalChar c = true -> JS.isWhiteSpace c = false.
Proof. destruct c as [[] [] [] [] [] [] [] []]; vm_compute; congruence. Qed.

Lemma letter_not_dot c : isLetter c = true -> Ascii.eqb c "." = false.
Proof. destruct c as [[] [] [] [] [] [] [] []]; vm_compute; congruence. Qed.

Lemma letter_is_localChar c : isLetter c = true -> isLocalChar c = true.
Proof. intros H. unfold isLocalChar. now rewrite H. Qed.

Lemma letter_is_domainChar c : isLetter c = true -> isDomainChar c = true.
Proof. intros H. unfold isDomainChar. now rewrite H. Qed.

Lemma spanLength_le (p : ascii -> bool) s : JS.spanLength p s <= String.length s.
Proof. induction s as [| c r IH]; simpl; [lia |]. destruct (p c); simpl; lia. Qed.

(** A run ends where the text ends or a character of another kind
    stands. *)
Lemma spanLength_app (p : ascii -> bool) s t :
  everyChar p s = true ->
  JS.spanLength p (s +:+ t) = String.length s + JS.spanLength p t.
Proof.
  induction s as [| c r IH]; [reflexivity |]. intros H. simpl in H.
  apply andb_true_iff in H as [Hc Hr]. rewrite app_String. simpl. now rewrite Hc, IH.
Qed.

Lemma spanLength_all (p : ascii -> bool) s :
  everyChar p s = true -> JS.spanLength p s = String.length s.
Proof.
  intros H. rewrite <- (app_empty_r s) at 1. rewrite (spanLength_app p s "" H). simpl. lia.
Qed.

Lemma take_app_plus s t n : JS.take (String.length s + n) (s +:+ t) = s +:+ JS.take n t.
Proof. induction s as [| c r IH]; [reflexivity |]. rewrite app_String. simpl. now rewrite IH. Qed.

Lemma drop_app_plus s t n : JS.drop (String.length s + n) (s +:+ t) = JS.drop n t.
Proof. induction s as [| c r IH]; [reflexivity |]. rewrite app_String. exact IH. Qed.

Lemma length_take_s n s : String.length (JS.take n s) = Nat.min n (String.length s).
Proof.
  revert s; induction n as [| n IH]; intros s; [reflexivity |].
  destruct s as [| c r]; [reflexivity |]. simpl. now rewrite IH.
Qed.

(** What [splitDomain] finds: a dot with something before it and a run of
    at least two letters behind it. *)
Lemma splitDomain_Some dom : forall i k m,
  splitDomain dom i = Some (k, m) ->
  exists pre tail,
    dom = pre +:+ "." +:+ tail
    /\ k = i + String.length pre /\ 1 <= k
    /\ m = JS.spanLength isLetter tail /\ 2 <= m.
Proof.
  induction dom as [| c r IH]; intros i k m H; [discriminate |].
  cbn [splitDomain] in H. destruct (splitDomain r (S i)) as [[k' m'] |] eqn:Hlater.
  - injection H as -> ->. destruct (IH _ _ _ Hlater) as (pre & tail & -> & -> & Hk & -> & Hm).
    exists (String c pre), tail. simpl. repeat split; try lia.
  - match type of H with (if ?b then _ else _) = _ => destruct b eqn:Hcond end;
      [| discriminate].
    injection H as <- <-.
    apply andb_true_iff in Hcond as [Hcond Hm]. apply andb_true_iff in Hcond as [Hi Hc].
    apply Nat.leb_le in Hi, Hm. apply Ascii.eqb_eq in Hc. subst c.
    exists "", r. simpl. repeat split; lia.
Qed.

Lemma splitDomain_letters t : forall i,
  everyChar isLetter t = true -> splitDomain t i = None.
Proof.
  induction t as [| c r IH]; intros i H; [reflexivity |]. simpl in H.
  apply andb_true_iff in H as [Hc Hr]. cbn [splitDomain].
  rewrite (IH _ Hr), (letter_not_dot c Hc). now rewrite andb_false_r.
Qed.

Lemma splitDomain_last pre tld : forall i,
  1 <= i + String.length pre ->
  2 <= String.length tld -> everyChar isLetter tld = true ->
  splitDomain (pre +:+ "." +:+ tld) i = Some (i + String.length pre, String.length tld).
Proof.
  induction pre as [| c r IH]; intros i Hi Hlen Htld.
  - simpl in Hi. change ("" +:+ "." +:+ tld) with (String "." tld). cbn [splitDomain].
    rewrite (splitDomain_letters tld _ Htld), (spanLength_all _ _ Htld).
    replace (1 <=? i)%nat with true by (symmetry; apply Nat.leb_le; lia).
    replace (2 <=? String.length tld)%nat with true by (symmetry; apply Nat.leb_le; lia).
    rewrite Ascii.eqb_refl. cbn [andb String.length].
    f_equal. f_equal. lia.
  - rewrite app_String. cbn [splitDomain].
    rewrite (IH (S i)); [| simpl in Hi; lia | exact Hlen | exact Htld].
    cbn [String.length]. f_equal. f_equal. lia.
Qed.

End AddressPattern.

Section AddressMatches.

Import Address.

Implicit Types (s t a : string) (c : ascii).

Lemma startsWith_head c t :
  JS.startsWith (String c "") t = true -> t = String c (JS.drop 1 t).
Proof.
  destruct t as [| b r]; [discriminate |]. simpl. rewrite andb_true_r, Ascii.eqb_eq.
  now intros ->.
Qed.

Lemma drop_drop n m s : JS.drop n (JS.drop m s) = JS.drop (m + n) s.
Proof.
  revert s; induction m as [| m IH]; intros s; [reflexivity |].
  destruct s as [| c r]; [now destruct n |]. apply IH.
Qed.

Lemma take_app_le n s t : n <= String.length s -> JS.take n (s +:+ t) = JS.take n s.
Proof.
  revert s; induction n as [| n IH]; intros s Hn; [reflexivity |].
  destruct s as [| c r]; [simpl in Hn; lia |]. rewrite app_String. simpl.
  rewrite IH; [reflexivity | simpl in Hn; lia].
Qed.

Lemma trimEnd_fixed t :
  everyChar (fun c => negb (JS.isWhiteSpace c)) t = true -> JS.trimEnd t = t.
Proof.
  induction t as [| c r IH]; [reflexivity |]. simpl everyChar. rewrite andb_true_iff.
  intros [Hc Hr]. apply negb_true_iff in Hc. now rewrite (trimEnd_cons c r Hc), IH.
Qed.

(** What the pattern matches is an address. *)
Lemma matchAddress_wellFormed s n cap :
  matchAddress s = Some (n, cap) -> wellFormed cap.
Proof.
  unfold matchAddress. set (l := JS.spanLength isLocalChar s).
  destruct ((1 <=? l)%nat && JS.startsWith "@" (JS.drop l s)) eqn:Hhead; [| discriminate].
  apply andb_true_iff in Hhead as [Hl Hat]. apply Nat.leb_le in Hl.
  set (rest := JS.drop (S l) s). set (d := JS.spanLength isDomainChar rest).
  destruct (splitDomain (JS.take d rest) 0) as [[k m] |] eqn:Hsplit; [| discriminate].
  intros [= <- <-].
  destruct (splitDomain_Some _ _ _ _ Hsplit) as (pre & tail & Hdom & Hk & Hk1 & Hm & Hm2).
  simpl in Hk. subst k.
  assert (Hlen : String.length (JS.take l s) = l).
  { rewrite length_take_s. pose proof (spanLength_le isLocalChar s). unfold l in *. lia. }
  assert (Hlocal : everyChar isLocalChar (JS.take l s) = true) by apply everyChar_span.
  assert (Hs : s = JS.take l s +:+ "@" +:+ pre +:+ "." +:+ tail +:+ JS.drop d rest).
  { rewrite <- (take_drop_s l s) at 1. f_equal.
    rewrite (startsWith_head _ _ Hat). rewrite drop_drop.
    replace (l + 1) with (S l) by lia. fold rest.
    change (String "@" rest = String "@" (pre +:+ "." +:+ tail +:+ JS.drop d rest)).
    f_equal. rewrite <- (take_drop_s d rest) at 1. rewrite Hdom.
    now rewrite !app_assoc_s. }
  assert (Hrun : everyChar isDomainChar (JS.take d rest) = true) by apply everyChar_span.
  rewrite Hdom, !everyChar_app in Hrun. apply andb_true_iff in Hrun as [Hpre _].
  assert (Hmle : m <= String.length tail).
  { rewrite Hm. apply spanLength_le. }
  assert (Hletters : everyChar isLetter (JS.take m tail) = true).
  { rewrite Hm. apply everyChar_span. }
  set (loc := JS.take l s) in *. set (after := JS.drop d rest) in *.
  clearbody loc after. clear Hsplit Hdom Hat. subst s.
  exists loc, pre, (JS.take m tail). split.
  - replace (l + 1 + String.length pre + 1 + m)
      with (String.length loc + (1 + (String.length pre + (1 + m)))) by lia.
    rewrite take_app_plus. f_equal.
    change ("@" +:+ pre +:+ "." +:+ tail +:+ after)
      with (String "@" (pre +:+ "." +:+ tail +:+ after)).
    cbn [Nat.add JS.take]. f_equal. rewrite take_app_plus. f_equal.
    change ("." +:+ tail +:+ after) with (String "." (tail +:+ after)).
    cbn [Nat.add JS.take]. f_equal. now apply take_app_le.
  - split; [destruct loc; [simpl in Hlen; lia | discriminate] |].
    split; [exact Hlocal |].
    split; [destruct pre; [simpl in Hk1; lia | discriminate] |].
    split; [exact Hpre |].
    split; [rewrite length_take_s; lia | exact Hletters].
Qed.

(** An address has no white space at either end. *)
Lemma wellFormed_trim a : wellFormed a -> JS.trim a = a /\ a <> "".
Proof.
  intros (loc & dom & tld & -> & Hloc & Hlocal & _ & _ & Hlen & Hletters).
  destruct loc as [| c loc]; [contradiction |]. split; [| discriminate].
  simpl in Hlocal. apply andb_true_iff in Hlocal as [Hc _].
  rewrite <- !app_assoc_s. apply trim_with_extension.
  - rewrite !app_assoc_s, app_String. apply trimStart_fixed, localChar_not_space, Hc.
  - destruct tld as [| b tld]; [reflexivity |]. simpl in Hletters.
    apply andb_true_iff in Hletters as [Hb _].
    apply trimStart_fixed, localChar_not_space, letter_is_localChar, Hb.
  - destruct tld; [simpl in Hlen; lia | discriminate].
  - apply trimEnd_fixed. revert Hletters. apply everyChar_mono.
    intros b Hb. now rewrite (localChar_not_space b (letter_is_localChar b Hb)).
Qed.

(** An address is matched whole. *)
Lemma matchAddress_whole a :
  wellFormed a -> matchAddress a = Some (String.length a, a).
Proof.
  intros (loc & dom & tld & -> & Hloc & Hlocal & Hdom & Hdomain & Hlen & Hletters).
  unfold matchAddress.
  assert (Hl : JS.spanLength isLocalChar (loc +:+ "@" +:+ dom +:+ "." +:+ tld)
               = String.length loc).
  { rewrite (spanLength_app _ _ _ Hlocal).
    change ("@" +:+ dom +:+ "." +:+ tld) with (String "@" (dom +:+ "." +:+ tld)).
    cbn [JS.spanLength]. replace (isLocalChar "@") with false by reflexivity. lia. }
  rewrite Hl.
  replace (1 <=? String.length loc)%nat with true
    by (symmetry; apply Nat.leb_le; destruct loc; [contradiction | simpl; lia]).
  change ("@" +:+ dom +:+ "." +:+ tld) with (String "@" (dom +:+ "." +:+ tld)).
  rewrite drop_app_length.
  assert (Hat : forall x, JS.startsWith "@" (String "@" x) = true) by reflexivity.
  rewrite Hat. cbn [andb].
  replace (S (String.length loc)) with (String.length loc + 1) by lia.
  rewrite drop_app_plus.
  change (JS.drop 1 (String "@" (dom +:+ "." +:+ tld))) with (dom +:+ "." +:+ tld).
  assert (Hrest : everyChar isDomainChar (dom +:+ "." +:+ tld) = true).
  { rewrite !everyChar_app, Hdomain. simpl. revert Hletters. apply everyChar_mono.
    exact letter_is_domainChar. }
  rewrite (spanLength_all _ _ Hrest), take_all.
  rewrite (splitDomain_last dom tld 0); [| destruct dom; [contradiction | simpl; lia] | exact Hlen
                                        | exact Hletters].
  cbn [Nat.add].
  assert (Hn : String.length loc + 1 + String.length dom + 1 + String.length tld
               = String.length (loc +:+ String "@" (dom +:+ "." +:+ tld))).
  { rewrite !length_app_s. cbn [String.length]. rewrite !length_app_s.
    cbn [String.length]. lia. }
  rewrite Hn. now rewrite take_all.
Qed.

Lemma execFrom_skip (m : string -> option (nat * string)) s : forall k,
  String.length s <= k -> JS.execFrom m k s = [].
Proof.
  induction s as [| c r IH]; intros k Hk; [reflexivity |].
  destruct k as [| k]; [simpl in Hk; lia |]. simpl. apply IH. simpl in Hk. lia.
Qed.

Lemma matchAddress_needs_at t :
  everyChar (notChar "@") t = true -> matchAddress t = None.
Proof.
  intros Ht. unfold matchAddress.
  rewrite (startsWith_other "@" "" _ (everyChar_drop _ _ _ Ht)).
  now rewrite andb_false_r.
Qed.

Lemma matches_wellFormed text : Forall wellFormed (JS.execAll matchAddress text).
Proof.
  unfold JS.execAll. apply execFrom_Forall. intros t n cap Hm.
  exact (matchAddress_wellFormed _ _ _ Hm).
Qed.

Lemma kept_wellFormed (l : list string) :
  Forall wellFormed l ->
  filter (fun item => JS.truthy item = true) (map JS.trim l) = l.
Proof.
  induction 1 as [| a l Ha _ IH]; [reflexivity |].
  destruct (wellFormed_trim a Ha) as [Htrim Hne]. cbn [map]. rewrite Htrim.
  rewrite filter_cons_True, IH; [reflexivity |].
  unfold JS.truthy. now destruct (String.eqb_spec a "").
Qed.

End AddressMatches.

(** X23. [parseRecipients] reads the addresses of a cell: a blank cell and
    a cell without an at sign give none; every recipient it gives is a
    local part, the at sign, a domain and a dot with at least two letters
    behind it, with no white space around; the recipients are the matches
    of the pattern as they stand; and a cell that is one such address gives
    that address alone. *)
Theorem X23_parseRecipients_gives_well_formed_addresses (text : string) :
  (JS.trim text = "" -> Address.parseRecipients text = [])
  /\ (everyChar (notChar "@") text = true -> Address.parseRecipients text = [])
  /\ Forall (fun a => Address.wellFormed a /\ JS.trim a = a /\ a <> "")
            (Address.parseRecipients text)
  /\ (JS.trim text <> "" ->
      Address.parseRecipients text = JS.execAll Address.matchAddress text)
  /\ (Address.wellFormed text -> Address.parseRecipients text = [text]).
Proof.
  assert (Hblank : JS.trim text = "" -> Address.parseRecipients text = []).
  { intros Hb. unfold Address.parseRecipients. now rewrite Hb. }
  assert (Hkept : JS.trim text <> "" ->
                  Address.parseRecipients text = JS.execAll Address.matchAddress text).
  { intros Hne. unfold Address.parseRecipients, JS.truthy.
    destruct (String.eqb_spec (JS.trim text) ""); [contradiction |]. cbn [negb].
    apply kept_wellFormed, matches_wellFormed. }
  split; [exact Hblank |]. split; [| split; [| split; [exact Hkept |]]].
  - intros Hat. destruct (string_dec (JS.trim text) "") as [Hb | Hne]; [now apply Hblank |].
    rewrite (Hkept Hne). unfold JS.execAll.
    apply (execFrom_no_match _ (notChar "@")); [apply matchAddress_needs_at | exact Hat].
  - destruct (string_dec (JS.trim text) "") as [Hb | Hne].
    + rewrite (Hblank Hb). constructor.
    + rewrite (Hkept Hne). eapply Forall_impl; [apply matches_wellFormed |].
      intros a Ha. split; [exact Ha | now apply wellFormed_trim].
  - intros Hwf. destruct (wellFormed_trim text Hwf) as [Htrim Hne].
    rewrite Hkept by now rewrite Htrim.
    unfold JS.execAll. destruct text as [| c r]; [contradiction |].
    cbn [JS.execFrom]. rewrite (matchAddress_whole _ Hwf). cbn [String.length Nat.pred].
    now rewrite execFrom_skip.
Qed.

Lemma X23_witness :
  Address.parseRecipients "   " = []
  /\ Address.parseRecipients "sem email" = []
  /\ Address.parseRecipients "ana@ufba.br" = ["ana@ufba.br"]
  /\ Address.parseRecipients "Ana <ana@ufba.br>; bia@x.org.br, c@d.e1"
     = ["ana@ufba.br"; "bia@x.org.br"].
Proof.
  destruct (X23_parseRecipients_gives_well_formed_addresses "   ") as (Hblank & _).
  destruct (X23_parseRecipients_gives_well_formed_addresses "sem email") as (_ & Hno & _).
  destruct (X23_parseRecipients_gives_well_formed_addresses "ana@ufba.br")
    as (_ & _ & _ & _ & Hone).
  destruct (X23_parseRecipients_gives_well_formed_addresses
              "Ana <ana@ufba.br>; bia@x.org.br, c@d.e1") as (_ & _ & _ & Hkept & _).
  split; [now apply Hblank |]. split; [now apply Hno |]. split.
  - apply Hone. exists "ana", "ufba", "br". repeat split; try reflexivity; discriminate.
  - rewrite Hkept; [reflexivity | vm_compute; discriminate].
Defined.

(** ** The send job *)

Lemma wp_bind_eq {A B} (c : M A) (k : A -> M B) Q w :
  (forall o w1, c w = (o, w1) ->
     match o with
     | Ok a => wp (k a) Q w1
     | Throw msg => Q (Throw msg) w1
     end) ->
  wp (c ≫= k) Q w.
Proof.
  intros H. apply wp_bind. unfold wp at 1.
  destruct (c w) as [o w1] eqn:Hrun. simpl. now apply H.
Qed.

Lemma mapSet_nonempty {V} (k : string) (v : V) m : mapSet k v m <> [].
Proof. induction m as [| [k' v'] m IH]; simpl; [discriminate |]. now destruct (String.eqb k' k). Qed.

Lemma uniqueRecipients_named (recipients : list string) :
  Forall (fun a => a <> "") recipients ->
  Forall (fun a => a <> "") (uniqueRecipients recipients).
Proof.
  intros Hall. unfold uniqueRecipients.
  assert (Hgen : forall m : list (string * string),
             Forall (fun a => a <> "") (map snd m) ->
             Forall (fun a => a <> "")
               (map snd (foldl (fun m addr => mapSet (JS.toLowerCase addr) addr m) m recipients))).
  { induction Hall as [| a l Ha _ IH]; intros m Hm; [exact Hm |]. simpl. apply IH.
    clear IH. induction m as [| [k v] m IHm]; simpl; [now repeat constructor |].
    inversion Hm; subst. destruct (String.eqb k (JS.toLowerCase a)); simpl.
    - now constructor.
    - constructor; [assumption | now apply IHm]. }
  apply Hgen. constructor.
Qed.

Section SendJob.

Variable caps : Capabilities.
Variable jobId : string.
Variable input : GenerateInput.

Lemma silent_refl w : ownAndSilent jobId w w.
Proof. split; [apply own_refl | reflexivity]. Qed.

Lemma silent_trans w1 w2 w3 :
  ownAndSilent jobId w1 w2 -> ownAndSilent jobId w2 w3 -> ownAndSilent jobId w1 w3.
Proof.
  intros [H1 Ho1] [H2 Ho2]. split; [eapply own_trans; eassumption | congruence].
Qed.

Lemma silent_calm w1 w2 w3 : ownAndSilent jobId w1 w2 -> calm w2 w3 -> ownAndSilent jobId w1 w3.
Proof.
  intros [H1 Ho1] (Hj & Ho & _). split; [eapply own_jobs; eassumption | congruence].
Qed.

Lemma silent_update w1 w2 f :
  ownAndSilent jobId w1 w2 -> keepsIdentity f -> ownAndSilent jobId w1 (alterJob jobId f w2).
Proof. intros [H1 Ho1] Hf. split; [now apply own_update | exact Ho1]. Qed.

Lemma silent_tick w1 w2 : ownAndSilent jobId w1 w2 -> ownAndSilent jobId w1 (tick w2).
Proof. intros [H1 Ho1]. split; [eapply own_jobs; [exact H1 | reflexivity] | exact Ho1]. Qed.

Lemma touch_silent w0 (Q : Outcome unit -> World -> Prop) w :
  ownAndSilent jobId w0 w ->
  (forall w', ownAndSilent jobId w0 w' ->
              jobs w' = alter (touchJob (dateNow caps (calls w) tt)) jobId (jobs w) ->
              Q (Ok tt) w') ->
  wp (touch caps jobId) Q w.
Proof.
  intros Hs HQ. unfold touch. wp_steps. apply HQ; [| reflexivity].
  apply silent_update; [now apply silent_tick | apply keepsIdentity_touchJob].
Qed.

Lemma skipRow_silent w0 idx (Q : Outcome unit -> World -> Prop) w :
  ownAndSilent jobId w0 w ->
  (forall w', ownAndSilent jobId w0 w' -> Q (Ok tt) w') ->
  wp (skipRow caps jobId idx) Q w.
Proof.
  intros Hs HQ. unfold skipRow. wp_steps. apply (touch_silent w0).
  - apply silent_update; [exact Hs |]. intros job. repeat split.
  - intros w' Hs' _. now apply HQ.
Qed.

Lemma afterRows_nil st : afterRows caps input st [] st.
Proof.
  unfold afterRows, recipientTotal. simpl. repeat split; auto; lia.
Qed.

Lemma afterRows_cons st row st1 rest st' :
  afterRows caps input st [row] st1 -> afterRows caps input st1 rest st' ->
  afterRows caps input st (row :: rest) st'.
Proof.
  unfold afterRows, recipientTotal. simpl.
  intros (Hc1 & Hn1 & Ha1 & Hv1) (Hc2 & Hn2 & Ha2 & Hv2). repeat split.
  - lia.
  - intros Hall. inversion Hall; subst.
    rewrite Hn2 by assumption. apply Hn1. now repeat constructor.
  - intros Hnames Hagree. now apply Ha2, Ha1.
  - destruct (Hv1 H) as [Hq1 _], (Hv2 H) as [Hq2 _]. congruence.
  - destruct (Hv1 H) as [_ Hf1], (Hv2 H) as [_ Hf2]. lia.
Qed.

Lemma queueForSend_counts recipients att : forall st,
  pdfFailures (queueForSend recipients att st) = pdfFailures st
  /\ recipientCount (queueForSend recipients att st) = recipientCount st.
Proof.
  unfold queueForSend. induction recipients as [| r rest IH]; intros st; [now split |].
  simpl. destruct (ensureUniqueAttachmentName _ _ _) as [uniqueName used'].
  destruct (IH {| sendQueue :=
                    queueEmailAttachment (sendQueue st) r
                      {| filename := uniqueName; buffer := buffer att |};
                  sendUsedNames := used'; pdfFailures := pdfFailures st;
                  recipientCount := recipientCount st |}) as [H1 H2].
  now split.
Qed.

Lemma queueForSend_grows recipients att : forall st,
  sendQueue st <> [] -> sendQueue (queueForSend recipients att st) <> [].
Proof.
  unfold queueForSend. induction recipients as [| r rest IH]; intros st Hst; [exact Hst |].
  simpl. destruct (ensureUniqueAttachmentName _ _ _) as [uniqueName used'].
  apply IH. simpl. unfold queueEmailAttachment.
  destruct (negb (JS.truthy (JS.toLowerCase r))); [exact Hst | apply mapSet_nonempty].
Qed.

Lemma queueForSend_nonempty r rest att st :
  r <> "" -> sendQueue (queueForSend (r :: rest) att st) <> [].
Proof.
  intros Hr. unfold queueForSend. simpl.
  destruct (ensureUniqueAttachmentName _ _ _) as [uniqueName used'].
  apply (queueForSend_grows rest att). simpl. unfold queueEmailAttachment.
  rewrite truthy_toLowerCase. unfold JS.truthy.
  destruct (String.eqb_spec r ""); [contradiction |]. apply mapSet_nonempty.
Qed.

End SendJob.

Section SendLoop.

Variable caps : Capabilities.
Variable jobId : string.
Variable input : GenerateInput.

(** A round of the row loop: what it does to the world and to the
    variables of the loop; it throws only when the renderer does or a
    temporary folder is refused. *)
Lemma sendRow_spec st idxRow w :
  wp (sendRow caps jobId input st idxRow)
     (fun o w' =>
        ownAndSilent jobId w w'
        /\ match o with
           | Ok st' => afterRows caps input st [snd idxRow] st'
           | Throw _ => thrownInLoop caps input [snd idxRow]
           end) w.
Proof.
  destruct idxRow as [idx row]. unfold sendRow. cbn [snd].
  destruct (rowRecipients caps input row) as [| r rest] eqn:Hrec.
  - wp_step. apply (skipRow_silent caps jobId w); [apply silent_refl |].
    intros w' Hs. wp_step. split; [exact Hs |].
    unfold afterRows, recipientTotal. simpl. rewrite Hrec. simpl.
    repeat split; auto; lia.
  - wp_steps.
    destruct (renderDoc caps (calls w) _) as [msg | docBuffer] eqn:Hdoc; simpl orThrow.
    + wp_step. split; [apply silent_tick, silent_refl |]. split.
      * intros [Hr _]. destruct (Hr (calls w) (templateBuffer input, rowData input row,
                                                placeholders input)) as [doc Hd].
        congruence.
      * intros Hall. inversion Hall as [| ? ? Hrow _]. rewrite Hrec in Hrow. discriminate.
    + wp_step. apply wp_bind_eq. intros o w1 Hrun.
      pose proof (docxBufferToPdf_calm caps docBuffer (tick w)) as Hcalm.
      unfold wp in Hcalm. rewrite Hrun in Hcalm. simpl in Hcalm. destruct Hcalm as [Hcalm _].
      assert (Hs1 : ownAndSilent jobId w w1).
      { eapply silent_calm; [apply silent_tick, silent_refl | exact Hcalm]. }
      destruct o as [pdfBuffer | msg].
      2:{ split; [exact Hs1 |]. split.
          - intros [_ Ht].
            destruct (docxBufferToPdf_returns caps docBuffer (tick w) (Ht docBuffer))
              as (r0 & w0 & H0). congruence.
          - intros Hall. inversion Hall as [| ? ? Hrow _]. rewrite Hrec in Hrow.
            discriminate. }
      assert (Hfailed :
        isPdfBuffer pdfBuffer = false ->
        wp (skipRow caps jobId idx;;
            mret {| sendQueue := sendQueue st; sendUsedNames := sendUsedNames st;
                    pdfFailures := pdfFailures st + length (r :: rest);
                    recipientCount := recipientCount st + length (r :: rest) |})
           (fun o w' =>
              ownAndSilent jobId w w'
              /\ match o with
                 | Ok st' => afterRows caps input st [row] st'
                 | Throw _ => thrownInLoop caps input [row]
                 end) w1).
      { intros Hinvalid. wp_step. apply (skipRow_silent caps jobId w); [exact Hs1 |].
        intros w' Hs. wp_step. split; [exact Hs |].
        unfold afterRows, recipientTotal. simpl. rewrite Hrec. simpl.
        repeat split; try lia.
        - intros Hall. inversion Hall as [| ? ? Hrow _]. rewrite Hrec in Hrow. discriminate.
        - intros _ Hagree Hq. simpl in *. rewrite (Hagree Hq). reflexivity. }
      destruct pdfBuffer as [pdf |]; [| now apply Hfailed].
      destruct (isPdfBuffer (Some pdf)) eqn:Hvalid; [| now apply Hfailed].
      clear Hfailed. unfold preparePdfAttachment. simpl buffer. rewrite Hvalid.
      simpl negb. cbv iota. wp_steps. apply (touch_silent caps jobId w).
      { apply silent_update; [exact Hs1 |]. intros job. repeat split. }
      intros w' Hs _. wp_step. split; [exact Hs |].
      set (att := {| filename := normalizePdfFilename _; buffer := pdf |}).
      set (st1 := {| sendQueue := sendQueue st; sendUsedNames := sendUsedNames st;
                     pdfFailures := pdfFailures st;
                     recipientCount := recipientCount st + length (r :: rest) |}).
      destruct (queueForSend_counts (r :: rest) att st1) as [Hf Hc].
      unfold afterRows, recipientTotal. simpl sum_list_with. rewrite Hrec.
      repeat split.
      * rewrite Hc. simpl. lia.
      * intros Hall. inversion Hall as [| ? ? Hrow _]. rewrite Hrec in Hrow. discriminate.
      * intros Hnames _ Hq. exfalso. revert Hq. apply queueForSend_nonempty.
        pose proof (uniqueRecipients_named _ (Hnames (getRowValue row (emailColumn input))))
          as Hall.
        unfold rowRecipients in Hrec. rewrite Hrec in Hall. now inversion Hall.
      * exfalso. pose proof (H docBuffer (tick w) (Some pdf) w1 Hrun). congruence.
      * exfalso. pose proof (H docBuffer (tick w) (Some pdf) w1 Hrun). congruence.
Qed.

(** The row loop of a job that is not paused comes through all its
    rounds unless one of them throws. *)
Lemma sendLoop_spec l : forall st w,
  notPaused jobId w \/ l = [] ->
  wp (rowLoop jobId (sendRow caps jobId input) l st)
     (fun o w' =>
        ownAndSilent jobId w w'
        /\ match o with
           | Ok p => exists st', p = Finished st'
                                /\ afterRows caps input st (map snd l) st'
           | Throw _ => thrownInLoop caps input (map snd l)
           end) w.
Proof.
  induction l as [| x rest IH]; intros st w Hfree; cbn [rowLoop].
  - apply wp_ret. split; [apply silent_refl |]. exists st.
    split; [reflexivity | apply afterRows_nil].
  - destruct Hfree as [Hfree | Hnil]; [| discriminate].
    wp_step. apply wp_waitIfPaused_free; [exact Hfree |]. cbv beta iota.
    eapply wp_bind_post; [apply sendRow_spec |].
    intros [st1 | msg] w1 [Hs1 H1].
    2:{ split; [exact Hs1 |]. destruct H1 as [Hcaps Hrow]. split; [exact Hcaps |].
        intros Hall. apply Hrow. inversion Hall; subst. now repeat constructor. }
    eapply wp_mono; [apply IH; left; eapply notPaused_own; [apply Hs1 | exact Hfree] |].
    intros [p | msg] w2 [Hs2 H2]; (split; [eapply silent_trans; eassumption |]).
    + destruct H2 as (st2 & -> & H2). exists st2. split; [reflexivity |].
      simpl map. eapply afterRows_cons; eassumption.
    + destruct H2 as [Hcaps Hrest]. split; [exact Hcaps |].
      intros Hall. apply Hrest. now inversion Hall.
Qed.

Lemma rows_of_imap (rs : list Row) : map snd (imap pair rs) = rs.
Proof.
  assert (Hgen : forall (f : nat -> nat), map snd (imap (fun i row => (f i, row)) rs) = rs).
  { induction rs as [| row rest IH]; intros f; [reflexivity |].
    simpl. f_equal. apply (IH (f ∘ S)). }
  apply (Hgen (fun i => i)).
Qed.

Lemma sendRows_spec w :
  notPaused jobId w \/ rows input = [] ->
  wp (sendRows caps jobId input)
     (fun o w' =>
        ownAndSilent jobId w w'
        /\ match o with
           | Ok p => exists st', p = Finished st'
                                /\ afterRows caps input initialSendState (rows input) st'
           | Throw _ => thrownInLoop caps input (rows input)
           end) w.
Proof.
  intros Hfree. unfold sendRows. eapply wp_mono; [apply sendLoop_spec |].
  - destruct Hfree as [Hfree | Hnil]; [now left | right; now rewrite Hnil].
  - intros o w' [Hs H]. split; [exact Hs |]. now rewrite rows_of_imap in H.
Qed.

Lemma recipientTotal_zero rs :
  recipientTotal caps input rs = 0
  <-> Forall (fun row => rowRecipients caps input row = []) rs.
Proof.
  unfold recipientTotal. induction rs as [| row rest IH]; simpl.
  - split; [constructor | reflexivity].
  - split.
    + intros H. constructor; [| apply IH; lia].
      destruct (rowRecipients caps input row); [reflexivity | simpl in H; lia].
    + intros H. inversion H as [| ? ? Hrow Hrest]; subst. rewrite Hrow. simpl. now apply IH.
Qed.

End SendLoop.

Section SendRun.

Variable caps : Capabilities.
Variable jobId : string.
Variable input : GenerateInput.

Lemma sendProgress_own p w0 w :
  onlyOwnJob jobId w0 w ->
  wp (sendProgress caps jobId p) (fun o w' => onlyOwnJob jobId w0 w' /\ o = Ok tt) w.
Proof.
  intros Hown. unfold sendProgress. wp_steps. apply (touch_own caps jobId w0).
  - apply own_update; [exact Hown |]. intros job. repeat split.
  - intros w' Hown' _. now split.
Qed.

(** The SMTP dispatch with the progress callback of the send job returns
    and changes no job but that of the callback. *)
Lemma sendEmailsSmtp_own queue subject message smtpConfig w :
  wp (sendEmailsSmtp caps queue subject message smtpConfig (Some (sendProgress caps jobId)))
     (fun o w' => onlyOwnJob jobId w w' /\ exists r, o = Ok r) w.
Proof.
  unfold sendEmailsSmtp. destruct (buildSmtpOptions caps smtpConfig) as [options |].
  - wp_step.
    eapply wp_mono;
      [apply (wp_foldM _ (fun w' => onlyOwnJob jobId w w')); [| apply own_refl] |].
    + intros st item w1 Hw1. unfold smtpSendOne.
      destruct (normalizeEmailAttachments item) as [| att atts].
      * unfold reportProgress. wp_step.
        eapply wp_mono; [apply (sendProgress_own _ w), Hw1 |].
        intros o w2 [Hw2 ->]. wp_step. eauto.
      * wp_step. apply wp_handToTransport. wp_steps.
        assert (Hmail : forall w2, jobs w2 = jobs w1 -> onlyOwnJob jobId w w2).
        { intros w2 Hj. eapply own_jobs; eassumption. }
        destruct (sendMail caps _ _) as [msg |]; unfold reportProgress; wp_steps.
        -- eapply wp_mono; [apply (sendProgress_own _ w), Hmail; reflexivity |].
           intros o w2 [Hw2 ->]. wp_step. eauto.
        -- eapply wp_mono; [apply (sendProgress_own _ w), Hmail; reflexivity |].
           intros o w2 [Hw2 ->]. wp_step. eauto.
    + intros o w1 [Hw1 [st ->]]. wp_step. eauto.
  - wp_steps. split; [| eauto]. eapply own_jobs; [apply own_refl | reflexivity].
Qed.

(** The Outlook dispatch leaves the jobs alone, and throws on Windows
    only. *)
Lemma sendEmailsOutlook_throws queue subject message outlookFrom w :
  wp (sendEmailsOutlook caps queue subject message outlookFrom)
     (fun o w' =>
        jobs w' = jobs w /\ forall msg, o = Throw msg -> platform caps = "win32") w.
Proof.
  unfold sendEmailsOutlook.
  destruct (String.eqb_spec (platform caps) "win32") as [Hwin | Hother]; cbn [negb].
  - wp_step.
    eapply wp_mono;
      [apply (wp_foldM _ (fun w' => jobs w' = jobs w)); [| reflexivity] |].
    + intros [] p w1 Hw1. apply wp_handToTransport. eauto.
    + intros o w1 [Hw1 [[] ->]]. wp_steps.
      destruct (outlook caps _ _) as [msg | [msg | report] [cmsg |]]; wp_steps; auto.
  - wp_step. split; [reflexivity | discriminate].
Qed.

(** How a job object stands behind its last change and the touch that
    follows it. *)
Lemma last_change (P : Job.t -> Prop) f now w w' :
  (forall job, P (f job)) ->
  jobs w' = alter (touchJob now) jobId (jobs (alterJob jobId f w)) ->
  forall job', jobs w' !! jobId = Some job' ->
  exists job0, job' = touchJob now (f job0).
Proof.
  intros _ Heq job' Hjob. rewrite Heq in Hjob. simpl in Hjob.
  rewrite !lookup_alter_eq in Hjob.
  destruct (jobs w !! jobId) as [j |]; [| discriminate].
  injection Hjob as <-. now exists j.
Qed.

(** The run of a send job that is not paused, by the way it ends. *)
Lemma runSendJob_spec w :
  notPaused jobId w \/ rows input = [] ->
  wp (runSendJob caps jobId input)
     (fun o w' =>
        exists r,
          o = Ok (Settled r)
          /\ onlyOwnJob jobId w w'
          /\ (forall job', jobs w' !! jobId = Some job' -> Job.status job' = statusOf r)
          /\ ((exists st,
                 afterRows caps input initialSendState (rows input) st
                 /\ sendQueue st = [] /\ r = None /\ outbox w' = outbox w
                 /\ forall job', jobs w' !! jobId = Some job' ->
                                 Job.error job' = emptyQueueMessage st)
              \/ (exists st,
                    afterRows caps input initialSendState (rows input) st
                    /\ sendQueue st <> [] /\ r <> None)
              \/ (r = None /\ outbox w' = outbox w /\ thrownInLoop caps input (rows input))
              \/ (exists st,
                    afterRows caps input initialSendState (rows input) st
                    /\ sendQueue st <> [] /\ r = None
                    /\ viaOutlook input = true /\ platform caps = "win32"))) w.
Proof.
  intros Hfree.
  unfold runSendJob. wp_steps. apply (touch_silent caps jobId w).
  { apply silent_update; [apply silent_refl |]. intros job. repeat split. }
  intros w1 Hs1 _. wp_step. eapply wp_bind_post; [apply sendRows_spec |].
  { destruct Hfree as [Hfree | Hnil]; [left | now right].
    eapply notPaused_own; [apply Hs1 | exact Hfree]. }
  intros [p | msg] w2 [Hs2 H2].
  - destruct H2 as (st & -> & H2).
    pose proof (silent_trans _ _ _ _ Hs1 Hs2) as Hs.
    destruct (sendQueue st) as [| [key item] queue] eqn:Hq; simpl map; cbv iota.
    + wp_steps. apply (touch_silent caps jobId w).
      { apply silent_update; [exact Hs |]. intros job. repeat split. }
      intros w3 [Hown3 Hout3] Hjobs3. wp_step. exists None.
      split; [reflexivity |]. split; [exact Hown3 |]. split.
      * intros job' Hjob'.
        destruct (last_change (fun _ => True) _ _ _ _ (fun _ => I) Hjobs3 job' Hjob')
          as [job0 ->]. reflexivity.
      * left. exists st. split; [exact H2 |]. split; [exact Hq |].
        split; [reflexivity |]. split; [exact Hout3 |].
        intros job' Hjob'.
        destruct (last_change (fun _ => True) _ _ _ _ (fun _ => I) Hjobs3 job' Hjob')
          as [job0 ->]. reflexivity.
    + assert (Hne : sendQueue st <> []) by now rewrite Hq.
      assert (Hrun : notPaused jobId w).
      { destruct Hfree as [Hfree | Hnil]; [exact Hfree |]. exfalso.
        destruct H2 as (_ & Hsame & _). rewrite Hnil in Hsame.
        rewrite (Hsame ltac:(constructor)) in Hne. now apply Hne. }
      wp_steps. apply (touch_own caps jobId w).
      { apply own_update; [apply Hs |]. intros job. repeat split. }
      intros w3 Hown3 _. wp_step. apply wp_waitIfPaused_free.
      { eapply notPaused_own; [exact Hown3 | exact Hrun]. }
      cbv beta iota. wp_step. fold (viaOutlook input).
      destruct (viaOutlook input) eqn:Hmode.
      * eapply wp_bind_post; [apply sendEmailsOutlook_throws |].
        intros [r | msg] w4 [Hj4 Hthrow].
        -- wp_steps. apply (touch_own caps jobId w).
           { apply own_update; [eapply own_jobs; eassumption |]. intros job. repeat split. }
           intros w5 Hown5 _. wp_steps. apply (touch_own caps jobId w).
           { apply own_update; [exact Hown5 |]. intros job. repeat split. }
           intros w6 Hown6 Hjobs6. wp_step. exists (Some (sendSummary r)).
           split; [reflexivity |]. split; [exact Hown6 |]. split.
           ++ intros job' Hjob'.
              destruct (last_change (fun _ => True) _ _ _ _ (fun _ => I) Hjobs6 job' Hjob')
                as [job0 ->]. reflexivity.
           ++ right. left. exists st. split; [exact H2 |]. split; [exact Hne |].
              discriminate.
        -- wp_steps. apply (touch_own caps jobId w).
           { apply own_update; [eapply own_jobs; eassumption |]. intros job. repeat split. }
           intros w5 Hown5 Hjobs5. wp_step. exists None.
           split; [reflexivity |]. split; [exact Hown5 |]. split.
           ++ intros job' Hjob'.
              destruct (last_change (fun _ => True) _ _ _ _ (fun _ => I) Hjobs5 job' Hjob')
                as [job0 ->]. reflexivity.
           ++ right. right. right. exists st. split; [exact H2 |]. split; [exact Hne |].
              split; [reflexivity |]. split; [reflexivity |]. now apply (Hthrow msg).
      * eapply wp_mono; [apply sendEmailsSmtp_own |].
        intros o w4 [Hown4 [r ->]].
        wp_steps. apply (touch_own caps jobId w).
        { apply own_update; [eapply own_trans; eassumption |]. intros job. repeat split. }
        intros w6 Hown6 Hjobs6. wp_step. exists (Some (sendSummary r)).
        split; [reflexivity |]. split; [exact Hown6 |]. split.
        -- intros job' Hjob'.
           destruct (last_change (fun _ => True) _ _ _ _ (fun _ => I) Hjobs6 job' Hjob')
             as [job0 ->]. reflexivity.
        -- right. left. exists st. split; [exact H2 |]. split; [exact Hne |].
           discriminate.
  - wp_steps. apply (touch_silent caps jobId w).
    { apply silent_update; [eapply silent_trans; eassumption |]. intros job. repeat split. }
    intros w3 [Hown3 Hout3] Hjobs3. wp_step. exists None.
    split; [reflexivity |]. split; [exact Hown3 |]. split.
    + intros job' Hjob'.
      destruct (last_change (fun _ => True) _ _ _ _ (fun _ => I) Hjobs3 job' Hjob')
        as [job0 ->]. reflexivity.
    + right. right. left. split; [reflexivity |]. split; [exact Hout3 |]. exact H2.
Qed.

End SendRun.

(** A paused send job with rows is held at the first round. *)
Lemma runSendJob_held (caps : Capabilities) (jobId : string) (input : GenerateInput)
    (w : World) (job : Job.t) :
  jobs w !! jobId = Some job -> Job.paused job = true -> rows input <> [] ->
  exists now,
    runSendJob caps jobId input w
    = (Ok Suspended,
       alterJob jobId armSignal
         (alterJob jobId (touchJob now)
            (tick (alterJob jobId
                     (fun job =>
                        Job.set_message "Gerando PDFs."
                          (Job.set_current 0 (Job.set_total (length (rows input)) job)))
                     w)))).
Proof.
  intros Hjob Hpaused Hrows.
  set (init := fun j : Job.t =>
                 Job.set_message "Gerando PDFs."
                   (Job.set_current 0 (Job.set_total (length (rows input)) j))).
  exists (dateNow caps (calls (alterJob jobId init w)) tt).
  set (wa := alterJob jobId (touchJob (dateNow caps (calls (alterJob jobId init w)) tt))
               (tick (alterJob jobId init w))).
  assert (Hloop : imap pair (rows input) <> []).
  { destruct (rows input); [contradiction | discriminate]. }
  unfold runSendJob, sendRows. fold init.
  erewrite bind_ok by reflexivity.
  erewrite bind_ok by reflexivity. fold wa.
  unfold tryCatch.
  rewrite (bind_ok _ _ wa (HeldAt initialSendState) (alterJob jobId armSignal wa));
    [reflexivity |].
  apply (rowLoop_held _ _ _ _ _ (touchJob (dateNow caps (calls (alterJob jobId init w)) tt)
                                   (init job))); [| exact Hpaused | exact Hloop].
  subst wa. simpl. now rewrite !lookup_alter_eq, Hjob.
Qed.

(** How the run of a send job ends. *)
Lemma runSendJob_ends
    (caps : Capabilities) (jobId : string) (input : GenerateInput) (w : World) :
  exists e w',
    runSendJob caps jobId input w = (Ok e, w')
    /\ (forall other, other <> jobId -> jobs w' !! other = jobs w !! other)
    /\ (jobs w !! jobId = None -> jobs w' !! jobId = None /\ exists r, e = Settled r)
    /\ (forall job, jobs w !! jobId = Some job ->
        exists job',
          jobs w' !! jobId = Some job'
          /\ Job.id job' = Job.id job
          /\ Job.type job' = Job.type job
          /\ Job.createdAt job' = Job.createdAt job
          /\ Job.paused job' = Job.paused job
          /\ match e with
             | Settled r => Job.status job' = statusOf r
             | Suspended =>
                 Job.paused job = true /\ rows input <> []
                 /\ Job.status job' = Job.status job
                 /\ Job.error job' = Job.error job
                 /\ Job.current job' = 0
                 /\ Job.pausePromise job' = true
                 /\ console w' = console w
                 /\ outbox w' = outbox w
             end
          /\ (Job.paused job = false -> exists r, e = Settled r)
          /\ (Job.paused job = true -> rows input <> [] -> e = Suspended)).
Proof.
  assert (Hsettled : notPaused jobId w \/ rows input = [] ->
            exists r w', runSendJob caps jobId input w = (Ok (Settled r), w')
              /\ (forall other, other <> jobId -> jobs w' !! other = jobs w !! other)
              /\ (jobs w !! jobId = None -> jobs w' !! jobId = None)
              /\ (forall job, jobs w !! jobId = Some job ->
                  exists job', jobs w' !! jobId = Some job'
                    /\ Job.id job' = Job.id job
                    /\ Job.type job' = Job.type job
                    /\ Job.createdAt job' = Job.createdAt job
                    /\ Job.paused job' = Job.paused job
                    /\ Job.status job' = statusOf r)).
  { intros Hfree.
    pose proof (runSendJob_spec caps jobId input w Hfree) as H.
    apply wp_run in H as (o & w' & Hrun & r & -> & (g & Hg & Hjobs) & Hstatus & _).
    exists r, w'. split; [exact Hrun |]. split; [| split].
    - intros other Hne. rewrite Hjobs. now apply lookup_alter_ne.
    - intros Hnone. now rewrite Hjobs, lookup_alter_eq, Hnone.
    - intros job Hjob.
      assert (Hlook : jobs w' !! jobId = Some (g job)).
      { now rewrite Hjobs, lookup_alter_eq, Hjob. }
      exists (g job). split; [exact Hlook |].
      destruct (Hg job) as (Hid & Hty & Hcreated & Hpaused & _).
      repeat (split; [assumption |]). now apply Hstatus. }
  destruct (jobs w !! jobId) as [job |] eqn:Hjob.
  - destruct (Job.paused job) eqn:Hpaused.
    + destruct (rows input) as [| row rest] eqn:Hr.
      * destruct (Hsettled (or_intror eq_refl)) as (r & w' & Hrun & Hother & _ & Hown).
        exists (Settled r), w'. split; [exact Hrun |]. split; [exact Hother |].
        split; [discriminate |]. intros job0 [= <-].
        destruct (Hown job eq_refl) as (job' & Hjob' & Hid & Hty & Hcr & Hp & Hst).
        exists job'. repeat (split; [assumption |]). split; [now exists r |].
        intros _ Hrows. now contradiction Hrows.
      * destruct (runSendJob_held caps jobId input w job Hjob Hpaused) as [now Hrun].
        { rewrite Hr. discriminate. }
        rewrite Hr in Hrun. eexists Suspended, _. split; [exact Hrun |].
        cbn [jobs alterJob tick console outbox].
        split; [intros other Hne; now rewrite !lookup_alter_ne by congruence |].
        split; [discriminate |]. intros job0 [= <-].
        rewrite !lookup_alter_eq, Hjob. cbn [fmap option_fmap option_map].
        eexists. split; [reflexivity |].
        unfold armSignal.
        destruct (Job.pausePromise (touchJob now _)) eqn:Hsignal;
          cbn; repeat (split; try reflexivity; try assumption; try discriminate);
          intros Habs; rewrite Hpaused in Habs; discriminate.
    + assert (Hfree : notPaused jobId w).
      { intros j Hj. rewrite Hjob in Hj. now injection Hj as <-. }
      destruct (Hsettled (or_introl Hfree)) as (r & w' & Hrun & Hother & _ & Hown).
      exists (Settled r), w'. split; [exact Hrun |]. split; [exact Hother |].
      split; [discriminate |]. intros job0 [= <-].
      destruct (Hown job eq_refl) as (job' & Hjob' & Hid & Hty & Hcr & Hp & Hst).
      exists job'. repeat (split; [assumption |]). split; [now exists r |].
      intros Habs. rewrite Hpaused in Habs. discriminate.
  - assert (Hfree : notPaused jobId w).
    { intros j Hj. rewrite Hjob in Hj. discriminate. }
    destruct (Hsettled (or_introl Hfree)) as (r & w' & Hrun & Hother & Hnone & _).
    exists (Settled r), w'. split; [exact Hrun |]. split; [exact Hother |].
    split; [intros _; split; [now apply Hnone | now exists r] |]. discriminate.
Qed.

(** X24. A send job lets no failure escape, whatever the renderer, the
    converters and the mail transports do: its run either settles or is
    held at a pause.  It changes no other job of the registry, and
    neither adds nor removes a job.  Of its own job it never changes the
    id, the type, the time of creation or the pause flag.  A run that
    settles leaves the job done when it has a summary of the dispatch to
    keep as its result, and in error otherwise; the run of a job that is
    not paused settles.  A job that is paused and has rows is held before
    its first row: the status and the error are as they were, the
    suspension signal is armed, nothing is logged and nothing is handed
    to a mail transport; the run is held only so.  The pause check stands
    at the head of every round: whatever the rows left and the variables
    of the loop, a round that finds the job paused holds the loop there
    and does nothing but arm the signal; so it is for a running job that
    [pauseJob] has paused, and behind [resumeJob] the round goes on with
    its row. *)
Theorem X24_send_job_changes_only_its_job
    (caps : Capabilities) (jobId : string) (input : GenerateInput) (w : World) :
  (exists e w',
    runSendJob caps jobId input w = (Ok e, w')
    /\ (forall other, other <> jobId -> jobs w' !! other = jobs w !! other)
    /\ (jobs w !! jobId = None -> jobs w' !! jobId = None /\ exists r, e = Settled r)
    /\ (forall job, jobs w !! jobId = Some job ->
        exists job',
          jobs w' !! jobId = Some job'
          /\ Job.id job' = Job.id job
          /\ Job.type job' = Job.type job
          /\ Job.createdAt job' = Job.createdAt job
          /\ Job.paused job' = Job.paused job
          /\ match e with
             | Settled r => Job.status job' = statusOf r
             | Suspended =>
                 Job.paused job = true /\ rows input <> []
                 /\ Job.status job' = Job.status job
                 /\ Job.error job' = Job.error job
                 /\ Job.current job' = 0
                 /\ Job.pausePromise job' = true
                 /\ console w' = console w
                 /\ outbox w' = outbox w
             end
          /\ (Job.paused job = false -> exists r, e = Settled r)
          /\ (Job.paused job = true -> rows input <> [] -> e = Suspended)))
  /\ (forall (rest : list (nat * Row)) (st : SendState) (w0 : World) (job0 : Job.t),
        jobs w0 !! jobId = Some job0 -> Job.paused job0 = true -> rest <> [] ->
        rowLoop jobId (sendRow caps jobId input) rest st w0
        = (Ok (HeldAt st), alterJob jobId armSignal w0))
  /\ (forall (rest : list (nat * Row)) (st : SendState) (w0 : World) (job0 : Job.t) (now : Z),
        jobs w0 !! jobId = Some job0 -> Job.status job0 = Running -> rest <> [] ->
        let paused := alterJob jobId (pauseJob now) w0 in
        rowLoop jobId (sendRow caps jobId input) rest st paused
        = (Ok (HeldAt st), alterJob jobId armSignal paused))
  /\ (forall (x : nat * Row) (rest : list (nat * Row)) (st : SendState) (w0 : World)
             (job0 : Job.t) (now : Z),
        jobs w0 !! jobId = Some job0 ->
        let resumed := alterJob jobId (resumeJob now) w0 in
        rowLoop jobId (sendRow caps jobId input) (x :: rest) st resumed
        = (st' ← sendRow caps jobId input st x;
           rowLoop jobId (sendRow caps jobId input) rest st') resumed).
Proof.
  split; [apply runSendJob_ends |].
  split; [intros rest st w0 job0; apply rowLoop_held |]. split.
  - intros rest st w0 job0 now Hjob Hrunning Hrest paused.
    apply (rowLoop_held _ _ _ _ _ (pauseJob now job0)); [| | exact Hrest].
    + subst paused. simpl. now rewrite lookup_alter_eq, Hjob.
    + unfold pauseJob. rewrite decide_True by exact Hrunning.
      now destruct (Job.pausePromise _).
  - intros x rest st w0 job0 now Hjob resumed. cbn [rowLoop].
    rewrite (bind_ok _ _ resumed false resumed); [reflexivity |].
    apply waitIfPaused_free. intros j Hj. subst resumed. simpl in Hj.
    rewrite lookup_alter_eq, Hjob in Hj. injection Hj as <-.
    unfold resumeJob. now destruct (Job.paused job0) eqn:Hp.
Qed.

Lemma X24_witness :
  fst (runSendJob noConverterServer "j1" (lettersInput [anaRow]) pausedStartOfSendJob)
  = Ok Suspended
  /\ exists r,
       fst (runSendJob noConverterServer "j1" (lettersInput [anaRow]) startOfSendJob)
       = Ok (Settled r).
Proof.
  split.
  - destruct (X24_send_job_changes_only_its_job noConverterServer "j1"
                (lettersInput [anaRow]) pausedStartOfSendJob)
      as [(e & w' & Hrun & _ & _ & Hown) _].
    destruct (Hown _ eq_refl) as (_ & _ & _ & _ & _ & _ & _ & _ & Hheld).
    rewrite Hrun. simpl. f_equal. apply Hheld; [reflexivity | discriminate].
  - destruct (X24_send_job_changes_only_its_job noConverterServer "j1"
                (lettersInput [anaRow]) startOfSendJob)
      as [(e & w' & Hrun & _ & _ & Hown) _].
    destruct (Hown _ eq_refl) as (_ & _ & _ & _ & _ & _ & _ & Hfree & _).
    destruct (Hfree eq_refl) as [r ->]. exists r. now rewrite Hrun.
Defined.

(** X25. A send job that is not paused and none of whose rows names a
    recipient ends in error with the message that no recipient was found;
    it hands nothing to a mail transport and keeps no result. *)
Theorem X25_send_job_without_recipients_says_so
    (caps : Capabilities) (jobId : string) (input : GenerateInput) (w : World)
    (job : Job.t) :
  jobs w !! jobId = Some job ->
  Job.paused job = false ->
  noRecipients caps input ->
  exists w',
    runSendJob caps jobId input w = (Ok (Settled None), w')
    /\ endedInError jobId NO_RECIPIENT w'
    /\ outbox w' = outbox w.
Proof.
  intros Hjob Hpaused Hnone.
  assert (Hfree : notPaused jobId w).
  { intros j Hj. rewrite Hjob in Hj. now injection Hj as <-. }
  pose proof (runSendJob_spec caps jobId input w (or_introl Hfree)) as H.
  apply wp_run in H as (o & w' & Hrun & r & -> & (g & Hg & Hjobs) & Hstatus & Hcases).
  assert (Hlook : jobs w' !! jobId = Some (g job)).
  { now rewrite Hjobs, lookup_alter_eq, Hjob. }
  assert (Hinit : forall st, afterRows caps input initialSendState (rows input) st ->
                             st = initialSendState).
  { intros st (_ & Hn & _). now apply Hn. }
  destruct Hcases as [(st & Hafter & Hq & -> & Hout & Herr)
                     | [(st & Hafter & Hne & _)
                       | [(_ & _ & _ & Hthrown) | (st & Hafter & Hne & _)]]].
  - exists w'. split; [exact Hrun |]. split; [| exact Hout].
    exists (g job). split; [exact Hlook |]. split; [now apply Hstatus |].
    rewrite (Herr _ Hlook), (Hinit st Hafter). reflexivity.
  - rewrite (Hinit st Hafter) in Hne. now contradiction Hne.
  - contradiction.
  - rewrite (Hinit st Hafter) in Hne. now contradiction Hne.
Qed.

Lemma X25_witness :
  exists w',
    runSendJob plainLinuxServer "j1" (lettersInput [anaRow; ruiRow]) startOfSendJob
    = (Ok (Settled None), w')
    /\ endedInError "j1" NO_RECIPIENT w'
    /\ outbox w' = [].
Proof.
  apply (X25_send_job_without_recipients_says_so plainLinuxServer "j1"
           (lettersInput [anaRow; ruiRow]) startOfSendJob (createJob "j1" Send 0)).
  - reflexivity.
  - reflexivity.
  - repeat constructor.
Defined.

(** X26. When the job is not paused, the renderer does not throw, no
    temporary folder is refused and the parser gives no empty address, the
    way a send job ends tells what happened.  It is done only when some row names a recipient.  In error,
    its message is that no recipient was found exactly when no row names
    one, and that no PDF was generated when rows name recipients and
    nothing could be queued; nothing was handed to a mail transport then.
    The only other end in error is an Outlook dispatch on Windows that
    throws.  The message that no attachment was generated is never the
    one chosen for an empty queue.  When no conversion gives a verified
    PDF and a row names a recipient, the job ends with the message that no
    PDF was generated. *)
Theorem X26_send_job_error_tells_what_failed
    (caps : Capabilities) (jobId : string) (input : GenerateInput) (w : World)
    (job : Job.t) :
  jobs w !! jobId = Some job ->
  Job.paused job = false ->
  namesRecipients caps ->
  rendersAlways caps ->
  tempDirAlways caps ->
  exists r w' job',
    runSendJob caps jobId input w = (Ok (Settled r), w')
    /\ jobs w' !! jobId = Some job'
    /\ Job.status job' = statusOf r
    /\ (r <> None -> ~ noRecipients caps input)
    /\ (r = None ->
        (Job.error job' = NO_RECIPIENT /\ noRecipients caps input /\ outbox w' = outbox w)
        \/ (Job.error job' = NO_PDF /\ ~ noRecipients caps input /\ outbox w' = outbox w)
        \/ (viaOutlook input = true /\ platform caps = "win32"
            /\ ~ noRecipients caps input))
    /\ (neverVerified caps -> ~ noRecipients caps input ->
        r = None /\ Job.error job' = NO_PDF /\ outbox w' = outbox w).
Proof.
  intros Hjob Hpaused Hnames Hrender Htemp.
  assert (Hfree : notPaused jobId w).
  { intros j Hj. rewrite Hjob in Hj. now injection Hj as <-. }
  pose proof (runSendJob_spec caps jobId input w (or_introl Hfree)) as H.
  apply wp_run in H as (o & w' & Hrun & r & -> & (g & Hg & Hjobs) & Hstatus & Hcases).
  assert (Hlook : jobs w' !! jobId = Some (g job)).
  { now rewrite Hjobs, lookup_alter_eq, Hjob. }
  exists r, w', (g job). split; [exact Hrun |]. split; [exact Hlook |].
  split; [now apply Hstatus |].
  assert (Hqueued : forall st, afterRows caps input initialSendState (rows input) st ->
                               sendQueue st <> [] ->
                               ~ noRecipients caps input
                               /\ (neverVerified caps -> False)).
  { intros st (_ & Hn & _ & Hv) Hne. split.
    - intros Hnone. rewrite (Hn Hnone) in Hne. now contradiction Hne.
    - intros Hnv. destruct (Hv Hnv) as [Hq _]. now rewrite Hq in Hne. }
  destruct Hcases as [(st & Hafter & Hq & -> & Hout & Herr)
                     | [(st & Hafter & Hne & Hr)
                       | [(_ & _ & Hcaps & _) | (st & Hafter & Hne & -> & Hmode & Hwin)]]].
  - destruct Hafter as (Hc & Hn & Ha & Hv).
    assert (Hagree : pdfFailures st = recipientCount st).
    { apply (Ha Hnames); [| exact Hq]. now intros _. }
    simpl in Hc.
    assert (Hmsg : Job.error (g job)
                   = if (recipientTotal caps input (rows input) =? 0)%nat
                     then NO_RECIPIENT else NO_PDF).
    { rewrite (Herr _ Hlook). unfold emptyQueueMessage. rewrite Hagree, Hc.
      now destruct (recipientTotal caps input (rows input) =? 0)%nat. }
    destruct (Nat.eqb_spec (recipientTotal caps input (rows input)) 0) as [Hz | Hnz].
    + apply recipientTotal_zero in Hz.
      split; [now intros Hr |]. split; [intros _; left; now repeat split |].
      intros _ Hsome. contradiction.
    + assert (Hsome : ~ noRecipients caps input).
      { intros Hnone. now apply recipientTotal_zero in Hnone. }
      split; [now intros Hr |]. split; [intros _; right; left; now repeat split |].
      intros _ _. now repeat split.
  - destruct (Hqueued st Hafter Hne) as [Hsome Hnv].
    split; [intros _; exact Hsome |]. split; [intros ->; contradiction |].
    intros Hv _. contradiction.
  - exfalso. apply Hcaps. now split.
  - destruct (Hqueued st Hafter Hne) as [Hsome Hnv].
    split; [intros _; exact Hsome |]. split; [intros _; right; right; now repeat split |].
    intros Hv _. contradiction.
Qed.

Lemma wholeCell_names (cell : CellValue) : Forall (fun a => a <> "") (wholeCell cell).
Proof.
  destruct cell as [| s | shown]; simpl; try constructor.
  unfold JS.truthy. destruct (String.eqb_spec s ""); simpl; now repeat constructor.
Qed.

Lemma X26_witness :
  exists w' job',
    runSendJob noConverterServer "j1" (lettersInput [anaRow; ruiRow]) startOfSendJob
    = (Ok (Settled None), w')
    /\ jobs w' !! "j1" = Some job'
    /\ Job.status job' = Error
    /\ Job.error job' = NO_PDF
    /\ outbox w' = [].
Proof.
  destruct (X26_send_job_error_tells_what_failed noConverterServer "j1"
              (lettersInput [anaRow; ruiRow]) startOfSendJob (createJob "j1" Send 0)
              eq_refl eq_refl wholeCell_names (linuxServer_renders _ _ _ _)
              (linuxServer_tempDir _ _ _ _))
    as (r & w' & job' & Hrun & Hjob & Hstatus & _ & _ & Hnever).
  destruct (Hnever noConverterServer_neverVerified) as (-> & Herr & Hout).
  - intros Hnone. inversion Hnone as [| ? ? Hrow _]. discriminate Hrow.
  - exists w', job'. repeat split; assumption.
Defined.

(** ** Templates written as texts and placeholders *)

Section Passes.

Variable matchAt : string -> option (nat * string).

Implicit Types (s t rest : string) (c : ascii).

(** A pattern that matches nowhere in a text, whatever follows the text,
    copies it. *)
Lemma replaceFrom_prefix (p : ascii -> bool) rest :
  (forall c t, p c = true -> everyChar p t = true -> matchAt (String c (t +:+ rest)) = None) ->
  forall text, everyChar p text = true ->
  JS.replaceFrom matchAt 0 (text +:+ rest) = text +:+ JS.replaceFrom matchAt 0 rest.
Proof.
  intros Hnone text. induction text as [| c r IH]; intros Htext; [reflexivity |].
  simpl in Htext. apply andb_true_iff in Htext as [Hc Hr].
  rewrite !app_String. cbn [JS.replaceFrom]. rewrite (Hnone c r Hc Hr).
  now rewrite (IH Hr).
Qed.

Lemma execFrom_prefix (p : ascii -> bool) rest :
  (forall c t, p c = true -> everyChar p t = true -> matchAt (String c (t +:+ rest)) = None) ->
  forall text, everyChar p text = true ->
  JS.execFrom matchAt 0 (text +:+ rest) = JS.execFrom matchAt 0 rest.
Proof.
  intros Hnone text. induction text as [| c r IH]; intros Htext; [reflexivity |].
  simpl in Htext. apply andb_true_iff in Htext as [Hc Hr].
  rewrite !app_String. cbn [JS.execFrom]. rewrite (Hnone c r Hc Hr).
  now rewrite (IH Hr).
Qed.

(** The characters of a match are passed over. *)
Lemma replaceFrom_skip s rest :
  JS.replaceFrom matchAt (String.length s) (s +:+ rest) = JS.replaceFrom matchAt 0 rest.
Proof. induction s as [| c r IH]; [reflexivity |]. rewrite app_String. exact IH. Qed.

Lemma execFrom_skip_app s rest :
  JS.execFrom matchAt (String.length s) (s +:+ rest) = JS.execFrom matchAt 0 rest.
Proof. induction s as [| c r IH]; [reflexivity |]. rewrite app_String. exact IH. Qed.

Lemma replaceFrom_skip_span s rest :
  JS.replaceFrom matchAt (JS.spanLength JS.isWhiteSpace s) (s +:+ rest)
  = JS.replaceFrom matchAt 0 (JS.trimStart s +:+ rest).
Proof.
  induction s as [| c r IH]; [reflexivity |]. rewrite app_String. simpl JS.spanLength.
  simpl JS.trimStart. destruct (JS.isWhiteSpace c); [exact IH | reflexivity].
Qed.

End Passes.

Section SpanFacts.

Implicit Types (s t rest : string) (c : ascii).

Lemma spanLength_stop (p : ascii -> bool) s c rest :
  p c = false -> JS.spanLength p (s +:+ String c rest) = JS.spanLength p s.
Proof.
  intros Hc. induction s as [| a r IH]; [simpl; now rewrite Hc |].
  rewrite app_String. simpl. now rewrite IH.
Qed.

Lemma trimStart_span s : JS.trimStart s = JS.drop (JS.spanLength JS.isWhiteSpace s) s.
Proof.
  induction s as [| c r IH]; [reflexivity |]. simpl.
  destruct (JS.isWhiteSpace c); [exact IH | reflexivity].
Qed.

Lemma trimEnd_blank s :
  JS.trimEnd s = "" <-> JS.spanLength JS.isWhiteSpace s = String.length s.
Proof.
  induction s as [| c r IH]; [simpl; tauto |]. simpl.
  destruct (JS.isWhiteSpace c) eqn:Hc.
  - destruct (JS.trimEnd r) as [| a r'] eqn:Hr.
    + split; [intros _; f_equal; now apply IH | reflexivity].
    + split; [discriminate |]. intros H. injection H as H. apply IH in H. discriminate.
  - destruct (JS.trimEnd r); split; discriminate.
Qed.

Lemma everyChar_head (p : ascii -> bool) c r : everyChar p (String c r) = true -> p c = true.
Proof. simpl. rewrite andb_true_iff. now intros [H _]. Qed.

Lemma notBrace_open c : notBrace c = true -> Ascii.eqb c "{" = false.
Proof.
  unfold notBrace, notOpenBrace, notChar. rewrite andb_true_iff.
  intros [H _]. now destruct (Ascii.eqb c "{").
Qed.

Lemma notBrace_close c : notBrace c = true -> Ascii.eqb c "}" = false.
Proof.
  unfold notBrace, notCloseBrace, notChar. rewrite andb_true_iff.
  intros [_ H]. now destruct (Ascii.eqb c "}").
Qed.

End SpanFacts.

Section TokenPasses.

Implicit Types (inner rest : string) (c : ascii).

Lemma closers_copy (m : string -> option (nat * string)) rest :
  (forall x, m (String "}" x) = None) ->
  JS.replaceFrom m 0 (String "}" (String "}" rest))
  = String "}" (String "}" (JS.replaceFrom m 0 rest)).
Proof. intros H. cbn [JS.replaceFrom]. now rewrite !H. Qed.

Lemma openers_copy (m : string -> option (nat * string)) s :
  (forall x, m (String "{" x) = None) ->
  JS.replaceFrom m 0 (String "{" (String "{" s))
  = String "{" (String "{" (JS.replaceFrom m 0 s)).
Proof. intros H. cbn [JS.replaceFrom]. now rewrite !H. Qed.

(** [/\{\s+/g]: the white space behind the opening braces goes. *)
Lemma openSpace_token inner rest :
  everyChar notBrace inner = true ->
  JS.replaceFrom matchOpenSpace 0 (placeholderAt inner rest)
  = placeholderAt (JS.trimStart inner) (JS.replaceFrom matchOpenSpace 0 rest).
Proof.
  intros Hinner. unfold placeholderAt.
  assert (Hbody : JS.replaceFrom matchOpenSpace 0
                    (JS.trimStart inner +:+ String "}" (String "}" rest))
                  = JS.trimStart inner
                    +:+ String "}" (String "}" (JS.replaceFrom matchOpenSpace 0 rest))).
  { rewrite (replaceFrom_prefix matchOpenSpace notBrace).
    - now rewrite closers_copy.
    - intros c t Hc _. rewrite matchOpenSpace_head. now rewrite (notBrace_open c Hc).
    - now apply everyChar_trimStart. }
  cbn [JS.replaceFrom].
  replace (matchOpenSpace (String "{" (String "{" (inner +:+ String "}" (String "}" rest)))))
    with (@None (nat * string)) by reflexivity.
  rewrite matchOpenSpace_head. rewrite Ascii.eqb_refl.
  rewrite (spanLength_stop JS.isWhiteSpace inner "}" _ eq_refl).
  destruct (JS.spanLength JS.isWhiteSpace inner) as [| n] eqn:Hspan.
  - cbn [Nat.leb]. rewrite (trimStart_span inner), Hspan in Hbody. cbn [JS.drop] in Hbody.
    rewrite Hbody. now rewrite (trimStart_span inner), Hspan.
  - cbn [Nat.leb Nat.pred]. rewrite <- Hspan, replaceFrom_skip_span, Hbody. reflexivity.
Qed.


Lemma replaceFrom_skip_one (m : string -> option (nat * string)) s c rest :
  JS.replaceFrom m (S (String.length s)) (s +:+ String c rest) = JS.replaceFrom m 0 rest.
Proof. induction s as [| a r IH]; [reflexivity |]. rewrite app_String. exact IH. Qed.

Lemma trimStart_blank s :
  JS.trimStart s = "" -> JS.spanLength JS.isWhiteSpace s = String.length s.
Proof.
  induction s as [| c r IH]; [reflexivity |]. simpl.
  destruct (JS.isWhiteSpace c); [intros H; now rewrite IH | discriminate].
Qed.

Lemma drop_span_app s rest :
  JS.drop (JS.spanLength JS.isWhiteSpace s) (s +:+ rest) = JS.trimStart s +:+ rest.
Proof.
  induction s as [| c r IH]; [reflexivity |]. rewrite app_String. simpl.
  destruct (JS.isWhiteSpace c); [exact IH | reflexivity].
Qed.

Lemma startsWith_close_other c s : notBrace c = true -> JS.startsWith "}" (String c s) = false.
Proof.
  intros Hc. cbn [JS.startsWith]. rewrite Ascii.eqb_sym, (notBrace_close c Hc). reflexivity.
Qed.

(** [/\s+\}/g]: the white space before the closing braces goes. *)
Lemma spaceClose_body inner rest :
  everyChar notBrace inner = true ->
  JS.replaceFrom matchSpaceClose 0 (inner +:+ String "}" (String "}" rest))
  = JS.trimEnd inner +:+ String "}" (String "}" (JS.replaceFrom matchSpaceClose 0 rest)).
Proof.
  induction inner as [| c r IH]; intros Hinner.
  - now rewrite !app_empty_l, closers_copy.
  - pose proof (everyChar_head _ _ _ Hinner) as Hc.
    pose proof (everyChar_tail _ _ _ Hinner) as Hr.
    specialize (IH Hr). rewrite app_String. cbn [JS.replaceFrom].
    unfold matchSpaceClose at 1. cbn [JS.spanLength].
    destruct (JS.isWhiteSpace c) eqn:Hws.
    + rewrite (spanLength_stop JS.isWhiteSpace r "}" _ eq_refl).
      cbn [Nat.leb JS.drop andb]. rewrite drop_span_app.
      pose proof (everyChar_trimStart notBrace r Hr) as Hstart.
      destruct (JS.trimStart r) as [| d r'] eqn:Hts.
      * pose proof (trimStart_blank r Hts) as Hall.
        rewrite app_empty_l. cbn [JS.startsWith Ascii.eqb Bool.eqb andb Nat.pred].
        rewrite Hall, replaceFrom_skip_one. cbn [JS.replaceFrom].
        replace (matchSpaceClose (String "}" rest)) with (@None (nat * string)) by reflexivity.
        apply trimEnd_blank in Hall. simpl JS.trimEnd. rewrite Hall, Hws. reflexivity.
      * rewrite app_String, (startsWith_close_other d _ (everyChar_head _ _ _ Hstart)).
        rewrite IH. simpl JS.trimEnd.
        destruct (JS.trimEnd r) as [| e r''] eqn:Hte; [| reflexivity].
        apply trimEnd_blank in Hte. rewrite trimStart_span, Hte in Hts.
        rewrite <- (app_empty_r r) in Hts at 2. rewrite drop_app_length in Hts. discriminate.
    + cbn [Nat.leb andb]. rewrite IH, (trimEnd_cons c r Hws). reflexivity.
Qed.

Lemma spaceClose_token inner rest :
  everyChar notBrace inner = true ->
  JS.replaceFrom matchSpaceClose 0 (placeholderAt inner rest)
  = placeholderAt (JS.trimEnd inner) (JS.replaceFrom matchSpaceClose 0 rest).
Proof.
  intros Hinner. unfold placeholderAt.
  rewrite openers_copy by reflexivity. now rewrite spaceClose_body.
Qed.

Lemma spanLength_zero (p : ascii -> bool) s rest :
  everyChar (fun c => negb (p c)) s = true ->
  (forall c r, rest = String c r -> p c = false) ->
  JS.spanLength p (s +:+ rest) = 0.
Proof.
  intros Hs Hrest. destruct s as [| c r].
  - rewrite app_empty_l. destruct rest as [| c r]; [reflexivity |].
    simpl. now rewrite (Hrest c r eq_refl).
  - rewrite app_String. apply everyChar_head in Hs. simpl.
    now apply negb_true_iff in Hs as ->.
Qed.

Lemma span_open_body inner rest :
  everyChar notBrace inner = true ->
  JS.spanLength (isChar "{") (inner +:+ String "}" rest) = 0.
Proof.
  intros H. apply spanLength_zero.
  - revert H. apply everyChar_mono. intros c Hc. unfold isChar. now rewrite (notBrace_open c Hc).
  - now intros c r [= <- _].
Qed.

Lemma span_close_rest rest :
  JS.startsWith "}" rest = false -> JS.spanLength (isChar "}") rest = 0.
Proof.
  destruct rest as [| c r]; [reflexivity |]. cbn [JS.startsWith JS.spanLength]. unfold isChar.
  rewrite (Ascii.eqb_sym "}" c).
  destruct (Ascii.eqb c "}"); [destruct r; discriminate | reflexivity].
Qed.

Lemma body_copy (m : string -> option (nat * string)) inner rest :
  (forall c x, notBrace c = true -> m (String c x) = None) ->
  (forall x, m (String "}" x) = None) ->
  everyChar notBrace inner = true ->
  JS.replaceFrom m 0 (inner +:+ String "}" (String "}" rest))
  = inner +:+ String "}" (String "}" (JS.replaceFrom m 0 rest)).
Proof.
  intros Hplain Hclose Hinner. rewrite (replaceFrom_prefix m notBrace).
  - now rewrite closers_copy.
  - intros c t Hc _. now apply Hplain.
  - exact Hinner.
Qed.

Lemma matchSpacedPair_plain b c x : Ascii.eqb c b = false -> matchSpacedPair b (String c x) = None.
Proof. intros H. simpl. now rewrite H. Qed.

Lemma matchRun_plain b c x : Ascii.eqb c b = false -> matchRun b (String c x) = None.
Proof. intros H. unfold matchRun. simpl. unfold isChar at 1. now rewrite H. Qed.

(** [/\{ {0,}\{+/g] and [/\{+/g] leave a pair of opening braces as it
    is. *)
Lemma spacedOpen_token inner rest :
  everyChar notBrace inner = true ->
  JS.replaceFrom (matchSpacedPair "{") 0 (placeholderAt inner rest)
  = placeholderAt inner (JS.replaceFrom (matchSpacedPair "{") 0 rest).
Proof.
  intros Hinner. unfold placeholderAt. cbn [JS.replaceFrom].
  unfold matchSpacedPair at 1. rewrite Ascii.eqb_refl.
  cbn [JS.spanLength isChar Ascii.eqb Bool.eqb andb JS.drop].
  rewrite (span_open_body inner _ Hinner). cbn [Nat.leb Nat.add Nat.pred].
  rewrite body_copy; [reflexivity | | reflexivity | exact Hinner].
  intros c x Hc. apply matchSpacedPair_plain, notBrace_open, Hc.
Qed.

Lemma runOpen_token inner rest :
  everyChar notBrace inner = true ->
  JS.replaceFrom (matchRun "{") 0 (placeholderAt inner rest)
  = placeholderAt inner (JS.replaceFrom (matchRun "{") 0 rest).
Proof.
  intros Hinner. unfold placeholderAt. cbn [JS.replaceFrom].
  unfold matchRun at 1.
  cbn [JS.spanLength isChar Ascii.eqb Bool.eqb andb].
  rewrite (span_open_body inner _ Hinner). cbn [Nat.leb Nat.pred].
  rewrite body_copy; [reflexivity | | reflexivity | exact Hinner].
  intros c x Hc. apply matchRun_plain, notBrace_open, Hc.
Qed.

(** The same for the closing braces, when no third one follows. *)
Lemma spacedClose_token inner rest :
  everyChar notBrace inner = true ->
  JS.startsWith "}" rest = false ->
  JS.replaceFrom (matchSpacedPair "}") 0 (placeholderAt inner rest)
  = placeholderAt inner (JS.replaceFrom (matchSpacedPair "}") 0 rest).
Proof.
  intros Hinner Hrest. unfold placeholderAt.
  rewrite openers_copy by reflexivity.
  rewrite (replaceFrom_prefix (matchSpacedPair "}") notBrace); [| | exact Hinner].
  2:{ intros c t Hc _. apply matchSpacedPair_plain, notBrace_close, Hc. }
  cbn [JS.replaceFrom]. unfold matchSpacedPair at 1. rewrite Ascii.eqb_refl.
  cbn [JS.spanLength isChar Ascii.eqb Bool.eqb andb JS.drop].
  rewrite (span_close_rest rest Hrest). cbn [Nat.leb Nat.add Nat.pred]. reflexivity.
Qed.

Lemma runClose_token inner rest :
  everyChar notBrace inner = true ->
  JS.startsWith "}" rest = false ->
  JS.replaceFrom (matchRun "}") 0 (placeholderAt inner rest)
  = placeholderAt inner (JS.replaceFrom (matchRun "}") 0 rest).
Proof.
  intros Hinner Hrest. unfold placeholderAt.
  rewrite openers_copy by reflexivity.
  rewrite (replaceFrom_prefix (matchRun "}") notBrace); [| | exact Hinner].
  2:{ intros c t Hc _. apply matchRun_plain, notBrace_close, Hc. }
  cbn [JS.replaceFrom]. unfold matchRun at 1.
  cbn [JS.spanLength isChar Ascii.eqb Bool.eqb andb].
  rewrite (span_close_rest rest Hrest). cbn [Nat.leb Nat.pred]. reflexivity.
Qed.

End TokenPasses.

Section SplitTokens.

Implicit Types (inner rest s r z : string) (c : ascii).

Lemma indexOf_close inner rest :
  everyChar notBrace inner = true ->
  indexOf "}}" (inner +:+ String "}" (String "}" rest)) = Some (String.length inner).
Proof.
  induction inner as [| c r IH]; intros Hinner; [reflexivity |].
  pose proof (everyChar_head _ _ _ Hinner) as Hc.
  rewrite app_String. cbn [indexOf]. cbn [JS.startsWith].
  rewrite (Ascii.eqb_sym "}" c), (notBrace_close c Hc). cbn [andb].
  rewrite IH by (now apply everyChar_tail in Hinner). reflexivity.
Qed.

(** Where a run of characters other than [>] ends, with and without a
    text behind that has no [>]. *)
Lemma tag_end r z :
  everyChar (notChar ">") z = true ->
  JS.startsWith ">" (JS.drop (JS.spanLength (notChar ">") (r +:+ z)) (r +:+ z))
  = JS.startsWith ">" (JS.drop (JS.spanLength (notChar ">") r) r)
  /\ (JS.startsWith ">" (JS.drop (JS.spanLength (notChar ">") r) r) = true ->
      JS.spanLength (notChar ">") (r +:+ z) = JS.spanLength (notChar ">") r
      /\ JS.spanLength (notChar ">") r < String.length r).
Proof.
  intros Hz. induction r as [| a r IH].
  - rewrite app_empty_l, (spanLength_all _ _ Hz).
    rewrite <- (app_empty_r z) at 2. rewrite drop_app_length. split; [reflexivity | discriminate].
  - rewrite app_String. cbn [JS.spanLength]. destruct (notChar ">" a) eqn:Ha.
    + cbn [JS.drop]. destruct IH as [IH1 IH2]. split; [exact IH1 |].
      intros H. destruct (IH2 H) as [-> Hlt]. split; [reflexivity | simpl; lia].
    + cbn [JS.drop JS.startsWith]. split; [reflexivity |]. intros _. split; [reflexivity |].
      simpl. lia.
Qed.

Lemma matchTag_suffix c r z :
  everyChar (notChar ">") z = true ->
  matchTag (String c (r +:+ z)) = matchTag (String c r)
  /\ forall n repl, matchTag (String c r) = Some (n, repl) ->
                    Nat.pred n <= String.length r /\ repl = "".
Proof.
  intros Hz. rewrite !matchTag_head. destruct (tag_end r z Hz) as [Hsame Hin].
  destruct (Ascii.eqb c "<"); [| split; [reflexivity | discriminate]].
  destruct (JS.startsWith ">" (JS.drop (JS.spanLength (notChar ">") r) r)) eqn:Hend.
  - destruct (Hin eq_refl) as [Hspan Hlt]. rewrite Hsame, Hspan. split; [reflexivity |].
    intros n repl H. rewrite andb_true_r in H.
    destruct (1 <=? JS.spanLength (notChar ">") r)%nat; [| discriminate].
    injection H as <- <-. split; [lia | reflexivity].
  - rewrite Hsame, !andb_false_r. split; [reflexivity | discriminate].
Qed.

Lemma matchTag_plain c x : Ascii.eqb c "<" = false -> matchTag (String c x) = None.
Proof. intros H. rewrite matchTag_head. now rewrite H. Qed.

(** Tags are taken out of a text as if nothing stood behind it, when what
    stands behind it has no angle bracket. *)
Lemma stripTags_suffix z :
  everyChar (notChar "<") z = true -> everyChar (notChar ">") z = true ->
  forall s k, k <= String.length s ->
  JS.replaceFrom matchTag k (s +:+ z) = JS.replaceFrom matchTag k s +:+ z.
Proof.
  intros Hopen Hclose. induction s as [| c r IH]; intros k Hk.
  - simpl in Hk. replace k with 0 by lia. rewrite app_empty_l.
    apply (replaceFrom_no_match matchTag (notChar "<")); [| exact Hopen].
    intros [| a t] Ht; [reflexivity |]. apply matchTag_plain.
    apply everyChar_head in Ht. unfold notChar in Ht. now apply negb_true_iff in Ht.
  - rewrite app_String. cbn [JS.replaceFrom]. destruct k as [| k].
    + destruct (matchTag_suffix c r z Hclose) as [-> Hlen].
      destruct (matchTag (String c r)) as [[n repl] |].
      * destruct (Hlen n repl eq_refl) as [Hn ->]. rewrite !app_empty_l. now apply IH.
      * rewrite app_String. f_equal. apply IH. lia.
    + apply IH. simpl in Hk. lia.
Qed.

Lemma stripTags_token inner :
  stripTags (placeholderAt inner "") = placeholderAt (stripTags inner) "".
Proof.
  unfold stripTags, JS.replaceAll, placeholderAt.
  rewrite openers_copy by reflexivity.
  now rewrite (stripTags_suffix "}}" eq_refl eq_refl inner 0) by lia.
Qed.

Lemma trim_lastChar s : JS.trimStart s = "" -> JS.trim (lastChar s) = "".
Proof.
  induction s as [| c r IH]; [reflexivity |]. intros H. simpl in H.
  destruct (JS.isWhiteSpace c) eqn:Hc; [| discriminate].
  destruct r as [| a r']; [| exact (IH H)].
  unfold JS.trim. simpl. now rewrite Hc.
Qed.

Lemma trim_tokenCapture s : JS.trim (tokenCapture s) = JS.trim s.
Proof.
  unfold tokenCapture. destruct (JS.trimStart s) as [| d r] eqn:Hts.
  - rewrite (trim_lastChar s Hts). unfold JS.trim. now rewrite Hts.
  - rewrite <- Hts. change (JS.trimEnd (JS.trimStart s)) with (JS.trim s). apply trim_idem.
Qed.

Lemma matchToken_token x rest :
  x <> "" -> everyChar notBrace x = true ->
  matchToken (placeholderAt x rest) = Some (String.length x + 4, tokenCapture x).
Proof.
  intros Hx Hplain. unfold matchToken, placeholderAt.
  cbn [JS.startsWith Ascii.eqb Bool.eqb andb JS.drop].
  assert (Hspan : JS.spanLength (notChar "}") (x +:+ String "}" (String "}" rest))
                  = String.length x).
  { rewrite spanLength_app.
    - simpl. lia.
    - revert Hplain. apply everyChar_mono. intros c Hc. unfold notBrace in Hc.
      apply andb_true_iff in Hc as [_ Hc]. exact Hc. }
  rewrite Hspan, drop_app_length, take_app_length.
  cbn [JS.startsWith Ascii.eqb Bool.eqb andb].
  destruct x as [| c r]; [contradiction |]. reflexivity.
Qed.

(** The name the loop of [fixSplitPlaceholders] writes between the braces. *)
Lemma cleaned_name x :
  everyChar notBrace x = true ->
  match JS.execAll matchToken (placeholderAt x "") with
  | cap :: _ => JS.trim cap
  | [] => JS.trim (removeChar "}" (removeChar "{" (placeholderAt x "")))
  end = JS.trim x.
Proof.
  intros Hplain. destruct (string_dec x "") as [-> | Hx]; [reflexivity |].
  unfold JS.execAll. unfold placeholderAt at 1. cbn [JS.execFrom].
  fold (placeholderAt x ""). rewrite (matchToken_token x "" Hx Hplain).
  apply trim_tokenCapture.
Qed.

Lemma matchSplitToken_token inner rest :
  everyChar notBrace inner = true ->
  matchSplitToken (placeholderAt inner rest)
  = Some (String.length inner + 4, placeholderAt (JS.trim (stripTags inner)) "").
Proof.
  intros Hinner. unfold matchSplitToken.
  replace (JS.startsWith "{{" (placeholderAt inner rest)) with true by reflexivity.
  replace (JS.drop 2 (placeholderAt inner rest))
    with (inner +:+ String "}" (String "}" rest)) by reflexivity.
  rewrite (indexOf_close inner rest Hinner).
  assert (Hchunk : JS.take (String.length inner + 4) (placeholderAt inner rest)
                   = placeholderAt inner "").
  { replace (String.length inner + 4) with (S (S (String.length inner + 2))) by lia.
    unfold placeholderAt. cbn [JS.take]. now rewrite take_app_plus. }
  rewrite Hchunk, stripTags_token.
  rewrite (cleaned_name (stripTags inner)) by now apply stripTags_everyChar.
  reflexivity.
Qed.

Lemma placeholderAt_app x rest : placeholderAt x "" +:+ rest = placeholderAt x rest.
Proof. unfold placeholderAt. now rewrite !app_String, app_assoc_s. Qed.

(** A round of [fixSplitPlaceholders]: the tags between the braces go,
    and the white space around what is left. *)
Lemma splitToken_token inner rest :
  everyChar notBrace inner = true ->
  JS.replaceFrom matchSplitToken 0 (placeholderAt inner rest)
  = placeholderAt (JS.trim (stripTags inner)) (JS.replaceFrom matchSplitToken 0 rest).
Proof.
  intros Hinner. unfold placeholderAt at 1. cbn [JS.replaceFrom].
  fold (placeholderAt inner rest). rewrite (matchSplitToken_token inner rest Hinner).
  replace (Nat.pred (String.length inner + 4)) with (S (String.length (inner +:+ "}}"))).
  2:{ rewrite length_app_s. simpl. lia. }
  cbn [JS.replaceFrom].
  replace (inner +:+ String "}" (String "}" rest)) with ((inner +:+ "}}") +:+ rest).
  2:{ now rewrite app_assoc_s. }
  rewrite replaceFrom_skip. apply placeholderAt_app.
Qed.

End SplitTokens.

Section Documents.

Implicit Types (pieces : list (string * string)) (tail inner rest : string) (c : ascii).

Lemma wellBraced_cons text0 inner pieces tail :
  wellBraced ((text0, inner) :: pieces) tail
  <-> everyChar notBrace text0 = true /\ everyChar notBrace inner = true
      /\ wellBraced pieces tail.
Proof.
  unfold wellBraced. split.
  - intros [Hall Htail]. inversion Hall as [| ? ? [Ht Hi] Hrest]; subst. now repeat split.
  - intros (Ht & Hi & Hrest & Htail). split; [| exact Htail]. constructor; [now split | exact Hrest].
Qed.

Lemma templateOf_open pieces tail :
  wellBraced pieces tail -> JS.startsWith "}" (templateOf pieces tail) = false.
Proof.
  destruct pieces as [| [text0 inner] rest].
  - intros [_ Htail]. cbn [templateOf]. apply startsWith_other.
    now apply notBrace_split in Htail as [_ Htail].
  - intros H. apply wellBraced_cons in H as (Ht & _ & _). cbn [templateOf].
    destruct text0 as [| c r]; [reflexivity |].
    rewrite app_String. apply startsWith_close_other. now apply everyChar_head in Ht.
Qed.

Lemma wellBraced_mapInner (f : string -> string) pieces tail :
  (forall s, everyChar notBrace s = true -> everyChar notBrace (f s) = true) ->
  wellBraced pieces tail -> wellBraced (mapInner f pieces) tail.
Proof.
  intros Hf [Hall Htail]. split; [| exact Htail]. unfold mapInner.
  induction Hall as [| [text0 inner] rest [Ht Hi] _ IH]; [constructor |].
  constructor; [| exact IH]. simpl in *. split; [exact Ht | now apply Hf].
Qed.

Lemma mapInner_compose (f g : string -> string) pieces :
  mapInner g (mapInner f pieces) = mapInner (fun s => g (f s)) pieces.
Proof.
  unfold mapInner. rewrite <- list_fmap_compose. now apply list_fmap_ext.
Qed.

Lemma mapInner_id pieces : mapInner (fun s => s) pieces = pieces.
Proof.
  unfold mapInner. induction pieces as [| [text0 inner] rest IH]; [reflexivity |].
  simpl. now rewrite IH.
Qed.

(** A pass over a document that copies the texts and rewrites what stands
    between each pair of braces. *)
Lemma pass_template (pass f : string -> string) :
  (forall tail, everyChar notBrace tail = true -> pass tail = tail) ->
  (forall text0 inner rest,
     everyChar notBrace text0 = true -> everyChar notBrace inner = true ->
     JS.startsWith "}" rest = false ->
     pass (text0 +:+ placeholderAt inner rest) = text0 +:+ placeholderAt (f inner) (pass rest)) ->
  forall pieces tail, wellBraced pieces tail ->
  pass (templateOf pieces tail) = templateOf (mapInner f pieces) tail.
Proof.
  intros Hbase Hstep pieces tail. induction pieces as [| [text0 inner] rest IH]; intros Hwell.
  - apply Hbase, Hwell.
  - apply wellBraced_cons in Hwell as (Ht & Hi & Hrest). simpl.
    rewrite (Hstep text0 inner _ Ht Hi (templateOf_open rest tail Hrest)).
    now rewrite (IH Hrest).
Qed.

Lemma spaceClose_text c t inner rest :
  notBrace c = true -> everyChar notBrace t = true ->
  matchSpaceClose (String c (t +:+ placeholderAt inner rest)) = None.
Proof.
  intros Hc Ht. unfold matchSpaceClose.
  change (String c (t +:+ placeholderAt inner rest))
    with (String c t +:+ placeholderAt inner rest).
  assert (Hspan : JS.spanLength JS.isWhiteSpace (String c t +:+ placeholderAt inner rest)
                  = JS.spanLength JS.isWhiteSpace (String c t)).
  { apply (spanLength_stop JS.isWhiteSpace (String c t) "{"). reflexivity. }
  rewrite Hspan, drop_span_app.
  assert (Hall : everyChar notBrace (String c t) = true) by (simpl; now rewrite Hc, Ht).
  pose proof (everyChar_trimStart notBrace _ Hall) as Hstart.
  destruct (JS.trimStart (String c t)) as [| d r].
  - rewrite app_empty_l. unfold placeholderAt. cbn [JS.startsWith Ascii.eqb Bool.eqb andb].
    now rewrite andb_false_r.
  - rewrite app_String, (startsWith_close_other d _ (everyChar_head _ _ _ Hstart)).
    now rewrite andb_false_r.
Qed.

Lemma matchSplitToken_plain c x : notBrace c = true -> matchSplitToken (String c x) = None.
Proof.
  intros Hc. unfold matchSplitToken. cbn [JS.startsWith].
  now rewrite (Ascii.eqb_sym "{" c), (notBrace_open c Hc).
Qed.

Lemma matchToken_plain c x : notBrace c = true -> matchToken (String c x) = None.
Proof.
  intros Hc. unfold matchToken. cbn [JS.startsWith].
  now rewrite (Ascii.eqb_sym "{" c), (notBrace_open c Hc).
Qed.

Lemma plain_passes tail :
  everyChar notBrace tail = true ->
  JS.replaceFrom matchOpenSpace 0 tail = tail
  /\ JS.replaceFrom matchSpaceClose 0 tail = tail
  /\ JS.replaceFrom (matchSpacedPair "{") 0 tail = tail
  /\ JS.replaceFrom (matchSpacedPair "}") 0 tail = tail
  /\ JS.replaceFrom (matchRun "{") 0 tail = tail
  /\ JS.replaceFrom (matchRun "}") 0 tail = tail
  /\ JS.replaceFrom matchSplitToken 0 tail = tail.
Proof.
  intros H. apply notBrace_split in H as [Hopen Hclose].
  repeat split.
  - apply (replaceFrom_no_match matchOpenSpace notOpenBrace tail matchOpenSpace_other Hopen).
  - apply (replaceFrom_no_match matchSpaceClose notCloseBrace tail matchSpaceClose_other Hclose).
  - apply (replaceFrom_no_match (matchSpacedPair "{") notOpenBrace tail
             (matchSpacedPair_other "{") Hopen).
  - apply (replaceFrom_no_match (matchSpacedPair "}") notCloseBrace tail
             (matchSpacedPair_other "}") Hclose).
  - apply (replaceFrom_no_match (matchRun "{") notOpenBrace tail (matchRun_other "{") Hopen).
  - apply (replaceFrom_no_match (matchRun "}") notCloseBrace tail (matchRun_other "}") Hclose).
  - apply (replaceFrom_no_match matchSplitToken notOpenBrace tail matchSplitToken_other Hopen).
Qed.

(** A pattern that looks at the first character only passes over a text
    without braces. *)
Lemma text_copy (m : string -> option (nat * string)) text0 rest :
  (forall c x, notBrace c = true -> m (String c x) = None) ->
  everyChar notBrace text0 = true ->
  JS.replaceFrom m 0 (text0 +:+ rest) = text0 +:+ JS.replaceFrom m 0 rest.
Proof.
  intros Hplain Ht. apply (replaceFrom_prefix m notBrace); [| exact Ht].
  intros c t Hc _. now apply Hplain.
Qed.

(** What the sanitizer does to a document whose braces are the pairs
    around its placeholders. *)
Lemma sanitizeTemplate_template pieces tail :
  wellBraced pieces tail ->
  sanitizeTemplate (templateOf pieces tail) = templateOf (mapInner recomposed pieces) tail.
Proof.
  intros H0.
  unfold sanitizeTemplate, fixSplitPlaceholders, normalizeXml, JS.replaceAll.
  assert (H1 : wellBraced (mapInner JS.trimStart pieces) tail).
  { apply wellBraced_mapInner; [apply everyChar_trimStart | exact H0]. }
  assert (H2 : wellBraced (mapInner JS.trimEnd (mapInner JS.trimStart pieces)) tail).
  { apply wellBraced_mapInner; [apply everyChar_trimEnd | exact H1]. }
  rewrite (pass_template (JS.replaceFrom matchOpenSpace 0) JS.trimStart) with (1 := fun t Ht => proj1 (plain_passes t Ht)) (3 := H0).
  2:{ intros text0 inner rest Ht Hi _. rewrite text_copy; [| | exact Ht].
      - now rewrite openSpace_token.
      - intros c x Hc. rewrite matchOpenSpace_head. now rewrite (notBrace_open c Hc). }
  rewrite (pass_template (JS.replaceFrom matchSpaceClose 0) JS.trimEnd)
    with (1 := fun t Ht => proj1 (proj2 (plain_passes t Ht))) (3 := H1).
  2:{ intros text0 inner rest Ht Hi _.
      rewrite (replaceFrom_prefix matchSpaceClose notBrace); [| | exact Ht].
      - now rewrite spaceClose_token.
      - intros c t Hc Hrest. now apply spaceClose_text. }
  rewrite (pass_template (JS.replaceFrom (matchSpacedPair "{") 0) (fun s => s))
    with (1 := fun t Ht => proj1 (proj2 (proj2 (plain_passes t Ht)))) (3 := H2).
  2:{ intros text0 inner rest Ht Hi _. rewrite text_copy; [| | exact Ht].
      - now rewrite spacedOpen_token.
      - intros c x Hc. apply matchSpacedPair_plain, notBrace_open, Hc. }
  rewrite mapInner_id.
  rewrite (pass_template (JS.replaceFrom (matchSpacedPair "}") 0) (fun s => s))
    with (1 := fun t Ht => proj1 (proj2 (proj2 (proj2 (plain_passes t Ht))))) (3 := H2).
  2:{ intros text0 inner rest Ht Hi Hrest. rewrite text_copy; [| | exact Ht].
      - now rewrite spacedClose_token.
      - intros c x Hc. apply matchSpacedPair_plain, notBrace_close, Hc. }
  rewrite mapInner_id.
  rewrite (pass_template (JS.replaceFrom (matchRun "{") 0) (fun s => s))
    with (1 := fun t Ht => proj1 (proj2 (proj2 (proj2 (proj2 (plain_passes t Ht))))))
         (3 := H2).
  2:{ intros text0 inner rest Ht Hi _. rewrite text_copy; [| | exact Ht].
      - now rewrite runOpen_token.
      - intros c x Hc. apply matchRun_plain, notBrace_open, Hc. }
  rewrite mapInner_id.
  rewrite (pass_template (JS.replaceFrom (matchRun "}") 0) (fun s => s))
    with (1 := fun t Ht => proj1 (proj2 (proj2 (proj2 (proj2 (proj2 (plain_passes t Ht)))))))
         (3 := H2).
  2:{ intros text0 inner rest Ht Hi Hrest. rewrite text_copy; [| | exact Ht].
      - now rewrite runClose_token.
      - intros c x Hc. apply matchRun_plain, notBrace_close, Hc. }
  rewrite mapInner_id.
  rewrite (pass_template (JS.replaceFrom matchSplitToken 0) (fun s => JS.trim (stripTags s)))
    with (1 := fun t Ht => proj2 (proj2 (proj2 (proj2 (proj2 (proj2 (plain_passes t Ht)))))))
         (3 := H2).
  2:{ intros text0 inner rest Ht Hi _. rewrite text_copy; [| | exact Ht].
      - now rewrite splitToken_token.
      - intros c x Hc. now apply matchSplitToken_plain. }
  now rewrite !mapInner_compose.
Qed.

End Documents.

Section Extraction.

Implicit Types (pieces : list (string * string)) (tail inner rest s r : string) (c : ascii).

(** Where the run of characters other than [>] ends in a text that has a
    [>], whatever stands behind the text. *)
Lemma span_has r rest :
  hasChar ">" r = true ->
  JS.spanLength (notChar ">") (r +:+ rest) = JS.spanLength (notChar ">") r
  /\ JS.spanLength (notChar ">") r < String.length r
  /\ JS.startsWith ">" (JS.drop (JS.spanLength (notChar ">") r) (r +:+ rest)) = true
  /\ JS.startsWith ">" (JS.drop (JS.spanLength (notChar ">") r) r) = true.
Proof.
  induction r as [| a r IH]; [discriminate |].
  rewrite app_String. cbn [hasChar JS.spanLength].
  change (notChar ">" a) with (negb (Ascii.eqb a ">")).
  destruct (Ascii.eqb a ">") eqn:Ha; cbn [negb orb].
  - intros _. cbn [JS.drop JS.startsWith]. rewrite (Ascii.eqb_sym ">" a), Ha.
    repeat split; simpl; lia.
  - intros H. destruct (IH H) as (-> & Hlt & H1 & H2). cbn [JS.drop].
    repeat split; try assumption. simpl. lia.
Qed.

(** Tags are taken out of a text whose tags are closed as if nothing
    stood behind it. *)
Lemma stripTags_closed rest : forall s k,
  tagsClosed s = true -> k <= String.length s ->
  JS.replaceFrom matchTag k (s +:+ rest)
  = JS.replaceFrom matchTag k s +:+ JS.replaceFrom matchTag 0 rest.
Proof.
  induction s as [| c r IH]; intros k Hclosed Hk.
  - simpl in Hk. replace k with 0 by lia. reflexivity.
  - cbn [tagsClosed] in Hclosed. apply andb_true_iff in Hclosed as [Hc Hr].
    rewrite app_String. cbn [JS.replaceFrom]. destruct k as [| k].
    2:{ apply IH; [exact Hr | simpl in Hk; lia]. }
    rewrite !matchTag_head. destruct (Ascii.eqb c "<").
    + destruct (span_has r rest Hc) as (-> & Hlt & -> & ->). rewrite andb_true_r.
      destruct (1 <=? JS.spanLength (notChar ">") r)%nat.
      * rewrite !app_empty_l. apply IH; [exact Hr | lia].
      * rewrite app_String. f_equal. apply IH; [exact Hr | lia].
    + rewrite app_String. f_equal. apply IH; [exact Hr | lia].
Qed.

Lemma stripTags_placeholder name rest :
  everyChar (notChar "<") name = true ->
  JS.replaceFrom matchTag 0 (placeholderAt name rest)
  = placeholderAt name (JS.replaceFrom matchTag 0 rest).
Proof.
  intros Hname. unfold placeholderAt. rewrite openers_copy by reflexivity.
  rewrite (replaceFrom_prefix matchTag (notChar "<")); [| | exact Hname].
  - now rewrite closers_copy.
  - intros c t Hc _. apply matchTag_plain. unfold notChar in Hc.
    now apply negb_true_iff in Hc.
Qed.

(** The texts of a document lose their tags; its placeholders stay. *)
Lemma stripTags_template pieces tail :
  Forall (fun piece => tagsClosed (fst piece) = true
                       /\ everyChar (notChar "<") (snd piece) = true) pieces ->
  stripTags (templateOf pieces tail)
  = templateOf (map (fun piece => (stripTags (fst piece), snd piece)) pieces)
               (stripTags tail).
Proof.
  unfold stripTags, JS.replaceAll.
  induction 1 as [| [text0 name] rest [Ht Hn] _ IH]; [reflexivity |].
  cbn [templateOf map fst snd] in *.
  rewrite (stripTags_closed _ text0 0 Ht) by lia.
  now rewrite (stripTags_placeholder name _ Hn), IH.
Qed.

Lemma tokenCapture_trimmed s : JS.trim s = s -> s <> "" -> tokenCapture s = s.
Proof.
  intros Htrim Hs. pose proof (trimStart_of_trim s Htrim) as Hts.
  unfold JS.trim in Htrim. rewrite Hts in Htrim. unfold tokenCapture. rewrite Hts.
  destruct s as [| d r]; [contradiction | exact Htrim].
Qed.

(** The matches of the placeholder pattern in a document without tags. *)
Lemma execAll_template pieces tail :
  wellBraced pieces tail ->
  Forall (fun piece => JS.trim (snd piece) = snd piece) pieces ->
  JS.execAll matchToken (templateOf pieces tail)
  = filter (fun name => name <> "") (map snd pieces).
Proof.
  unfold JS.execAll. induction pieces as [| [text0 name] rest IH]; intros Hwell Htrim.
  - destruct Hwell as [_ Htail]. apply notBrace_split in Htail as [Hopen _].
    apply (execFrom_no_match matchToken notOpenBrace); [apply matchToken_other | exact Hopen].
  - apply wellBraced_cons in Hwell as (Ht & Hn & Hrest).
    inversion Htrim as [| ? ? Hname Htrims]; subst. cbn [snd] in Hname.
    specialize (IH Hrest Htrims). cbn [templateOf map snd].
    rewrite (execFrom_prefix matchToken notBrace); [| | exact Ht].
    2:{ intros c t Hc _. now apply matchToken_plain. }
    destruct (string_dec name "") as [-> | Hne].
    + rewrite filter_cons_False by (intros H; now apply H). rewrite <- IH. reflexivity.
    + rewrite filter_cons_True by exact Hne. unfold placeholderAt at 1. cbn [JS.execFrom].
      fold (placeholderAt name (templateOf rest tail)).
      rewrite (matchToken_token name _ Hne Hn), (tokenCapture_trimmed name Hname Hne).
      f_equal. rewrite <- IH.
      replace (Nat.pred (String.length name + 4)) with (S (String.length (name +:+ "}}"))).
      2:{ rewrite length_app_s. simpl. lia. }
      cbn [JS.execFrom].
      replace (name +:+ String "}" (String "}" (templateOf rest tail)))
        with ((name +:+ "}}") +:+ templateOf rest tail) by now rewrite app_assoc_s.
      apply execFrom_skip_app.
Qed.

Lemma recomposed_trimmed inner : JS.trim (recomposed inner) = recomposed inner.
Proof. apply trim_idem. Qed.

Lemma recomposed_plain inner :
  everyChar notBrace inner = true -> everyChar notBrace (recomposed inner) = true.
Proof. intros H. now apply everyChar_trim, stripTags_everyChar, everyChar_trim. Qed.

(** The names matched in a document whose braces are the pairs around
    its placeholders and whose tags are closed. *)
Lemma matchedNames_template pieces tail :
  wellBraced pieces tail ->
  Forall (fun piece => tagsClosed (fst piece) = true
                       /\ everyChar (notChar "<") (recomposed (snd piece)) = true) pieces ->
  matchedNames (templateOf pieces tail) = namesOf pieces.
Proof.
  intros Hwell Htags. unfold matchedNames.
  rewrite (sanitizeTemplate_template pieces tail Hwell).
  rewrite stripTags_template.
  2:{ unfold mapInner. apply Forall_fmap. eapply Forall_impl; [exact Htags |].
      now intros [text0 inner]. }
  rewrite execAll_template.
  - unfold namesOf, mapInner. rewrite <- !list_fmap_compose.
    assert (Hsame : forall l : list string,
               Forall (fun name => JS.trim name = name) l ->
               map JS.trim (filter (fun name => name <> "") l)
               = filter (fun name => name <> "") l).
    { induction 1 as [| name l Hname _ IH]; [reflexivity |].
      destruct (string_dec name "") as [-> | Hne].
      - now rewrite filter_cons_False by (intros H; now apply H).
      - rewrite filter_cons_True by exact Hne. simpl. now rewrite Hname, IH. }
    apply Hsame. apply Forall_fmap, Forall_forall. intros piece _. apply recomposed_trimmed.
  - destruct Hwell as [Hall Htail]. split; [| now apply stripTags_everyChar].
    apply Forall_fmap, Forall_fmap. eapply Forall_impl; [exact Hall |].
    intros [text0 inner] [Ht Hi]. simpl. split; [now apply stripTags_everyChar |].
    now apply recomposed_plain.
  - apply Forall_fmap, Forall_fmap, Forall_forall. intros piece _. apply recomposed_trimmed.
Qed.

(** The matches of the placeholder pattern in a text whose braces are the
    pairs around its placeholders: one for every pair with something
    between its braces, with the capture group of what stands there. *)
Lemma execAll_pieces pieces tail :
  wellBraced pieces tail ->
  JS.execAll matchToken (templateOf pieces tail)
  = map (fun piece => tokenCapture (snd piece))
        (filter (fun piece => snd piece <> "") pieces).
Proof.
  unfold JS.execAll. induction pieces as [| [text0 name] rest IH]; intros Hwell.
  - destruct Hwell as [_ Htail]. apply notBrace_split in Htail as [Hopen _].
    apply (execFrom_no_match matchToken notOpenBrace); [apply matchToken_other | exact Hopen].
  - apply wellBraced_cons in Hwell as (Ht & Hn & Hrest).
    specialize (IH Hrest). cbn [templateOf].
    rewrite (execFrom_prefix matchToken notBrace); [| | exact Ht].
    2:{ intros c t Hc _. now apply matchToken_plain. }
    destruct (string_dec name "") as [-> | Hne].
    + rewrite filter_cons_False by (cbn [snd]; intros H; now apply H).
      rewrite <- IH. reflexivity.
    + rewrite filter_cons_True by exact Hne. cbn [map snd].
      unfold placeholderAt at 1. cbn [JS.execFrom].
      fold (placeholderAt name (templateOf rest tail)).
      rewrite (matchToken_token name _ Hne Hn).
      f_equal. rewrite <- IH.
      replace (Nat.pred (String.length name + 4)) with (S (String.length (name +:+ "}}"))).
      2:{ rewrite length_app_s. simpl. lia. }
      cbn [JS.execFrom].
      replace (name +:+ String "}" (String "}" (templateOf rest tail)))
        with ((name +:+ "}}") +:+ templateOf rest tail) by now rewrite app_assoc_s.
      apply execFrom_skip_app.
Qed.

(** The placeholders of a template whose sanitized, tag-free text is
    given by its pieces. *)
Lemma extractPlaceholders_pieces xml pieces tail :
  stripTags (sanitizeTemplate xml) = templateOf pieces tail ->
  wellBraced pieces tail ->
  extractPlaceholders xml
  = firstOccurrences
      (map (fun piece => JS.trim (snd piece)) (filter (fun piece => snd piece <> "") pieces)).
Proof.
  intros Htext Hwell. unfold extractPlaceholders, matchedNames.
  rewrite Htext, (execAll_pieces pieces tail Hwell), <- list_fmap_compose.
  rewrite <- firstOccurrences_foldl. f_equal.
  apply list_fmap_ext. intros i piece _. apply trim_tokenCapture.
Qed.

(** The placeholders of a document whose braces are the pairs around its
    placeholders and whose tags are closed. *)
Lemma extractPlaceholders_template pieces tail :
  wellBraced pieces tail ->
  Forall (fun piece => tagsClosed (fst piece) = true
                       /\ everyChar (notChar "<") (recomposed (snd piece)) = true) pieces ->
  extractPlaceholders (templateOf pieces tail) = firstOccurrences (namesOf pieces).
Proof.
  intros Hwell Htags.
  unfold extractPlaceholders. rewrite (matchedNames_template pieces tail Hwell Htags).
  symmetry. apply firstOccurrences_foldl.
Qed.

End Extraction.

(** C6. Whatever the template, no name is returned twice, and the names
    returned are those the placeholder pattern matches in the sanitized,
    tag-free text, in the order of their first match.  When that text has
    its braces only as the pairs around its placeholders, the names
    returned are the texts between the pairs, trimmed (a pair with
    nothing between its braces is no placeholder): each distinct name
    once, in the order of the first occurrence, however often it is
    repeated.  For a template that is itself written so, with every tag
    of its texts closed, these are the names between its pairs of braces
    with their tags and the white space around them taken out. *)
Theorem C6_placeholders_distinct_in_first_seen_order :
  (forall xml,
     let names := matchedNames xml in
     let found := extractPlaceholders xml in
     NoDup found
     /\ found = firstOccurrences names
     /\ (forall name, name ∈ found <-> name ∈ names))
  /\ (forall (xml : string) (pieces : list (string * string)) (tail : string),
        stripTags (sanitizeTemplate xml) = templateOf pieces tail ->
        wellBraced pieces tail ->
        let names := map (fun piece => JS.trim (snd piece))
                         (filter (fun piece => snd piece <> "") pieces) in
        let found := extractPlaceholders xml in
        found = firstOccurrences names
        /\ (forall name, name ∈ found <-> name ∈ names)
        /\ (forall r1 a r2 b r3,
              found = (r1 ++ a :: (r2 ++ b :: r3))%list ->
              exists n1 n2,
                names = (n1 ++ a :: n2)%list /\ (a ∉ n1) /\ (b ∉ n1) /\ (b ∈ n2)))
  /\ (forall (pieces : list (string * string)) (tail : string),
        wellBraced pieces tail ->
        Forall (fun piece => tagsClosed (fst piece) = true
                             /\ everyChar (notChar "<") (recomposed (snd piece)) = true)
               pieces ->
        extractPlaceholders (templateOf pieces tail) = firstOccurrences (namesOf pieces)).
Proof.
  split; [| split].
  - intros xml names found.
    assert (Heq : found = firstOccurrences names).
    { subst found. unfold extractPlaceholders. now rewrite <- firstOccurrences_foldl. }
    rewrite Heq. split; [apply NoDup_firstOccurrences |]. split; [reflexivity |].
    intros name. apply elem_of_firstOccurrences.
  - intros xml pieces tail Htext Hwell names found.
    assert (Heq : found = firstOccurrences names)
      by exact (extractPlaceholders_pieces xml pieces tail Htext Hwell).
    split; [exact Heq |]. rewrite Heq.
    split; [intros name; apply elem_of_firstOccurrences |].
    apply firstOccurrences_order.
  - exact extractPlaceholders_template.
Qed.

(** A template in which [nome] is written three times (once split over
    two runs, once with spaced braces) and [cidade] twice (once with
    white space inside the braces, once with doubled braces). *)
Lemma C6_witness :
  let xml :=
    "<w:t>{{</w:t><w:t>nome}}</w:t> {{ cidade }} {{nome}} {{{{cidade}}}} { {nome} }" in
  stripTags (sanitizeTemplate xml) = "{{nome}} {{cidade}} {{nome}} {{cidade}} {{nome}}"
  /\ extractPlaceholders xml = ["nome"; "cidade"]
  /\ extractPlaceholders "<w:p><w:t>{{ no</w:t><w:t>me }} e {{ cidade }}, {{nome}}</w:t></w:p>"
     = ["nome"; "cidade"].
Proof.
  destruct C6_placeholders_distinct_in_first_seen_order as (_ & Htext & Htemplate).
  split; [reflexivity |]. split.
  - destruct (Htext
                "<w:t>{{</w:t><w:t>nome}}</w:t> {{ cidade }} {{nome}} {{{{cidade}}}} { {nome} }"
                [("", "nome"); (" ", "cidade"); (" ", "nome"); (" ", "cidade"); (" ", "nome")]
                "") as (Heq & _).
    + reflexivity.
    + split; [repeat constructor | reflexivity].
    + exact Heq.
  - apply (Htemplate [("<w:p><w:t>", " no</w:t><w:t>me "); (" e ", " cidade "); (", ", "nome")]
                     "</w:t></w:p>").
    + split; [repeat constructor | reflexivity].
    + repeat constructor.
Defined.

(** X27. In a document whose braces are the pairs around its
    placeholders, the sanitizer changes nothing but what stands between
    the pairs: the tags between them go, and the white space around what
    is left, so that a placeholder Word has split over several runs is
    one token again.  The document it gives has its braces in pairs
    around names without white space at either end. *)
Theorem X27_sanitizer_recomposes_split_placeholders
    (pieces : list (string * string)) (tail : string) :
  wellBraced pieces tail ->
  sanitizeTemplate (templateOf pieces tail) = templateOf (mapInner recomposed pieces) tail
  /\ wellBraced (mapInner recomposed pieces) tail
  /\ Forall (fun piece => JS.trim (snd piece) = snd piece) (mapInner recomposed pieces).
Proof.
  intros Hwell. split; [now apply sanitizeTemplate_template |]. split.
  - apply wellBraced_mapInner; [| exact Hwell]. intros s. apply recomposed_plain.
  - unfold mapInner. apply Forall_fmap, Forall_forall. intros piece _.
    apply recomposed_trimmed.
Qed.

Lemma X27_witness :
  sanitizeTemplate "<w:p><w:r><w:t>Prezada {{ no</w:t></w:r><w:r><w:t>me }},</w:t></w:r></w:p>"
  = "<w:p><w:r><w:t>Prezada {{nome}},</w:t></w:r></w:p>".
Proof.
  destruct (X27_sanitizer_recomposes_split_placeholders
              [("<w:p><w:r><w:t>Prezada ", " no</w:t></w:r><w:r><w:t>me ")]
              ",</w:t></w:r></w:p>") as [Heq _].
  - split; [repeat constructor | reflexivity].
  - exact Heq.
Defined.

(** X28. In such a document whose texts have every tag closed, the
    placeholders found are the names between the pairs of braces, tags
    and surrounding white space left out: each name once, in the order of
    first occurrence, the empty ones left out.  So every placeholder with
    a name is found. *)
Theorem X28_every_named_placeholder_is_found
    (pieces : list (string * string)) (tail : string) :
  wellBraced pieces tail ->
  Forall (fun piece => tagsClosed (fst piece) = true
                       /\ everyChar (notChar "<") (recomposed (snd piece)) = true) pieces ->
  extractPlaceholders (templateOf pieces tail) = firstOccurrences (namesOf pieces)
  /\ forall piece, piece ∈ pieces -> recomposed (snd piece) <> "" ->
                   recomposed (snd piece) ∈ extractPlaceholders (templateOf pieces tail).
Proof.
  intros Hwell Htags.
  assert (Heq : extractPlaceholders (templateOf pieces tail) = firstOccurrences (namesOf pieces))
    by exact (extractPlaceholders_template pieces tail Hwell Htags).
  split; [exact Heq |]. intros piece Hin Hname.
  rewrite Heq, elem_of_firstOccurrences. unfold namesOf.
  apply list_elem_of_filter. split; [exact Hname |].
  apply list_elem_of_fmap. now exists piece.
Qed.

Lemma X28_witness :
  extractPlaceholders
    "<w:p><w:t>{{ nome }}, {{</w:t><w:t>cidade</w:t><w:t>}} e {{nome}}</w:t></w:p>"
  = ["nome"; "cidade"].
Proof.
  destruct (X28_every_named_placeholder_is_found
              [("<w:p><w:t>", " nome "); (", ", "</w:t><w:t>cidade</w:t><w:t>");
               (" e ", "nome")]
              "</w:t></w:p>") as [Heq _].
  - split; [repeat constructor | reflexivity].
  - repeat constructor.
  - exact Heq.
Defined.

(** ** The counters of a send job *)

Lemma foldM_inv {A B} (f : B -> A -> M B) (Inv : list A -> B -> World -> Prop) :
  (forall done b x w, Inv done b w ->
     wp (f b x) (fun o w' => exists b', o = Ok b' /\ Inv (done ++ [x])%list b' w') w) ->
  forall l done b w, Inv done b w ->
  wp (foldM f l b) (fun o w' => exists b', o = Ok b' /\ Inv (done ++ l)%list b' w') w.
Proof.
  intros Hstep. induction l as [| x rest IH]; intros done b w Hinv; simpl.
  - apply wp_ret. exists b. split; [reflexivity |]. rewrite app_nil_r. exact Hinv.
  - eapply wp_bind_post; [apply (Hstep done), Hinv |].
    intros o w1 (b1 & -> & H1). eapply wp_mono; [apply (IH (done ++ [x])%list), H1 |].
    intros o w2 (b2 & -> & H2). exists b2. split; [reflexivity |].
    now rewrite <- app_assoc in H2.
Qed.

Section SendCounters.

Variable caps : Capabilities.
Variable jobId : string.

Lemma counters_set total sent failed f w :
  (forall job, Job.emailTotal (f job) = total /\ Job.emailSent (f job) = sent
               /\ Job.emailFailed (f job) = failed) ->
  emailCounters jobId total sent failed (alterJob jobId f w).
Proof.
  intros Hf job Hjob. simpl in Hjob. rewrite lookup_alter_eq in Hjob.
  destruct (jobs w !! jobId) as [j |]; [| discriminate]. injection Hjob as <-. apply Hf.
Qed.

Lemma counters_keep total sent failed f w :
  keepsCounters f -> emailCounters jobId total sent failed w ->
  emailCounters jobId total sent failed (alterJob jobId f w).
Proof.
  intros Hf Hw job Hjob. simpl in Hjob. rewrite lookup_alter_eq in Hjob.
  destruct (jobs w !! jobId) as [j |] eqn:Hj; [| discriminate]. injection Hjob as <-.
  destruct (Hf j) as (-> & -> & ->). now apply Hw.
Qed.

Lemma counters_jobs total sent failed w w' :
  jobs w' = jobs w -> emailCounters jobId total sent failed w ->
  emailCounters jobId total sent failed w'.
Proof. intros Heq Hw job Hjob. rewrite Heq in Hjob. now apply Hw. Qed.

Lemma touch_counters total sent failed (Q : Outcome unit -> World -> Prop) w :
  emailCounters jobId total sent failed w ->
  (forall w', emailCounters jobId total sent failed w' -> Q (Ok tt) w') ->
  wp (touch caps jobId) Q w.
Proof.
  intros Hw HQ. unfold touch. wp_steps. apply HQ. apply counters_keep.
  - intros job. repeat split.
  - eapply counters_jobs; [| exact Hw]. reflexivity.
Qed.

Lemma sendProgress_counters p w :
  wp (sendProgress caps jobId p)
     (fun o w' =>
        o = Ok tt
        /\ emailCounters jobId (progressTotal p) (progressSent p) (progressFailed p) w') w.
Proof.
  unfold sendProgress. wp_steps.
  apply (touch_counters (progressTotal p) (progressSent p) (progressFailed p)).
  - apply counters_set. intros job. repeat split.
  - intros w' Hw'. now split.
Qed.

(** The loop of the SMTP dispatch with the callback of the send job:
    behind every entry the counters of the job are those of the loop. *)
Lemma smtp_loop_counters options subject message total queue : forall done st w,
  loopProcessed st = Z.of_nat (length done) ->
  emailCounters jobId total (loopSent st) (loopProcessed st - loopSent st) w ->
  wp (foldM (smtpSendOne caps options subject message total (Some (sendProgress caps jobId)))
        queue st)
     (fun o w' =>
        exists st', o = Ok st'
          /\ loopProcessed st' = Z.of_nat (length (done ++ queue))
          /\ emailCounters jobId total (loopSent st') (loopProcessed st' - loopSent st') w') w.
Proof.
  intros done st w Hdone Hw.
  eapply wp_mono.
  - refine (foldM_inv _ (fun done st w =>
             loopProcessed st = Z.of_nat (length done)
             /\ emailCounters jobId total (loopSent st) (loopProcessed st - loopSent st) w)
             _ queue done st w (conj Hdone Hw)).
    clear. intros done st item w [Hdone Hw]. unfold smtpSendOne.
    assert (Hlen : forall z, z = Z.of_nat (length done) ->
                             (z + 1)%Z = Z.of_nat (length (done ++ [item]))).
    { intros z ->. rewrite length_app. simpl. lia. }
    destruct (normalizeEmailAttachments item) as [| att atts].
    + unfold reportProgress. wp_step.
      eapply wp_mono; [apply sendProgress_counters |].
      intros o w1 [-> Hw1]. wp_step. eexists. split; [reflexivity |].
      cbn [loopProcessed loopSent progressTotal progressSent progressFailed] in *.
      split; [now apply Hlen | exact Hw1].
    + wp_step. apply wp_handToTransport. wp_steps.
      destruct (sendMail caps _ _) as [msg |]; unfold reportProgress; wp_steps.
      * eapply wp_mono; [apply sendProgress_counters |].
        intros o w1 [-> Hw1]. wp_step. eexists. split; [reflexivity |].
        cbn [loopProcessed loopSent progressTotal progressSent progressFailed] in *.
        split; [now apply Hlen | exact Hw1].
      * eapply wp_mono; [apply sendProgress_counters |].
        intros o w1 [-> Hw1]. wp_step. eexists. split; [reflexivity |].
        cbn [loopProcessed loopSent progressTotal progressSent progressFailed] in *.
        split; [now apply Hlen | exact Hw1].
  - intros o w' (st' & -> & H1 & H2). now exists st'.
Qed.

Lemma counters_change total sent0 failed0 sent failed f w :
  (forall job, Job.emailTotal (f job) = Job.emailTotal job
               /\ Job.emailSent (f job) = sent /\ Job.emailFailed (f job) = failed) ->
  emailCounters jobId total sent0 failed0 w ->
  emailCounters jobId total sent failed (alterJob jobId f w).
Proof.
  intros Hf Hw job Hjob. simpl in Hjob. rewrite lookup_alter_eq in Hjob.
  destruct (jobs w !! jobId) as [j |] eqn:Hj; [| discriminate]. injection Hjob as <-.
  destruct (Hf j) as (-> & -> & ->). destruct (Hw j Hj) as (-> & _ & _). now repeat split.
Qed.

Variable input : GenerateInput.

(** The counters of a send job that is done, against the summary it
    keeps. *)
Lemma runSendJob_counters w :
  wp (runSendJob caps jobId input)
     (fun o w' =>
        forall s, o = Ok (Settled (Some s)) ->
        exists total,
          (0 < total)%Z
          /\ match viaOutlook input, buildSmtpOptions caps (smtpConfig input) with
             | false, None =>
                 emailCounters jobId total 0 0 w' /\ sent s = 0%Z /\ failed s = total
             | false, Some _ =>
                 emailCounters jobId total (sent s) (failed s) w'
                 /\ (sent s + failed s = total)%Z
             | true, _ =>
                 emailCounters jobId total (sent s) (failed s) w'
             end) w.
Proof.
  unfold runSendJob. wp_steps. unfold touch at 1. wp_steps.
  eapply wp_mono; [apply wp_any |]. intros [[st | st] | msg] w2 _.
  2:{ wp_step. discriminate. }
  2:{ wp_steps. unfold touch. wp_steps. discriminate. }
  destruct (map snd (sendQueue st)) as [| item queue] eqn:Hq.
  { wp_steps. unfold touch. wp_steps. discriminate. }
  set (total := Z.of_nat (length (item :: queue))).
  assert (Hpos : (0 < total)%Z) by (unfold total; simpl; lia).
  wp_steps. apply (touch_counters total 0 0).
  { apply counters_set. intros job. repeat split. }
  intros w3 Hw3. apply wp_bind_eq. intros [[|] | msg] w3' Hwait;
    [wp_step; discriminate | | discriminate].
  assert (Hw3' : emailCounters jobId total 0 0 w3').
  { unfold waitIfPaused in Hwait. destruct (jobs w3 !! jobId) as [j |].
    - destruct (Job.paused j); [discriminate |]. now injection Hwait as <-.
    - now injection Hwait as <-. }
  clear Hw3 Hwait. rename Hw3' into Hw3. revert Hw3. generalize w3'. clear w3 w3'.
  intros w3 Hw3.
  wp_step. fold (viaOutlook input).
  destruct (viaOutlook input) eqn:Hmode.
  - eapply wp_bind_post; [apply sendEmailsOutlook_throws |].
    intros [r | msg] w4 [Hj4 _].
    + wp_steps. apply (touch_counters total (sent r) (failed r)).
      { eapply counters_change; [| eapply counters_jobs; [exact Hj4 | exact Hw3]].
        intros job. repeat split. }
      intros w5 Hw5. wp_steps. apply (touch_counters total (sent r) (failed r)).
      { apply counters_keep; [| exact Hw5]. intros job. repeat split. }
      intros w6 Hw6. wp_step. intros s [= <-]. exists total. split; [exact Hpos |].
      exact Hw6.
    + wp_steps. unfold touch. wp_steps. discriminate.
  - unfold sendEmailsSmtp. destruct (buildSmtpOptions caps (smtpConfig input)) as [options |].
    + wp_step. eapply wp_mono.
      { apply (smtp_loop_counters options _ _ total (item :: queue) []
                 {| loopSent := 0; loopProcessed := 0; loopErrors := []; loopResults := [] |}
                 w3 eq_refl).
        exact Hw3. }
      intros o w4 (st' & -> & Hdone & Hw4). wp_step. cbv beta iota. wp_steps.
      apply (touch_counters total (loopSent st') (total - loopSent st')).
      { apply counters_keep; [intros job; repeat split |].
        rewrite Hdone in Hw4. exact Hw4. }
      intros w6 Hw6. wp_step. intros s [= <-]. exists total. split; [exact Hpos |].
      cbn [sendSummary sent failed]. split; [exact Hw6 | unfold total; simpl length; lia].
    + wp_steps. cbv beta iota. wp_steps. apply (touch_counters total 0 0).
      { apply counters_keep; [intros job; repeat split |].
        eapply counters_jobs; [| exact Hw3]. reflexivity. }
      intros w6 Hw6. wp_step. intros s [= <-]. exists total. split; [exact Hpos |].
      cbn [sendSummary sent failed]. split; [exact Hw6 | split; reflexivity].
Qed.

End SendCounters.

(** X29. The counters of a send job that is done, as the status route
    reports them, against the summary of the dispatch the job keeps.  The
    total is the number of recipients queued, which is not zero.  After an
    Outlook dispatch the counters of sent and failed messages are those of
    the summary.  After an SMTP dispatch with settings they are those of
    the summary too, and add up to the total.  After an SMTP dispatch
    without host, user or password, the summary counts every recipient as
    failed, but the counters of the job say that none was sent and none
    failed. *)
Theorem X29_send_job_counters_against_its_summary
    (caps : Capabilities) (jobId : string) (input : GenerateInput) (w : World)
    (job : Job.t) (s : SendResult) :
  jobs w !! jobId = Some job ->
  fst (runSendJob caps jobId input w) = Ok (Settled (Some s)) ->
  exists job',
    jobs (snd (runSendJob caps jobId input w)) !! jobId = Some job'
    /\ (0 < Job.emailTotal job')%Z
    /\ match viaOutlook input, buildSmtpOptions caps (smtpConfig input) with
       | false, None =>
           Job.emailSent job' = 0%Z /\ Job.emailFailed job' = 0%Z
           /\ sent s = 0%Z /\ failed s = Job.emailTotal job'
       | false, Some _ =>
           Job.emailSent job' = sent s /\ Job.emailFailed job' = failed s
           /\ (sent s + failed s = Job.emailTotal job')%Z
       | true, _ =>
           Job.emailSent job' = sent s /\ Job.emailFailed job' = failed s
       end.
Proof.
  intros Hjob Hrun.
  assert (Hfree : notPaused jobId w \/ rows input = []).
  { destruct (Job.paused job) eqn:Hpaused.
    - destruct (rows input) as [| row rest] eqn:Hr; [now right |]. exfalso.
      destruct (runSendJob_held caps jobId input w job Hjob Hpaused) as [now Hheld].
      + rewrite Hr. discriminate.
      + rewrite Hheld in Hrun. discriminate.
    - left. intros j Hj. rewrite Hjob in Hj. now injection Hj as <-. }
  pose proof (runSendJob_spec caps jobId input w Hfree) as Hspec.
  pose proof (runSendJob_counters caps jobId input w) as Hcount.
  unfold wp in Hspec, Hcount.
  destruct Hspec as (r & _ & (g & _ & Hjobs) & _).
  destruct (Hcount s Hrun) as (total & Hpos & Hcase).
  assert (Hlook : jobs (snd (runSendJob caps jobId input w)) !! jobId = Some (g job)).
  { now rewrite Hjobs, lookup_alter_eq, Hjob. }
  exists (g job). split; [exact Hlook |].
  destruct (viaOutlook input), (buildSmtpOptions caps (smtpConfig input)).
  - destruct (Hcase _ Hlook) as (-> & -> & ->). now repeat split.
  - destruct (Hcase _ Hlook) as (-> & -> & ->). now repeat split.
  - destruct Hcase as [Hc Hsum]. destruct (Hc _ Hlook) as (-> & -> & ->). now repeat split.
  - destruct Hcase as (Hc & Hs & Hf). destruct (Hc _ Hlook) as (-> & -> & ->).
    now repeat split.
Qed.

Lemma X29_witness :
  exists job',
    jobs (snd (runSendJob colonNamesServer "j1" (lettersInput [anaRow; anaUpperRow; ruiRow])
                 startOfSendJob)) !! "j1" = Some job'
    /\ Job.status job' = Done
    /\ Job.emailTotal job' = 1%Z
    /\ Job.emailFailed job' = 0%Z.
Proof.
  destruct (X29_send_job_counters_against_its_summary colonNamesServer "j1"
              (lettersInput [anaRow; anaUpperRow; ruiRow]) startOfSendJob
              (createJob "j1" Send 0)
              {| sent := 0; failed := 1; errors := ["SMTP nao configurado"];
                 results :=
                   Some [{| resultTo := "ana@example.com";
                            resultFilename := "a_b.pdf, a_b_2.pdf";
                            resultStatus := "failed";
                            resultError := "SMTP nao configurado" |}] |}
              eq_refl)
    as (job' & Hjob & _ & Hcase).
  - vm_compute. reflexivity.
  - exists job'. split; [exact Hjob |].
    change (viaOutlook (lettersInput [anaRow; anaUpperRow; ruiRow])) with false in Hcase.
    change (buildSmtpOptions colonNamesServer
              (smtpConfig (lettersInput [anaRow; anaUpperRow; ruiRow])))
      with (@None SmtpOptions) in Hcase.
    destruct Hcase as (_ & Hfailed & _ & Htotal). cbn [failed] in Htotal.
    split; [| split; [now rewrite <- Htotal | exact Hfailed]].
    vm_compute in Hjob. injection Hjob as <-. reflexivity.
Defined.
